(** * Verification of the Halide Vulkan back end: SPIR-V builder, shader
      emitter and intrinsic lowering / recognition.

    The development embeds the parts of [SpirvIR.cpp],
    [CodeGen_Vulkan_Dev.cpp] and [FindIntrinsics.cpp] that the specification
    talks about, and proves (or refutes) the specification's statements on
    those embeddings. *)

From Stdlib Require Import ZArith Lia Bool.
From stdpp Require Import gmap list strings.

Local Open Scope Z_scope.

(** ** Errors and the builder monad

    [internal_error]/[internal_assert] and [user_error]/[user_assert] abort
    the compilation unit; a computation therefore either returns a value or
    stops with one of the two error kinds. [UndefinedBehavior] marks the
    places where the C++ has no defined result ([back()] or [front()] of an
    empty vector), [OutOfFuel] the end of the fuel of a definition whose
    recursion is not structural. *)

Inductive result (A : Type) : Type :=
| Ok (a : A)
| InternalError
| UserError
| UndefinedBehavior
| OutOfFuel.
Arguments Ok {A} a.
Arguments InternalError {A}.
Arguments UserError {A}.
Arguments UndefinedBehavior {A}.
Arguments OutOfFuel {A}.

Definition M (S A : Type) : Type := S -> result (A * S).

Definition ret {S A : Type} (a : A) : M S A := fun s => Ok (a, s).

Definition bind {S A B : Type} (m : M S A) (k : A -> M S B) : M S B :=
  fun s => match m s with
           | Ok (a, s') => k a s'
           | InternalError => InternalError
           | UserError => UserError
           | UndefinedBehavior => UndefinedBehavior
           | OutOfFuel => OutOfFuel
           end.

(** Sequencing of computations without state. *)
Definition rbind {A B : Type} (r : result A) (k : A -> result B) : result B :=
  match r with
  | Ok a => k a
  | InternalError => InternalError
  | UserError => UserError
  | UndefinedBehavior => UndefinedBehavior
  | OutOfFuel => OutOfFuel
  end.

Definition get {S : Type} : M S S := fun s => Ok (s, s).
Definition put {S : Type} (s : S) : M S unit := fun _ => Ok (tt, s).
Definition modify {S : Type} (f : S -> S) : M S unit := fun s => Ok (tt, f s).
Definition internal_error {S A : Type} : M S A := fun _ => InternalError.
Definition user_error {S A : Type} : M S A := fun _ => UserError.
Definition undefined_behavior {S A : Type} : M S A := fun _ => UndefinedBehavior.

Notation "'do' x <- m ; k" := (bind m (fun x => k))
  (at level 10, x pattern, m at level 100, k at level 200).
Notation "m ;; k" := (bind m (fun _ => k))
  (at level 100, k at level 200, right associativity).
Notation "'try' x <- r ; k" := (rbind r (fun x => k))
  (at level 10, x pattern, r at level 100, k at level 200).

(** ** Machine integers *)

Definition wrap_unsigned (w : Z) (z : Z) : Z := z mod 2 ^ w.

Definition wrap_signed (w : Z) (z : Z) : Z :=
  (z + 2 ^ (w - 1)) mod 2 ^ w - 2 ^ (w - 1).

Definition uint32 (z : Z) : Z := wrap_unsigned 32 z.
Definition uint64 (z : Z) : Z := wrap_unsigned 64 z.
Definition int32 (z : Z) : Z := wrap_signed 32 z.

(** ** Halide types *)

Module HalideType.

(** [halide_type_code_t] of HalideRuntime.h. *)
Inductive halide_type_code_t : Set :=
| halide_type_int
| halide_type_uint
| halide_type_float
| halide_type_handle
| halide_type_bfloat.

#[global] Instance halide_type_code_eq_dec : EqDecision halide_type_code_t.
Proof. solve_decision. Defined.

Definition code_value (c : halide_type_code_t) : Z :=
  match c with
  | halide_type_int => 0
  | halide_type_uint => 1
  | halide_type_float => 2
  | halide_type_handle => 3
  | halide_type_bfloat => 4
  end.

(** Modelled from the spec: a [Type] is [(code, bits, lanes)]; Type.h is not
    part of the sources. [narrow] halves [bits], [widen] doubles [bits]. *)
Record Type_ : Set := mkType { code : halide_type_code_t; bits : Z; lanes : Z }.

#[global] Instance Type_eq_dec : EqDecision Type_.
Proof. solve_decision. Defined.

Definition Int (b : Z) (l : Z) : Type_ := mkType halide_type_int b l.
Definition UInt (b : Z) (l : Z) : Type_ := mkType halide_type_uint b l.
Definition Float (b : Z) (l : Z) : Type_ := mkType halide_type_float b l.
Definition Bool_ (l : Z) : Type_ := mkType halide_type_uint 1 l.
Definition Handle : Type_ := mkType halide_type_handle 64 1.

Definition narrow (t : Type_) : Type_ := mkType (code t) (bits t / 2) (lanes t).
Definition widen (t : Type_) : Type_ := mkType (code t) (bits t * 2) (lanes t).
Definition with_code (t : Type_) (c : halide_type_code_t) : Type_ :=
  mkType c (bits t) (lanes t).
Definition with_lanes (t : Type_) (l : Z) : Type_ := mkType (code t) (bits t) l.
Definition with_bits (t : Type_) (b : Z) : Type_ := mkType (code t) b (lanes t).
Definition element_of (t : Type_) : Type_ := with_lanes t 1.

Definition is_int (t : Type_) : bool := bool_decide (code t = halide_type_int).
Definition is_uint (t : Type_) : bool := bool_decide (code t = halide_type_uint).
Definition is_float (t : Type_) : bool :=
  bool_decide (code t = halide_type_float) || bool_decide (code t = halide_type_bfloat).
Definition is_handle (t : Type_) : bool := bool_decide (code t = halide_type_handle).
Definition is_bool (t : Type_) : bool := is_uint t && (bits t =? 1).
Definition is_int_or_uint (t : Type_) : bool := is_int t || is_uint t.
Definition is_vector (t : Type_) : bool := 1 <? lanes t.
Definition is_scalar (t : Type_) : bool := lanes t =? 1.

(** Modelled from the spec: [bytes = ceil(bits*lanes/8)]. *)
Definition bytes (t : Type_) : Z := (bits t * lanes t + 7) / 8.

End HalideType.
Export HalideType.

(** ** The SPIR-V intermediate representation (SpirvIR.cpp) *)

Module Spirv.

Definition SpvId : Set := Z.

(** Values of SpirvIR.h, which is not part of the sources. *)
Definition SpvNoResult : SpvId := 0.
Definition SpvNoType : SpvId := 0.

Inductive SpvKind : Set :=
| SpvInvalidItem | SpvTypeId | SpvVoidTypeId | SpvBoolTypeId | SpvIntTypeId
| SpvFloatTypeId | SpvVectorTypeId | SpvArrayTypeId | SpvRuntimeArrayTypeId
| SpvStringTypeId | SpvPointerTypeId | SpvStructTypeId | SpvFunctionTypeId
| SpvAccessChainId | SpvConstantId | SpvBoolConstantId | SpvIntConstantId
| SpvFloatConstantId | SpvStringConstantId | SpvCompositeConstantId
| SpvResultId | SpvVariableId | SpvInstructionId | SpvFunctionId | SpvBlockId
| SpvLabelId | SpvParameterId | SpvModuleId | SpvUnknownItem.

#[global] Instance SpvKind_eq_dec : EqDecision SpvKind.
Proof. solve_decision. Defined.

(** The opcodes the modelled code emits (spirv.h). *)
Inductive SpvOp : Set :=
| SpvOpNop | SpvOpLabel | SpvOpTypeVoid | SpvOpTypeBool | SpvOpTypeInt
| SpvOpTypeFloat | SpvOpTypeVector | SpvOpTypeArray | SpvOpTypePointer
| SpvOpConstant | SpvOpConstantTrue | SpvOpConstantFalse | SpvOpConstantComposite
| SpvOpVariable | SpvOpLoad | SpvOpStore | SpvOpIAdd
| SpvOpSLessThan | SpvOpULessThan | SpvOpSLessThanEqual | SpvOpULessThanEqual
| SpvOpLoopMerge | SpvOpSelectionMerge
| SpvOpBranch | SpvOpBranchConditional | SpvOpSwitch | SpvOpKill
| SpvOpReturn | SpvOpReturnValue | SpvOpUnreachable
| SpvOpFunction | SpvOpFunctionParameter | SpvOpFunctionEnd | SpvOpTypeFunction
| SpvOpCompositeExtract | SpvOpBitcast
| SpvOpOther (n : Z).

#[global] Instance SpvOp_eq_dec : EqDecision SpvOp.
Proof. solve_decision. Defined.

Definition SpvStorageClass : Set := Z.
Definition SpvStorageClassUniform : SpvStorageClass := 2.
Definition SpvStorageClassWorkgroup : SpvStorageClass := 4.
Definition SpvStorageClassFunction : SpvStorageClass := 7.

Definition SpvCapability : Set := Z.
Definition SpvCapabilityKernel : SpvCapability := 6.
Definition SpvCapabilityFloat16 : SpvCapability := 9.
Definition SpvCapabilityFloat64 : SpvCapability := 10.
Definition SpvCapabilityInt64 : SpvCapability := 11.
Definition SpvCapabilityInt16 : SpvCapability := 22.
Definition SpvCapabilityInt8 : SpvCapability := 39.

Definition SpvLoopControlMaskNone : Z := 0.
Definition SpvMemoryAccessMaskNone : Z := 0.

(** Blocks and functions are reference-counted handles in the source; a
    handle is an index into the builder's stores. *)
Definition BlockHandle : Set := nat.
Definition FunctionHandle : Set := nat.

(** [SpvInstructionContents]. *)
Record SpvInstruction : Set := mkInst {
  op_code : SpvOp;
  result_id : SpvId;
  type_id : SpvId;
  operands : list SpvId;
  immediates : list bool;
  block : option BlockHandle
}.

#[global] Instance SpvInstruction_eq_dec : EqDecision SpvInstruction.
Proof. solve_decision. Defined.

Module SpvInst.
Definition make (op : SpvOp) : SpvInstruction :=
  mkInst op SpvNoResult SpvNoType [] [] None.
Definition set_block (b : BlockHandle) (i : SpvInstruction) : SpvInstruction :=
  mkInst (op_code i) (result_id i) (type_id i) (operands i) (immediates i) (Some b).
Definition set_result_id (r : SpvId) (i : SpvInstruction) : SpvInstruction :=
  mkInst (op_code i) r (type_id i) (operands i) (immediates i) (block i).
Definition set_type_id (t : SpvId) (i : SpvInstruction) : SpvInstruction :=
  mkInst (op_code i) (result_id i) t (operands i) (immediates i) (block i).
Definition add_operand (id : SpvId) (i : SpvInstruction) : SpvInstruction :=
  mkInst (op_code i) (result_id i) (type_id i)
         (operands i ++ [id]) (immediates i ++ [false]) (block i).
Definition add_immediate (id : SpvId) (i : SpvInstruction) : SpvInstruction :=
  mkInst (op_code i) (result_id i) (type_id i)
         (operands i ++ [id]) (immediates i ++ [true]) (block i).
Definition has_type (i : SpvInstruction) : bool := negb (type_id i =? SpvNoType).
Definition has_result (i : SpvInstruction) : bool := negb (result_id i =? SpvNoResult).
Definition length (i : SpvInstruction) : Z := Z.of_nat (List.length (operands i)).
End SpvInst.

(** [SpvBlockContents]. *)
Record SpvBlockContents : Set := mkBlock {
  block_id : SpvId;
  parent : option FunctionHandle;
  instructions : list SpvInstruction;
  variables : list SpvInstruction;
  reachable : bool
}.

(** [SpvFunctionContents]. *)
Record SpvFunctionContents : Set := mkFunction {
  function_id : SpvId;
  function_type_id : SpvId;
  return_type_id : SpvId;
  control_mask : Z;
  declaration : SpvInstruction;
  parameters : list SpvInstruction;
  blocks : list BlockHandle
}.

(** [SpvModuleContents], with the sections the modelled code writes. *)
Record SpvModuleContents : Type := mkModule {
  module_id : SpvId;
  binding_count : SpvId;
  capabilities : gset Z;
  extensions : gset string;
  types : list SpvInstruction;
  constants : list SpvInstruction;
  globals : list SpvInstruction;
  debug_symbols : list (SpvId * string);
  functions : list FunctionHandle
}.

(** [SpvBuilder]: its maps, the active id, block and function, the module,
    and the stores that the block and function handles point into. *)
Record SpvBuilder : Type := mkBuilder {
  kind_map : gmap Z SpvKind;
  type_map : gmap Z SpvId;
  constant_map : gmap Z SpvId;
  function_type_map : gmap Z SpvId;
  pointer_type_map : gmap (Z * Z) SpvId;
  base_type_map : gmap Z SpvId;
  storage_class_map : gmap Z SpvStorageClass;
  variable_type_map : gmap Z SpvId;
  scope_map : gmap Z SpvId;
  id_symbol_map : gmap Z string;
  symbol_id_map : gmap string SpvId;
  function_map : gmap Z FunctionHandle;
  active_id : SpvId;
  active_block : option BlockHandle;
  active_function : option FunctionHandle;
  module : SpvModuleContents;
  block_store : list SpvBlockContents;
  function_store : list SpvFunctionContents
}.

(** [SpvInvalidId] and [SpvInvalidStorageClass] are declared in SpirvIR.h,
    which is not part of the sources; the builder is parametric in them. *)
Class SpirvHeader : Set := {
  SpvInvalidId : SpvId;
  SpvInvalidStorageClass : SpvStorageClass
}.

(** *** Field updates *)

Definition upd_kind_map (f : gmap Z SpvKind -> gmap Z SpvKind) (b : SpvBuilder) : SpvBuilder :=
  mkBuilder (f (kind_map b)) (type_map b) (constant_map b) (function_type_map b)
    (pointer_type_map b) (base_type_map b) (storage_class_map b)
    (variable_type_map b) (scope_map b) (id_symbol_map b) (symbol_id_map b)
    (function_map b) (active_id b) (active_block b) (active_function b) (module b)
    (block_store b) (function_store b).
Definition upd_type_map (f : gmap Z SpvId -> gmap Z SpvId) (b : SpvBuilder) : SpvBuilder :=
  mkBuilder (kind_map b) (f (type_map b)) (constant_map b) (function_type_map b)
    (pointer_type_map b) (base_type_map b) (storage_class_map b)
    (variable_type_map b) (scope_map b) (id_symbol_map b) (symbol_id_map b)
    (function_map b) (active_id b) (active_block b) (active_function b) (module b)
    (block_store b) (function_store b).
Definition upd_constant_map (f : gmap Z SpvId -> gmap Z SpvId) (b : SpvBuilder) : SpvBuilder :=
  mkBuilder (kind_map b) (type_map b) (f (constant_map b)) (function_type_map b)
    (pointer_type_map b) (base_type_map b) (storage_class_map b)
    (variable_type_map b) (scope_map b) (id_symbol_map b) (symbol_id_map b)
    (function_map b) (active_id b) (active_block b) (active_function b) (module b)
    (block_store b) (function_store b).
Definition upd_function_type_map (f : gmap Z SpvId -> gmap Z SpvId) (b : SpvBuilder) : SpvBuilder :=
  mkBuilder (kind_map b) (type_map b) (constant_map b) (f (function_type_map b))
    (pointer_type_map b) (base_type_map b) (storage_class_map b)
    (variable_type_map b) (scope_map b) (id_symbol_map b) (symbol_id_map b)
    (function_map b) (active_id b) (active_block b) (active_function b) (module b)
    (block_store b) (function_store b).
Definition upd_pointer_type_map (f : gmap (Z * Z) SpvId -> gmap (Z * Z) SpvId) (b : SpvBuilder) : SpvBuilder :=
  mkBuilder (kind_map b) (type_map b) (constant_map b) (function_type_map b) (f
    (pointer_type_map b)) (base_type_map b) (storage_class_map b)
    (variable_type_map b) (scope_map b) (id_symbol_map b) (symbol_id_map b)
    (function_map b) (active_id b) (active_block b) (active_function b) (module b)
    (block_store b) (function_store b).
Definition upd_base_type_map (f : gmap Z SpvId -> gmap Z SpvId) (b : SpvBuilder) : SpvBuilder :=
  mkBuilder (kind_map b) (type_map b) (constant_map b) (function_type_map b)
    (pointer_type_map b) (f (base_type_map b)) (storage_class_map b)
    (variable_type_map b) (scope_map b) (id_symbol_map b) (symbol_id_map b)
    (function_map b) (active_id b) (active_block b) (active_function b) (module b)
    (block_store b) (function_store b).
Definition upd_storage_class_map (f : gmap Z SpvStorageClass -> gmap Z SpvStorageClass) (b : SpvBuilder) : SpvBuilder :=
  mkBuilder (kind_map b) (type_map b) (constant_map b) (function_type_map b)
    (pointer_type_map b) (base_type_map b) (f (storage_class_map b))
    (variable_type_map b) (scope_map b) (id_symbol_map b) (symbol_id_map b)
    (function_map b) (active_id b) (active_block b) (active_function b) (module b)
    (block_store b) (function_store b).
Definition upd_variable_type_map (f : gmap Z SpvId -> gmap Z SpvId) (b : SpvBuilder) : SpvBuilder :=
  mkBuilder (kind_map b) (type_map b) (constant_map b) (function_type_map b)
    (pointer_type_map b) (base_type_map b) (storage_class_map b) (f
    (variable_type_map b)) (scope_map b) (id_symbol_map b) (symbol_id_map b)
    (function_map b) (active_id b) (active_block b) (active_function b) (module b)
    (block_store b) (function_store b).
Definition upd_scope_map (f : gmap Z SpvId -> gmap Z SpvId) (b : SpvBuilder) : SpvBuilder :=
  mkBuilder (kind_map b) (type_map b) (constant_map b) (function_type_map b)
    (pointer_type_map b) (base_type_map b) (storage_class_map b)
    (variable_type_map b) (f (scope_map b)) (id_symbol_map b) (symbol_id_map b)
    (function_map b) (active_id b) (active_block b) (active_function b) (module b)
    (block_store b) (function_store b).
Definition upd_id_symbol_map (f : gmap Z string -> gmap Z string) (b : SpvBuilder) : SpvBuilder :=
  mkBuilder (kind_map b) (type_map b) (constant_map b) (function_type_map b)
    (pointer_type_map b) (base_type_map b) (storage_class_map b)
    (variable_type_map b) (scope_map b) (f (id_symbol_map b)) (symbol_id_map b)
    (function_map b) (active_id b) (active_block b) (active_function b) (module b)
    (block_store b) (function_store b).
Definition upd_symbol_id_map (f : gmap string SpvId -> gmap string SpvId) (b : SpvBuilder) : SpvBuilder :=
  mkBuilder (kind_map b) (type_map b) (constant_map b) (function_type_map b)
    (pointer_type_map b) (base_type_map b) (storage_class_map b)
    (variable_type_map b) (scope_map b) (id_symbol_map b) (f (symbol_id_map b))
    (function_map b) (active_id b) (active_block b) (active_function b) (module b)
    (block_store b) (function_store b).
Definition upd_function_map (f : gmap Z FunctionHandle -> gmap Z FunctionHandle) (b : SpvBuilder) : SpvBuilder :=
  mkBuilder (kind_map b) (type_map b) (constant_map b) (function_type_map b)
    (pointer_type_map b) (base_type_map b) (storage_class_map b)
    (variable_type_map b) (scope_map b) (id_symbol_map b) (symbol_id_map b) (f
    (function_map b)) (active_id b) (active_block b) (active_function b) (module
    b) (block_store b) (function_store b).
Definition upd_active_id (f : SpvId -> SpvId) (b : SpvBuilder) : SpvBuilder :=
  mkBuilder (kind_map b) (type_map b) (constant_map b) (function_type_map b)
    (pointer_type_map b) (base_type_map b) (storage_class_map b)
    (variable_type_map b) (scope_map b) (id_symbol_map b) (symbol_id_map b)
    (function_map b) (f (active_id b)) (active_block b) (active_function b)
    (module b) (block_store b) (function_store b).
Definition upd_active_block (f : option BlockHandle -> option BlockHandle) (b : SpvBuilder) : SpvBuilder :=
  mkBuilder (kind_map b) (type_map b) (constant_map b) (function_type_map b)
    (pointer_type_map b) (base_type_map b) (storage_class_map b)
    (variable_type_map b) (scope_map b) (id_symbol_map b) (symbol_id_map b)
    (function_map b) (active_id b) (f (active_block b)) (active_function b)
    (module b) (block_store b) (function_store b).
Definition upd_active_function (f : option FunctionHandle -> option FunctionHandle) (b : SpvBuilder) : SpvBuilder :=
  mkBuilder (kind_map b) (type_map b) (constant_map b) (function_type_map b)
    (pointer_type_map b) (base_type_map b) (storage_class_map b)
    (variable_type_map b) (scope_map b) (id_symbol_map b) (symbol_id_map b)
    (function_map b) (active_id b) (active_block b) (f (active_function b))
    (module b) (block_store b) (function_store b).
Definition upd_module (f : SpvModuleContents -> SpvModuleContents) (b : SpvBuilder) : SpvBuilder :=
  mkBuilder (kind_map b) (type_map b) (constant_map b) (function_type_map b)
    (pointer_type_map b) (base_type_map b) (storage_class_map b)
    (variable_type_map b) (scope_map b) (id_symbol_map b) (symbol_id_map b)
    (function_map b) (active_id b) (active_block b) (active_function b) (f (module
    b)) (block_store b) (function_store b).
Definition upd_block_store (f : list SpvBlockContents -> list SpvBlockContents) (b : SpvBuilder) : SpvBuilder :=
  mkBuilder (kind_map b) (type_map b) (constant_map b) (function_type_map b)
    (pointer_type_map b) (base_type_map b) (storage_class_map b)
    (variable_type_map b) (scope_map b) (id_symbol_map b) (symbol_id_map b)
    (function_map b) (active_id b) (active_block b) (active_function b) (module b)
    (f (block_store b)) (function_store b).
Definition upd_function_store (f : list SpvFunctionContents -> list SpvFunctionContents) (b : SpvBuilder) : SpvBuilder :=
  mkBuilder (kind_map b) (type_map b) (constant_map b) (function_type_map b)
    (pointer_type_map b) (base_type_map b) (storage_class_map b)
    (variable_type_map b) (scope_map b) (id_symbol_map b) (symbol_id_map b)
    (function_map b) (active_id b) (active_block b) (active_function b) (module b)
    (block_store b) (f (function_store b)).

(** *** SpvModule *)

Module SpvModule.
Definition make (module_id : SpvId) : SpvModuleContents :=
  mkModule module_id 0 ∅ ∅ [] [] [] [] [].
Definition set_binding_count (val : SpvId) (m : SpvModuleContents) :=
  mkModule (module_id m) val (capabilities m) (extensions m) (types m)
    (constants m) (globals m) (debug_symbols m) (functions m).
Definition add_type (val : SpvInstruction) (m : SpvModuleContents) :=
  mkModule (module_id m) (binding_count m) (capabilities m) (extensions m)
    (types m ++ [val]) (constants m) (globals m) (debug_symbols m) (functions m).
Definition add_constant (val : SpvInstruction) (m : SpvModuleContents) :=
  mkModule (module_id m) (binding_count m) (capabilities m) (extensions m)
    (types m) (constants m ++ [val]) (globals m) (debug_symbols m) (functions m).
Definition add_debug_symbol (id : SpvId) (symbol : string) (m : SpvModuleContents) :=
  mkModule (module_id m) (binding_count m) (capabilities m) (extensions m)
    (types m) (constants m) (globals m) (debug_symbols m ++ [(id, symbol)])
    (functions m).
Definition add_function (val : FunctionHandle) (m : SpvModuleContents) :=
  mkModule (module_id m) (binding_count m) (capabilities m) (extensions m)
    (types m) (constants m) (globals m) (debug_symbols m) (functions m ++ [val]).
Definition is_capability_required (c : SpvCapability) (m : SpvModuleContents) : bool :=
  bool_decide (c ∈ capabilities m).
Definition require_capability (c : SpvCapability) (m : SpvModuleContents) :=
  if bool_decide (c ∈ capabilities m) then m
  else mkModule (module_id m) (binding_count m) ({[c]} ∪ capabilities m)
         (extensions m) (types m) (constants m) (globals m) (debug_symbols m)
         (functions m).
Definition is_extension_required (e : string) (m : SpvModuleContents) : bool :=
  bool_decide (e ∈ extensions m).
Definition require_extension (e : string) (m : SpvModuleContents) :=
  if bool_decide (e ∈ extensions m) then m
  else mkModule (module_id m) (binding_count m) (capabilities m)
         ({[e]} ∪ extensions m) (types m) (constants m) (globals m)
         (debug_symbols m) (functions m).
End SpvModule.

(** *** Factory methods for the instructions the modelled code emits *)

Module SpvFactory.
Import SpvInst.

Definition build (op : SpvOp) (steps : list (SpvInstruction -> SpvInstruction))
  : SpvInstruction := fold_left (fun i f => f i) steps (make op).

Fixpoint le_word (bs : list Z) : Z :=
  match bs with
  | [] => 0
  | b :: r => b + 256 * le_word r
  end.

Fixpoint data_words (n : nat) (bs : list Z) : list Z :=
  match n with
  | O => []
  | S n' => le_word (take 4 bs) :: data_words n' (drop 4 bs)
  end.

(** [SpvInstruction::add_data]: the bytes, four to a little-endian word. *)
Definition add_data (nbytes : Z) (data : list Z) (i : SpvInstruction) : SpvInstruction :=
  fold_left (fun i w => add_immediate w i)
    (data_words (Z.to_nat ((nbytes + 3) / 4)) (take (Z.to_nat nbytes) data)) i.

Definition label (result_id : SpvId) := build SpvOpLabel [set_result_id result_id].
Definition void_type (id : SpvId) := build SpvOpTypeVoid [set_result_id id].
Definition bool_type (id : SpvId) := build SpvOpTypeBool [set_result_id id].
Definition integer_type (id : SpvId) (bits signedness : Z) :=
  build SpvOpTypeInt [set_result_id id; add_immediate bits; add_immediate signedness].
Definition float_type (id : SpvId) (bits : Z) :=
  build SpvOpTypeFloat [set_result_id id; add_immediate bits].
Definition vector_type (id element_type_id : SpvId) (vector_size : Z) :=
  build SpvOpTypeVector
    [set_result_id id; add_operand element_type_id; add_immediate vector_size].
Definition array_type (id element_type_id array_size_id : SpvId) :=
  build SpvOpTypeArray
    [set_result_id id; add_operand element_type_id; add_operand array_size_id].
Definition pointer_type (pointer_type_id : SpvId) (storage_class : SpvStorageClass)
    (base_type_id : SpvId) :=
  build SpvOpTypePointer
    [set_result_id pointer_type_id; add_immediate storage_class; add_operand base_type_id].
Definition function_type (function_type_id return_type_id : SpvId)
    (param_type_ids : list SpvId) :=
  build SpvOpTypeFunction
    ([set_result_id function_type_id; add_operand return_type_id]
       ++ map add_operand param_type_ids).
Definition constant (result_id type_id : SpvId) (nbytes : Z) (data : list Z) :=
  build SpvOpConstant [set_type_id type_id; set_result_id result_id; add_data nbytes data].
Definition bool_constant (result_id type_id : SpvId) (value : bool) :=
  build (if value then SpvOpConstantTrue else SpvOpConstantFalse)
    [set_type_id type_id; set_result_id result_id].
Definition variable `{SpirvHeader} (result_id result_type_id : SpvId)
    (storage_class : Z) (initializer_id : SpvId) :=
  build SpvOpVariable
    ([set_type_id result_type_id; set_result_id result_id; add_immediate storage_class]
       ++ (if initializer_id =? SpvInvalidId then [] else [add_operand initializer_id])).
Definition function (return_type_id func_id : SpvId) (control_mask : Z)
    (func_type_id : SpvId) :=
  build SpvOpFunction
    [set_type_id return_type_id; set_result_id func_id; add_immediate control_mask;
     add_operand func_type_id].
Definition function_parameter (param_type_id param_id : SpvId) :=
  build SpvOpFunctionParameter [set_type_id param_type_id; set_result_id param_id].
Definition binary_op (op : SpvOp) (type_id result_id src_a_id src_b_id : SpvId) :=
  build op [set_type_id type_id; set_result_id result_id; add_operand src_a_id;
            add_operand src_b_id].
Definition integer_add := binary_op SpvOpIAdd.
Definition load (type_id result_id ptr_id : SpvId) (access_mask : Z) :=
  build SpvOpLoad [set_type_id type_id; set_result_id result_id; add_operand ptr_id;
                   add_immediate access_mask].
Definition store (ptr_id obj_id : SpvId) (access_mask : Z) :=
  build SpvOpStore [add_operand ptr_id; add_operand obj_id; add_immediate access_mask].
Definition branch (target_label_id : SpvId) :=
  build SpvOpBranch [add_operand target_label_id].
Definition conditional_branch (condition_label_id true_label_id false_label_id : SpvId)
    (weights : list Z) :=
  build SpvOpBranchConditional
    ([add_operand condition_label_id; add_operand true_label_id;
      add_operand false_label_id] ++ map add_immediate weights).
Definition less_than (type_id result_id src_a_id src_b_id : SpvId) (is_signed : bool) :=
  build (if is_signed then SpvOpSLessThan else SpvOpULessThan)
    [add_operand type_id; add_operand result_id; add_operand src_a_id;
     add_operand src_b_id].
Definition less_than_equal (type_id result_id src_a_id src_b_id : SpvId)
    (is_signed : bool) :=
  build (if is_signed then SpvOpSLessThanEqual else SpvOpULessThanEqual)
    [add_operand type_id; add_operand result_id; add_operand src_a_id;
     add_operand src_b_id].
Definition composite_extract (type_id result_id composite_id : SpvId) (indices : list Z) :=
  build SpvOpCompositeExtract
    ([set_type_id type_id; set_result_id result_id; add_operand composite_id]
       ++ map add_immediate indices).
Definition bitcast (type_id result_id src_id : SpvId) :=
  build SpvOpBitcast [set_type_id type_id; set_result_id result_id; add_operand src_id].
Definition loop_merge (merge_label_id continue_label_id : SpvId)
    (loop_control_mask : Z) :=
  build SpvOpLoopMerge
    [add_operand merge_label_id; add_operand continue_label_id;
     add_immediate loop_control_mask].
End SpvFactory.

(** *** Hash keys of the deduplication maps *)

Definition rotl (n i : Z) : Z :=
  let m := 63 in
  let c := Z.land i m in
  Z.lor (uint64 (Z.shiftl n c)) (Z.shiftr n (Z.land (uint64 (0 - c)) m)).

Definition hash_splitmix64 (x : Z) : Z :=
  let x := uint64 (x + 0x9e3779b97f4a7c15) in
  let x := uint64 (Z.lxor x (Z.shiftr x 30) * 0xbf58476d1ce4e5b9) in
  let x := uint64 (Z.lxor x (Z.shiftr x 27) * 0x94d049bb133111eb) in
  Z.lxor x (Z.shiftr x 31).

Definition hash_combine (seed value : Z) : Z :=
  let r := 64 / 3 in
  Z.lxor (rotl seed r) (hash_splitmix64 value).

Definition make_type_key (type : Type_) (array_size : Z) : Z :=
  let key := hash_splitmix64 (code_value (code type)) in
  let key := hash_combine key (uint64 (bits type)) in
  let key := hash_combine key (uint64 (lanes type)) in
  let key := hash_combine key (uint64 (bytes type)) in
  hash_combine key (uint64 array_size).

(** [data] is the byte sequence behind the [const void *]; the source reads
    it as [int8_t] and converts each byte to [uint64_t]. *)
Definition make_constant_key (type : Type_) (data : list Z) : Z :=
  let key := hash_splitmix64 (code_value (code type)) in
  let key := hash_combine key (uint64 (bits type)) in
  let key := hash_combine key (uint64 (lanes type)) in
  let key := hash_combine key (uint64 (bytes type)) in
  fold_left (fun key byte => hash_combine key (uint64 (wrap_signed 8 byte)))
    (take (Z.to_nat (bytes type)) data) key.

Definition make_function_type_key (return_type_id : SpvId) (param_type_ids : list SpvId)
  : Z :=
  fold_left hash_combine param_type_ids (hash_splitmix64 return_type_id).

Definition make_pointer_type_key (base_type_id : SpvId) (storage_class : SpvStorageClass)
  : Z * Z := (base_type_id, storage_class).

(** Little-endian bytes of a [w]-byte integer. *)
Fixpoint le_bytes (w : nat) (v : Z) : list Z :=
  match w with
  | O => []
  | S w' => v mod 256 :: le_bytes w' (v / 256)
  end.

(** *** SpvBuilder *)

Section Builder.
Context `{SpirvHeader}.

Definition make_id (kind : SpvKind) : M SpvBuilder SpvId := fun b =>
  (* use type-agnostic non-overlapping increasing ids *)
  let item_id := uint32 (Z.of_nat (size (kind_map b)) + 1) in
  Ok (item_id, upd_kind_map (fun m => <[item_id := kind]> m) b).

Definition reserve_id (kind : SpvKind) : M SpvBuilder SpvId := make_id kind.

Definition cleared : SpvBuilder :=
  mkBuilder ∅ ∅ ∅ ∅ ∅ ∅ ∅ ∅ ∅ ∅ ∅ ∅ SpvInvalidId None None (SpvModule.make 0) [] [].

Definition reset : SpvBuilder :=
  match make_id SpvModuleId cleared with
  | Ok (module_id, b) => upd_module (fun _ => SpvModule.make module_id) b
  | _ => cleared
  end.

Definition kind_of (item_id : SpvId) (b : SpvBuilder) : SpvKind :=
  default SpvInvalidItem (kind_map b !! item_id).

Definition type_of (variable_id : SpvId) (b : SpvBuilder) : SpvId :=
  default SpvInvalidId (variable_type_map b !! variable_id).

Definition finalize : M SpvBuilder unit := fun b =>
  let last_id := uint32 (Z.of_nat (size (kind_map b)) + 1) in
  let b := upd_module (SpvModule.set_binding_count last_id) b in
  let b :=
    if SpvModule.is_capability_required SpvCapabilityInt8 (module b)
    then upd_module (SpvModule.require_extension "SPV_KHR_8bit_storage") b else b in
  let b :=
    if SpvModule.is_capability_required SpvCapabilityInt16 (module b)
    then upd_module (SpvModule.require_extension "SPV_KHR_16bit_storage") b else b in
  Ok (tt, b).

Definition require_capability (c : SpvCapability) : M SpvBuilder unit :=
  modify (upd_module (SpvModule.require_capability c)).

Definition module_add_type (inst : SpvInstruction) : M SpvBuilder unit :=
  modify (upd_module (SpvModule.add_type inst)).

Definition module_add_constant (inst : SpvInstruction) : M SpvBuilder unit :=
  modify (upd_module (SpvModule.add_constant inst)).

Definition lookup_type (type : Type_) (array_size : Z) (b : SpvBuilder) : SpvId :=
  default SpvInvalidId (type_map b !! make_type_key type array_size).

(** [add_type] calls itself for the array size type, the element type of
    an array and the element type of a vector; the depth of these calls is
    at most three, which [fuel] bounds. *)
Fixpoint add_type_rec (fuel : nat) (type : Type_) (array_size : Z)
  : M SpvBuilder SpvId :=
  match fuel with
  | O => fun _ => OutOfFuel
  | S fuel =>
    let type_key := make_type_key type array_size in
    do b <- get;
    match type_map b !! type_key with
    | Some id => ret id
    | None =>
      if 1 <? array_size then
        (* first declare the array size as a uint32 constant value *)
        let array_size_type := UInt 32 1 in
        let data := le_bytes 4 array_size in
        let constant_key := make_constant_key array_size_type data in
        do array_size_id <- make_id SpvIntConstantId;
        do array_size_type_id <- add_type_rec fuel array_size_type 1;
        module_add_type (SpvFactory.constant array_size_id array_size_type_id
                           (bytes array_size_type) data) ;;
        modify (upd_constant_map (fun m => <[constant_key := array_size_id]> m)) ;;
        (* declare the array type *)
        do array_type_id <- make_id SpvArrayTypeId;
        do element_type_id <- add_type_rec fuel type 1;
        module_add_type (SpvFactory.array_type array_type_id element_type_id array_size_id) ;;
        modify (upd_type_map (fun m => <[type_key := array_type_id]> m)) ;;
        ret array_type_id
      else
        do type_id <-
          (if is_vector type then
             do type_id <- make_id SpvVectorTypeId;
             do element_type_id <- add_type_rec fuel (with_lanes type 1) 1;
             module_add_type (SpvFactory.vector_type type_id element_type_id (lanes type)) ;;
             ret type_id
           else if is_handle type then
             do type_id <- make_id SpvVoidTypeId;
             module_add_type (SpvFactory.void_type type_id) ;;
             ret type_id
           else if is_bool type then
             do type_id <- make_id SpvBoolTypeId;
             module_add_type (SpvFactory.bool_type type_id) ;;
             ret type_id
           else if is_float type then
             do type_id <- make_id SpvFloatTypeId;
             module_add_type (SpvFactory.float_type type_id (bits type)) ;;
             (if bits type =? 16 then require_capability SpvCapabilityFloat16
              else if bits type =? 64 then require_capability SpvCapabilityFloat64
              else ret tt) ;;
             ret type_id
           else if is_int_or_uint type then
             do b <- get;
             (* kernel execution doesn't track signedness *)
             let signedness_support :=
               negb (SpvModule.is_capability_required SpvCapabilityKernel (module b)) in
             let signedness :=
               if signedness_support then (if is_uint type then 0 else 1) else 0 in
             do type_id <- make_id SpvIntTypeId;
             module_add_type (SpvFactory.integer_type type_id (bits type) signedness) ;;
             (if bits type =? 8 then require_capability SpvCapabilityInt8
              else if bits type =? 16 then require_capability SpvCapabilityInt16
              else if bits type =? 64 then require_capability SpvCapabilityInt64
              else ret tt) ;;
             ret type_id
           else internal_error);
        modify (upd_type_map (fun m => <[type_key := type_id]> m)) ;;
        ret type_id
    end
  end.

Definition add_type (type : Type_) (array_size : Z) : M SpvBuilder SpvId :=
  add_type_rec 3 type array_size.

Definition declare_type (type : Type_) (array_size : Z) : M SpvBuilder SpvId :=
  do b <- get;
  let type_id := lookup_type type array_size b in
  if type_id =? SpvInvalidId then add_type type array_size else ret type_id.

(** [lookup_pointer_type(SpvId, SpvStorageClass)]. *)
Definition lookup_pointer_type_id (base_type_id : SpvId)
    (storage_class : SpvStorageClass) (b : SpvBuilder) : SpvId :=
  default SpvInvalidId
    (pointer_type_map b !! make_pointer_type_key base_type_id storage_class).

(** [lookup_pointer_type(const Type &, SpvStorageClass)]. *)
Definition lookup_pointer_type (type : Type_) (storage_class : SpvStorageClass)
  : M SpvBuilder SpvId :=
  do b <- get;
  let base_type_id := lookup_type type 1 b in
  if base_type_id =? SpvInvalidId then internal_error
  else ret (lookup_pointer_type_id base_type_id storage_class b).

(** [add_pointer_type(SpvId, SpvStorageClass)]. *)
Definition add_pointer_type_id (base_type_id : SpvId)
    (storage_class : SpvStorageClass) : M SpvBuilder SpvId :=
  let key := make_pointer_type_key base_type_id storage_class in
  do b <- get;
  match pointer_type_map b !! key with
  | Some id => ret id
  | None =>
    do pointer_type_id <- make_id SpvPointerTypeId;
    module_add_type (SpvFactory.pointer_type pointer_type_id storage_class base_type_id) ;;
    modify (upd_pointer_type_map (fun m => <[key := pointer_type_id]> m)) ;;
    modify (upd_storage_class_map (fun m => <[pointer_type_id := storage_class]> m)) ;;
    modify (upd_base_type_map (fun m => <[pointer_type_id := base_type_id]> m)) ;;
    ret pointer_type_id
  end.

(** [add_pointer_type(const Type &, SpvStorageClass)]. *)
Definition add_pointer_type (type : Type_) (storage_class : SpvStorageClass)
  : M SpvBuilder SpvId :=
  do base_type_id <- declare_type type 1;
  add_pointer_type_id base_type_id storage_class.

(** [declare_pointer_type(const Type &, SpvStorageClass)]: the call in the
    branch passes [ptr_type_id], an [SpvId], so it resolves to the
    [(SpvId, SpvStorageClass)] overload of [add_pointer_type]. *)
Definition declare_pointer_type (type : Type_) (storage_class : SpvStorageClass)
  : M SpvBuilder SpvId :=
  do ptr_type_id <- lookup_pointer_type type storage_class;
  if ptr_type_id =? SpvInvalidId
  then add_pointer_type_id ptr_type_id storage_class
  else ret ptr_type_id.

(** [declare_pointer_type(SpvId, SpvStorageClass)]. *)
Definition declare_pointer_type_id (type_id : SpvId) (storage_class : SpvStorageClass)
  : M SpvBuilder SpvId :=
  do b <- get;
  let ptr_type_id := lookup_pointer_type_id type_id storage_class b in
  if ptr_type_id =? SpvInvalidId
  then add_pointer_type_id type_id storage_class
  else ret ptr_type_id.

Definition lookup_base_type (pointer_type : SpvId) (b : SpvBuilder) : SpvId :=
  default SpvInvalidId (base_type_map b !! pointer_type).

(** *** SpvBlock *)

Definition block_contents (h : BlockHandle) : M SpvBuilder SpvBlockContents := fun b =>
  match block_store b !! h with
  | Some c => Ok (c, b)
  | None => InternalError
  end.

Definition upd_block (h : BlockHandle) (f : SpvBlockContents -> SpvBlockContents)
  : M SpvBuilder unit :=
  do c <- block_contents h;
  modify (upd_block_store (fun st => <[h := f c]> st)).

Definition SpvBlock_make (func : option FunctionHandle) (block_id : SpvId)
  : M SpvBuilder BlockHandle := fun b =>
  Ok (length (block_store b),
      upd_block_store (fun st => st ++ [mkBlock block_id func [] [] true]) b).

Definition SpvBlock_add_instruction (h : BlockHandle) (inst : SpvInstruction)
  : M SpvBuilder unit :=
  upd_block h (fun c =>
    mkBlock (block_id c) (parent c) (instructions c ++ [SpvInst.set_block h inst])
            (variables c) (reachable c)).

Definition SpvBlock_add_variable (h : BlockHandle) (var : SpvInstruction)
  : M SpvBuilder unit :=
  upd_block h (fun c =>
    mkBlock (block_id c) (parent c) (instructions c)
            (variables c ++ [SpvInst.set_block h var]) (reachable c)).

Definition is_terminator (op : SpvOp) : bool :=
  match op with
  | SpvOpBranch | SpvOpBranchConditional | SpvOpSwitch | SpvOpKill
  | SpvOpReturn | SpvOpReturnValue | SpvOpUnreachable => true
  | _ => false
  end.

(** [contents->instructions.back()] has no defined result on a block
    without instructions. *)
Definition SpvBlock_is_terminated (h : BlockHandle) : M SpvBuilder bool :=
  do c <- block_contents h;
  match last (instructions c) with
  | Some inst => ret (is_terminator (op_code inst))
  | None => undefined_behavior
  end.

Definition SpvBlock_id (h : BlockHandle) : M SpvBuilder SpvId :=
  do c <- block_contents h; ret (block_id c).

(** *** SpvFunction *)

Definition function_contents (h : FunctionHandle) : M SpvBuilder SpvFunctionContents :=
  fun b =>
  match function_store b !! h with
  | Some c => Ok (c, b)
  | None => InternalError
  end.

Definition upd_function (h : FunctionHandle)
    (f : SpvFunctionContents -> SpvFunctionContents) : M SpvBuilder unit :=
  do c <- function_contents h;
  modify (upd_function_store (fun st => <[h := f c]> st)).

Definition push_block (bh : BlockHandle) (c : SpvFunctionContents) : SpvFunctionContents :=
  mkFunction (function_id c) (function_type_id c) (return_type_id c) (control_mask c)
    (declaration c) (parameters c) (blocks c ++ [bh]).

Definition push_parameter (p : SpvInstruction) (c : SpvFunctionContents)
  : SpvFunctionContents :=
  mkFunction (function_id c) (function_type_id c) (return_type_id c) (control_mask c)
    (declaration c) (parameters c ++ [p]) (blocks c).

Definition SpvFunction_make (func_type_id func_id return_type_id : SpvId)
    (control_mask : Z) : M SpvBuilder FunctionHandle := fun b =>
  Ok (length (function_store b),
      upd_function_store (fun st =>
        st ++ [mkFunction func_id func_type_id return_type_id control_mask
                 (SpvFactory.function return_type_id func_id control_mask func_type_id)
                 [] []]) b).

Definition SpvFunction_entry_block (fh : FunctionHandle) : M SpvBuilder BlockHandle :=
  do c <- function_contents fh;
  match head (blocks c) with
  | Some bh => ret bh
  | None => undefined_behavior
  end.

Definition SpvFunction_tail_block (fh : FunctionHandle) : M SpvBuilder BlockHandle :=
  do c <- function_contents fh;
  match last (blocks c) with
  | Some bh => ret bh
  | None => undefined_behavior
  end.

Definition SpvFunction_create_block (fh : FunctionHandle) (block_id : SpvId)
  : M SpvBuilder BlockHandle :=
  do c <- function_contents fh;
  (if bool_decide (blocks c = []) then ret tt
   else
     do last_block <- SpvFunction_tail_block fh;
     do terminated <- SpvBlock_is_terminated last_block;
     if terminated then ret tt
     else SpvBlock_add_instruction last_block (SpvFactory.branch block_id)) ;;
  do block <- SpvBlock_make (Some fh) block_id;
  upd_function fh (push_block block) ;;
  ret block.

Definition SpvFunction_add_block (fh : FunctionHandle) (block : BlockHandle)
  : M SpvBuilder unit :=
  do c <- function_contents fh;
  (if bool_decide (blocks c = []) then ret tt
   else
     do last_block <- SpvFunction_tail_block fh;
     do terminated <- SpvBlock_is_terminated last_block;
     if terminated then ret tt
     else
       do id <- SpvBlock_id block;
       SpvBlock_add_instruction last_block (SpvFactory.branch id)) ;;
  upd_function fh (push_block block).

Definition SpvFunction_add_parameter (fh : FunctionHandle) (param : SpvInstruction)
  : M SpvBuilder unit :=
  upd_function fh (push_parameter param).

(** *** Symbols, variables and functions of the builder *)

Definition lookup_id (symbol : string) (b : SpvBuilder) : SpvId :=
  default SpvInvalidId (symbol_id_map b !! symbol).

Definition lookup_scope (id : SpvId) (b : SpvBuilder) : SpvId :=
  default SpvInvalidId (scope_map b !! id).

Definition lookup_storage_class (id : SpvId) (b : SpvBuilder) : SpvStorageClass :=
  default SpvInvalidStorageClass (storage_class_map b !! id).

Definition add_symbol (symbol : string) (id scope_id : SpvId) : M SpvBuilder unit :=
  modify (upd_symbol_id_map (fun m => <[symbol := id]> m)) ;;
  modify (upd_id_symbol_map (fun m => <[id := symbol]> m)) ;;
  modify (upd_scope_map (fun m => <[id := scope_id]> m)) ;;
  modify (upd_module (SpvModule.add_debug_symbol id symbol)).

Definition declare_symbol (symbol : string) (id scope_id : SpvId) : M SpvBuilder SpvId :=
  do b <- get;
  let existing_id := lookup_id symbol b in
  if negb (existing_id =? SpvInvalidId) && (lookup_scope existing_id b =? scope_id)
  then ret existing_id
  else add_symbol symbol id scope_id ;; ret id.

Definition lookup_variable (name : string) (type_id : SpvId)
    (storage_class : SpvStorageClass) (scope_id : SpvId) (b : SpvBuilder) : SpvId :=
  let existing_id := lookup_id name b in
  if negb (existing_id =? SpvInvalidId)
     && bool_decide (kind_of existing_id b = SpvVariableId)
     && (type_of existing_id b =? type_id)
     && (lookup_storage_class existing_id b =? storage_class)
     && (lookup_scope existing_id b =? scope_id)
  then existing_id else SpvInvalidId.

(** [current_function()] and the accessors behind it check that the
    handle is defined ([user_assert]). *)
Definition current_function : M SpvBuilder FunctionHandle :=
  do b <- get;
  match active_function b with
  | Some fh => ret fh
  | None => user_error
  end.

Definition declare_variable (name : string) (type_id : SpvId)
    (storage_class : SpvStorageClass) (init_id : SpvId) : M SpvBuilder SpvId :=
  do fh <- current_function;
  do entry <- SpvFunction_entry_block fh;
  do block_id <- SpvBlock_id entry;
  do b <- get;
  let existing_id := lookup_variable name type_id storage_class block_id b in
  if negb (existing_id =? SpvInvalidId) then ret existing_id
  else
    do var_id <- reserve_id SpvVariableId;
    SpvBlock_add_variable entry (SpvFactory.variable var_id type_id storage_class init_id) ;;
    declare_symbol name var_id block_id ;;
    modify (upd_storage_class_map (fun m => <[var_id := storage_class]> m)) ;;
    modify (upd_variable_type_map (fun m => <[var_id := type_id]> m)) ;;
    ret var_id.

Definition lookup_function_type (return_type_id : SpvId) (param_type_ids : list SpvId)
    (b : SpvBuilder) : SpvId :=
  default SpvInvalidId
    (function_type_map b !! make_function_type_key return_type_id param_type_ids).

Definition add_function_type (return_type_id : SpvId) (param_type_ids : list SpvId)
  : M SpvBuilder SpvId :=
  let func_type_key := make_function_type_key return_type_id param_type_ids in
  do b <- get;
  match function_type_map b !! func_type_key with
  | Some id => ret id
  | None =>
    do function_type_id <- make_id SpvFunctionTypeId;
    module_add_type (SpvFactory.function_type function_type_id return_type_id
                       param_type_ids) ;;
    modify (upd_function_type_map (fun m => <[func_type_key := function_type_id]> m)) ;;
    ret function_type_id
  end.

Definition declare_function_type (return_type : SpvId) (param_types : list SpvId)
  : M SpvBuilder SpvId :=
  do b <- get;
  let type_id := lookup_function_type return_type param_types b in
  if type_id =? SpvInvalidId then add_function_type return_type param_types
  else ret type_id.

Fixpoint add_parameters (fh : FunctionHandle) (param_types : list SpvId)
  : M SpvBuilder unit :=
  match param_types with
  | [] => ret tt
  | param_type_id :: rest =>
    do param_id <- make_id SpvParameterId;
    SpvFunction_add_parameter fh (SpvFactory.function_parameter param_type_id param_id) ;;
    add_parameters fh rest
  end.

Definition add_function (name : string) (return_type_id : SpvId)
    (param_types : list SpvId) : M SpvBuilder SpvId :=
  do func_id <- make_id SpvFunctionId;
  do func_type_id <- declare_function_type return_type_id param_types;
  do func <- SpvFunction_make func_type_id func_id return_type_id 0;
  add_parameters func param_types ;;
  do block_id <- make_id SpvBlockId;
  do entry_block <- SpvBlock_make (Some func) block_id;
  SpvFunction_add_block func entry_block ;;
  modify (upd_module (SpvModule.add_function func)) ;;
  modify (upd_function_map (fun m => <[func_id := func]> m)) ;;
  do b <- get;
  declare_symbol name func_id (module_id (module b)) ;;
  ret func_id.

Definition enter_block (block : BlockHandle) : M SpvBuilder unit :=
  modify (upd_active_block (fun _ => Some block)).

Definition create_block (block_id : SpvId) : M SpvBuilder BlockHandle :=
  do fh <- current_function;
  SpvFunction_create_block fh block_id.

Definition leave_block : M SpvBuilder (option BlockHandle) :=
  do b <- get;
  modify (upd_active_block (fun _ => None)) ;;
  ret (active_block b).

Definition enter_function (func : FunctionHandle) : M SpvBuilder unit :=
  modify (upd_active_function (fun _ => Some func)) ;;
  do entry <- SpvFunction_entry_block func;
  enter_block entry.

Definition current_id : M SpvBuilder SpvId :=
  do b <- get; ret (active_id b).

Definition update_id (id : SpvId) : M SpvBuilder unit :=
  modify (upd_active_id (fun _ => id)).

Definition append (inst : SpvInstruction) : M SpvBuilder unit :=
  do b <- get;
  match active_block b with
  | Some h => SpvBlock_add_instruction h inst
  | None => internal_error
  end.

(** *** Constants *)

Definition lookup_constant (type : Type_) (data : list Z) (b : SpvBuilder) : SpvId :=
  default SpvInvalidId (constant_map b !! make_constant_key type data).

Definition declare_bool_constant (value : bool) : M SpvBuilder SpvId :=
  let key := make_constant_key (Bool_ 1) [Z.b2z value] in
  do b <- get;
  match constant_map b !! key with
  | Some id => ret id
  | None =>
    do result_id <- make_id SpvBoolConstantId;
    do type_id <- add_type (Bool_ 1) 1;
    module_add_constant (SpvFactory.bool_constant result_id type_id value) ;;
    modify (upd_constant_map (fun m => <[key := result_id]> m)) ;;
    ret result_id
  end.

Definition declare_scalar_constant (scalar_type : Type_) (data : list Z)
  : M SpvBuilder SpvId :=
  if negb (lanes scalar_type =? 1) then internal_error
  else
    let constant_key := make_constant_key scalar_type data in
    do b <- get;
    match constant_map b !! constant_key with
    | Some id => ret id
    | None =>
      if is_bool scalar_type then
        declare_bool_constant (negb (default 0 (head data) =? 0))
      else
        do result_id <-
          (if is_float scalar_type then make_id SpvFloatConstantId
           else if is_int_or_uint scalar_type then make_id SpvIntConstantId
           else internal_error);
        do type_id <- add_type scalar_type 1;
        module_add_constant
          (SpvFactory.constant result_id type_id (bytes scalar_type) data) ;;
        modify (upd_constant_map (fun m => <[constant_key := result_id]> m)) ;;
        ret result_id
    end.

(** The vector path of [add_constant], [declare_vector_constant], is not
    modelled: the modelled callers pass scalars only. *)
Variable declare_vector_constant : Type_ -> list Z -> M SpvBuilder SpvId.

Definition add_constant (type : Type_) (data : list Z) : M SpvBuilder SpvId :=
  let key := make_constant_key type data in
  do b <- get;
  match constant_map b !! key with
  | Some id => ret id
  | None =>
    if lanes type =? 1 then declare_scalar_constant type data
    else declare_vector_constant type data
  end.

Definition declare_constant (type : Type_) (data : list Z) : M SpvBuilder SpvId :=
  do b <- get;
  let result_id := lookup_constant type data b in
  if result_id =? SpvInvalidId then add_constant type data else ret result_id.

End Builder.

End Spirv.

(** ** The expression IR (IR.h, IROperator.h)

    The headers are not part of the sources; the nodes below are the ones
    the modelled code constructs or inspects. *)

Module IR.

(** [Call::IntrinsicOp], restricted to the intrinsics that FindIntrinsics.cpp
    and the shader emitter mention. *)
Inductive IntrinsicOp : Set :=
| abs | absd | bitwise_and | bitwise_not | bitwise_or | bitwise_xor
| div_round_to_zero | mod_round_to_zero | gpu_thread_barrier | if_then_else
| return_second | round | strict_float
| shift_left | shift_right
| halving_add | halving_sub | rounding_halving_add
| mul_shift_right | rounding_mul_shift_right
| rounding_shift_left | rounding_shift_right
| saturating_add | saturating_sub | saturating_cast
| sorted_avg
| widen_right_add | widen_right_mul | widen_right_sub
| widening_add | widening_mul | widening_sub
| widening_shift_left | widening_shift_right.

#[global] Instance IntrinsicOp_eq_dec : EqDecision IntrinsicOp.
Proof. solve_decision. Defined.

(** The name of a [Call]: an intrinsic, or a function called by name. *)
Inductive CallName : Set :=
| Intrinsic (op : IntrinsicOp)
| Extern (name : string).

#[global] Instance CallName_eq_dec : EqDecision CallName.
Proof. solve_decision. Defined.

(** The floating-point immediates the modelled code builds are the bounds of
    a float type. *)
Inductive FloatValue : Set :=
| float_lowest
| float_highest.

#[warnings="-register-all"] Inductive Expr : Set :=
| IntImm (t : Type_) (value : Z)
| UIntImm (t : Type_) (value : Z)
| Variable_ (t : Type_) (name : string)
| Cast (t : Type_) (value : Expr)
| Reinterpret (t : Type_) (value : Expr)
| Add (a b : Expr)
| Sub (a b : Expr)
| Mul (a b : Expr)
| Div (a b : Expr)
| Mod (a b : Expr)
| Min (a b : Expr)
| Max (a b : Expr)
| EQ (a b : Expr)
| NE (a b : Expr)
| LT (a b : Expr)
| LE (a b : Expr)
| GT (a b : Expr)
| GE (a b : Expr)
| Select (condition true_value false_value : Expr)
| Broadcast (value : Expr) (lanes : Z)
| VectorReduce (t : Type_) (value : Expr)
| Call (t : Type_) (name : CallName) (args : list Expr)
| Let_ (name : string) (value body : Expr)
| FloatImm (t : Type_) (value : FloatValue).

(** [Expr::type()]. *)
Fixpoint type_of (e : Expr) : Type_ :=
  match e with
  | IntImm t _ | UIntImm t _ | Variable_ t _ | Cast t _ | Reinterpret t _
  | VectorReduce t _ | Call t _ _ | FloatImm t _ => t
  | Add a _ | Sub a _ | Mul a _ | Div a _ | Mod a _ | Min a _ | Max a _ => type_of a
  | EQ a _ | NE a _ | LT a _ | LE a _ | GT a _ | GE a _ =>
      Bool_ (HalideType.lanes (type_of a))
  | Select _ t _ => type_of t
  | Broadcast v l => with_lanes (type_of v) l
  | Let_ _ _ body => type_of body
  end.

(** [Call::is_intrinsic(op)] and [Call::as_intrinsic(e, {ops})]. *)
Definition is_intrinsic (e : Expr) (op : IntrinsicOp) : bool :=
  match e with
  | Call _ (Intrinsic op') _ => bool_decide (op' = op)
  | _ => false
  end.

Definition as_intrinsic (e : Expr) (ops : list IntrinsicOp) : bool :=
  existsb (is_intrinsic e) ops.

Definition call_args (e : Expr) : list Expr :=
  match e with
  | Call _ _ args => args
  | _ => []
  end.

(** *** Constants ([make_const], [make_zero], [make_one], [is_const]) *)

Definition make_const (t : Type_) (v : Z) : Expr :=
  let scalar := if is_uint t then UIntImm (element_of t) v else IntImm (element_of t) v in
  if is_vector t then Broadcast scalar (HalideType.lanes t) else scalar.

Definition make_zero (t : Type_) : Expr := make_const t 0.
Definition make_one (t : Type_) : Expr := make_const t 1.

Fixpoint as_const (e : Expr) : option Z :=
  match e with
  | IntImm _ v | UIntImm _ v => Some v
  | Broadcast v _ => as_const v
  | _ => None
  end.

Definition is_const (e : Expr) : bool :=
  match as_const e with Some _ => true | None => false end.
Definition is_const_value (e : Expr) (v : Z) : bool :=
  match as_const e with Some v' => v' =? v | None => false end.
Definition is_positive_const (e : Expr) : bool :=
  match as_const e with Some v => 0 <? v | None => false end.
Definition is_const_zero (e : Expr) : bool := is_const_value e 0.

(** [Type::min()] and [Type::max()]: the values for integer types, and the
    bound expressions. *)
Definition type_min (t : Type_) : Z :=
  if is_int t then - 2 ^ (bits t - 1) else 0.
Definition type_max (t : Type_) : Z :=
  if is_int t then 2 ^ (bits t - 1) - 1 else 2 ^ bits t - 1.
Definition min_of (t : Type_) : Expr :=
  if is_float t then FloatImm t float_lowest else make_const t (type_min t).
Definition max_of (t : Type_) : Expr :=
  if is_float t then FloatImm t float_highest else make_const t (type_max t).

(** *** Operators of IROperator.h

    Modelled from the spec: the operators build the node of the same name
    over operands that already have matching types; shifts and bitwise
    operators are intrinsic calls of the type of their first operand. *)

Definition wrap (t : Type_) (z : Z) : Z :=
  if is_int t then wrap_signed (bits t) z
  else if is_uint t then wrap_unsigned (bits t) z
  else z.

(** [cast(Type, Expr)] returns its argument when the type is already right,
    folds integer constants (with wrap-around in the new type), and
    otherwise builds the [Cast] node. *)
Definition cast (t : Type_) (a : Expr) : Expr :=
  if bool_decide (type_of a = t) then a
  else match as_const a with
       | Some v => make_const t (wrap t v)
       | None => Cast t a
       end.

Definition reinterpret (t : Type_) (a : Expr) : Expr := Reinterpret t a.

(** [Type::can_represent(Type)]. *)
Definition can_represent (t other : Type_) : bool :=
  if negb (HalideType.lanes t =? HalideType.lanes other) then false
  else if is_int t then
    (is_int other && (bits other <=? bits t)) || (is_uint other && (bits other <? bits t))
  else if is_uint t then is_uint other && (bits other <=? bits t)
  else if is_float t then
    (is_float other && (bits other <=? bits t))
    || ((bits t =? 64) && (bits other <=? 32))
    || ((bits t =? 32) && (bits other <=? 16))
  else false.

Definition intrin2 (op : IntrinsicOp) (t : Type_) (a b : Expr) : Expr :=
  Call t (Intrinsic op) [a; b].

Definition shl (a b : Expr) : Expr := intrin2 shift_left (type_of a) a b.
Definition shr (a b : Expr) : Expr := intrin2 shift_right (type_of a) a b.
Definition band (a b : Expr) : Expr := intrin2 bitwise_and (type_of a) a b.
Definition bxor (a b : Expr) : Expr := intrin2 bitwise_xor (type_of a) a b.
Definition bnot (a : Expr) : Expr := Call (type_of a) (Intrinsic bitwise_not) [a].
Definition clamp (a lo hi : Expr) : Expr := Max (Min a hi) lo.
Definition select (c t f : Expr) : Expr := Select c t f.

(** An integer literal used next to an expression takes the type of the
    expression. *)
Definition lit (like : Expr) (v : Z) : Expr := make_const (type_of like) v.

(** *** Constructors of the higher-order intrinsics

    Modelled from the spec: every intrinsic has a fixed arity and a declared
    result type; [widening_{add,sub,mul}(x,y)] has type [x.type.widen()],
    [widen_right_*] the type of [x], the rounding, halving and saturating
    operations the type of [x], [saturating_cast(T, x)] the type [T], and
    [absd] the unsigned type of the same width. *)

Definition mk_widening_add (a b : Expr) := intrin2 widening_add (widen (type_of a)) a b.
Definition mk_widening_sub (a b : Expr) := intrin2 widening_sub (widen (type_of a)) a b.
Definition mk_widening_mul (a b : Expr) := intrin2 widening_mul (widen (type_of a)) a b.
Definition mk_widen_right_add (a b : Expr) := intrin2 widen_right_add (type_of a) a b.
Definition mk_widen_right_sub (a b : Expr) := intrin2 widen_right_sub (type_of a) a b.
Definition mk_widen_right_mul (a b : Expr) := intrin2 widen_right_mul (type_of a) a b.
Definition mk_widening_shift_left (a b : Expr) :=
  intrin2 widening_shift_left (widen (type_of a)) a b.
Definition mk_widening_shift_right (a b : Expr) :=
  intrin2 widening_shift_right (widen (type_of a)) a b.
Definition mk_rounding_shift_left (a b : Expr) := intrin2 rounding_shift_left (type_of a) a b.
Definition mk_rounding_shift_right (a b : Expr) :=
  intrin2 rounding_shift_right (type_of a) a b.
Definition mk_saturating_add (a b : Expr) := intrin2 saturating_add (type_of a) a b.
Definition mk_saturating_sub (a b : Expr) := intrin2 saturating_sub (type_of a) a b.
Definition mk_saturating_cast (t : Type_) (a : Expr) :=
  Call t (Intrinsic saturating_cast) [a].
Definition mk_halving_add (a b : Expr) := intrin2 halving_add (type_of a) a b.
Definition mk_halving_sub (a b : Expr) := intrin2 halving_sub (type_of a) a b.
Definition mk_rounding_halving_add (a b : Expr) :=
  intrin2 rounding_halving_add (type_of a) a b.
Definition mk_mul_shift_right (a b q : Expr) :=
  Call (type_of a) (Intrinsic mul_shift_right) [a; b; q].
Definition mk_rounding_mul_shift_right (a b q : Expr) :=
  Call (type_of a) (Intrinsic rounding_mul_shift_right) [a; b; q].
Definition mk_sorted_avg (a b : Expr) := intrin2 sorted_avg (type_of a) a b.
Definition mk_absd (a b : Expr) :=
  intrin2 absd (with_code (type_of a) halide_type_uint) a b.

End IR.

(** ** Evaluation of expressions

    One lane of an integer expression, as a mathematical integer in the range
    of the expression's type. Arithmetic wraps around in the type; a shift by
    a negative amount shifts the other way. Floating-point expressions have
    no value here. *)

Module Eval.
Import IR.

Definition saturate (t : Type_) (z : Z) : Z :=
  Z.max (type_min t) (Z.min (type_max t) z).

(** Modelled from the spec: the value of each higher-order intrinsic, from
    the intrinsic list of the data model (section 3) and the glossary: a
    widening operation has no overflow, a saturating operation clamps to the
    range of the result type, a halving operation is [(a +- b) / 2] without
    intermediate overflow, a rounding variant adds one half of the discarded
    bit before shifting right, [absd] is [|x - y|], [sorted_avg] is
    [a + (b - a) / 2]. *)
Definition intrinsic_value (op : IntrinsicOp) (t : Type_) (args : list Z) : option Z :=
  match op, args with
  | widening_add, [x; y] | widen_right_add, [x; y] => Some (wrap t (x + y))
  | widening_sub, [x; y] | widen_right_sub, [x; y] => Some (wrap t (x - y))
  | widening_mul, [x; y] | widen_right_mul, [x; y] => Some (wrap t (x * y))
  | widening_shift_left, [x; y] => Some (wrap t (Z.shiftl x y))
  | widening_shift_right, [x; y] => Some (wrap t (Z.shiftr x y))
  | rounding_shift_right, [x; y] =>
      Some (wrap t (if 0 <? y then Z.shiftr (x + 2 ^ (y - 1)) y else Z.shiftl x (- y)))
  | rounding_shift_left, [x; y] =>
      Some (wrap t (if y <? 0 then Z.shiftr (x + 2 ^ (- y - 1)) (- y) else Z.shiftl x y))
  | saturating_add, [x; y] => Some (saturate t (x + y))
  | saturating_sub, [x; y] => Some (saturate t (x - y))
  | saturating_cast, [x] => Some (saturate t x)
  | halving_add, [x; y] => Some (wrap t ((x + y) / 2))
  | halving_sub, [x; y] => Some (wrap t ((x - y) / 2))
  | rounding_halving_add, [x; y] => Some (wrap t ((x + y + 1) / 2))
  | mul_shift_right, [x; y; q] => Some (saturate t (Z.shiftr (x * y) q))
  | rounding_mul_shift_right, [x; y; q] =>
      Some (saturate t (Z.shiftr (x * y + (if 0 <? q then 2 ^ (q - 1) else 0)) q))
  | absd, [x; y] => Some (Z.abs (x - y))
  | sorted_avg, [x; y] => Some (wrap t (x + (y - x) / 2))
  | _, _ => None
  end.

(** The bit operations and shifts of the IR. *)
Definition primitive_value (op : IntrinsicOp) (t : Type_) (args : list Z) : option Z :=
  match op, args with
  | shift_left, [x; y] => Some (wrap t (Z.shiftl x y))
  | shift_right, [x; y] => Some (wrap t (Z.shiftr x y))
  | bitwise_and, [x; y] => Some (wrap t (Z.land x y))
  | bitwise_or, [x; y] => Some (wrap t (Z.lor x y))
  | bitwise_xor, [x; y] => Some (wrap t (Z.lxor x y))
  | bitwise_not, [x] => Some (wrap t (Z.lnot x))
  | abs, [x] => Some (Z.abs x)
  | _, _ => intrinsic_value op t args
  end.

Fixpoint all_some (l : list (option Z)) : option (list Z) :=
  match l with
  | [] => Some []
  | Some x :: r => match all_some r with Some r' => Some (x :: r') | None => None end
  | None :: _ => None
  end.

Definition binop (f : Z -> Z -> Z) (x y : option Z) : option Z :=
  match x, y with
  | Some x, Some y => Some (f x y)
  | _, _ => None
  end.

Fixpoint eval (env : gmap string Z) (e : Expr) : option Z :=
  match e with
  | IntImm _ v | UIntImm _ v => Some v
  | FloatImm _ _ => None
  | Variable_ _ name => env !! name
  | Cast t v | Reinterpret t v =>
      match eval env v with Some x => Some (wrap t x) | None => None end
  | Add a b => binop (fun x y => wrap (type_of a) (x + y)) (eval env a) (eval env b)
  | Sub a b => binop (fun x y => wrap (type_of a) (x - y)) (eval env a) (eval env b)
  | Mul a b => binop (fun x y => wrap (type_of a) (x * y)) (eval env a) (eval env b)
  | Div a b => binop (fun x y => wrap (type_of a) (x / y)) (eval env a) (eval env b)
  | Mod a b => binop (fun x y => wrap (type_of a) (x mod y)) (eval env a) (eval env b)
  | Min a b => binop Z.min (eval env a) (eval env b)
  | Max a b => binop Z.max (eval env a) (eval env b)
  | EQ a b => binop (fun x y => Z.b2z (x =? y)) (eval env a) (eval env b)
  | NE a b => binop (fun x y => Z.b2z (negb (x =? y))) (eval env a) (eval env b)
  | LT a b => binop (fun x y => Z.b2z (x <? y)) (eval env a) (eval env b)
  | LE a b => binop (fun x y => Z.b2z (x <=? y)) (eval env a) (eval env b)
  | GT a b => binop (fun x y => Z.b2z (y <? x)) (eval env a) (eval env b)
  | GE a b => binop (fun x y => Z.b2z (y <=? x)) (eval env a) (eval env b)
  | Select c t f =>
      match eval env c, eval env t, eval env f with
      | Some c, Some t, Some f => Some (if c =? 0 then f else t)
      | _, _, _ => None
      end
  | Broadcast v _ => eval env v
  | VectorReduce _ _ => None
  | Call t (Intrinsic op) args =>
      match all_some (List.map (eval env) args) with
      | Some vs => primitive_value op t vs
      | None => None
      end
  | Call _ (Extern _) _ => None
  | Let_ name v body =>
      match eval env v with
      | Some x => eval (<[name := x]> env) body
      | None => None
      end
  end.

End Eval.

(** ** Intrinsic lowering (FindIntrinsics.cpp) *)

Module FindIntrinsics.
Import IR.

(** The simplifier, the prover, [lossless_cast], [lossless_negate],
    [unique_name] and common-subexpression elimination live in Simplify.cpp,
    IROperator.cpp, Util.cpp and CSE.cpp, which are not part of the sources;
    the lowering and the recognizer are parametric in them, and in the
    opt-in rules and the let substitution that the statements here do not
    concern. *)
Class Collaborators : Type := {
  simplify : Expr -> Expr;
  can_prove : Expr -> bool;
  lossless_cast : Type_ -> Expr -> option Expr;
  lossless_negate : Expr -> option Expr;
  unique_name : string -> string;
  (* HL_ENABLE_RAKE_RULES and the opt-in rules it enables, by call site *)
  enable_synthesized_rules : bool;
  synthesized_rules : string -> Type_ -> Expr -> option Expr;
  (* the passes around the FindIntrinsics mutator in find_intrinsics *)
  substitute_in_widening_lets : Expr -> Expr;
  common_subexpression_elimination : Expr -> Expr
}.

Definition assert_ {A : Type} (c : bool) (k : result A) : result A :=
  if c then k else InternalError.

Definition find_intrinsics_for_type (t : Type_) : bool :=
  (* Currently, we only try to find and replace intrinsics for vector types
     that aren't bools. *)
  is_vector t && (8 <=? bits t).

Definition widen (a : Expr) : Expr := Cast (HalideType.widen (type_of a)) a.

Definition narrow (a : Expr) : Expr := Cast (HalideType.narrow (type_of a)) a.

Definition saturating_narrow (a : Expr) : Expr :=
  mk_saturating_cast (HalideType.narrow (type_of a)) a.

(** Returns true iff t is an integral type where overflow is undefined *)
Definition no_overflow_int (t : Type_) : bool := is_int t && (32 <=? bits t).

(** Returns true iff t does not have a well defined overflow behavior. *)
Definition no_overflow (t : Type_) : bool := is_float t || no_overflow_int t.

(** [is_safe_for_add(e, max_depth)]: [max_depth] is decremented on entry and
    the search stops when it was not positive. *)
Fixpoint is_safe_for_add_depth (e : Expr) (max_depth : nat) : bool :=
  match max_depth with
  | O => false
  | S max_depth =>
    match e with
    | Add a b => is_safe_for_add_depth a max_depth || is_safe_for_add_depth b max_depth
    | Sub a b => is_safe_for_add_depth a max_depth || is_safe_for_add_depth b max_depth
    | Cast t value =>
        if bits (type_of value) <? bits t then true
        else if bits t =? bits (type_of value) then is_safe_for_add_depth value max_depth
        else false
    | Reinterpret t value =>
        if bits t =? bits (type_of value) then is_safe_for_add_depth value max_depth
        else false
    | _ => as_intrinsic e [widening_add; widening_sub; widen_right_add; widen_right_sub]
    end
  end.

Definition is_safe_for_add (e : Expr) : bool :=
  is_safe_for_add_depth e (Z.to_nat (bits (type_of e) / 2 - 1)).

Section Lowering.
Context `{Collaborators}.

Definition lossless_narrow (x : Expr) : option Expr :=
  lossless_cast (HalideType.narrow (type_of x)) x.

(** Remove a widening cast even if it changes the sign of the result. *)
Definition strip_widening_cast (x : Expr) : option Expr :=
  match lossless_narrow x with
  | Some narrow => Some narrow
  | None => lossless_cast (with_code (HalideType.narrow (type_of x)) halide_type_uint) x
  end.

(** The literal [1] of C++ type [int] in [1 << shift]. *)
Definition int_lit (v : Z) : Expr := IntImm (Int 32 1) v.

Definition lower_widen_right_add (a b : Expr) : Expr := Add a (widen b).
Definition lower_widen_right_mul (a b : Expr) : Expr := Mul a (widen b).
Definition lower_widen_right_sub (a b : Expr) : Expr := Sub a (widen b).
Definition lower_widening_add (a b : Expr) : Expr := Add (widen a) (widen b).
Definition lower_widening_mul (a b : Expr) : Expr := Mul (widen a) (widen b).

Definition lower_widening_sub (a b : Expr) : Expr :=
  let wide := HalideType.widen (type_of a) in
  let wide := if is_uint wide then with_code wide halide_type_int else wide in
  Sub (Cast wide a) (Cast wide b).

Definition lower_widening_shift_left (a b : Expr) : Expr := shl (widen a) b.
Definition lower_widening_shift_right (a b : Expr) : Expr := shr (widen a) b.

Definition lower_rounding_shift_left (a b : Expr) : Expr :=
  (* Shift left, then add one to the result if bits were dropped
     (because b < 0) and the most significant dropped bit was a one. *)
  let b_negative := select (LT b (lit b 0)) (make_one (type_of a)) (make_zero (type_of a)) in
  simplify (Add (shl a b) (band b_negative (shl a (Add b (lit b 1))))).

Definition lower_rounding_shift_right (a b : Expr) : Expr :=
  let general :=
    (* Shift right, then add one to the result if bits were dropped
       (because b > 0) and the most significant dropped bit was a one. *)
    let b_positive :=
      select (GT b (lit b 0)) (make_one (type_of a)) (make_zero (type_of a)) in
    simplify (Add (shr a b) (band b_positive (shr a (Sub b (lit b 1))))) in
  if is_positive_const b then
    if is_uint (type_of a) then
      (* We can handle the rounding with an averaging instruction. *)
      let shift := simplify (Sub b (lit b 1)) in
      let round := simplify (cast (type_of a) (Sub (shl (int_lit 1) shift) (int_lit 1))) in
      shr (mk_rounding_halving_add a round) shift
    else if is_safe_for_add a then
      (* Just perform the correct computation.
         TODO: only safe if bounds info is proven about a... *)
      let round := simplify (cast (type_of a) (shl (int_lit 1) (Sub b (lit b 1)))) in
      shr (Add a round) b
    else general
  else general.

Definition lower_saturating_add (a b : Expr) : result Expr :=
  assert_ (bool_decide (type_of a = type_of b))
    (Ok (Add (simplify (clamp a (Sub (min_of (type_of a)) (Min b (lit b 0)))
                               (Sub (max_of (type_of a)) (Max b (lit b 0))))) b)).

Definition lower_saturating_sub (a b : Expr) : result Expr :=
  assert_ (bool_decide (type_of a = type_of b))
    (Ok (Sub (simplify (clamp a (Add (min_of (type_of a)) (Max b (lit b 0)))
                               (Add (max_of (type_of a)) (Min b (lit b 0))))) b)).

Definition lower_saturating_cast (t : Type_) (a : Expr) : Expr :=
  (* For float to float, guarantee infinities are always pinned to range. *)
  if is_float t && is_float (type_of a) then
    if bits t <? bits (type_of a) then cast t (clamp a (min_of t) (max_of t))
    else clamp (cast t a) (min_of t) (max_of t)
  else if negb (bool_decide (type_of a = t)) then
    if is_float (type_of a) && negb (is_float t) && (bits (type_of a) <=? bits t) then
      let e := Max a (min_of t) in
      select (GE e (cast (type_of e) (max_of t))) (max_of t) (cast t e)
    else
      let min_bound :=
        if negb (is_uint (type_of a)) then lossless_cast (type_of a) (min_of t) else None in
      let max_bound := lossless_cast (type_of a) (max_of t) in
      let e :=
        match min_bound, max_bound with
        | Some lo, Some hi => clamp a lo hi
        | Some lo, None => Max a lo
        | None, Some hi => Min a hi
        | None, None => a
        end in
      cast t e
  else a.

Definition lower_halving_add (a b : Expr) : result Expr :=
  assert_ (bool_decide (type_of a = type_of b))
    (Ok (Add (band a b) (shr (bxor a b) (lit a 1)))).

Definition lower_halving_sub (a b : Expr) : result Expr :=
  assert_ (bool_decide (type_of a = type_of b))
    (let e := mk_rounding_halving_add a (bnot b) in
     if is_uint (type_of a)
     then Ok (Add e (make_const (type_of e) (wrap_unsigned 64 (2 ^ (bits (type_of a) - 1)))))
     else Ok e).

Definition lower_rounding_halving_add (a b : Expr) : result Expr :=
  assert_ (bool_decide (type_of a = type_of b))
    (Ok (Add (mk_halving_add a b) (band (bxor a b) (lit a 1)))).

Definition lower_sorted_avg (a b : Expr) : Expr :=
  (* b > a, so the following works without widening. *)
  Add a (shr (Sub b a) (lit a 1)).

Definition lower_absd (a b : Expr) : Expr :=
  let a_name := unique_name "a" in
  let b_name := unique_name "b" in
  let a_var := Variable_ (type_of a) a_name in
  let b_var := Variable_ (type_of b) b_name in
  Let_ a_name a (Let_ b_name b (Select (LT a_var b_var) (Sub b_var a_var) (Sub a_var b_var))).

(** The shift amount built from a C++ [int] by [mul_shift_right(a, b, int)]. *)
Definition q_const (a : Expr) (q : Z) : Expr :=
  make_const (with_code (type_of a) halide_type_uint) q.

Definition full_q_of (a : Expr) : Z :=
  if is_int (type_of a) then bits (type_of a) - 1 else bits (type_of a).

Definition lower_mul_shift_right (a b q : Expr) : result Expr :=
  assert_ (bool_decide (type_of a = type_of b))
    (let full_q := full_q_of a in
     let widen_shift_narrow :=
       (* If all else fails, just widen, shift, and narrow. *)
       let result := shr (mk_widening_mul a b) q in
       if negb (can_prove (GE q (lit q (bits (type_of a)))))
       then Ok (saturating_narrow result) else Ok (narrow result) in
     let upper_half :=
       if can_prove (GT q (lit q (bits (type_of a)))) then
         (* If q is bigger than the narrow type, write it as an exact upper
            half multiply, followed by an extra shift. *)
         let result := mk_mul_shift_right a b (q_const a (bits (type_of a))) in
         Ok (shr result (simplify (Sub q (lit q (bits (type_of a))))))
       else widen_shift_narrow in
     if can_prove (LT q (lit q full_q)) then
       (* Try to rewrite this to a "full precision" multiply by multiplying
          one of the operands and the denominator by a constant. *)
       let missing_q := Sub (lit q full_q) q in
       assert_ (bits (type_of missing_q) =? bits (type_of b))
         (let new_b := simplify (shl b missing_q) in
          if is_const new_b && can_prove (EQ (shr new_b missing_q) b)
          then Ok (mk_mul_shift_right a new_b (q_const a full_q))
          else
            let new_a := simplify (shl a missing_q) in
            if is_const new_a && can_prove (EQ (shr new_a missing_q) a)
            then Ok (mk_mul_shift_right new_a b (q_const a full_q))
            else upper_half)
     else upper_half).

Definition emulate_signed_rounding_mul_shift_right_31 (a b : Expr) : result Expr :=
  let int16 := Int 16 (HalideType.lanes (type_of a)) in
  let uint16 := UInt 16 (HalideType.lanes (type_of a)) in
  let a_hi := cast int16 (shr a (lit a 16)) in
  let b_hi := cast int16 (shr b (lit b 16)) in
  let a_lo := cast uint16 a in
  let b_lo := cast uint16 b in
  (* a*b = ((a_hi * b_hi) << 32) + ((a_hi * b_lo + b_hi * a_lo) << 16) + (a_lo * b_lo) *)
  let ab_hi := mk_widening_mul a_hi b_hi in
  let ab_mid0 := mk_widening_mul a_hi b_lo in
  let ab_mid1 := mk_widening_mul b_hi a_lo in
  let ab_lo_shifted := mk_mul_shift_right a_lo b_lo (q_const a_lo 16) in
  assert_ (bool_decide (element_of (type_of ab_hi) = Int 32 1))
  (assert_ (bool_decide (element_of (type_of ab_mid0) = Int 32 1))
  (assert_ (bool_decide (element_of (type_of ab_mid1) = Int 32 1))
  (assert_ (bool_decide (element_of (type_of ab_lo_shifted) = UInt 16 1))
    (let lo :=
       shr (mk_halving_add (Add ab_mid0 (lit ab_mid0 (2 ^ 14)))
                           (Add ab_mid1 (cast (type_of ab_mid1) ab_lo_shifted)))
           (lit ab_mid0 14) in
     assert_ (bool_decide (element_of (type_of lo) = Int 32 1))
       (Ok (mk_saturating_add ab_hi (Add ab_hi lo))))))).

Definition lower_rounding_mul_shift_right (a b q : Expr) : result Expr :=
  assert_ (bool_decide (type_of a = type_of b))
    (if is_const_value q 31 && bool_decide (element_of (type_of a) = Int 32 1)
     then emulate_signed_rounding_mul_shift_right_31 a b
     else
       let full_q := full_q_of a in
       let widen_shift_narrow :=
         (* If all else fails, just widen, shift, and narrow. *)
         let result := mk_rounding_shift_right (mk_widening_mul a b) q in
         if negb (can_prove (GE q (lit q (bits (type_of a)))))
         then Ok (saturating_narrow result) else Ok (narrow result) in
       if can_prove (LT q (lit q full_q)) then
         let missing_q := Sub (lit q full_q) q in
         assert_ (bits (type_of missing_q) =? bits (type_of b))
           (let new_b := simplify (shl b missing_q) in
            if is_const new_b && can_prove (EQ (shr new_b missing_q) b)
            then Ok (mk_rounding_mul_shift_right a new_b (q_const a full_q))
            else
              let new_a := simplify (shl a missing_q) in
              if is_const new_a && can_prove (EQ (shr new_a missing_q) a)
              then Ok (mk_rounding_mul_shift_right new_a b (q_const a full_q))
              else widen_shift_narrow)
       else widen_shift_narrow).

(** The argument-count assertions of the dispatchers. *)
Definition args1 {A : Type} (args : list Expr) (k : Expr -> result A) : result A :=
  match args with [a] => k a | _ => InternalError end.
Definition args2 {A : Type} (args : list Expr) (k : Expr -> Expr -> result A) : result A :=
  match args with [a; b] => k a b | _ => InternalError end.
Definition args3 {A : Type} (args : list Expr) (k : Expr -> Expr -> Expr -> result A)
  : result A :=
  match args with [a; b; c] => k a b c | _ => InternalError end.

Definition defined (r : result Expr) : result (option Expr) :=
  try e <- r; Ok (Some e).

(** [lower_intrinsic] of a [Call]; [Ok None] is the undefined [Expr()]. *)
Definition lower_intrinsic (t : Type_) (name : CallName) (args : list Expr)
  : result (option Expr) :=
  match name with
  | Intrinsic widen_right_add => args2 args (fun a b => Ok (Some (lower_widen_right_add a b)))
  | Intrinsic widen_right_mul => args2 args (fun a b => Ok (Some (lower_widen_right_mul a b)))
  | Intrinsic widen_right_sub => args2 args (fun a b => Ok (Some (lower_widen_right_sub a b)))
  | Intrinsic widening_add => args2 args (fun a b => Ok (Some (lower_widening_add a b)))
  | Intrinsic widening_mul => args2 args (fun a b => Ok (Some (lower_widening_mul a b)))
  | Intrinsic widening_sub => args2 args (fun a b => Ok (Some (lower_widening_sub a b)))
  | Intrinsic saturating_add => args2 args (fun a b => defined (lower_saturating_add a b))
  | Intrinsic saturating_sub => args2 args (fun a b => defined (lower_saturating_sub a b))
  | Intrinsic saturating_cast => args1 args (fun a => Ok (Some (lower_saturating_cast t a)))
  | Intrinsic widening_shift_left =>
      args2 args (fun a b => Ok (Some (lower_widening_shift_left a b)))
  | Intrinsic widening_shift_right =>
      args2 args (fun a b => Ok (Some (lower_widening_shift_right a b)))
  | Intrinsic rounding_shift_right =>
      args2 args (fun a b => Ok (Some (lower_rounding_shift_right a b)))
  | Intrinsic rounding_shift_left =>
      args2 args (fun a b => Ok (Some (lower_rounding_shift_left a b)))
  | Intrinsic halving_add => args2 args (fun a b => defined (lower_halving_add a b))
  | Intrinsic halving_sub => args2 args (fun a b => defined (lower_halving_sub a b))
  | Intrinsic rounding_halving_add =>
      args2 args (fun a b => defined (lower_rounding_halving_add a b))
  | Intrinsic rounding_mul_shift_right =>
      args3 args (fun a b q => defined (lower_rounding_mul_shift_right a b q))
  | Intrinsic mul_shift_right =>
      args3 args (fun a b q => defined (lower_mul_shift_right a b q))
  | Intrinsic sorted_avg => args2 args (fun a b => Ok (Some (lower_sorted_avg a b)))
  | Intrinsic absd => args2 args (fun a b => Ok (Some (lower_absd a b)))
  | _ => Ok None
  end.

(** [lower_intrinsic_semantically] of a [Call]. *)
Definition lower_intrinsic_semantically (t : Type_) (name : CallName) (args : list Expr)
  : result (option Expr) :=
  match name with
  | Intrinsic widen_right_add => args2 args (fun a b => Ok (Some (Add a (widen b))))
  | Intrinsic widen_right_mul => args2 args (fun a b => Ok (Some (Mul a (widen b))))
  | Intrinsic widen_right_sub => args2 args (fun a b => Ok (Some (Sub a (widen b))))
  | Intrinsic widening_add => args2 args (fun a b => Ok (Some (lower_widening_add a b)))
  | Intrinsic widening_mul => args2 args (fun a b => Ok (Some (lower_widening_mul a b)))
  | Intrinsic widening_sub => args2 args (fun a b => Ok (Some (lower_widening_sub a b)))
  | Intrinsic saturating_add =>
      if 32 <? bits t then lower_intrinsic t name args
      else args2 args (fun a b => Ok (Some (saturating_narrow (Add (widen a) (widen b)))))
  | Intrinsic saturating_sub =>
      if 32 <? bits t then lower_intrinsic t name args
      else args2 args (fun a b => Ok (Some (saturating_narrow (mk_widening_sub a b))))
  | Intrinsic saturating_cast => args1 args (fun a => Ok (Some (lower_saturating_cast t a)))
  | Intrinsic widening_shift_left =>
      args2 args (fun a b => Ok (Some (lower_widening_shift_left a b)))
  | Intrinsic widening_shift_right =>
      args2 args (fun a b => Ok (Some (lower_widening_shift_right a b)))
  | Intrinsic rounding_shift_right =>
      args2 args (fun x y =>
        if 32 <? bits t then lower_intrinsic t name args
        else
          let zero := make_zero (type_of x) in
          let one := make_one (type_of x) in
          let round := select (LT y zero) (shl one (Add y one)) zero in
          Ok (Some (saturating_narrow (shr (mk_widening_add x round) y))))
  | Intrinsic rounding_shift_left =>
      args2 args (fun x y =>
        if 32 <? bits t then lower_intrinsic t name args
        else
          let zero := make_zero (type_of x) in
          let one := make_one (type_of x) in
          let round := select (LT y zero) (shr one (Add y one)) zero in
          Ok (Some (saturating_narrow (shl (mk_widening_add x round) y))))
  | Intrinsic halving_add =>
      args2 args (fun x y =>
        if 32 <? bits t then lower_intrinsic t name args
        else Ok (Some (narrow (Div (Add (widen x) (widen y)) (lit (widen x) 2)))))
  | Intrinsic halving_sub =>
      args2 args (fun x y =>
        if 32 <? bits t then lower_intrinsic t name args
        else Ok (Some (narrow (Div (Sub (widen x) (widen y)) (lit (widen x) 2)))))
  | Intrinsic rounding_halving_add =>
      args2 args (fun x y =>
        if 32 <? bits t then lower_intrinsic t name args
        else
          Ok (Some (narrow (Div (Add (Add (widen x) (widen y)) (lit (widen x) 1))
                                (lit (widen x) 2)))))
  | Intrinsic rounding_mul_shift_right =>
      args3 args (fun x y z =>
        if 16 <? bits t then lower_intrinsic t name args
        else Ok (Some (saturating_narrow (mk_rounding_shift_right (mk_widening_mul x y) z))))
  | Intrinsic mul_shift_right =>
      args3 args (fun x y z =>
        if 32 <? bits t then lower_intrinsic t name args
        else Ok (Some (saturating_narrow (shr (mk_widening_mul x y) z))))
  | Intrinsic sorted_avg => args2 args (fun a b => Ok (Some (lower_sorted_avg a b)))
  | Intrinsic absd => args2 args (fun a b => Ok (Some (lower_absd a b)))
  | _ => Ok None
  end.

(** *** IRMutator and the LowerIntrinsics pass *)

Section IRMutator.
Variable mutate : Expr -> result Expr.

Fixpoint mutate_list (l : list Expr) : result (list Expr) :=
  match l with
  | [] => Ok []
  | e :: r => try e' <- mutate e; try r' <- mutate_list r; Ok (e' :: r')
  end.

Definition mutate2 (mk : Expr -> Expr -> Expr) (a b : Expr) : result Expr :=
  try a' <- mutate a; try b' <- mutate b; Ok (mk a' b').

(** [IRMutator::visit]: rebuild the node over the mutated children. *)
Definition IRMutator_visit (e : Expr) : result Expr :=
  match e with
  | IntImm _ _ | UIntImm _ _ | FloatImm _ _ | Variable_ _ _ => Ok e
  | Cast t v => try v' <- mutate v; Ok (Cast t v')
  | Reinterpret t v => try v' <- mutate v; Ok (Reinterpret t v')
  | Add a b => mutate2 Add a b
  | Sub a b => mutate2 Sub a b
  | Mul a b => mutate2 Mul a b
  | Div a b => mutate2 Div a b
  | Mod a b => mutate2 Mod a b
  | Min a b => mutate2 Min a b
  | Max a b => mutate2 Max a b
  | EQ a b => mutate2 EQ a b
  | NE a b => mutate2 NE a b
  | LT a b => mutate2 LT a b
  | LE a b => mutate2 LE a b
  | GT a b => mutate2 GT a b
  | GE a b => mutate2 GE a b
  | Select c t f =>
      try c' <- mutate c; try t' <- mutate t; try f' <- mutate f; Ok (Select c' t' f')
  | Broadcast v l => try v' <- mutate v; Ok (Broadcast v' l)
  | VectorReduce t v => try v' <- mutate v; Ok (VectorReduce t v')
  | Call t name args => try args' <- mutate_list args; Ok (Call t name args')
  | Let_ name v body => try v' <- mutate v; try body' <- mutate body; Ok (Let_ name v' body')
  end.

End IRMutator.

(** [LowerIntrinsics::visit] of a [Call] lowers the call and mutates the
    result again; the recursion is bounded by [fuel]. *)
Fixpoint lower_intrinsics_fuel (fuel : nat) (e : Expr) : result Expr :=
  match fuel with
  | O => OutOfFuel
  | S fuel =>
    match e with
    | Call t name args =>
        try lowered <- lower_intrinsic t name args;
        match lowered with
        | Some lowered => lower_intrinsics_fuel fuel lowered
        | None => IRMutator_visit (lower_intrinsics_fuel fuel) e
        end
    | _ => IRMutator_visit (lower_intrinsics_fuel fuel) e
    end
  end.

(** *** The recognizer: helpers of the rewrite rules

    A rule [rewrite(pattern, result, predicate)] of IRMatch.h is a partial
    function on expressions: it destructs the expression along the pattern,
    checks the predicate on the bound wildcards and builds the result. *)

Fixpoint expr_eqb (a b : Expr) : bool :=
  match a, b with
  | IntImm t v, IntImm t' v' | UIntImm t v, UIntImm t' v' => bool_decide (t = t') && (v =? v')
  | FloatImm t v, FloatImm t' v' =>
      bool_decide (t = t')
      && match v, v' with
         | float_lowest, float_lowest | float_highest, float_highest => true
         | _, _ => false
         end
  | Variable_ t n, Variable_ t' n' => bool_decide (t = t') && bool_decide (n = n')
  | Cast t v, Cast t' v' | Reinterpret t v, Reinterpret t' v'
  | VectorReduce t v, VectorReduce t' v' => bool_decide (t = t') && expr_eqb v v'
  | Add x y, Add x' y' | Sub x y, Sub x' y' | Mul x y, Mul x' y' | Div x y, Div x' y'
  | Mod x y, Mod x' y' | Min x y, Min x' y' | Max x y, Max x' y' | EQ x y, EQ x' y'
  | NE x y, NE x' y' | LT x y, LT x' y' | LE x y, LE x' y' | GT x y, GT x' y'
  | GE x y, GE x' y' => expr_eqb x x' && expr_eqb y y'
  | Select c x y, Select c' x' y' => expr_eqb c c' && expr_eqb x x' && expr_eqb y y'
  | Broadcast v l, Broadcast v' l' => expr_eqb v v' && (l =? l')
  | Call t n args, Call t' n' args' =>
      bool_decide (t = t') && bool_decide (n = n')
      && (fix go (l l' : list Expr) : bool :=
            match l, l' with
            | [], [] => true
            | x :: r, x' :: r' => expr_eqb x x' && go r r'
            | _, _ => false
            end) args args'
  | Let_ n v body, Let_ n' v' body' =>
      bool_decide (n = n') && expr_eqb v v' && expr_eqb body body'
  | _, _ => false
  end.

Definition when_ {A : Type} (c : bool) (k : option A) : option A :=
  if c then k else None.

Definition as_call1 (op : IntrinsicOp) (e : Expr) : option Expr :=
  match e with
  | Call _ (Intrinsic op') [a] => when_ (bool_decide (op' = op)) (Some a)
  | _ => None
  end.

Definition as_call2 (op : IntrinsicOp) (e : Expr) : option (Expr * Expr) :=
  match e with
  | Call _ (Intrinsic op') [a; b] => when_ (bool_decide (op' = op)) (Some (a, b))
  | _ => None
  end.

Definition as_max (e : Expr) : option (Expr * Expr) :=
  match e with Max a b => Some (a, b) | _ => None end.
Definition as_min (e : Expr) : option (Expr * Expr) :=
  match e with Min a b => Some (a, b) | _ => None end.
Definition as_add (e : Expr) : option (Expr * Expr) :=
  match e with Add a b => Some (a, b) | _ => None end.
Definition as_sub (e : Expr) : option (Expr * Expr) :=
  match e with Sub a b => Some (a, b) | _ => None end.
Definition as_cast_to (t : Type_) (e : Expr) : option Expr :=
  match e with Cast t' v => when_ (bool_decide (t' = t)) (Some v) | _ => None end.

(** A [WildConst] binds a constant and exposes its value. *)
Definition as_wild_const (e : Expr) : option (Expr * Z) :=
  match as_const e with Some v => Some (e, v) | None => None end.

Definition p_is_int (x : Expr) (b : Z) : bool := is_int (type_of x) && (bits (type_of x) =? b).
Definition p_is_uint (x : Expr) (b : Z) : bool :=
  is_uint (type_of x) && (bits (type_of x) =? b).

(** The first rule of a list that applies. *)
Fixpoint first_rule (rules : list (Expr -> option Expr)) (e : Expr) : option Expr :=
  match rules with
  | [] => None
  | r :: rest => match r e with Some e' => Some e' | None => first_rule rest e end
  end.

(** The first candidate of a list on which [f] returns. *)
Fixpoint first_some {A C : Type} (f : C -> option A) (candidates : list C) : option A :=
  match candidates with
  | [] => None
  | c :: rest => match f c with Some a => Some a | None => first_some f rest end
  end.

Definition is_const_power_of_two_integer (e : Expr) : option Z :=
  match as_const e with
  | Some v => when_ ((0 <? v) && (2 ^ Z.log2 v =? v)) (Some (Z.log2 v))
  | None => None
  end.

Definition is_vector_reduce (e : Expr) : bool :=
  match e with VectorReduce _ _ => true | _ => false end.

(** We want to find and remove an add of 'round' from e. This is not the same
    thing as just subtracting round, we specifically want to remove an
    addition of exactly round. *)
Fixpoint find_and_subtract (e round : Expr) : option Expr :=
  match e with
  | Add a b =>
      match find_and_subtract a round with
      | Some a' => Some (Add a' b)
      | None =>
          match find_and_subtract b round with
          | Some b' => Some (Add a b')
          | None => None
          end
      end
  | Sub a b =>
      match find_and_subtract a round with
      | Some a' => Some (Sub a' b)
      | None => None (* We can't recurse into the negative part of a subtract. *)
      end
  | _ => if can_prove (EQ e round) then Some (make_zero (type_of e)) else None
  end.

(** *** The recognizer: [to_rounding_shift] and the [visit] methods of
    [FindIntrinsics]

    The methods call [mutate] on sub-expressions and on the expressions they
    build; they are written over the function [mutate] they recurse through,
    and [lower_intrinsics] and [find_intrinsics] likewise. *)

Section Visits.
Variable mutate : Expr -> result Expr.
Variable lower_intrinsics : Expr -> result Expr.
Variable find_intrinsics : Expr -> result Expr.

Definition to_rounding_shift (c : Expr) : result (option Expr) :=
  match c with
  | Call _ (Intrinsic op) args =>
    if bool_decide (op = shift_left) || bool_decide (op = shift_right) then
      args2 args (fun a b =>
        let is_right := bool_decide (op = shift_right) in
        (* Helper to make the appropriate shift. *)
        let rounding_shift (a b : Expr) :=
          if is_right then mk_rounding_shift_right a b else mk_rounding_shift_left a b in
        (* The rounding offset for the shift we have. *)
        let round_type := with_lanes (type_of a) 1 in
        let round_type :=
          if as_intrinsic a [widening_add] then HalideType.narrow round_type else round_type in
        let amount := cast (with_bits (type_of b) (bits round_type)) b in
        let round :=
          if is_right
          then Div (shl (make_one round_type) (Max amount (lit amount 0))) (make_const round_type 2)
          else Div (shr (make_one round_type) (Min amount (lit amount 0))) (make_const round_type 2) in
        try round <- lower_intrinsics round;
        let round := simplify round in
        try round <- find_intrinsics round;
        let proves (e : Expr) : result bool :=
          try e' <- lower_intrinsics e; Ok (can_prove e') in
        let removed :=
          (* If it wasn't a widening or saturating add, we might still be able
             to safely accept the rounding. *)
          match find_and_subtract a round with
          | Some a_less_round =>
              if no_overflow (type_of a) || is_safe_for_add a_less_round
              then Ok (Some (rounding_shift (simplify a_less_round) b))
              else Ok None
          | None => Ok None
          end in
        let reinterpreted :=
          (* Also need to handle the annoying case of a reinterpret wrapping a
             widen_right_add *)
          match a with
          | Reinterpret rt rv =>
              if bits rt =? bits (type_of rv) then
                match as_call2 widen_right_add rv with
                | Some (add0, add1) =>
                    try p <- proves (EQ add1 round);
                    if p then
                      (* We expect the first operand to be a reinterpet. *)
                      match add0 with
                      | Reinterpret _ inner => Ok (Some (rounding_shift inner b))
                      | _ => InternalError
                      end
                    else removed
                | None => removed
                end
              else removed
          | _ => removed
          end in
        let widen_right :=
          match as_call2 widen_right_add a with
          | Some (add0, add1) =>
              try p <- proves (EQ add1 round);
              if p then Ok (Some (rounding_shift (cast (type_of a) add0) b))
              else reinterpreted
          | None => reinterpreted
          end in
        (* We can always handle widening adds. *)
        match as_call2 widening_add a with
        | Some (add0, add1) =>
            try p0 <- proves (EQ add0 round);
            if p0 then Ok (Some (rounding_shift (cast (type_of a) add1) b))
            else
              try p1 <- proves (EQ add1 round);
              if p1 then Ok (Some (rounding_shift (cast (type_of a) add0) b))
              else widen_right
        | None => widen_right
        end)
    else Ok None
  | _ => Ok None
  end.

(** The codes tried for a widening operation, and for a widen-right one. *)
Definition widening_codes (t : Type_) : list halide_type_code_t :=
  [code t; halide_type_uint].
Definition widen_right_codes (t : Type_) : list halide_type_code_t :=
  [code t; halide_type_uint; halide_type_int].

Definition cast_to_op_type (t : Type_) (e : Expr) : Expr :=
  if bool_decide (type_of e = t) then e else Cast t e.

(** One iteration of the widen-right loops: [wide] is the operand that stays
    wide, [narrowed] the narrowed other operand. *)
Definition widen_right_result (mk : Expr -> Expr -> Expr) (t : Type_)
    (c : halide_type_code_t) (wide narrowed : Expr) : result Expr :=
  if negb (bool_decide (code (type_of wide) = code (type_of narrowed))) then
    (* Need to do a safe reinterpret. *)
    let ty := with_code (type_of wide) c in
    let result := mk (reinterpret ty wide) narrowed in
    assert_ (negb (bool_decide (type_of result = t)))
      (let result := reinterpret t result in
       assert_ (bool_decide (type_of result = t)) (Ok result))
  else
    let result := mk wide narrowed in
    assert_ (bool_decide (type_of result = t)) (Ok result).

Definition visit_Add (a0 b0 : Expr) : result Expr :=
  let t := type_of a0 in
  if negb (find_intrinsics_for_type t) then IRMutator_visit mutate (Add a0 b0)
  else
    try a <- mutate a0;
    try b <- mutate b0;
    (* Try widening both from the same signedness as the result, and from uint. *)
    match first_some (fun c =>
            let narrow := with_code (HalideType.narrow t) c in
            match lossless_cast narrow a, lossless_cast narrow b with
            | Some narrow_a, Some narrow_b =>
                Some (mutate (cast_to_op_type t (mk_widening_add narrow_a narrow_b)))
            | _, _ => None
            end) (widening_codes t) with
    | Some r => r
    | None =>
      match (if is_int_or_uint t && (8 <? bits t) then
               (* Look for widen_right_add intrinsics. *)
               first_some (fun c =>
                 let narrow := with_code (HalideType.narrow t) c in
                 (* Pulling casts out of VectorReduce nodes breaks too much
                    codegen, skip for now. *)
                 let narrow_a := if is_vector_reduce a then None else lossless_cast narrow a in
                 let narrow_b := if is_vector_reduce b then None else lossless_cast narrow b in
                 match narrow_a, narrow_b with
                 | Some _, Some _ =>
                     (* This case should have been handled by the above check
                        for widening_add. *)
                     Some InternalError
                 | Some narrow_a, None =>
                     Some (widen_right_result mk_widen_right_add t c b narrow_a)
                 | None, Some narrow_b =>
                     Some (try r <- widen_right_result mk_widen_right_add t c a narrow_b;
                           mutate r)
                 | None, None => None
                 end) (widen_right_codes t)
             else None) with
      | Some r => r
      | None =>
        match (if enable_synthesized_rules then synthesized_rules "Add" t (Add a b)
               else None) with
        | Some r => mutate r
        | None => Ok (Add a b)
        end
      end
    end.

Definition visit_Sub (a0 b0 : Expr) : result Expr :=
  let t := type_of a0 in
  if negb (find_intrinsics_for_type t) then IRMutator_visit mutate (Sub a0 b0)
  else
    try a <- mutate a0;
    try b <- mutate b0;
    (* Try widening both from the same type as the result, and from uint. *)
    match first_some (fun c =>
            let narrow := with_code (HalideType.narrow t) c in
            match lossless_cast narrow a, lossless_cast narrow b with
            | Some narrow_a, Some narrow_b =>
                let result :=
                  match lossless_negate narrow_b with
                  | Some negative_narrow_b => mk_widening_add narrow_a negative_narrow_b
                  | None => mk_widening_sub narrow_a narrow_b
                  end in
                Some (mutate (cast_to_op_type t result))
            | _, _ => None
            end) (widening_codes t) with
    | Some r => r
    | None =>
      match lossless_negate b with
      | Some negative_b => Ok (Add a negative_b)
      | None =>
        (* Run after the lossless_negate check, because we want that to turn
           into an widen_right_add if relevant. *)
        match (if is_int_or_uint t && (8 <? bits t) then
                 first_some (fun c =>
                   let narrow := with_code (HalideType.narrow t) c in
                   match lossless_cast narrow b with
                   | Some narrow_b =>
                       Some (try r <- widen_right_result mk_widen_right_sub t c a narrow_b;
                             mutate r)
                   | None => None
                   end) (widen_right_codes t)
               else None) with
        | Some r => r
        | None =>
          match (if enable_synthesized_rules then synthesized_rules "Sub" t (Sub a b)
                 else None) with
          | Some r => mutate r
          | None => Ok (Sub a b)
          end
        end
      end
    end.

Definition visit_Mul (a0 b0 : Expr) : result Expr :=
  let t := type_of a0 in
  if negb (find_intrinsics_for_type t) then IRMutator_visit mutate (Mul a0 b0)
  else
    let distributed :=
      (* Distribute constants through add/sub. Do this before we muck
         everything up with widening intrinsics. *)
      if is_const b0 then
        match a0 with
        | Add x y => Some (Add (simplify (Mul x b0)) (simplify (Mul y b0)))
        | Sub x y => Some (Sub (simplify (Mul x b0)) (simplify (Mul y b0)))
        | _ => None
        end
      else None in
    match distributed with
    | Some e => mutate e
    | None =>
      try a <- mutate a0;
      try b <- mutate b0;
      (* Rewrite multiplies to shifts if possible. *)
      match (if is_int t || is_uint t then
               match is_const_power_of_two_integer a with
               | Some pow2 => Some (shl b (make_const (with_code (type_of b) halide_type_uint) pow2))
               | None =>
                   match is_const_power_of_two_integer b with
                   | Some pow2 =>
                       Some (shl a (make_const (with_code (type_of a) halide_type_uint) pow2))
                   | None => None
                   end
               end
             else None) with
      | Some e => mutate e
      | None =>
        (* This uses strip_widening_cast to ignore the signedness of the
           narrow value. *)
        match (match strip_widening_cast a, strip_widening_cast b with
               | Some narrow_a, Some narrow_b =>
                   when_ (eqb (is_int_or_uint (type_of narrow_a))
                              (is_int_or_uint (type_of narrow_b))
                          || eqb (is_float (type_of narrow_a)) (is_float (type_of narrow_b)))
                     (* Enforce a normalization of widening_mul *)
                     (Some (if is_int (type_of narrow_a) && is_uint (type_of narrow_b)
                            then mk_widening_mul narrow_b narrow_a
                            else mk_widening_mul narrow_a narrow_b))
               | _, _ => None
               end) with
        | Some result => mutate (cast_to_op_type t result)
        | None =>
          match (if is_int_or_uint t && (8 <? bits t) then
                   (* Look for widen_right_mul intrinsics. *)
                   first_some (fun c =>
                     let narrow := with_code (HalideType.narrow t) c in
                     match lossless_cast narrow a, lossless_cast narrow b with
                     | Some _, Some _ => Some InternalError
                     | Some narrow_a, None =>
                         Some (widen_right_result mk_widen_right_mul t c b narrow_a)
                     | None, Some narrow_b =>
                         Some (try r <- widen_right_result mk_widen_right_mul t c a narrow_b;
                               mutate r)
                     | None, None => None
                     end) (widen_right_codes t)
                 else None) with
          | Some r => r
          | None =>
            match (if enable_synthesized_rules then synthesized_rules "Mul" t (Mul a b)
                   else None) with
            | Some r => mutate r
            | None => Ok (Mul a b)
            end
          end
        end
      end
    end.

Definition visit_Div (a0 b0 : Expr) : result Expr :=
  let t := type_of a0 in
  if negb (find_intrinsics_for_type t) then IRMutator_visit mutate (Div a0 b0)
  else
    try a <- mutate a0;
    try b <- mutate b0;
    match is_const_power_of_two_integer b with
    | Some shift_amount =>
        if is_int_or_uint t
        then mutate (shr a (make_const (with_code (type_of a) halide_type_uint) shift_amount))
        else Ok (Div a b)
    | None => Ok (Div a b)
    end.

Definition visit_min_or_max (mk : Expr -> Expr -> Expr) (a0 b0 : Expr) : result Expr :=
  let t := type_of a0 in
  if negb (find_intrinsics_for_type t) then IRMutator_visit mutate (mk a0 b0)
  else
    try a <- mutate a0;
    try b <- mutate b0;
    match a with
    | Cast cast_t cast_v =>
        match lossless_cast (type_of cast_v) b with
        | Some cast_b =>
            if can_represent cast_t (type_of cast_v)
            then
              (* This is a widening cast that can be moved outside the min. *)
              mutate (Cast cast_t (mk cast_v cast_b))
            else Ok (mk a b)
        | None => Ok (mk a b)
        end
    | _ => Ok (mk a b)
    end.

Definition visit_Reinterpret (t : Type_) (value : Expr) : result Expr :=
  (* Fold reinterprets here too, because `simplify` is typically not called
     after find_intrinsics. *)
  try a <- mutate value;
  if bool_decide (t = type_of a) then Ok a
  else match a with
       | Reinterpret _ inner => mutate (reinterpret t inner) (* Fold double-reinterprets. *)
       | _ => Ok (reinterpret t a)
       end.

(** The rewrite rules of [visit(Cast)], in the order of the source.
    They match the (mutated) operand [value] of a cast to [t]. *)
Definition cast_rules (t : Type_) (value : Expr) : list (Expr -> option Expr) :=
  let lower := cast (type_of value) (min_of t) in
  let upper := cast (type_of value) (max_of t) in
  let op_type_wide := HalideType.widen t in
  let signed_type_wide := with_code op_type_wide halide_type_int in
  let unsigned_type := with_code t halide_type_uint in
  let nbits := bits t in
  let is_x_same_int x := is_int t && p_is_int x nbits in
  let is_x_same_uint x := is_uint t && p_is_uint x nbits in
  let is_x_same_int_or_uint x := is_x_same_int x || is_x_same_uint x in
  let x_y_same_sign x y :=
    (is_int (type_of x) && is_int (type_of y)) || (is_uint (type_of x) && is_uint (type_of y)) in
  let is_y_narrow_uint y := is_uint t && p_is_uint y (nbits / 2) in
  let clamped (e : Expr) : option Expr :=
    '(m, lo) ← as_max e; when_ (expr_eqb lo lower)
      ('(w, up) ← as_min m; when_ (expr_eqb up upper) (Some w)) in
  let upper_clamped (e : Expr) : option Expr :=
    '(w, up) ← as_min e; when_ (expr_eqb up upper) (Some w) in
  let lower_clamped (e : Expr) : option Expr :=
    '(w, lo) ← as_max e; when_ (expr_eqb lo lower) (Some w) in
  let fold_pred (c : Expr) (v : Z) := make_const (type_of c) (wrap (type_of c) (v - 1)) in
  [ (* Saturating patterns *)
    (fun e => w ← clamped e; '(x, y) ← as_call2 widening_add w;
              when_ (is_x_same_int_or_uint x) (Some (mk_saturating_add x y)));
    (fun e => w ← clamped e; '(x, y) ← as_call2 widening_sub w;
              when_ (is_x_same_int_or_uint x) (Some (mk_saturating_sub x y)));
    (fun e => c ← upper_clamped e; w ← as_cast_to signed_type_wide c;
              '(x, y) ← as_call2 widening_add w;
              when_ (is_x_same_uint x) (Some (mk_saturating_add x y)));
    (fun e => w ← upper_clamped e; '(x, y) ← as_call2 widening_add w;
              when_ (is_uint t && is_x_same_uint x) (Some (mk_saturating_add x y)));
    (fun e => w ← lower_clamped e; '(x, y) ← as_call2 widening_sub w;
              when_ (is_uint t && is_x_same_uint x) (Some (mk_saturating_sub x y)));
    (* Saturating narrow patterns. *)
    (fun e => x ← clamped e; Some (mk_saturating_cast t x));
    (fun e => x ← upper_clamped e;
              when_ (is_uint (type_of x)) (Some (mk_saturating_cast t x)));
    (* Averaging patterns *)
    (fun e => '(w, one) ← as_call2 shift_right e; when_ (is_const_value one 1)
              ('(x, c) ← as_call2 widening_add w; '(c0, v0) ← as_wild_const c;
               when_ ((0 <? v0) && is_x_same_uint x)
                 (Some (mk_rounding_halving_add x (Sub c0 (lit c0 1))))));
    (fun e => '(w, one) ← as_call2 shift_right e; when_ (is_const_value one 1)
              ('(x, y) ← as_call2 widening_add w;
               when_ (is_x_same_int_or_uint x) (Some (mk_halving_add x y))));
    (fun e => '(w, c) ← as_call2 shift_right e; '(c1, v1) ← as_wild_const c;
              '(x, c) ← as_call2 widening_add w; '(c0, v0) ← as_wild_const c;
              when_ ((v0 =? Z.shiftl 1 (v1 - 1)) && is_x_same_int_or_uint x)
                (Some (mk_rounding_shift_right x (cast t c1))));
    (fun e => '(w, c) ← as_call2 shift_right e; '(c1, v1) ← as_wild_const c;
              '(x, c) ← as_call2 widening_add w; '(c0, v0) ← as_wild_const c;
              when_ ((0 <? v0) && (0 <? v1) && is_x_same_uint x)
                (Some (shr (mk_rounding_halving_add x (cast t (fold_pred c0 v0)))
                           (cast t (fold_pred c1 v1)))));
    (fun e => '(w, c) ← as_call2 shift_right e; '(c0, v0) ← as_wild_const c;
              '(x, y) ← as_call2 widening_add w;
              when_ ((0 <? v0) && is_x_same_int_or_uint x)
                (Some (shr (mk_halving_add x y) (cast t (fold_pred c0 v0)))));
    (fun e => '(w, one) ← as_call2 shift_right e; when_ (is_const_value one 1)
              ('(x, y) ← as_call2 widening_sub w;
               when_ (is_x_same_int_or_uint x) (Some (mk_halving_sub x y))));
    (fun e => '(w, one) ← as_call2 halving_add e; when_ (is_const_value one 1)
              ('(x, y) ← as_call2 widening_add w;
               when_ (is_x_same_int_or_uint x) (Some (mk_rounding_halving_add x y))));
    (fun e => '(w, y) ← as_call2 halving_add e; '(x, one) ← as_call2 widening_add w;
              when_ (is_const_value one 1 && is_x_same_int_or_uint x)
                (Some (mk_rounding_halving_add x y)));
    (fun e => '(w, one) ← as_call2 rounding_shift_right e; when_ (is_const_value one 1)
              ('(x, y) ← as_call2 widening_add w;
               when_ (is_x_same_int_or_uint x) (Some (mk_rounding_halving_add x y))));
    (* Multiply-keep-high-bits patterns. *)
    (fun e => s ← clamped e; '(w, z) ← as_call2 shift_right s;
              '(x, y) ← as_call2 widening_mul w;
              when_ (is_x_same_int_or_uint x && x_y_same_sign x y && is_uint (type_of z))
                (Some (mk_mul_shift_right x y (cast unsigned_type z))));
    (fun e => s ← clamped e; '(w, z) ← as_call2 rounding_shift_right s;
              '(x, y) ← as_call2 widening_mul w;
              when_ (is_x_same_int_or_uint x && x_y_same_sign x y && is_uint (type_of z))
                (Some (mk_rounding_mul_shift_right x y (cast unsigned_type z))));
    (fun e => s ← upper_clamped e; '(w, z) ← as_call2 shift_right s;
              '(x, y) ← as_call2 widening_mul w;
              when_ (is_x_same_uint x && x_y_same_sign x y && is_uint (type_of z))
                (Some (mk_mul_shift_right x y (cast unsigned_type z))));
    (fun e => s ← upper_clamped e; '(w, z) ← as_call2 rounding_shift_right s;
              '(x, y) ← as_call2 widening_mul w;
              when_ (is_x_same_uint x && x_y_same_sign x y && is_uint (type_of z))
                (Some (mk_rounding_mul_shift_right x y (cast unsigned_type z))));
    (* We don't need saturation for the full upper half of a multiply. *)
    (fun e => s ← upper_clamped e; '(w, c) ← as_call2 shift_right s;
              '(c0, v0) ← as_wild_const c; '(x, y) ← as_call2 widening_mul w;
              when_ (is_x_same_int x && x_y_same_sign x y && (nbits - 1 <=? v0))
                (Some (mk_mul_shift_right x y (cast unsigned_type c0))));
    (fun e => s ← upper_clamped e; '(w, c) ← as_call2 rounding_shift_right s;
              '(c0, v0) ← as_wild_const c; '(x, y) ← as_call2 widening_mul w;
              when_ (is_x_same_int x && x_y_same_sign x y && (nbits - 1 <=? v0))
                (Some (mk_rounding_mul_shift_right x y (cast unsigned_type c0))));
    (fun e => '(w, c) ← as_call2 shift_right e; '(c0, v0) ← as_wild_const c;
              '(x, y) ← as_call2 widening_mul w;
              when_ (is_x_same_int_or_uint x && x_y_same_sign x y && (nbits <=? v0))
                (Some (mk_mul_shift_right x y (cast unsigned_type c0))));
    (fun e => '(w, c) ← as_call2 rounding_shift_right e; '(c0, v0) ← as_wild_const c;
              '(x, y) ← as_call2 widening_mul w;
              when_ (is_x_same_int_or_uint x && x_y_same_sign x y && (nbits <=? v0))
                (Some (mk_rounding_mul_shift_right x y (cast unsigned_type c0))));
    (* We can also match on smaller shifts if one of the args is narrow. *)
    (fun e => '(w, c) ← as_call2 shift_right e; '(c0, v0) ← as_wild_const c;
              '(x, cy) ← as_call2 widening_mul w; y ← as_cast_to t cy;
              when_ (is_x_same_int_or_uint x && is_y_narrow_uint y && (nbits / 2 <=? v0))
                (Some (mk_mul_shift_right x (Cast t y) (cast unsigned_type c0))));
    (fun e => '(w, c) ← as_call2 rounding_shift_right e; '(c0, v0) ← as_wild_const c;
              '(x, cy) ← as_call2 widening_mul w; y ← as_cast_to t cy;
              when_ (is_x_same_int_or_uint x && is_y_narrow_uint y && (nbits / 2 <=? v0))
                (Some (mk_rounding_mul_shift_right x (Cast t y) (cast unsigned_type c0))));
    (fun e => '(w, c) ← as_call2 shift_right e; '(c0, v0) ← as_wild_const c;
              '(cy, x) ← as_call2 widening_mul w; y ← as_cast_to t cy;
              when_ (is_x_same_int_or_uint x && is_y_narrow_uint y && (nbits / 2 <=? v0))
                (Some (mk_mul_shift_right (Cast t y) x (cast unsigned_type c0))));
    (fun e => '(w, c) ← as_call2 rounding_shift_right e; '(c0, v0) ← as_wild_const c;
              '(cy, x) ← as_call2 widening_mul w; y ← as_cast_to t cy;
              when_ (is_x_same_int_or_uint x && is_y_narrow_uint y && (nbits / 2 <=? v0))
                (Some (mk_rounding_mul_shift_right (Cast t y) x (cast unsigned_type c0))));
    (* Halving subtract patterns *)
    (fun e => '(c, one) ← as_call2 shift_right e; when_ (is_const_value one 1)
              (w ← as_cast_to op_type_wide c; '(x, y) ← as_call2 widening_sub w;
               when_ (is_x_same_int_or_uint x) (Some (mk_halving_sub x y)))) ].

(** The second group of [visit(Cast)]: a widened rounding shift. *)
Definition cast_rounding_shift_rules (t : Type_) (value : Expr)
  : list (Expr -> option Expr) :=
  let lower := cast (type_of value) (min_of t) in
  let upper := cast (type_of value) (max_of t) in
  let nbits := bits t in
  let is_x_wide_int_or_uint x :=
    (is_int t && p_is_int x (nbits * 2)) || (is_uint t && p_is_uint x (nbits * 2)) in
  [ (fun e => '(m, lo) ← as_max e; when_ (expr_eqb lo lower)
              ('(s, up) ← as_min m; when_ (expr_eqb up upper)
                ('(x, y) ← as_call2 rounding_shift_right s;
                 when_ (is_x_wide_int_or_uint x) (Some (mk_rounding_shift_right x y)))));
    (fun e => '(x, y) ← as_call2 rounding_shift_right e;
              when_ (is_x_wide_int_or_uint x) (Some (mk_rounding_shift_right x y)));
    (fun e => '(x, y) ← as_call2 rounding_shift_left e;
              when_ (is_x_wide_int_or_uint x) (Some (mk_rounding_shift_left x y))) ].

Definition is_min_or_max (e : Expr) : bool :=
  match e with Max _ _ | Min _ _ => true | _ => false end.

Definition visit_Cast (t : Type_) (op_value : Expr) : result Expr :=
  if negb (find_intrinsics_for_type t) then IRMutator_visit mutate (Cast t op_value)
  else
    try value <- mutate op_value;
    (* Normalize to reinterpret here, for some patterns. *)
    if is_int_or_uint t && (bits t =? bits (type_of value)) then mutate (reinterpret t value)
    else
      (* This mutator can generate redundant casts. *)
      let value :=
        match value with
        | Cast ct cv =>
            if can_represent ct (type_of cv) || can_represent ct t
            then cv (* The intermediate cast is redundant. *)
            else value
        | _ => value
        end in
      let unchanged :=
        if expr_eqb value op_value then Ok (Cast t op_value)
        else if negb (bool_decide (t = type_of value)) then Ok (Cast t value)
        else Ok value in
      if is_int t || is_uint t then
        match first_rule (cast_rules t value) value with
        | Some r => assert_ (bool_decide (type_of r = t)) (mutate r)
        | None =>
          (* When the argument is a widened rounding shift, we might not need
             the widening. *)
          match first_rule (cast_rounding_shift_rules t value) value with
          | Some (Call _ (Intrinsic shift) [shift_a; shift_b]) =>
              let is_saturated := is_min_or_max op_value in
              match lossless_cast t shift_a,
                    lossless_cast (with_code t (code (type_of shift_b))) shift_b with
              | Some a, Some b =>
                  if negb is_saturated
                     || (bool_decide (shift = rounding_shift_right)
                         && can_prove (GE b (lit b 0)))
                     || (bool_decide (shift = rounding_shift_left)
                         && can_prove (LE b (lit b 0)))
                  then mutate (Call t (Intrinsic shift) [a; b])
                  else unchanged
              | _, _ => unchanged
              end
          | Some _ => InternalError
          | None => unchanged
          end
        end
      else unchanged.

(** The rewrite rules of [visit(Call)] that are always on, in the order of
    the source. *)
Definition call_rules (t : Type_) : list (Expr -> option Expr) :=
  let nbits := bits t in
  let is_x_same_int x := is_int t && p_is_int x nbits in
  let is_x_same_uint x := is_uint t && p_is_uint x nbits in
  let is_x_same_int_or_uint x := is_x_same_int x || is_x_same_uint x in
  let x_y_same_sign x y :=
    eqb (is_int (type_of x)) (is_int (type_of y))
    || (is_uint (type_of x) && is_uint (type_of y)) in
  let unsigned_type := with_code t halide_type_uint in
  let is_x_wider_int_or_uint x :=
    (is_int t && p_is_int x (2 * nbits)) || (is_uint t && p_is_uint x (2 * nbits)) in
  let opposite_type :=
    if is_int t then with_code t halide_type_uint else with_code t halide_type_int in
  let is_x_wider_opposite_int x :=
    (is_int t && p_is_uint x (2 * nbits)) || (is_uint t && p_is_int x (2 * nbits)) in
  let sat_cast (e : Expr) : option Expr :=
    match e with
    | Call t' (Intrinsic saturating_cast) [a] => when_ (bool_decide (t' = t)) (Some a)
    | _ => None
    end in
  [ (* Simplify extending patterns. *)
    (fun e => '(w, z) ← as_call2 widen_right_add e; '(x, y) ← as_call2 widen_right_add w;
              when_ (is_x_same_int_or_uint x) (Some (Add x (mk_widening_add y z))));
    (fun e => '(w, z) ← as_call2 widen_right_sub e; '(x, y) ← as_call2 widen_right_sub w;
              when_ (is_x_same_int_or_uint x) (Some (Sub x (mk_widening_add y z))));
    (fun e => '(w, z) ← as_call2 widen_right_sub e; '(x, y) ← as_call2 widen_right_add w;
              when_ (is_x_same_int x) (Some (Add x (mk_widening_sub y z))));
    (fun e => '(w, z) ← as_call2 widen_right_sub e; '(x, y) ← as_call2 widen_right_add w;
              when_ (is_x_same_uint x) (Some (Add x (cast t (mk_widening_sub y z)))));
    (fun e => '(w, z) ← as_call2 widen_right_add e; '(x, y) ← as_call2 widen_right_sub w;
              when_ (is_x_same_int x) (Some (Add x (mk_widening_sub z y))));
    (fun e => '(w, z) ← as_call2 widen_right_add e; '(x, y) ← as_call2 widen_right_sub w;
              when_ (is_x_same_uint x) (Some (Add x (cast t (mk_widening_sub z y)))));
    (* Saturating patterns. *)
    (fun e => w ← sat_cast e; '(x, y) ← as_call2 widening_add w;
              when_ (is_x_same_int_or_uint x) (Some (mk_saturating_add x y)));
    (fun e => w ← sat_cast e; '(x, y) ← as_call2 widening_sub w;
              when_ (is_x_same_int_or_uint x) (Some (mk_saturating_sub x y)));
    (fun e => s ← sat_cast e; '(w, z) ← as_call2 shift_right s;
              '(x, y) ← as_call2 widening_mul w;
              when_ (is_x_same_int_or_uint x && x_y_same_sign x y && is_uint (type_of z))
                (Some (mk_mul_shift_right x y (cast unsigned_type z))));
    (fun e => s ← sat_cast e; '(w, z) ← as_call2 rounding_shift_right s;
              '(x, y) ← as_call2 widening_mul w;
              when_ (is_x_same_int_or_uint x && x_y_same_sign x y && is_uint (type_of z))
                (Some (mk_rounding_mul_shift_right x y (cast unsigned_type z))));
    (* We can remove unnecessary widening if we are then performing a
       saturating narrow. *)
    (fun e => when_ (nbits <=? 32)
              (c ← sat_cast e; x ← as_cast_to (HalideType.widen t) c;
               when_ (is_x_same_int_or_uint x) (Some x)));
    (fun e => when_ (nbits <=? 16)
              (c ← sat_cast e; x ← as_cast_to (HalideType.widen (HalideType.widen t)) c;
               when_ (is_x_wider_int_or_uint x) (Some (mk_saturating_cast t x))));
    (fun e => when_ (nbits <=? 16)
              (c ← sat_cast e;
               x ← as_cast_to (HalideType.widen (HalideType.widen opposite_type)) c;
               when_ (is_x_wider_opposite_int x) (Some (mk_saturating_cast t x))));
    (* Synthesized rules. *)
    (fun e => if enable_synthesized_rules then synthesized_rules "Call" t e else None) ].

(** The rules of [visit(Call)] for types without defined overflow. *)
Definition call_no_overflow_rules : list (Expr -> option Expr) :=
  [ (fun e => '(s, one) ← as_call2 halving_add e; when_ (is_const_value one 1)
              ('(x, y) ← as_add s; Some (mk_rounding_halving_add x y)));
    (fun e => '(x, s) ← as_call2 halving_add e; '(y, one) ← as_add s;
              when_ (is_const_value one 1) (Some (mk_rounding_halving_add x y)));
    (fun e => '(s, y) ← as_call2 halving_add e; '(x, one) ← as_add s;
              when_ (is_const_value one 1) (Some (mk_rounding_halving_add x y)));
    (fun e => '(x, one) ← as_call2 halving_add e;
              when_ (is_const_value one 1) (Some (mk_rounding_shift_right x (lit x 1))));
    (fun e => '(s, one) ← as_call2 shift_right e; when_ (is_const_value one 1)
              ('(x, y) ← as_add s; Some (mk_halving_add x y)));
    (fun e => '(s, one) ← as_call2 shift_right e; when_ (is_const_value one 1)
              ('(x, y) ← as_sub s; Some (mk_halving_sub x y)));
    (fun e => '(s, one) ← as_call2 rounding_shift_right e; when_ (is_const_value one 1)
              ('(x, y) ← as_add s; Some (mk_rounding_halving_add x y))) ].

Definition visit_Call (t : Type_) (name : CallName) (args0 : list Expr) : result Expr :=
  if negb (find_intrinsics_for_type t) then IRMutator_visit mutate (Call t name args0)
  else
    try op <- IRMutator_visit mutate (Call t name args0);
    let args := call_args op in
    let nbits := bits t in
    let is_op (i : IntrinsicOp) := is_intrinsic op i in
    let rounding_shifts : result Expr :=
      if is_op rounding_shift_left || is_op rounding_shift_right then
        (* Try to turn this into a widening shift. *)
        args2 args (fun a b =>
          match lossless_narrow a, lossless_narrow b with
          | Some a_narrow, Some b_narrow =>
              if is_op rounding_shift_right && can_prove (GT b_narrow (lit b_narrow 0))
              then mutate (cast_to_op_type t (mk_rounding_shift_right a_narrow b_narrow))
              else if is_op rounding_shift_left && can_prove (LT b_narrow (lit b_narrow 0))
              then mutate (cast_to_op_type t (mk_rounding_shift_left a_narrow b_narrow))
              else Ok op
          | _, _ => Ok op
          end)
      else Ok op in
    let shifts : result Expr :=
      if is_op shift_right || is_op shift_left then
        (* Try to turn this into a widening shift. *)
        args2 args (fun a b =>
          match lossless_narrow a, lossless_narrow b with
          | Some a_narrow, Some b_narrow =>
              mutate (cast_to_op_type t
                        (if is_op shift_left then mk_widening_shift_left a_narrow b_narrow
                         else mk_widening_shift_right a_narrow b_narrow))
          | _, _ =>
            match (if enable_synthesized_rules && is_int t && (16 <=? nbits)
                   then synthesized_rules "shift" t op else None) with
            | Some r => mutate r
            | None =>
              (* Try to turn this into a rounding shift. *)
              try rounding_shift <- to_rounding_shift op;
              match rounding_shift with
              | Some r => mutate r
              | None => rounding_shifts
              end
            end
          end)
      else rounding_shifts in
    let narrow_twice (mk : Expr -> Expr -> Expr) : result Expr :=
      args2 args (fun a b =>
        match first_some (fun c =>
                let narrow_t :=
                  with_code (HalideType.narrow (HalideType.narrow t)) c in
                match lossless_cast narrow_t a, lossless_cast narrow_t b with
                | Some narrow_a, Some narrow_b => Some (mutate (Cast t (mk narrow_a narrow_b)))
                | _, _ => None
                end) (widening_codes t) with
        | Some r => r
        | None => shifts
        end) in
    match op with
    | Call _ _ _ =>
      match (x ← as_call1 abs op; '(a, b) ← as_call2 widening_sub x;
             Some (cast t (mk_absd a b))) with
      | Some r => Ok r
      | None =>
        match first_rule (call_rules t) op with
        | Some r => mutate r
        | None =>
          match (if no_overflow t then first_rule call_no_overflow_rules op else None) with
          | Some r => mutate r
          | None =>
            (* Move widening casts inside widening arithmetic outside the
               arithmetic. *)
            if is_op widening_mul then
              args2 args (fun a b =>
                match strip_widening_cast a, strip_widening_cast b with
                | Some narrow_a, Some narrow_b =>
                    mutate (Cast t (mk_widening_mul narrow_a narrow_b))
                | _, _ => shifts
                end)
            else if is_op widening_add && (16 <=? nbits) then narrow_twice mk_widening_add
            else if is_op widening_sub && (16 <=? nbits) then narrow_twice mk_widening_sub
            else shifts
          end
        end
      end
    | _ => Ok op
    end.

End Visits.

(** [FindIntrinsics::mutate]: the dispatch on the node kind. The methods
    mutate what they build, so the recursion is bounded by [fuel]. *)
Fixpoint mutate_fuel (fuel : nat) (e : Expr) : result Expr :=
  match fuel with
  | O => OutOfFuel
  | S fuel =>
    let mutate := mutate_fuel fuel in
    let lower_intrinsics := lower_intrinsics_fuel fuel in
    let find_intrinsics (e : Expr) :=
      try e' <- mutate (substitute_in_widening_lets e);
      Ok (common_subexpression_elimination e') in
    match e with
    | Add a b => visit_Add mutate a b
    | Sub a b => visit_Sub mutate a b
    | Mul a b => visit_Mul mutate a b
    | Div a b => visit_Div mutate a b
    | Min a b => visit_min_or_max mutate Min a b
    | Max a b => visit_min_or_max mutate Max a b
    | Cast t value => visit_Cast mutate t value
    | Call t name args => visit_Call mutate lower_intrinsics find_intrinsics t name args
    | Reinterpret t value => visit_Reinterpret mutate t value
    | _ => IRMutator_visit mutate e
    end
  end.

(** [find_intrinsics(const Expr &)] when HL_DISABLE_INTRINISICS is not set. *)
Definition find_intrinsics_fuel (fuel : nat) (e : Expr) : result Expr :=
  try e' <- mutate_fuel fuel (substitute_in_widening_lets e);
  Ok (common_subexpression_elimination e').

End Lowering.

End FindIntrinsics.

(** ** The shader emitter (CodeGen_Vulkan_Dev.cpp) *)

Module CodeGen_Vulkan_Dev.
Import Spirv IR FindIntrinsics.

Inductive ForType : Set :=
| Serial | Parallel | Vectorized | Unrolled | Extern_ | GPUBlock | GPUThread | GPULane.

#[global] Instance ForType_eq_dec : EqDecision ForType.
Proof. solve_decision. Defined.

(** A [For] node; statements other than loops stay abstract. *)
Record For (Stmt : Type) : Type := mkFor {
  for_name : string;
  for_min : Expr;
  for_extent : Expr;
  for_type : ForType;
  for_body : Stmt
}.
Arguments mkFor {Stmt}.
Arguments for_name {Stmt}.
Arguments for_min {Stmt}.
Arguments for_extent {Stmt}.
Arguments for_type {Stmt}.
Arguments for_body {Stmt}.

(** The state of [SPIRV_Emitter] that the modelled methods use: the builder,
    the symbol table (a [Scope]: a stack of bindings per name) and the
    workgroup size. *)
Record SPIRV_Emitter : Type := mkEmitter {
  builder : SpvBuilder;
  symbol_table : gmap string (list (SpvId * SpvStorageClass));
  workgroup_size : list Z
}.

Definition upd_builder (f : SpvBuilder -> SpvBuilder) (e : SPIRV_Emitter) : SPIRV_Emitter :=
  mkEmitter (f (builder e)) (symbol_table e) (workgroup_size e).
Definition upd_symbol_table
    (f : gmap string (list (SpvId * SpvStorageClass)) ->
         gmap string (list (SpvId * SpvStorageClass))) (e : SPIRV_Emitter) : SPIRV_Emitter :=
  mkEmitter (builder e) (f (symbol_table e)) (workgroup_size e).
Definition upd_workgroup_size (f : list Z -> list Z) (e : SPIRV_Emitter) : SPIRV_Emitter :=
  mkEmitter (builder e) (symbol_table e) (f (workgroup_size e)).

(** Run a builder method on the emitter's builder. *)
Definition on_builder {A : Type} (m : M SpvBuilder A) : M SPIRV_Emitter A := fun e =>
  match m (builder e) with
  | Ok (a, b) => Ok (a, upd_builder (fun _ => b) e)
  | InternalError => InternalError
  | UserError => UserError
  | UndefinedBehavior => UndefinedBehavior
  | OutOfFuel => OutOfFuel
  end.

(** [Scope::contains], [Scope::get], [Scope::push] and [Scope::pop]. *)
Definition scope_contains (name : string) (e : SPIRV_Emitter) : bool :=
  match symbol_table e !! name with Some (_ :: _) => true | _ => false end.

Definition scope_get (name : string) : M SPIRV_Emitter (SpvId * SpvStorageClass) := fun e =>
  match symbol_table e !! name with
  | Some (v :: _) => Ok (v, e)
  | _ => InternalError
  end.

Definition scope_push (name : string) (v : SpvId * SpvStorageClass) : M SPIRV_Emitter unit :=
  modify (upd_symbol_table (fun m => <[name := v :: default [] (m !! name)]> m)).

Definition scope_pop (name : string) : M SPIRV_Emitter unit :=
  modify (upd_symbol_table (fun m =>
    match m !! name with
    | Some (_ :: (_ :: _) as rest) => <[name := rest]> m
    | _ => delete name m
    end)).

(** [ScopedBinding]: the binding lasts for the enclosed block. *)
Definition scoped_binding {A : Type} (name : string) (v : SpvId * SpvStorageClass)
    (body : M SPIRV_Emitter A) : M SPIRV_Emitter A :=
  scope_push name v ;;
  do a <- body;
  scope_pop name ;;
  ret a.

(** [ends_with] of Util.h. *)
Definition ends_with (s suffix : string) : bool :=
  let ls := String.length s in
  let lf := String.length suffix in
  (lf <=? ls)%nat && String.eqb (String.substring (ls - lf) lf s) suffix.

Definition simt_intrinsic (name : string) : result (string * Z) :=
  if ends_with name ".__thread_id_x" then Ok ("LocalInvocationId"%string, 0)
  else if ends_with name ".__thread_id_y" then Ok ("LocalInvocationId"%string, 1)
  else if ends_with name ".__thread_id_z" then Ok ("LocalInvocationId"%string, 2)
  else if ends_with name ".__block_id_x" then Ok ("WorkgroupId"%string, 0)
  else if ends_with name ".__block_id_y" then Ok ("WorkgroupId"%string, 1)
  else if ends_with name ".__block_id_z" then Ok ("WorkgroupId"%string, 2)
  else if ends_with name "id_w" then UserError
  else InternalError.

Definition thread_loop_workgroup_index (name : string) : Z :=
  if ends_with name ".__thread_id_x" then 0
  else if ends_with name ".__thread_id_y" then 1
  else if ends_with name ".__thread_id_z" then 2
  else -1.

Definition reset_workgroup_size : M SPIRV_Emitter unit :=
  modify (upd_workgroup_size (fun _ => [0; 0; 0])).

Definition lift_result {S A : Type} (r : result A) : M S A := fun s =>
  match r with
  | Ok a => Ok (a, s)
  | InternalError => InternalError
  | UserError => UserError
  | UndefinedBehavior => UndefinedBehavior
  | OutOfFuel => OutOfFuel
  end.

Section Emitter.
Context `{SpirvHeader} `{Collaborators}.
Context {Stmt : Type}.

(** The rest of the visitor: [accept] on an expression and on a statement,
    the branches of [visit(Call)] that emit instructions directly, the
    vector constants of the builder, and [is_gpu_var] of CodeGen_GPU_Dev. *)
Variable accept_expr : Expr -> M SPIRV_Emitter unit.
Variable accept_stmt : Stmt -> M SPIRV_Emitter unit.
Variable emit_direct : Expr -> M SPIRV_Emitter unit.
Variable declare_vector_constant : Type_ -> list Z -> M SpvBuilder SpvId.
Variable is_gpu_var : string -> bool.

Definition visit_Variable (name : string) : M SPIRV_Emitter unit :=
  do binding <- scope_get name;
  let variable_id := fst binding in
  if variable_id =? SpvInvalidId then user_error
  else on_builder (update_id variable_id).

Definition visit_IntImm (t : Type_) (value : Z) : M SPIRV_Emitter unit :=
  if (bits t =? 8) || (bits t =? 16) || (bits t =? 32) || (bits t =? 64) then
    let nbytes := Z.to_nat (bits t / 8) in
    do constant_id <- on_builder
      (declare_constant declare_vector_constant t
         (le_bytes nbytes (wrap_unsigned (bits t) value)));
    on_builder (update_id constant_id)
  else internal_error.

(** The part of [visit(For)] under "Save & validate the workgroup size". *)
Definition save_workgroup_size (op : For Stmt) : M SPIRV_Emitter unit :=
  let idx := thread_loop_workgroup_index (for_name op) in
  if 0 <=? idx then
    match for_extent op with
    | IntImm _ wsize =>
        let new_wsize := uint32 wsize in
        do e <- get;
        let current := default 0 (workgroup_size e !! Z.to_nat idx) in
        if (current =? 0) || (current =? new_wsize)
        then modify (upd_workgroup_size (fun ws => <[Z.to_nat idx := new_wsize]> ws))
        else user_error
    | _ => user_error
    end
  else ret tt.

Definition visit_For (op : For Stmt) : M SPIRV_Emitter unit :=
  if is_gpu_var (for_name op) then
    if negb (bool_decide (for_type op = GPUBlock) || bool_decide (for_type op = GPUThread))
    then internal_error
    else if negb (is_const_zero (for_min op)) then internal_error
    else
      (* Save & validate the workgroup size *)
      save_workgroup_size op ;;
      do intrinsic <- lift_result (simt_intrinsic (for_name op));
      (* Intrinsics are inserted when adding the kernel *)
      do e <- get;
      if negb (scope_contains (fst intrinsic) e) then internal_error
      else
        do binding <- scope_get (fst intrinsic);
        let intrinsic_id := fst binding in
        (* extract and cast to int (which is what's expected by Halide's for
           loops) *)
        do unsigned_type_id <- on_builder (declare_type (UInt 32 1) 1);
        do unsigned_gpu_var_id <- on_builder (reserve_id SpvResultId);
        do signed_type_id <- on_builder (declare_type (Int 32 1) 1);
        do signed_gpu_var_id <- on_builder (reserve_id SpvResultId);
        on_builder (append (SpvFactory.composite_extract unsigned_type_id
                              unsigned_gpu_var_id intrinsic_id [snd intrinsic])) ;;
        on_builder (append (SpvFactory.bitcast signed_type_id signed_gpu_var_id
                              unsigned_gpu_var_id)) ;;
        scoped_binding (for_name op) (signed_gpu_var_id, SpvStorageClassUniform)
          (accept_stmt (for_body op))
  else
    if negb (bool_decide (for_type op = Serial)) then internal_error
    else
      (* TODO: Loop vars are alway int32_t right? *)
      do index_type_id <- on_builder (declare_type (Int 32 1) 1);
      do index_var_type_id <-
        on_builder (declare_pointer_type_id index_type_id SpvStorageClassFunction);
      accept_expr (for_min op) ;;
      do min_id <- on_builder current_id;
      accept_expr (for_extent op) ;;
      do extent_id <- on_builder current_id;
      (* Compute max. *)
      do max_id <- on_builder (reserve_id SpvResultId);
      on_builder (append (SpvFactory.integer_add index_type_id max_id min_id extent_id)) ;;
      (* Declare loop var *)
      do loop_var_id <-
        on_builder (declare_variable (unique_name "_loop_idx") index_var_type_id
                      SpvStorageClassFunction min_id);
      do header_block_id <- on_builder (reserve_id SpvBlockId);
      do top_block_id <- on_builder (reserve_id SpvBlockId);
      do body_block_id <- on_builder (reserve_id SpvBlockId);
      do continue_block_id <- on_builder (reserve_id SpvBlockId);
      do merge_block_id <- on_builder (reserve_id SpvBlockId);
      do header_block <- on_builder (create_block header_block_id);
      on_builder (enter_block header_block) ;;
      on_builder (append (SpvFactory.loop_merge merge_block_id continue_block_id
                            SpvLoopControlMaskNone)) ;;
      on_builder (append (SpvFactory.branch top_block_id)) ;;
      on_builder leave_block ;;
      do current_index_id <- on_builder (reserve_id SpvResultId);
      do top_block <- on_builder (create_block top_block_id);
      on_builder (enter_block top_block) ;;
      do loop_test_type_id <- on_builder (declare_type (Bool_ 1) 1);
      do loop_test_id <- on_builder (reserve_id SpvResultId);
      on_builder (append (SpvFactory.load index_type_id current_index_id loop_var_id
                            SpvMemoryAccessMaskNone)) ;;
      on_builder (append (SpvFactory.less_than_equal loop_test_type_id loop_test_id
                            current_index_id max_id true)) ;;
      on_builder (append (SpvFactory.conditional_branch loop_test_id body_block_id
                            merge_block_id [])) ;;
      on_builder leave_block ;;
      do body_block <- on_builder (create_block body_block_id);
      on_builder (enter_block body_block) ;;
      scoped_binding (for_name op) (current_index_id, SpvStorageClassFunction)
        (accept_stmt (for_body op) ;;
         on_builder (append (SpvFactory.branch continue_block_id))) ;;
      on_builder leave_block ;;
      do continue_block <- on_builder (create_block continue_block_id);
      on_builder (enter_block continue_block) ;;
      (* Update loop variable *)
      do next_index_id <- on_builder (reserve_id SpvResultId);
      do constant_one_id <-
        on_builder (declare_constant declare_vector_constant (Int 32 1) (le_bytes 4 1));
      on_builder (append (SpvFactory.integer_add index_type_id next_index_id
                            current_index_id constant_one_id)) ;;
      on_builder (append (SpvFactory.store loop_var_id next_index_id
                            SpvMemoryAccessMaskNone)) ;;
      on_builder (append (SpvFactory.branch header_block_id)) ;;
      on_builder leave_block ;;
      do merge_block <- on_builder (create_block merge_block_id);
      on_builder (enter_block merge_block).

(** The intrinsics that [visit(Call)] hands to the lowerer. *)
Definition lowered_by_emitter (op : IntrinsicOp) : bool :=
  match op with
  | widen_right_add | widen_right_mul | widen_right_sub
  | widening_add | widening_mul | widening_sub
  | widening_shift_left | widening_shift_right
  | rounding_shift_left | rounding_shift_right
  | saturating_cast | saturating_add | saturating_sub
  | halving_add | halving_sub | rounding_halving_add
  | mul_shift_right | rounding_mul_shift_right => true
  | _ => false
  end.

(** The expression that a branch of [visit(Call)] builds and then visits;
    [Ok None] in the branches that emit instructions for the call itself. *)
Definition call_expansion (t : Type_) (name : CallName) (args : list Expr)
  : result (option Expr) :=
  match name with
  | Intrinsic absd =>
      args2 args (fun a b => Ok (Some (cast t (select (LT a b) (Sub b a) (Sub a b)))))
  | Intrinsic strict_float => args1 args (fun a => Ok (Some a))
  | Intrinsic sorted_avg =>
      (* b > a, so the following works without widening: a + (b - a)/2 *)
      args2 args (fun a b => Ok (Some (Add a (Div (Sub b a) (lit a 2)))))
  | Intrinsic op =>
      if lowered_by_emitter op then
        try e <- lower_intrinsic t name args;
        match e with
        | Some e => Ok (Some e)
        | None => UndefinedBehavior
        end
      else Ok None
  | Extern _ => Ok None
  end.

Definition visit_Call (t : Type_) (name : CallName) (args : list Expr)
  : M SPIRV_Emitter unit :=
  do e <- lift_result (call_expansion t name args);
  match e with
  | Some e => accept_expr e
  | None => emit_direct (Call t name args)
  end.

End Emitter.

End CodeGen_Vulkan_Dev.

(** ** Execution of emitted blocks

    Modelled from the SPIR-V specification, for the instructions of the loop
    that the emitter builds: [OpIAdd] keeps the low-order bits of the sum in
    the width of its integer result type, [OpSLessThanEqual] compares signed
    integers, [OpLoad] and [OpStore] read and write a variable, [OpBranch]
    and [OpBranchConditional] transfer control to a label, and a variable
    with an initializer holds the initializer's value on entry to the
    function. Other instructions do not change the state. *)

Module SpirvExec.
Import Spirv.

Record Machine : Type := mkMachine {
  values : gmap Z Z;
  memory : gmap Z Z;
  visited : list SpvId
}.

Inductive Outcome : Type :=
| Next (m : Machine)
| Jump (target : SpvId) (m : Machine)
| Stuck.

Definition set_value (id : SpvId) (v : Z) (m : Machine) : Machine :=
  mkMachine (<[id := v]> (values m)) (memory m) (visited m).
Definition set_memory (id : SpvId) (v : Z) (m : Machine) : Machine :=
  mkMachine (values m) (<[id := v]> (memory m)) (visited m).
Definition enter (block : SpvId) (m : Machine) : Machine :=
  mkMachine (values m) (memory m) (block :: visited m).

(** Width and signedness of a declared integer type. *)
Definition int_type (types : list SpvInstruction) (type_id : SpvId) : option (Z * Z) :=
  match List.find (fun i => (result_id i =? type_id) && bool_decide (op_code i = SpvOpTypeInt))
                  types with
  | Some i => match operands i with
              | [width; signedness] => Some (width, signedness)
              | _ => None
              end
  | None => None
  end.

Definition wrap_in (ty : Z * Z) (z : Z) : Z :=
  if snd ty =? 0 then wrap_unsigned (fst ty) z else wrap_signed (fst ty) z.

Definition step_inst (types : list SpvInstruction) (i : SpvInstruction) (m : Machine)
  : Outcome :=
  match op_code i, operands i with
  | SpvOpIAdd, [a; b] =>
      match int_type types (type_id i), values m !! a, values m !! b with
      | Some ty, Some x, Some y => Next (set_value (result_id i) (wrap_in ty (x + y)) m)
      | _, _, _ => Stuck
      end
  | SpvOpSLessThanEqual, [_; result; a; b] =>
      match values m !! a, values m !! b with
      | Some x, Some y => Next (set_value result (Z.b2z (x <=? y)) m)
      | _, _ => Stuck
      end
  | SpvOpLoad, [ptr; _] =>
      match memory m !! ptr with
      | Some v => Next (set_value (result_id i) v m)
      | None => Stuck
      end
  | SpvOpStore, [ptr; obj; _] =>
      match values m !! obj with
      | Some v => Next (set_memory ptr v m)
      | None => Stuck
      end
  | SpvOpBranch, [target] => Jump target m
  | SpvOpBranchConditional, condition :: true_label :: false_label :: _ =>
      match values m !! condition with
      | Some c => Jump (if c =? 0 then false_label else true_label) m
      | None => Stuck
      end
  | _, _ => Next m
  end.

Fixpoint run_block (types : list SpvInstruction) (insts : list SpvInstruction) (m : Machine)
  : Outcome :=
  match insts with
  | [] => Next m
  | i :: rest =>
      match step_inst types i m with
      | Next m' => run_block types rest m'
      | other => other
      end
  end.

Inductive Status : Set :=
| FellOff (block : SpvId)   (* the end of a block without a terminator *)
| Running (block : SpvId)   (* out of fuel, about to enter [block] *)
| Crashed.

Definition find_block (blocks : list SpvBlockContents) (id : SpvId)
  : option SpvBlockContents :=
  List.find (fun c => block_id c =? id) blocks.

Fixpoint run (fuel : nat) (types : list SpvInstruction) (blocks : list SpvBlockContents)
    (current : SpvId) (m : Machine) : Status * Machine :=
  match fuel with
  | O => (Running current, m)
  | S fuel =>
      match find_block blocks current with
      | Some c =>
          match run_block types (instructions c) (enter current m) with
          | Jump target m' => run fuel types blocks target m'
          | Next m' => (FellOff current, m')
          | Stuck => (Crashed, m)
          end
      | None => (Crashed, m)
      end
  end.

(** The variables of the entry block, initialised on entry to the function. *)
Definition init_variables (vars : list SpvInstruction) (m : Machine) : Machine :=
  fold_left (fun m v =>
    match operands v with
    | [_; initializer] =>
        match values m !! initializer with
        | Some x => set_memory (result_id v) x m
        | None => m
        end
    | _ => m
    end) vars m.

(** The blocks of a function of the builder, in order. *)
Definition function_blocks (b : SpvBuilder) (fh : FunctionHandle) : list SpvBlockContents :=
  match function_store b !! fh with
  | Some f => omap (fun h => block_store b !! h) (blocks f)
  | None => []
  end.

(** The values of the module's integer constants. *)
Definition constant_values (types consts : list SpvInstruction) : gmap Z Z :=
  fold_left (fun acc i =>
    match op_code i, operands i, int_type types (type_id i) with
    | SpvOpConstant, [w], Some ty => <[result_id i := wrap_in ty w]> acc
    | _, _, _ => acc
    end) consts ∅.

(** Run the function from its entry block, with the given values of its
    parameters and the module's constants. *)
Definition run_function (fuel : nat) (b : SpvBuilder) (fh : FunctionHandle)
    (arguments : gmap Z Z) : Status * Machine :=
  let blocks := function_blocks b fh in
  let initial := arguments ∪ constant_values (types (module b)) (constants (module b)) in
  match blocks with
  | entry :: _ =>
      run fuel (types (module b)) blocks (block_id entry)
        (init_variables (variables entry) (mkMachine initial ∅ []))
  | [] => (Crashed, mkMachine initial ∅ [])
  end.

Definition times_entered (block : SpvId) (m : Machine) : nat :=
  List.length (List.filter (fun id => id =? block) (visited m)).

End SpirvExec.

(** * Concrete scenarios *)

Module Scenario.
Import Spirv IR Eval FindIntrinsics CodeGen_Vulkan_Dev SpirvExec.

(** The values of SpirvIR.h in the Halide sources this repository derives
    from. *)
#[global] Instance spirv_header : SpirvHeader :=
  {| SpvInvalidId := 4294967295; SpvInvalidStorageClass := 2147483647 |}.

(** The scenarios declare no vector constants. *)
Definition no_vector_constant : Type_ -> list Z -> M SpvBuilder SpvId :=
  fun _ _ => internal_error.

(** A builder with one function [kernel(int, int)], entered at its entry
    block. *)
Definition kernel_builder : M SpvBuilder SpvId :=
  do void_id <- declare_type Handle 1;
  do int_id <- declare_type (Int 32 1) 1;
  do func_id <- add_function "kernel" void_id [int_id; int_id];
  do b <- get;
  match function_map b !! func_id with
  | Some fh => enter_function fh ;; ret func_id
  | None => internal_error
  end.

(** The two parameters of [kernel] are the ids 6 and 7; the emitter state
    binds them to the names [loop_min] and [loop_extent]. *)
Definition kernel_emitter : SPIRV_Emitter :=
  match kernel_builder reset with
  | Ok (_, b) =>
      mkEmitter b
        {[ "loop_min"%string := [(6, SpvStorageClassFunction)];
           "loop_extent"%string := [(7, SpvStorageClassFunction)] ]}
        [0; 0; 0]
  | _ => mkEmitter reset ∅ [0; 0; 0]
  end.

(** The visitor on the leaves of an expression. *)
Definition accept_leaf (e : Expr) : M SPIRV_Emitter unit :=
  match e with
  | Variable_ _ name => visit_Variable name
  | IntImm t v => visit_IntImm no_vector_constant t v
  | _ => internal_error
  end.

(** A loop body is a list of instructions, appended one by one. *)
Fixpoint accept_body (body : list SpvInstruction) : M SPIRV_Emitter unit :=
  match body with
  | [] => ret tt
  | i :: rest => on_builder (append i) ;; accept_body rest
  end.

(** [for (i = loop_min; extent loop_extent) { nop }]. *)
Definition serial_loop : For (list SpvInstruction) :=
  mkFor "i" (Variable_ (Int 32 1) "loop_min") (Variable_ (Int 32 1) "loop_extent")
        Serial [SpvInst.make SpvOpNop].

(** Collaborators that do nothing: the simplifier returns its argument, the
    prover proves nothing, no cast is lossless. *)
Definition idle : Collaborators :=
  {| simplify := fun e => e;
     can_prove := fun _ => false;
     lossless_cast := fun _ _ => None;
     lossless_negate := fun _ => None;
     unique_name := fun s => s;
     enable_synthesized_rules := false;
     synthesized_rules := fun _ _ _ => None;
     substitute_in_widening_lets := fun e => e;
     common_subexpression_elimination := fun e => e |}.

(** Reference collaborators for closed scenarios: [lossless_cast] looks
    through widening casts and broadcasts and converts constants that fit,
    the simplifier folds closed integer expressions, and the prover decides
    closed integer conditions by evaluation. *)
Fixpoint reference_lossless_cast (fuel : nat) (t : Type_) (e : Expr) : option Expr :=
  match fuel with
  | O => None
  | S fuel =>
    if bool_decide (type_of e = t) then Some e
    else if can_represent t (type_of e) then Some (cast t e)
    else
      match e with
      | IntImm _ v | UIntImm _ v =>
          if (type_min t <=? v) && (v <=? type_max t) then Some (make_const t v) else None
      | Broadcast v l =>
          match reference_lossless_cast fuel (element_of t) v with
          | Some v' => Some (Broadcast v' l)
          | None => None
          end
      | Cast ct cv =>
          if can_represent ct (type_of cv) then reference_lossless_cast fuel t cv else None
      | _ => None
      end
  end.

Definition reference_simplify (e : Expr) : Expr :=
  match eval ∅ e with
  | Some v => make_const (type_of e) v
  | None => e
  end.

Definition reference_can_prove (e : Expr) : bool :=
  match eval ∅ e with
  | Some v => negb (v =? 0)
  | None => false
  end.

Definition reference : Collaborators :=
  {| simplify := reference_simplify;
     can_prove := reference_can_prove;
     lossless_cast := reference_lossless_cast 16;
     lossless_negate := fun _ => None;
     unique_name := fun s => s;
     enable_synthesized_rules := false;
     synthesized_rules := fun _ _ _ => None;
     substitute_in_widening_lets := fun e => e;
     common_subexpression_elimination := fun e => e |}.

(** A function whose entry block holds one instruction, and a detached
    block with label 9. *)
Definition linking_builder : SpvBuilder :=
  match (do f <- add_function "kernel" 2 [];
         do b <- get;
         match function_map b !! f with
         | Some fh =>
             enter_function fh ;;
             append (SpvInst.make SpvOpNop) ;;
             SpvBlock_make (Some fh) 9
         | None => internal_error
         end) reset with
  | Ok (_, b) => b
  | _ => reset
  end.

(** The builder after the emitter has visited [serial_loop] in [kernel]. *)
Definition emitted_loop : SpvBuilder :=
  match visit_For (H0 := idle) accept_leaf accept_body no_vector_constant
          (fun _ => false) serial_loop kernel_emitter with
  | Ok (_, e) => builder e
  | _ => reset
  end.

Definition loop_types : list SpvInstruction := types (module emitted_loop).
Definition loop_blocks : list SpvBlockContents := function_blocks emitted_loop 0%nat.

(** Run-time values of the parameters [loop_min] and [loop_extent]. *)
Definition loop_arguments (m n : Z) : gmap Z Z := {[6 := m; 7 := n]}.

(** The machine on entry to [kernel]: parameters and constants have their
    values and the variables of the entry block are initialised. *)
Definition initial_state (m n : Z) : Machine :=
  match loop_blocks with
  | entry :: _ =>
      init_variables (variables entry)
        (mkMachine (loop_arguments m n
                    ∪ constant_values loop_types (constants (module emitted_loop))) ∅ [])
  | [] => mkMachine ∅ ∅ []
  end.

(** Running [kernel] with minimum [m] and extent [n] comes to the end of
    the merge block (label 16) having entered the body block (label 14)
    [k] times, whatever fuel above some bound it is given. *)
Definition body_executions (m n : Z) (k : nat) : Prop :=
  exists fuel0 : nat, forall fuel : nat, (fuel0 <= fuel)%nat ->
    exists st, run_function fuel emitted_loop 0%nat (loop_arguments m n) = (FellOff 16, st)
               /\ times_entered 14 st = k.

(** A thread loop over dimension x with a constant extent. *)
Definition thread_loop (extent : Z) : For (list SpvInstruction) :=
  mkFor "f.s0.x.__thread_id_x" (IntImm (Int 32 1) 0) (IntImm (Int 32 1) extent)
        GPUThread [].

(** [cast(int16, v) + z] with [v : int8] and [z : int16]: one operand of the
    sum is a widening cast. *)
Definition sum_with_widened_operand : Expr :=
  Add (Cast (Int 16 1) (Variable_ (Int 8 1) "v")) (Variable_ (Int 16 1) "z").

Definition at_int16_max : gmap string Z := {[ "v"%string := 0; "z"%string := 32767 ]}.

(** The operands of scenario S2 and its input
    [shift_right(widening_add(x, y) + 1, 1)]. *)
Definition s2_x : Expr := Variable_ (UInt 8 8) "x".
Definition s2_y : Expr := Variable_ (UInt 8 8) "y".
Definition s2_input : Expr :=
  shr (Add (mk_widening_add s2_x s2_y) (make_const (UInt 16 8) 1))
      (make_const (UInt 16 8) 1).

(** The order of sign codes in the words of the specification. *)
Definition claimed_codes (t : Type_) : list halide_type_code_t :=
  [code t; halide_type_uint; halide_type_int].

(** Try the codes in order; the first one on which the attempt succeeds
    wins. *)
Fixpoint first_code {A : Type} (attempt : halide_type_code_t -> option A)
    (codes : list halide_type_code_t) : option (halide_type_code_t * A) :=
  match codes with
  | [] => None
  | c :: rest =>
      match attempt c with
      | Some x => Some (c, x)
      | None => first_code attempt rest
      end
  end.

(** Both operands narrow without loss to half the width of [t] with sign
    code [c]. *)
Definition both_narrow `{Collaborators} (t : Type_) (a b : Expr) (c : halide_type_code_t)
  : option (Expr * Expr) :=
  match lossless_cast (with_code (HalideType.narrow t) c) a,
        lossless_cast (with_code (HalideType.narrow t) c) b with
  | Some narrow_a, Some narrow_b => Some (narrow_a, narrow_b)
  | _, _ => None
  end.

(** Exactly one operand narrows without loss to half the width of [t] with
    sign code [c]: [(true, narrow_a)] for the left one, [(false, narrow_b)]
    for the right one. *)
Definition one_narrows `{Collaborators} (t : Type_) (a b : Expr) (c : halide_type_code_t)
  : option (bool * Expr) :=
  match lossless_cast (with_code (HalideType.narrow t) c) a,
        lossless_cast (with_code (HalideType.narrow t) c) b with
  | Some narrow_a, None => Some (true, narrow_a)
  | None, Some narrow_b => Some (false, narrow_b)
  | _, _ => None
  end.

End Scenario.

(** * Builder sessions *)

Module Session.
Import Spirv.

(** The calls of a builder session that can allocate ids. *)
Inductive BuilderCall : Type :=
| call_make_id (kind : SpvKind)
| call_reserve_id (kind : SpvKind)
| call_declare_type (type : Type_) (array_size : Z)
| call_add_type (type : Type_) (array_size : Z)
| call_declare_pointer_type (type : Type_) (storage_class : SpvStorageClass)
| call_declare_pointer_type_id (type_id : SpvId) (storage_class : SpvStorageClass)
| call_add_pointer_type (type : Type_) (storage_class : SpvStorageClass)
| call_add_pointer_type_id (type_id : SpvId) (storage_class : SpvStorageClass)
| call_declare_function_type (return_type : SpvId) (param_types : list SpvId)
| call_add_function (name : string) (return_type : SpvId) (param_types : list SpvId)
| call_declare_variable (name : string) (type_id : SpvId)
    (storage_class : SpvStorageClass) (init_id : SpvId)
| call_declare_scalar_constant (type : Type_) (data : list Z)
| call_enter_function (func_id : SpvId).

Section Run.
Context `{SpirvHeader}.

Definition run_call (c : BuilderCall) : M SpvBuilder unit :=
  match c with
  | call_make_id kind => make_id kind ;; ret tt
  | call_reserve_id kind => reserve_id kind ;; ret tt
  | call_declare_type type array_size => declare_type type array_size ;; ret tt
  | call_add_type type array_size => add_type type array_size ;; ret tt
  | call_declare_pointer_type type sc => declare_pointer_type type sc ;; ret tt
  | call_declare_pointer_type_id type_id sc => declare_pointer_type_id type_id sc ;; ret tt
  | call_add_pointer_type type sc => add_pointer_type type sc ;; ret tt
  | call_add_pointer_type_id type_id sc => add_pointer_type_id type_id sc ;; ret tt
  | call_declare_function_type r ps => declare_function_type r ps ;; ret tt
  | call_add_function name r ps => add_function name r ps ;; ret tt
  | call_declare_variable name t sc init => declare_variable name t sc init ;; ret tt
  | call_declare_scalar_constant t data => declare_scalar_constant t data ;; ret tt
  | call_enter_function func_id =>
      do b <- get;
      match function_map b !! func_id with
      | Some fh => enter_function fh
      | None => user_error
      end
  end.

Fixpoint run_session (calls : list BuilderCall) : M SpvBuilder unit :=
  match calls with
  | [] => ret tt
  | c :: rest => run_call c ;; run_session rest
  end.

(** The builder after [finalize]; [finalize] cannot fail. *)
Definition finalized (b : SpvBuilder) : SpvBuilder :=
  match finalize b with
  | Ok (_, b') => b'
  | _ => b
  end.

End Run.

End Session.

(** * Invariants and predicates of the properties *)

Module Invariants.
Import Spirv IR FindIntrinsics SpirvExec.

(** The next id that [make_id] hands out, before truncation to 32 bits. *)
Definition next_id (b : SpvBuilder) : Z := Z.of_nat (size (kind_map b)) + 1.

(** The allocated ids are exactly [1 .. size kind_map]. *)
Definition ids_dense (b : SpvBuilder) : Prop :=
  forall id, is_Some (kind_map b !! id) <-> 1 <= id < next_id b.

(** [b'] is reached from [b] by allocations: the number of ids does not
    shrink and, as long as ids fit 32 bits, stay dense. *)
Definition grows (b b' : SpvBuilder) : Prop :=
  next_id b <= next_id b' /\ (next_id b' <= 2 ^ 32 -> ids_dense b -> ids_dense b').

Definition allocates {A : Type} (m : M SpvBuilder A) : Prop :=
  forall b a b', m b = Ok (a, b') -> grows b b'.

(** [m] never stops for lack of fuel. *)
Definition terminates {A : Type} (m : M SpvBuilder A) : Prop :=
  forall b, m b <> OutOfFuel.

(** The state on entry to the header block: the loop variable holds [i],
    the bound is [mx], and the constant one is in place. *)
Definition at_header (mx i : Z) (st : Machine) : Prop :=
  memory st !! 11 = Some i /\ values st !! 10 = Some mx /\ values st !! 21 = Some 1.

(** Where [lower_intrinsic] and [lower_intrinsic_semantically] take the
    same branch. *)
Definition lowerings_agree (op : IntrinsicOp) (t : Type_) : bool :=
  match op with
  | widen_right_add | widen_right_mul | widen_right_sub
  | widening_add | widening_mul | widening_sub
  | widening_shift_left | widening_shift_right | saturating_cast => true
  | rounding_mul_shift_right => 16 <? bits t
  | saturating_add | saturating_sub | rounding_shift_left | rounding_shift_right
  | halving_add | halving_sub | rounding_halving_add | mul_shift_right => 32 <? bits t
  | _ => false
  end.

End Invariants.

(** * Binary encoding of instructions, blocks and functions (SpirvIR.cpp) *)

Module SpirvEncode.
Import Spirv.

(** Values of spirv.h, which is not part of the sources: the position of
    the word count in the first word of an instruction and the numeric
    value of each opcode. *)
Class SpirvOpcodes : Type := {
  SpvWordCountShift : Z;
  op_value : SpvOp -> Z
}.

Section Encode.
Context `{SpirvOpcodes}.

(** [SpvInstruction::encode]: the words pushed to the back of [binary]. *)
Definition SpvInstruction_encode (i : SpvInstruction) (binary : list Z) : list Z :=
  (* Count the number of 32-bit words to represent the instruction *)
  let word_count := 1 in
  let word_count := uint32 (word_count + (if SpvInst.has_type i then 1 else 0)) in
  let word_count := uint32 (word_count + (if SpvInst.has_result i then 1 else 0)) in
  let word_count := uint32 (word_count + uint32 (SpvInst.length i)) in
  (* Preface the instruction with the format
     - high 16-bits indicate instruction length (number of 32-bit words)
     - low 16-bits indicate op code *)
  let binary :=
    binary ++ [uint32 (Z.lor (Z.shiftl word_count SpvWordCountShift)
                             (op_value (op_code i)))] in
  let binary := if SpvInst.has_type i then binary ++ [type_id i] else binary in
  let binary := if SpvInst.has_result i then binary ++ [result_id i] else binary in
  fold_left (fun binary id => binary ++ [id]) (operands i) binary.

Definition encode_all (insts : list SpvInstruction) (binary : list Z) : list Z :=
  fold_left (fun binary inst => SpvInstruction_encode inst binary) insts binary.

(** [SpvBlock::encode]. *)
Definition SpvBlock_encode (c : SpvBlockContents) (binary : list Z) : list Z :=
  (* add a label for this block *)
  let binary := SpvInstruction_encode (SpvFactory.label (block_id c)) binary in
  (* encode all variables *)
  let binary := encode_all (variables c) binary in
  (* encode all instructions *)
  encode_all (instructions c) binary.

(** [SpvFunction::encode]; a block handle that is not defined stops with
    the [user_assert] of [check_defined]. *)
Definition SpvFunction_encode (b : SpvBuilder) (c : SpvFunctionContents)
    (binary : list Z) : result (list Z) :=
  let binary := SpvInstruction_encode (declaration c) binary in
  let binary := encode_all (parameters c) binary in
  try binary <-
    fold_left (fun acc h =>
                 try binary <- acc;
                 match block_store b !! h with
                 | Some blk => Ok (SpvBlock_encode blk binary)
                 | None => UserError
                 end) (blocks c) (Ok binary);
  Ok (SpvInstruction_encode (SpvInst.make SpvOpFunctionEnd) binary).

(** Reading a binary back frame by frame: the first word of a frame gives
    its length in its high bits. *)
Fixpoint frames (fuel : nat) (binary : list Z) : option (list (list Z)) :=
  match binary with
  | [] => Some []
  | header :: _ =>
      match fuel with
      | O => None
      | S fuel =>
          let n := Z.to_nat (Z.shiftr header SpvWordCountShift) in
          if (0 <? n)%nat && (n <=? length binary)%nat then
            match frames fuel (drop n binary) with
            | Some rest => Some (take n binary :: rest)
            | None => None
            end
          else None
      end
  end.

(** The words of one instruction, and their number. *)
Definition instruction_words (i : SpvInstruction) : list Z :=
  SpvInstruction_encode i [].

Definition word_count (i : SpvInstruction) : Z :=
  1 + (if SpvInst.has_type i then 1 else 0) + (if SpvInst.has_result i then 1 else 0)
  + Z.of_nat (length (operands i)).

(** The instructions of a block and of a function, in the order in which
    they are written. *)
Definition block_instructions (c : SpvBlockContents) : list SpvInstruction :=
  SpvFactory.label (block_id c) :: variables c ++ instructions c.

Definition function_instructions (c : SpvFunctionContents) (blks : list SpvBlockContents)
  : list SpvInstruction :=
  declaration c :: parameters c
    ++ concat (map block_instructions blks)
    ++ [SpvInst.make SpvOpFunctionEnd].

End Encode.

End SpirvEncode.

(** * Queries of the builder (SpirvIR.cpp) *)

Module SpirvQueries.
Import Spirv.

Section Queries.
Context `{SpirvHeader}.

Definition is_pointer_type (id : SpvId) (b : SpvBuilder) : bool :=
  match base_type_map b !! id with Some _ => true | None => false end.

Definition is_vector_type (id : SpvId) (b : SpvBuilder) : bool :=
  bool_decide (kind_of id b = SpvVectorTypeId).

Definition is_scalar_type (id : SpvId) (b : SpvBuilder) : bool :=
  bool_decide (kind_of id b = SpvFloatTypeId)
  || bool_decide (kind_of id b = SpvIntTypeId)
  || bool_decide (kind_of id b = SpvBoolTypeId).

Definition is_array_type (id : SpvId) (b : SpvBuilder) : bool :=
  bool_decide (kind_of id b = SpvArrayTypeId).

Definition is_constant (id : SpvId) (b : SpvBuilder) : bool :=
  bool_decide (kind_of id b = SpvConstantId)
  || bool_decide (kind_of id b = SpvBoolConstantId)
  || bool_decide (kind_of id b = SpvIntConstantId)
  || bool_decide (kind_of id b = SpvFloatConstantId)
  || bool_decide (kind_of id b = SpvStringConstantId)
  || bool_decide (kind_of id b = SpvCompositeConstantId).

(** [has_variable]. *)
Definition has_variable (name : string) (type_id : SpvId)
    (storage_class : SpvStorageClass) (scope_id : SpvId) (b : SpvBuilder) : bool :=
  negb (lookup_variable name type_id storage_class scope_id b =? SpvInvalidId).

(** [lookup_function]: the undefined function when the id is not one. *)
Definition lookup_function (func_id : SpvId) (b : SpvBuilder) : option FunctionHandle :=
  function_map b !! func_id.

End Queries.

End SpirvQueries.

(** * Wrapping native buffers (runtime/vulkan.cpp) *)

Module VulkanRuntime.

(** The device interfaces a buffer can point to. *)
Inductive DeviceInterface : Set :=
| vulkan_device_interface
| other_device_interface (n : nat).

(** The fields of [halide_buffer_t] that the wrap functions read and
    write. *)
Record halide_buffer_t : Set := mkBuffer {
  device : Z;
  device_interface : option DeviceInterface
}.

(** [use_module] and [release_module] of the interface a buffer points to
    are calls out of this file; the state keeps their sequence. *)
Inductive ModuleCall : Set :=
| use_module (i : DeviceInterface)
| release_module (i : DeviceInterface).

Record Runtime : Set := mkRuntime {
  buf : halide_buffer_t;
  module_calls : list ModuleCall
}.

(** [halide_vulkan_wrap_vk_buffer]; [halide_debug_assert] is compiled out
    of the release runtime, which is the one modelled. *)
Definition halide_vulkan_wrap_vk_buffer (vk_buffer : Z) : M Runtime Z := fun r =>
  if negb (device (buf r) =? 0) then Ok (-2, r)
  else
    Ok (0, mkRuntime (mkBuffer (uint64 vk_buffer) (Some vulkan_device_interface))
                     (module_calls r ++ [use_module vulkan_device_interface])).

(** [halide_vulkan_detach_vk_buffer]; calling through a null
    [device_interface] has no defined result. *)
Definition halide_vulkan_detach_vk_buffer : M Runtime Z := fun r =>
  if device (buf r) =? 0 then Ok (0, r)
  else
    match device_interface (buf r) with
    | Some i => Ok (0, mkRuntime (mkBuffer 0 None) (module_calls r ++ [release_module i]))
    | None => UndefinedBehavior
    end.

(** [halide_vulkan_get_vk_buffer]. *)
Definition halide_vulkan_get_vk_buffer (r : Runtime) : Z :=
  if device (buf r) =? 0 then 0 else uint64 (device (buf r)).

End VulkanRuntime.

(** * More of the emitter (CodeGen_Vulkan_Dev.cpp) *)

Module EmitterMore.
Import Spirv IR FindIntrinsics CodeGen_Vulkan_Dev.

(** [starts_with] of Util.h. *)
Definition starts_with (s prefix : string) : bool := String.prefix prefix s.

Inductive SpvBuiltIn : Set := SpvBuiltInWorkgroupId | SpvBuiltInLocalInvocationId.

(** Map the SPIR-V builtin intrinsic name to its corresponding enum value *)
Definition map_simt_builtin (intrinsic_name : string) : result SpvBuiltIn :=
  if starts_with intrinsic_name "Workgroup" then Ok SpvBuiltInWorkgroupId
  else if starts_with intrinsic_name "Local" then Ok SpvBuiltInLocalInvocationId
  else InternalError.

(** The workgroup checks of the thread loops of a kernel, in the order the
    loops are visited. *)
Fixpoint save_workgroup_sizes {Stmt : Type} (loops : list (For Stmt))
  : M SPIRV_Emitter unit :=
  match loops with
  | [] => ret tt
  | op :: rest => save_workgroup_size op ;; save_workgroup_sizes rest
  end.

End EmitterMore.

(** * Predicates of the properties of the builder *)

Module BuilderSpecs.
Import Spirv Invariants.

(** [m] leaves the part [proj] of the builder alone. *)
Definition keeps {T A : Type} (proj : SpvBuilder -> T) (m : M SpvBuilder A) : Prop :=
  forall b a b1, m b = Ok (a, b1) -> proj b1 = proj b.

(** [m] takes the builder from one state to a state related by [R]. *)
Definition respects (R : SpvBuilder -> SpvBuilder -> Prop) {A : Type}
    (m : M SpvBuilder A) : Prop :=
  forall b a b', m b = Ok (a, b') -> R b b'.

(** The allocated ids keep their kinds, and with room for the ids a dense
    builder stays dense. *)
Definition extends (b b' : SpvBuilder) : Prop :=
  next_id b <= next_id b'
  /\ (next_id b' <= 2 ^ 32 -> ids_dense b ->
      ids_dense b' /\ forall id k, kind_map b !! id = Some k -> kind_map b' !! id = Some k).

(** Where a scalar constant is recorded: under the key of its type and
    bytes, or, for a boolean whose byte is neither 0 nor 1, under the key
    of the boolean it stands for. *)
Definition constant_recorded (type : Type_) (data : list Z) (id : SpvId)
    (b : SpvBuilder) : Prop :=
  constant_map b !! make_constant_key type data = Some id
  \/ (constant_map b !! make_constant_key type data = None
      /\ is_bool type = true
      /\ constant_map b !! make_constant_key (Bool_ 1)
                             [Z.b2z (negb (default 0 (head data) =? 0))] = Some id).

(** A function with its parameters replaced. *)
Definition with_parameters (c : SpvFunctionContents) (ps : list SpvInstruction)
  : SpvFunctionContents :=
  mkFunction (function_id c) (function_type_id c) (return_type_id c) (control_mask c)
    (declaration c) ps (blocks c).

(** What [finalize] does to the module. *)
Definition finalized_module (last_id : SpvId) (m : SpvModuleContents) : SpvModuleContents :=
  let m := SpvModule.set_binding_count last_id m in
  let m := if bool_decide (SpvCapabilityInt8 ∈ capabilities m)
           then SpvModule.require_extension "SPV_KHR_8bit_storage" m else m in
  if bool_decide (SpvCapabilityInt16 ∈ capabilities m)
  then SpvModule.require_extension "SPV_KHR_16bit_storage" m else m.

(** The kind of the id that [add_type] allocates for a type. *)
Definition type_kind (type : Type_) (array_size : Z) : SpvKind :=
  if 1 <? array_size then SpvArrayTypeId
  else if is_vector type then SpvVectorTypeId
  else if is_handle type then SpvVoidTypeId
  else if is_bool type then SpvBoolTypeId
  else if is_float type then SpvFloatTypeId
  else SpvIntTypeId.

End BuilderSpecs.

(** * Predicates of the properties of the lowering *)

Module LoweringSpecs.
Import IR Eval FindIntrinsics.

(** [v] is a value of the integer type [t]. *)
Definition in_range (t : Type_) (v : Z) : Prop := type_min t <= v <= type_max t.

(** The intrinsics that [lower_intrinsic] has a branch for. *)
Definition has_lowering (name : CallName) : bool :=
  match name with
  | Intrinsic (widen_right_add | widen_right_mul | widen_right_sub
              | widening_add | widening_mul | widening_sub
              | saturating_add | saturating_sub | saturating_cast
              | widening_shift_left | widening_shift_right
              | rounding_shift_right | rounding_shift_left
              | halving_add | halving_sub | rounding_halving_add
              | rounding_mul_shift_right | mul_shift_right
              | sorted_avg | absd) => true
  | _ => false
  end.

(** No call of an intrinsic that [lower_intrinsic] has a branch for occurs
    in the expression. *)
Fixpoint fully_lowered (e : Expr) : bool :=
  match e with
  | IntImm _ _ | UIntImm _ _ | FloatImm _ _ | Variable_ _ _ => true
  | Cast _ v | Reinterpret _ v | Broadcast v _ | VectorReduce _ v => fully_lowered v
  | Add x y | Sub x y | Mul x y | Div x y | Mod x y | Min x y | Max x y
  | EQ x y | NE x y | LT x y | LE x y | GT x y | GE x y =>
      fully_lowered x && fully_lowered y
  | Select c x y => fully_lowered c && fully_lowered x && fully_lowered y
  | Let_ _ v body => fully_lowered v && fully_lowered body
  | Call _ name args =>
      negb (has_lowering name)
      && (fix go (l : list Expr) : bool :=
            match l with
            | [] => true
            | x :: r => fully_lowered x && go r
            end) args
  end.

End LoweringSpecs.

(** * More scenarios *)

Module MoreScenarios.
Import Spirv IR Eval FindIntrinsics CodeGen_Vulkan_Dev SpirvEncode VulkanRuntime.

(** The values of spirv.h in the SPIR-V headers that the Halide sources
    include. *)
#[global] Instance spirv_opcodes : SpirvOpcodes :=
  {| SpvWordCountShift := 16;
     op_value := fun op =>
       match op with
       | SpvOpNop => 0 | SpvOpLabel => 248 | SpvOpTypeVoid => 19 | SpvOpTypeBool => 20
       | SpvOpTypeInt => 21 | SpvOpTypeFloat => 22 | SpvOpTypeVector => 23
       | SpvOpTypeArray => 28 | SpvOpTypePointer => 32 | SpvOpConstant => 43
       | SpvOpConstantTrue => 41 | SpvOpConstantFalse => 42
       | SpvOpConstantComposite => 44 | SpvOpVariable => 59 | SpvOpLoad => 61
       | SpvOpStore => 62 | SpvOpIAdd => 128 | SpvOpSLessThan => 177
       | SpvOpULessThan => 176 | SpvOpSLessThanEqual => 179
       | SpvOpULessThanEqual => 178 | SpvOpLoopMerge => 246
       | SpvOpSelectionMerge => 247 | SpvOpBranch => 249
       | SpvOpBranchConditional => 250 | SpvOpSwitch => 251 | SpvOpKill => 252
       | SpvOpReturn => 253 | SpvOpReturnValue => 254 | SpvOpUnreachable => 255
       | SpvOpFunction => 54 | SpvOpFunctionParameter => 55 | SpvOpFunctionEnd => 56
       | SpvOpTypeFunction => 33 | SpvOpCompositeExtract => 81 | SpvOpBitcast => 124
       | SpvOpOther n => n mod 2 ^ 16
       end |}.

(** The state after a call that succeeds. *)
Definition after {S A : Type} (m : M S A) (s : S) : S :=
  match m s with
  | Ok (_, s') => s'
  | _ => s
  end.

(** The builder of [Scenario.kernel_emitter]: one function [kernel],
    entered at its entry block. *)
Definition kernel_state : SpvBuilder := builder Scenario.kernel_emitter.

(** Two 8-bit unsigned operands and two 8-bit signed ones, with their
    values. *)
Definition u8_x : Expr := Variable_ (UInt 8 1) "x".
Definition u8_y : Expr := Variable_ (UInt 8 1) "y".
Definition i8_x : Expr := Variable_ (Int 8 1) "x".
Definition i8_y : Expr := Variable_ (Int 8 1) "y".
Definition u8_values : gmap string Z := {[ "x"%string := 200; "y"%string := 250 ]}.
Definition i8_values : gmap string Z := {[ "x"%string := -128; "y"%string := 127 ]}.

(** The function of [Scenario.linking_builder] and its blocks. *)
Definition linked_function : SpvFunctionContents :=
  default (mkFunction 0 0 0 0 (SpvInst.make SpvOpNop) [] [])
          (function_store Scenario.linking_builder !! 0%nat).
Definition linked_blocks : list SpvBlockContents :=
  SpirvExec.function_blocks Scenario.linking_builder 0%nat.

(** A block with label 9 that branches to the block with label 3. *)
Definition branching_block : SpvBlockContents :=
  mkBlock 9 None [SpvFactory.branch 3] [] true.

(** A buffer without device allocation, and one that is wrapped already. *)
Definition fresh_buffer : Runtime := mkRuntime (mkBuffer 0 None) [].
Definition wrapped_buffer : Runtime :=
  mkRuntime (mkBuffer 4096 (Some vulkan_device_interface))
            [use_module vulkan_device_interface].

End MoreScenarios.

(** * The serial loop of the emitter (CodeGen_Vulkan_Dev.cpp) *)

Module SerialLoop.
Import Spirv IR FindIntrinsics CodeGen_Vulkan_Dev SpirvExec Invariants.

(** The ids that the serial branch of [visit(For)] names. *)
Record LoopIds : Set := mkLoopIds {
  index_type_id : SpvId;
  index_var_type_id : SpvId;
  min_id : SpvId;
  extent_id : SpvId;
  max_id : SpvId;
  loop_var_id : SpvId;
  header_block_id : SpvId;
  top_block_id : SpvId;
  body_block_id : SpvId;
  continue_block_id : SpvId;
  merge_block_id : SpvId;
  current_index_id : SpvId;
  loop_test_type_id : SpvId;
  loop_test_id : SpvId;
  next_index_id : SpvId;
  constant_one_id : SpvId
}.

Section Layout.
Context `{SpirvHeader}.

(** The instructions that the branch appends, region by region. *)
Definition bound_code (L : LoopIds) : list SpvInstruction :=
  [SpvFactory.integer_add (index_type_id L) (max_id L) (min_id L) (extent_id L);
   SpvFactory.branch (header_block_id L)].

Definition loop_variable (L : LoopIds) : SpvInstruction :=
  SpvFactory.variable (loop_var_id L) (index_var_type_id L) SpvStorageClassFunction
    (min_id L).

Definition header_code (L : LoopIds) : list SpvInstruction :=
  [SpvFactory.loop_merge (merge_block_id L) (continue_block_id L) SpvLoopControlMaskNone;
   SpvFactory.branch (top_block_id L)].

Definition top_code (L : LoopIds) : list SpvInstruction :=
  [SpvFactory.load (index_type_id L) (current_index_id L) (loop_var_id L)
     SpvMemoryAccessMaskNone;
   SpvFactory.less_than_equal (loop_test_type_id L) (loop_test_id L)
     (current_index_id L) (max_id L) true;
   SpvFactory.conditional_branch (loop_test_id L) (body_block_id L) (merge_block_id L) []].

Definition continue_code (L : LoopIds) : list SpvInstruction :=
  [SpvFactory.integer_add (index_type_id L) (next_index_id L) (current_index_id L)
     (constant_one_id L);
   SpvFactory.store (loop_var_id L) (next_index_id L) SpvMemoryAccessMaskNone;
   SpvFactory.branch (header_block_id L)].

(** Instructions as the block with handle [h] stores them:
    [add_instruction] records the block in each one. *)
Definition stored (h : BlockHandle) (code : list SpvInstruction) : list SpvInstruction :=
  map (SpvInst.set_block h) code.

Definition append_code (h : BlockHandle) (code : list SpvInstruction)
    (c : SpvBlockContents) : SpvBlockContents :=
  mkBlock (block_id c) (parent c) (instructions c ++ stored h code) (variables c)
    (reachable c).

(** From [b] to [b1] the instructions [code] were appended to the current
    block and nothing else happened to the functions, the blocks and the
    symbols; ids may have been allocated. *)
Definition emits (code : list SpvInstruction) (b b1 : SpvBuilder) : Prop :=
  grows b b1
  /\ function_store b1 = function_store b
  /\ active_function b1 = active_function b
  /\ active_block b1 = active_block b
  /\ symbol_id_map b1 = symbol_id_map b
  /\ block_store b1 = match active_block b with
                      | Some h => alter (append_code h code) h (block_store b)
                      | None => block_store b
                      end.

(** A visitor that emits straight-line code only: whenever it returns, it
    has appended instructions to the current block, and possibly declared
    types and constants. *)
Definition straight_line {A : Type} (visit : A -> M SPIRV_Emitter unit) : Prop :=
  forall x e e1, visit x e = Ok (tt, e1) -> exists code, emits code (builder e) (builder e1).

(** The builder is in a function and its current block is the last block
    of that function. *)
Definition at_tail (b : SpvBuilder) : Prop :=
  exists fh c cur,
    active_function b = Some fh
    /\ function_store b !! fh = Some c
    /\ last (blocks c) = Some cur
    /\ active_block b = Some cur.

(** From [b] to [b1] the function under construction was extended and
    nothing else was done to it: the blocks that were there keep their
    labels and their variables, only the current one may have other
    instructions than before, blocks may have been created behind them, and
    the builder is at the tail of the function again. *)
Definition extends_function (b b1 : SpvBuilder) : Prop :=
  grows b b1
  /\ active_function b1 = active_function b
  /\ (forall fh c, active_function b = Some fh -> function_store b !! fh = Some c ->
        exists c1 more,
          function_store b1 !! fh = Some c1
          /\ blocks c1 = blocks c ++ more
          /\ Forall (fun h : BlockHandle => (length (block_store b) <= h)%nat) more)
  /\ (forall h x, block_store b !! h = Some x ->
        exists x1,
          block_store b1 !! h = Some x1
          /\ block_id x1 = block_id x
          /\ (active_block b <> Some h -> instructions x1 = instructions x)
          /\ (forall v, v ∈ variables x -> v ∈ variables x1))
  /\ at_tail b1.

(** A visitor that may emit blocks of its own: started at the tail of a
    function, it extends the function. *)
Definition nests {A : Type} (visit : A -> M SPIRV_Emitter unit) : Prop :=
  forall x e e1,
    visit x e = Ok (tt, e1) -> at_tail (builder e) -> extends_function (builder e) (builder e1).

(** The block with handle [h] has the label [label] and holds [code]. *)
Definition labelled (b : SpvBuilder) (h : BlockHandle) (label : SpvId)
    (code : list SpvInstruction) : Prop :=
  exists x,
    block_store b !! h = Some x /\ block_id x = label /\ instructions x = stored h code.

(** The function [fh] of [b] ends with the loop [L]: the block that was
    current ends with the computation of the bound and the branch to the
    header; the header, the top and the body block follow it, then the
    blocks that the body created, then the continue and the merge block;
    the last block of the body ends with the branch to the continue block;
    the merge block is empty and current; the entry block declares the loop
    variable; the result ids of the loop differ from each other. *)
Definition emitted (b : SpvBuilder) (fh : FunctionHandle) (L : LoopIds) : Prop :=
  exists c earlier pre pb before entry eb hh th bh bb inner lh lb code ch mh,
    active_function b = Some fh
    /\ function_store b !! fh = Some c
    /\ blocks c = earlier ++ [pre; hh; th; bh] ++ inner ++ [ch; mh]
    /\ block_store b !! pre = Some pb
    /\ instructions pb = before ++ stored pre (bound_code L)
    /\ head (blocks c) = Some entry
    /\ block_store b !! entry = Some eb
    /\ SpvInst.set_block entry (loop_variable L) ∈ variables eb
    /\ labelled b hh (header_block_id L) (header_code L)
    /\ labelled b th (top_block_id L) (top_code L)
    /\ block_store b !! bh = Some bb
    /\ block_id bb = body_block_id L
    /\ last (bh :: inner) = Some lh
    /\ block_store b !! lh = Some lb
    /\ instructions lb = code ++ stored lh [SpvFactory.branch (continue_block_id L)]
    /\ labelled b ch (continue_block_id L) (continue_code L)
    /\ labelled b mh (merge_block_id L) []
    /\ active_block b = Some mh
    /\ NoDup [max_id L; current_index_id L; loop_test_id L; next_index_id L].

(** The minimum and the extent of [L] are the ids that the visits of the
    loop's minimum and extent left as the current id, the extent visited
    where the minimum left the builder. *)
Definition reads_bounds {Stmt : Type} (accept_expr : Expr -> M SPIRV_Emitter unit)
    (op : For Stmt) (L : LoopIds) : Prop :=
  exists ea e0 eb e1,
    accept_expr (for_min op) ea = Ok (tt, e0)
    /\ min_id L = active_id (builder e0)
    /\ builder eb = builder e0
    /\ accept_expr (for_extent op) eb = Ok (tt, e1)
    /\ extent_id L = active_id (builder e1).

(** The machine where the bound is about to be computed: the minimum and
    the extent have the values [m] and [n], the constant one has its value
    and the loop variable holds [m]. *)
Definition at_bound (L : LoopIds) (m n : Z) (st : Machine) : Prop :=
  values st !! min_id L = Some m
  /\ values st !! extent_id L = Some n
  /\ values st !! constant_one_id L = Some 1
  /\ memory st !! loop_var_id L = Some m.

(** A property of the machine that the steps of the loop itself keep:
    writing the bound, the index, the test and the next index, storing to
    the loop variable, and entering a block. *)
Definition loop_invariant (L : LoopIds) (inv : Machine -> Prop) : Prop :=
  forall st, inv st ->
    (forall id v,
       id ∈ [max_id L; current_index_id L; loop_test_id L; next_index_id L] ->
       inv (set_value id v st))
    /\ (forall v, inv (set_memory (loop_var_id L) v st))
    /\ (forall label, inv (enter label st)).

(** Every run of the body reaches the continue block: started at the body
    block in a state of the loop it is, some blocks later, about to enter
    the continue block, has entered the body block once, and has written
    neither the loop variable nor the bound, the index and the constant
    one. *)
Definition body_runs (L : LoopIds) (types : list SpvInstruction)
    (blocks : list SpvBlockContents) (inv : Machine -> Prop) : Prop :=
  forall st, inv st ->
    exists k st',
      run (S k) types blocks (body_block_id L) st = (Running (continue_block_id L), st')
      /\ inv st'
      /\ memory st' !! loop_var_id L = memory st !! loop_var_id L
      /\ values st' !! max_id L = values st !! max_id L
      /\ values st' !! current_index_id L = values st !! current_index_id L
      /\ values st' !! constant_one_id L = values st !! constant_one_id L
      /\ times_entered (body_block_id L) st' = S (times_entered (body_block_id L) st).

(** The functions, the blocks, the position and the symbols of a builder. *)
Definition control (b : SpvBuilder) :=
  (function_store b, block_store b, active_function b, active_block b, symbol_id_map b).

(** A variable declared in the block with handle [h]. *)
Definition add_variable (h : BlockHandle) (var : SpvInstruction) (x : SpvBlockContents)
  : SpvBlockContents :=
  mkBlock (block_id x) (parent x) (instructions x)
    (variables x ++ [SpvInst.set_block h var]) (reachable x).

(** The blocks along the calls of the emitter: the blocks of the builder
    are split into the ones that were there, [old], and the ones created
    since, [new]; [c] is the current function and [ab] the current block. *)
Definition tracked (base b : SpvBuilder) (fh : FunctionHandle) (c : SpvFunctionContents)
    (N : nat) (old new : list SpvBlockContents) (ab : option BlockHandle) : Prop :=
  grows base b
  /\ active_function b = Some fh
  /\ function_store b !! fh = Some c
  /\ block_store b = old ++ new
  /\ length old = N
  /\ active_block b = ab.

(** The block with the label [label] holds [code]. *)
Definition block_at (blocks : list SpvBlockContents) (label : SpvId)
    (code : list SpvInstruction) : Prop :=
  exists c h, find_block blocks label = Some c /\ instructions c = stored h code.

(** The state on entry to the header block: the loop variable holds [i],
    the bound is [mx], the constant one is in place, and [inv] holds. *)
Definition at_loop_header (L : LoopIds) (inv : Machine -> Prop) (mx i : Z) (st : Machine)
  : Prop :=
  memory st !! loop_var_id L = Some i
  /\ values st !! max_id L = Some mx
  /\ values st !! constant_one_id L = Some 1
  /\ inv st.

End Layout.

End SerialLoop.

(** * The loop of the kernel scenario *)

Module KernelLoop.
Import Spirv IR FindIntrinsics CodeGen_Vulkan_Dev SpirvExec Invariants Scenario SerialLoop.

(** The emitter after it has visited [serial_loop] in [kernel]. *)
Definition loop_emitter : SPIRV_Emitter :=
  MoreScenarios.after
    (visit_For (H0 := idle) accept_leaf accept_body no_vector_constant (fun _ => false)
       serial_loop)
    kernel_emitter.

(** The ids of that loop. *)
Definition kernel_loop : LoopIds :=
  {| index_type_id := 3; index_var_type_id := 9; min_id := 6; extent_id := 7;
     max_id := 10; loop_var_id := 11; header_block_id := 12; top_block_id := 13;
     body_block_id := 14; continue_block_id := 15; merge_block_id := 16;
     current_index_id := 17; loop_test_type_id := 18; loop_test_id := 19;
     next_index_id := 20; constant_one_id := 21 |}.

(** A loop in a loop. Every call of [unique_name] in the sources returns a
    new name; the inner loop gets its own through collaborators of its
    own. *)
Definition inner_names : Collaborators :=
  {| simplify := fun e => e;
     can_prove := fun _ => false;
     lossless_cast := fun _ _ => None;
     lossless_negate := fun _ => None;
     unique_name := fun s => String.append s "_inner";
     enable_synthesized_rules := false;
     synthesized_rules := fun _ _ _ => None;
     substitute_in_widening_lets := fun e => e;
     common_subexpression_elimination := fun e => e |}.

(** [for (j = loop_min; extent loop_extent) for (i = loop_min; extent
    loop_extent) { nop }]. *)
Definition nested_loop : For (For (list SpvInstruction)) :=
  mkFor "j" (Variable_ (Int 32 1) "loop_min") (Variable_ (Int 32 1) "loop_extent")
        Serial serial_loop.

(** The emitter after it has visited [nested_loop] in [kernel]. *)
Definition nested_emitter : SPIRV_Emitter :=
  MoreScenarios.after
    (visit_For (H0 := idle) accept_leaf
       (visit_For (H0 := inner_names) accept_leaf accept_body no_vector_constant
          (fun _ => false))
       no_vector_constant (fun _ => false) nested_loop)
    kernel_emitter.

End KernelLoop.

(** * Properties of the SPIR-V builder *)

Module SpirvFacts.
Import Spirv Invariants.

Section Ids.
Context `{SpirvHeader}.

Lemma grows_refl b : grows b b.
Proof. split; [lia | auto]. Qed.

Lemma grows_trans b1 b2 b3 : grows b1 b2 -> grows b2 b3 -> grows b1 b3.
Proof.
  intros [H12 D12] [H23 D23]. split; [lia |].
  intros Hb Hd. apply D23; [assumption |]. apply D12; [lia | assumption].
Qed.

Lemma grows_same_kinds b b' : kind_map b' = kind_map b -> grows b b'.
Proof.
  intros E. unfold grows, ids_dense, next_id. rewrite E. split; [lia | auto].
Qed.

Lemma allocates_ret {A : Type} (a : A) : allocates (ret a).
Proof. intros b a' b' E. inversion E; subst. apply grows_refl. Qed.

Lemma allocates_bind {A B : Type} (m : M SpvBuilder A) (k : A -> M SpvBuilder B) :
  allocates m -> (forall a, allocates (k a)) -> allocates (bind m k).
Proof.
  intros Hm Hk b r b' E. unfold bind in E.
  destruct (m b) as [[a b1] | | | |] eqn:Em; try discriminate.
  eapply grows_trans; [eapply Hm | eapply Hk]; eassumption.
Qed.

Lemma allocates_get : allocates get.
Proof. intros b a b' E. inversion E; subst. apply grows_refl. Qed.

Lemma allocates_modify (f : SpvBuilder -> SpvBuilder) :
  (forall b, kind_map (f b) = kind_map b) -> allocates (modify f).
Proof. intros Hf b a b' E. inversion E; subst. apply grows_same_kinds, Hf. Qed.

Lemma allocates_fail {A : Type} (m : M SpvBuilder A) :
  (forall b a b', m b <> Ok (a, b')) -> allocates m.
Proof. intros Hm b a b' E. exfalso. eapply Hm, E. Qed.

Lemma allocates_internal_error {A : Type} : allocates (@internal_error SpvBuilder A).
Proof. apply allocates_fail. discriminate. Qed.

Lemma allocates_user_error {A : Type} : allocates (@user_error SpvBuilder A).
Proof. apply allocates_fail. discriminate. Qed.

Lemma allocates_undefined {A : Type} : allocates (@undefined_behavior SpvBuilder A).
Proof. apply allocates_fail. discriminate. Qed.

(** On a dense builder with room, [make_id] returns the next id, which was
    not allocated before, and the builder stays dense. *)
Lemma make_id_fresh kind b :
  ids_dense b -> next_id b < 2 ^ 32 ->
  exists b', make_id kind b = Ok (next_id b, b')
             /\ kind_map b' = <[next_id b := kind]> (kind_map b)
             /\ kind_map b !! next_id b = None
             /\ next_id b' = next_id b + 1
             /\ ids_dense b'.
Proof.
  intros Hd Hb.
  assert (Hnone : kind_map b !! next_id b = None).
  { destruct (kind_map b !! next_id b) eqn:E; [| reflexivity].
    assert (Hs : is_Some (kind_map b !! next_id b)) by (rewrite E; eauto).
    apply Hd in Hs. lia. }
  assert (Hu : uint32 (Z.of_nat (size (kind_map b)) + 1) = next_id b).
  { unfold uint32, wrap_unsigned, next_id in *. apply Z.mod_small. lia. }
  eexists. unfold make_id. rewrite Hu. split; [reflexivity |].
  split; [reflexivity |]. split; [assumption |].
  assert (Hn : next_id (upd_kind_map (fun m => <[next_id b := kind]> m) b) = next_id b + 1).
  { unfold next_id at 1. simpl. rewrite map_size_insert_None by assumption.
    unfold next_id. lia. }
  split; [assumption |].
  intros id. rewrite Hn. simpl. rewrite lookup_insert.
  destruct (decide (next_id b = id)) as [<- | Hne].
  - split; [intros _; unfold next_id; lia | eauto].
  - specialize (Hd id). rewrite Hd. lia.
Qed.

Lemma size_insert_ge (m : gmap Z SpvKind) (i : Z) (k : SpvKind) :
  (size m <= size (<[i := k]> m))%nat.
Proof. rewrite map_size_insert. destruct (m !! i); simpl; lia. Qed.

Lemma allocates_make_id kind : allocates (make_id kind).
Proof.
  intros b a b' E. unfold make_id in E. injection E as <- <-.
  set (item := uint32 (Z.of_nat (size (kind_map b)) + 1)).
  assert (Hle : next_id b <= next_id (upd_kind_map (fun m => <[item := kind]> m) b)).
  { unfold next_id. simpl. pose proof (size_insert_ge (kind_map b) item kind). lia. }
  split; [exact Hle |].
  intros Hb Hd.
  destruct (Z_lt_le_dec (next_id b) (2 ^ 32)) as [Hlt | Hge].
  - destruct (make_id_fresh kind b Hd Hlt) as (b1 & E1 & _ & _ & _ & D1).
    unfold make_id in E1. injection E1 as _ <-. exact D1.
  - exfalso.
    assert (Heq : next_id b = 2 ^ 32) by lia.
    assert (Hitem : item = 0).
    { unfold item, uint32, wrap_unsigned. unfold next_id in Heq. rewrite Heq.
      reflexivity. }
    assert (Hsome : is_Some (kind_map b !! item)).
    { destruct (kind_map b !! item) eqn:Ei; [eauto |].
      unfold next_id in Hb, Heq. simpl in Hb.
      rewrite map_size_insert_None in Hb by assumption. lia. }
    apply Hd in Hsome. lia.
Qed.

Create HintDb allocates.

Ltac allocates_step :=
  first
    [ apply allocates_ret | apply allocates_get | apply allocates_internal_error
    | apply allocates_user_error | apply allocates_undefined | apply allocates_make_id
    | apply allocates_modify; intros; reflexivity
    | apply allocates_bind; [| intros ?]
    | match goal with
      | |- allocates (if ?c then _ else _) => destruct c
      | |- allocates (match ?x with _ => _ end) => destruct x
      end ].

Ltac solve_allocates := repeat allocates_step.

Lemma allocates_require_capability c : allocates (require_capability c).
Proof. unfold require_capability. solve_allocates. Qed.

Lemma allocates_module_add_type i : allocates (module_add_type i).
Proof. unfold module_add_type. solve_allocates. Qed.

Lemma allocates_module_add_constant i : allocates (module_add_constant i).
Proof. unfold module_add_constant. solve_allocates. Qed.

Lemma allocates_add_type_rec fuel type array_size :
  allocates (add_type_rec fuel type array_size).
Proof.
  revert type array_size. induction fuel as [| fuel IH]; intros type array_size.
  - apply allocates_fail. discriminate.
  - cbn [add_type_rec]. lazy zeta.
    repeat first [ apply IH | apply allocates_module_add_type
                 | apply allocates_require_capability | allocates_step ].
Qed.

Lemma allocates_declare_type type array_size : allocates (declare_type type array_size).
Proof.
  unfold declare_type, add_type.
  repeat first [ apply allocates_add_type_rec | allocates_step ].
Qed.

Lemma allocates_add_pointer_type_id id sc : allocates (add_pointer_type_id id sc).
Proof.
  unfold add_pointer_type_id.
  repeat first [ apply allocates_module_add_type | allocates_step ].
Qed.

Lemma allocates_block_contents h : allocates (block_contents h).
Proof.
  intros b a b' E. unfold block_contents in E.
  destruct (block_store b !! h); [| discriminate]. injection E as _ <-. apply grows_refl.
Qed.

Lemma allocates_function_contents h : allocates (function_contents h).
Proof.
  intros b a b' E. unfold function_contents in E.
  destruct (function_store b !! h); [| discriminate]. injection E as _ <-. apply grows_refl.
Qed.

Lemma allocates_upd_block h f : allocates (upd_block h f).
Proof. unfold upd_block. repeat first [ apply allocates_block_contents | allocates_step ]. Qed.

Lemma allocates_upd_function h f : allocates (upd_function h f).
Proof.
  unfold upd_function. repeat first [ apply allocates_function_contents | allocates_step ].
Qed.

Lemma allocates_SpvBlock_make func id : allocates (SpvBlock_make func id).
Proof. intros b a b' E. injection E as _ <-. apply grows_same_kinds. reflexivity. Qed.

Lemma allocates_SpvFunction_make a1 a2 a3 a4 : allocates (SpvFunction_make a1 a2 a3 a4).
Proof. intros b a b' E. injection E as _ <-. apply grows_same_kinds. reflexivity. Qed.

#[local] Hint Resolve allocates_require_capability allocates_module_add_type
  allocates_module_add_constant allocates_add_type_rec allocates_declare_type
  allocates_add_pointer_type_id allocates_block_contents allocates_function_contents
  allocates_upd_block allocates_upd_function allocates_SpvBlock_make
  allocates_SpvFunction_make : allocates.

Ltac solve_allocates_with :=
  repeat first [ solve [eauto with allocates] | allocates_step ].

Lemma allocates_SpvBlock_is_terminated h : allocates (SpvBlock_is_terminated h).
Proof. unfold SpvBlock_is_terminated. solve_allocates_with. Qed.

Lemma allocates_SpvBlock_id h : allocates (SpvBlock_id h).
Proof. unfold SpvBlock_id. solve_allocates_with. Qed.

Lemma allocates_SpvBlock_add_instruction h i : allocates (SpvBlock_add_instruction h i).
Proof. unfold SpvBlock_add_instruction. solve_allocates_with. Qed.

Lemma allocates_SpvBlock_add_variable h i : allocates (SpvBlock_add_variable h i).
Proof. unfold SpvBlock_add_variable. solve_allocates_with. Qed.

Lemma allocates_SpvFunction_entry_block h : allocates (SpvFunction_entry_block h).
Proof. unfold SpvFunction_entry_block. solve_allocates_with. Qed.

Lemma allocates_SpvFunction_tail_block h : allocates (SpvFunction_tail_block h).
Proof. unfold SpvFunction_tail_block. solve_allocates_with. Qed.

#[local] Hint Resolve allocates_SpvBlock_is_terminated allocates_SpvBlock_id
  allocates_SpvBlock_add_instruction allocates_SpvBlock_add_variable
  allocates_SpvFunction_entry_block allocates_SpvFunction_tail_block : allocates.

Lemma allocates_SpvFunction_add_block fh bh : allocates (SpvFunction_add_block fh bh).
Proof. unfold SpvFunction_add_block. solve_allocates_with. Qed.

Lemma allocates_SpvFunction_create_block fh id : allocates (SpvFunction_create_block fh id).
Proof. unfold SpvFunction_create_block. solve_allocates_with. Qed.

Lemma allocates_add_symbol s id scope : allocates (add_symbol s id scope).
Proof. unfold add_symbol. solve_allocates_with. Qed.

#[local] Hint Resolve allocates_SpvFunction_add_block allocates_SpvFunction_create_block
  allocates_add_symbol : allocates.

Lemma allocates_declare_symbol s id scope : allocates (declare_symbol s id scope).
Proof. unfold declare_symbol. solve_allocates_with. Qed.

Lemma allocates_current_function : allocates current_function.
Proof. unfold current_function. solve_allocates_with. Qed.

Lemma allocates_add_parameters fh ps : allocates (add_parameters fh ps).
Proof.
  induction ps as [| p ps IH]; simpl; [apply allocates_ret |].
  unfold SpvFunction_add_parameter.
  repeat first [ apply IH | solve [eauto with allocates] | allocates_step ].
Qed.

Lemma allocates_declare_function_type r ps : allocates (declare_function_type r ps).
Proof. unfold declare_function_type, add_function_type. solve_allocates_with. Qed.

#[local] Hint Resolve allocates_declare_symbol allocates_current_function
  allocates_add_parameters allocates_declare_function_type : allocates.

Lemma allocates_add_function name r ps : allocates (add_function name r ps).
Proof. unfold add_function. solve_allocates_with. Qed.

Lemma allocates_declare_variable name t sc init : allocates (declare_variable name t sc init).
Proof. unfold declare_variable, reserve_id. solve_allocates_with. Qed.

Lemma allocates_declare_scalar_constant t data : allocates (declare_scalar_constant t data).
Proof.
  unfold declare_scalar_constant, declare_bool_constant, add_type. solve_allocates_with.
Qed.

Lemma allocates_enter_function fh : allocates (enter_function fh).
Proof. unfold enter_function, enter_block. solve_allocates_with. Qed.

Lemma allocates_run_call c : allocates (Session.run_call c).
Proof.
  destruct c; simpl; unfold reserve_id, add_type, declare_pointer_type,
    declare_pointer_type_id, add_pointer_type, lookup_pointer_type;
    repeat first [ apply allocates_add_function | apply allocates_declare_variable
                 | apply allocates_declare_scalar_constant | apply allocates_enter_function
                 | solve [eauto with allocates] | allocates_step ].
Qed.

Lemma allocates_run_session calls : allocates (Session.run_session calls).
Proof.
  induction calls as [| c calls IH]; simpl; [apply allocates_ret |].
  apply allocates_bind; [apply allocates_run_call | intros _; exact IH].
Qed.

Lemma reset_dense : ids_dense reset /\ next_id reset = 2 /\ module_id (module reset) = 1.
Proof.
  split; [| split; reflexivity].
  intros id. unfold reset, next_id. simpl.
  change (uint32 (Z.of_nat (size (∅ : gmap Z SpvKind)) + 1)) with 1.
  rewrite lookup_insert. destruct (decide (1 = id)) as [<- | Hne].
  - split; [intros _ | eauto]. rewrite map_size_insert_None by apply lookup_empty.
    rewrite map_size_empty. lia.
  - rewrite lookup_empty. split; [intros [x Hx]; discriminate |].
    rewrite map_size_insert_None by apply lookup_empty. rewrite map_size_empty. lia.
Qed.

Lemma require_extension_binding_count e m :
  binding_count (SpvModule.require_extension e m) = binding_count m.
Proof. unfold SpvModule.require_extension. destruct (bool_decide _); reflexivity. Qed.

Lemma finalize_kinds b :
  kind_map (Session.finalized b) = kind_map b
  /\ binding_count (module (Session.finalized b))
     = uint32 (Z.of_nat (size (kind_map b)) + 1).
Proof.
  unfold Session.finalized, finalize. cbv zeta.
  repeat match goal with |- context [if ?c then _ else _] => destruct c end;
    (split; [reflexivity |]); unfold upd_module; cbn [module];
    rewrite ?require_extension_binding_count; reflexivity.
Qed.

(** C8. In every builder session the allocated ids are exactly 1, 2, ..., N
    (the first one being the module id), each [make_id] returns the
    successor of the highest id allocated so far, and after [finalize] the
    module's [binding_count] is the highest allocated id plus one, which is
    the id the next allocation would return. The ids are 32-bit; the
    statement is for sessions that stay below that bound. *)
Theorem ids_consecutive_and_binding_count (calls : list Session.BuilderCall)
    (b : SpvBuilder) :
  Session.run_session calls reset = Ok (tt, b) ->
  next_id b < 2 ^ 32 ->
  (kind_map reset !! 1 = Some SpvModuleId)
  /\ (forall id, is_Some (kind_map (Session.finalized b) !! id) <-> 1 <= id < next_id b)
  /\ binding_count (module (Session.finalized b)) = (next_id b - 1) + 1
  /\ (forall kind, exists b',
        make_id kind (Session.finalized b)
        = Ok (binding_count (module (Session.finalized b)), b')).
Proof.
  intros Hrun Hbound.
  destruct reset_dense as (Hd0 & _ & _).
  pose proof (allocates_run_session calls _ _ _ Hrun) as [_ Hdense].
  specialize (Hdense ltac:(lia) Hd0).
  destruct (finalize_kinds b) as [Hk Hc].
  assert (Hu : uint32 (Z.of_nat (size (kind_map b)) + 1) = next_id b).
  { unfold uint32, wrap_unsigned, next_id in *. apply Z.mod_small. lia. }
  split; [reflexivity |]. split; [| split].
  - intros id. rewrite Hk. apply Hdense.
  - rewrite Hc, Hu. lia.
  - intros kind. rewrite Hc, Hu.
    assert (Hdf : ids_dense (Session.finalized b)).
    { intros id. unfold next_id. rewrite Hk. apply Hdense. }
    assert (Hnf : next_id (Session.finalized b) = next_id b).
    { unfold next_id. rewrite Hk. reflexivity. }
    destruct (make_id_fresh kind (Session.finalized b) Hdf ltac:(lia))
      as (b' & E & _).
    exists b'. rewrite E, Hnf. reflexivity.
Qed.

(** ** The recursion of [add_type] is bounded

    An array type declares its element type with array size 1, a vector
    type its scalar element type: three levels at most. *)

Lemma terminates_ret {A : Type} (a : A) : terminates (ret a).
Proof. intros b. discriminate. Qed.

Lemma terminates_get : terminates get.
Proof. intros b. discriminate. Qed.

Lemma terminates_modify f : terminates (modify f).
Proof. intros b. discriminate. Qed.

Lemma terminates_internal_error {A : Type} : terminates (@internal_error SpvBuilder A).
Proof. intros b. discriminate. Qed.

Lemma terminates_make_id kind : terminates (make_id kind).
Proof. intros b. discriminate. Qed.

Lemma terminates_bind {A B : Type} (m : M SpvBuilder A) (k : A -> M SpvBuilder B) :
  terminates m -> (forall a, terminates (k a)) -> terminates (bind m k).
Proof.
  intros Hm Hk b. unfold bind. specialize (Hm b).
  destruct (m b) as [[a b'] | | | |]; try discriminate; [apply Hk | contradiction].
Qed.

Ltac terminates_step :=
  first
    [ apply terminates_ret | apply terminates_get | apply terminates_internal_error
    | apply terminates_make_id | apply terminates_modify
    | apply terminates_bind; [| intros ?]
    | match goal with
      | |- terminates (if ?c then _ else _) => destruct c
      | |- terminates (match ?x with _ => _ end) => destruct x
      end ].

Lemma add_type_scalar_terminates fuel type array_size :
  (1 <? array_size) = false -> is_vector type = false ->
  terminates (add_type_rec (S fuel) type array_size).
Proof.
  intros Hsize Hscalar. cbn [add_type_rec]. lazy zeta.
  apply terminates_bind; [apply terminates_get | intros b].
  destruct (type_map b !! _); [apply terminates_ret |].
  rewrite Hsize, Hscalar.
  unfold module_add_type, require_capability. repeat terminates_step.
Qed.

Lemma add_type_element_terminates fuel type array_size :
  (1 <? array_size) = false ->
  terminates (add_type_rec (S (S fuel)) type array_size).
Proof.
  intros Hsize. destruct (is_vector type) eqn:Hvector;
    [| apply add_type_scalar_terminates; assumption].
  remember (S fuel) as inner eqn:Hinner.
  cbn [add_type_rec]. lazy zeta.
  apply terminates_bind; [apply terminates_get | intros b].
  destruct (type_map b !! _); [apply terminates_ret |].
  rewrite Hsize, Hvector. unfold module_add_type.
  repeat first
    [ match goal with
      | |- terminates (add_type_rec _ _ _) =>
          rewrite Hinner; apply add_type_scalar_terminates; reflexivity
      end
    | terminates_step ].
Qed.

Lemma add_type_terminates type array_size : terminates (add_type type array_size).
Proof.
  unfold add_type.
  destruct (1 <? array_size) eqn:Harray;
    [| apply add_type_element_terminates; exact Harray].
  change 3%nat with (S 2). remember 2%nat as inner eqn:Hinner.
  cbn [add_type_rec]. lazy zeta.
  apply terminates_bind; [apply terminates_get | intros b].
  destruct (type_map b !! _); [apply terminates_ret |].
  rewrite Harray. unfold module_add_type.
  repeat first
    [ match goal with
      | |- terminates (add_type_rec _ _ _) =>
          rewrite Hinner; apply add_type_element_terminates; reflexivity
      end
    | terminates_step ].
Qed.

Lemma terminates_user_error {A : Type} : terminates (@user_error SpvBuilder A).
Proof. intros b. discriminate. Qed.

Lemma terminates_undefined {A : Type} : terminates (@undefined_behavior SpvBuilder A).
Proof. intros b. discriminate. Qed.

Lemma terminates_block_contents h : terminates (block_contents h).
Proof. intros b. unfold block_contents. destruct (block_store b !! h); discriminate. Qed.

Lemma terminates_function_contents h : terminates (function_contents h).
Proof.
  intros b. unfold function_contents. destruct (function_store b !! h); discriminate.
Qed.

Lemma terminates_SpvBlock_make func id : terminates (SpvBlock_make func id).
Proof. intros b. discriminate. Qed.

Lemma terminates_SpvFunction_make a1 a2 a3 a4 : terminates (SpvFunction_make a1 a2 a3 a4).
Proof. intros b. discriminate. Qed.

Ltac solve_terminates :=
  repeat first
    [ match goal with
      | |- terminates (add_type _ _) => apply add_type_terminates
      | |- terminates user_error => apply terminates_user_error
      | |- terminates undefined_behavior => apply terminates_undefined
      | |- terminates (block_contents _) => apply terminates_block_contents
      | |- terminates (function_contents _) => apply terminates_function_contents
      | |- terminates (SpvBlock_make _ _) => apply terminates_SpvBlock_make
      | |- terminates (SpvFunction_make _ _ _ _) => apply terminates_SpvFunction_make
      end
    | terminates_step ].

Lemma terminates_add_parameters fh ps : terminates (add_parameters fh ps).
Proof.
  induction ps as [| p ps IH]; simpl; [apply terminates_ret |].
  unfold SpvFunction_add_parameter, upd_function.
  repeat first [ apply IH | solve_terminates ].
Qed.

(** No call of a session stops for lack of fuel. *)
Lemma terminates_run_call c : terminates (Session.run_call c).
Proof.
  destruct c; cbn [Session.run_call];
    unfold reserve_id, declare_type, declare_pointer_type, declare_pointer_type_id,
      add_pointer_type, lookup_pointer_type, add_pointer_type_id, declare_function_type,
      add_function_type, add_function, declare_variable, declare_scalar_constant,
      declare_bool_constant, enter_function, enter_block, current_function,
      declare_symbol, add_symbol, module_add_type, module_add_constant,
      require_capability, SpvFunction_add_block, SpvFunction_entry_block,
      SpvFunction_tail_block, SpvBlock_is_terminated, SpvBlock_id,
      SpvBlock_add_instruction, SpvBlock_add_variable, upd_block, upd_function;
    repeat first
      [ match goal with
        | |- terminates (add_parameters _ _) => apply terminates_add_parameters
        | |- terminates (let _ := _ in _) => cbv zeta
        | |- terminates (add_function_type _ _) => unfold add_function_type
        end
      | solve_terminates ].
Qed.

Lemma terminates_run_session calls : terminates (Session.run_session calls).
Proof.
  induction calls as [| c calls IH]; simpl; [apply terminates_ret |].
  apply terminates_bind; [apply terminates_run_call | intros _; exact IH].
Qed.

(** ** Linking blocks *)

Lemma blocks_nonempty_of_last (c : SpvFunctionContents) tail :
  last (blocks c) = Some tail -> bool_decide (blocks c = []) = false.
Proof.
  intros Hl. apply bool_decide_eq_false_2. intros E. rewrite E in Hl. discriminate.
Qed.

(** A function whose tail block holds at least one instruction and ends
    in one that is not a terminator gets, on [add_block], an unconditional
    branch to the new block's label appended to that tail block, and the
    new block is attached after it; when the tail block ends in a
    terminator (Branch, BranchConditional, Switch, Kill, Return,
    ReturnValue, Unreachable) no instruction is added and the block is only
    attached. *)
Lemma add_block_links_unterminated_tail (fh : FunctionHandle) (block : BlockHandle)
    (b : SpvBuilder) (c : SpvFunctionContents) (tail : BlockHandle)
    (tc bc : SpvBlockContents) (inst : SpvInstruction) :
  function_store b !! fh = Some c ->
  last (blocks c) = Some tail ->
  block_store b !! tail = Some tc ->
  last (instructions tc) = Some inst ->
  block_store b !! block = Some bc ->
  exists b',
    SpvFunction_add_block fh block b = Ok (tt, b')
    /\ function_store b' = <[fh := push_block block c]> (function_store b)
    /\ block_store b' =
       if is_terminator (op_code inst) then block_store b
       else <[tail := mkBlock (block_id tc) (parent tc)
                        (instructions tc
                         ++ [SpvInst.set_block tail (SpvFactory.branch (block_id bc))])
                        (variables tc) (reachable tc)]> (block_store b).
Proof.
  intros Hf Hl Ht Hi Hb.
  unfold SpvFunction_add_block, SpvFunction_tail_block, SpvBlock_is_terminated,
    SpvBlock_id, SpvBlock_add_instruction, upd_block, upd_function,
    block_contents, function_contents, bind, ret, modify, undefined_behavior.
  pose proof (blocks_nonempty_of_last c tail Hl) as Hne.
  repeat (first [rewrite Hf | rewrite Hne | rewrite Hl | rewrite Ht | rewrite Hi];
          cbv beta iota).
  destruct (is_terminator (op_code inst)); cbv beta iota.
  - cbn. rewrite Hf. eexists. repeat split.
  - rewrite Hb. cbv beta iota. rewrite Ht. cbn. rewrite Hf. eexists. repeat split.
Qed.

(** C7. A tail block that holds no instruction does not end in a
    terminator, yet adding a block to its function appends no branch to
    it: [add_block] and [create_block] ask [is_terminated], which reads
    [instructions.back()] of the empty vector, and neither has a defined
    result. *)
Theorem add_block_empty_tail (fh : FunctionHandle) (block : BlockHandle)
    (new_id : SpvId) (b : SpvBuilder) (c : SpvFunctionContents)
    (tail : BlockHandle) (tc : SpvBlockContents) :
  function_store b !! fh = Some c ->
  last (blocks c) = Some tail ->
  block_store b !! tail = Some tc ->
  instructions tc = [] ->
  SpvFunction_add_block fh block b = UndefinedBehavior
  /\ SpvFunction_create_block fh new_id b = UndefinedBehavior.
Proof.
  intros Hf Hl Ht Hi.
  pose proof (blocks_nonempty_of_last c tail Hl) as Hne.
  split.
  - unfold SpvFunction_add_block, SpvFunction_tail_block, SpvBlock_is_terminated,
      block_contents, function_contents, bind, ret, undefined_behavior.
    repeat (first [rewrite Hf | rewrite Hne | rewrite Hl | rewrite Ht | rewrite Hi];
            cbv beta iota).
    reflexivity.
  - unfold SpvFunction_create_block, SpvFunction_tail_block, SpvBlock_is_terminated,
      block_contents, function_contents, bind, ret, undefined_behavior.
    repeat (first [rewrite Hf | rewrite Hne | rewrite Hl | rewrite Ht | rewrite Hi];
            cbv beta iota).
    reflexivity.
Qed.

End Ids.

(** ** Pointer types *)

(** C6. On a fresh builder, [declare_pointer_type] for the undeclared
    type [Int 32] stops with an internal error and declares nothing. Once
    [Int 32] is declared (id 2), [declare_pointer_type] returns pointer
    type 3 whose recorded base type is [SpvInvalidId], not 2, and a
    pointer to the different declared type [UInt 8] in the same storage
    class receives that same pointer type id 3. *)
Theorem declare_pointer_type_records_invalid_base :
  declare_pointer_type (Int 32 1) SpvStorageClassFunction reset = InternalError
  /\ (exists b,
        (do t <- declare_type (Int 32 1) 1;
         do p <- declare_pointer_type (Int 32 1) SpvStorageClassFunction;
         do u <- declare_type (UInt 8 1) 1;
         do q <- declare_pointer_type (UInt 8 1) SpvStorageClassFunction;
         ret (t, p, u, q)) reset = Ok ((2, 3, 4, 3), b)
        /\ lookup_base_type 3 b = SpvInvalidId
        /\ pointer_type_map b !! (2, SpvStorageClassFunction) = None).
Proof.
  split; [vm_compute; reflexivity |].
  eexists. split; [vm_compute; reflexivity |].
  split; vm_compute; reflexivity.
Qed.

(** The sibling [add_pointer_type] on a type declares the base first and
    records it. *)
Lemma add_pointer_type_declares_base :
  exists b,
    (do p <- add_pointer_type (Int 32 1) SpvStorageClassFunction;
     do q <- add_pointer_type (Int 32 1) SpvStorageClassFunction;
     ret (p, q)) reset = Ok ((3, 3), b)
    /\ lookup_type (Int 32 1) 1 b = 2
    /\ lookup_base_type 3 b = 2
    /\ pointer_type_map b !! (2, SpvStorageClassFunction) = Some 3.
Proof.
  eexists. split; [vm_compute; reflexivity |].
  repeat split; vm_compute; reflexivity.
Qed.

(** After the serial loop of the scenario the emitter is in the merge
    block of the loop, which is still empty: the block that the next
    statement creates cannot be linked. *)
Lemma add_block_empty_tail_witness :
  SpvFunction_add_block 0%nat 1%nat Scenario.emitted_loop = UndefinedBehavior
  /\ SpvFunction_create_block 0%nat 30 Scenario.emitted_loop = UndefinedBehavior.
Proof.
  eapply (add_block_empty_tail 0%nat 1%nat 30 Scenario.emitted_loop);
    vm_compute; reflexivity.
Defined.

Lemma add_block_links_unterminated_tail_witness :
  exists b',
    SpvFunction_add_block 0%nat 1%nat Scenario.linking_builder = Ok (tt, b')
    /\ (instructions <$> block_store b' !! 0%nat)
       = Some [SpvInst.set_block 0%nat (SpvInst.make SpvOpNop);
               SpvInst.set_block 0%nat (SpvFactory.branch 9)]
    /\ (blocks <$> function_store b' !! 0%nat) = Some [0%nat; 1%nat].
Proof.
  edestruct (add_block_links_unterminated_tail 0%nat 1%nat Scenario.linking_builder)
    as (b' & E & Hf & Hs); try (vm_compute; reflexivity).
  exists b'. split; [exact E |]. rewrite Hs, Hf. split; vm_compute; reflexivity.
Defined.

Lemma ids_consecutive_and_binding_count_witness :
  exists b,
    Session.run_session
      [Session.call_declare_type (Int 32 1) 1; Session.call_make_id SpvResultId]
      reset = Ok (tt, b)
    /\ next_id b < 2 ^ 32
    /\ binding_count (module (Session.finalized b)) = (next_id b - 1) + 1.
Proof.
  eexists. split; [vm_compute; reflexivity |].
  split; [vm_compute; reflexivity |].
  eapply (ids_consecutive_and_binding_count
            [Session.call_declare_type (Int 32 1) 1; Session.call_make_id SpvResultId]).
  - vm_compute. reflexivity.
  - vm_compute. reflexivity.
Defined.

End SpirvFacts.

(** * Properties of the SPIR-V emitter *)

Module EmitterFacts.
Import Spirv IR FindIntrinsics CodeGen_Vulkan_Dev SpirvExec Scenario Invariants.

(** ** Machine integers *)

Lemma wrap_signed_small (z : Z) :
  - 2 ^ 31 <= z < 2 ^ 31 -> wrap_signed 32 z = z.
Proof.
  intros Hz. unfold wrap_signed.
  change (2 ^ (32 - 1)) with 2147483648. change (2 ^ 32) with 4294967296.
  change (2 ^ 31) with 2147483648 in Hz.
  rewrite Z.mod_small by lia. lia.
Qed.

Lemma wrap_signed_range (z : Z) : - 2 ^ 31 <= wrap_signed 32 z < 2 ^ 31.
Proof.
  unfold wrap_signed.
  change (2 ^ (32 - 1)) with 2147483648. change (2 ^ 32) with 4294967296.
  change (2 ^ 31) with 2147483648.
  pose proof (Z.mod_pos_bound (z + 2147483648) 4294967296 ltac:(lia)). lia.
Qed.

Lemma uint32_small (z : Z) : 0 <= z < 2 ^ 32 -> uint32 z = z.
Proof. intros Hz. unfold uint32, wrap_unsigned. apply Z.mod_small. exact Hz. Qed.

(** ** One step of each instruction *)

Lemma step_load T (inst : SpvInstruction) (m : Machine) ptr x v :
  op_code inst = SpvOpLoad -> operands inst = [ptr; x] -> memory m !! ptr = Some v ->
  step_inst T inst m = Next (set_value (result_id inst) v m).
Proof. intros Ho Ha Hm. unfold step_inst. rewrite Ho, Ha, Hm. reflexivity. Qed.

Lemma step_store T (inst : SpvInstruction) (m : Machine) ptr obj x v :
  op_code inst = SpvOpStore -> operands inst = [ptr; obj; x] -> values m !! obj = Some v ->
  step_inst T inst m = Next (set_memory ptr v m).
Proof. intros Ho Ha Hm. unfold step_inst. rewrite Ho, Ha, Hm. reflexivity. Qed.

Lemma step_iadd T (inst : SpvInstruction) (m : Machine) a b ty x y :
  op_code inst = SpvOpIAdd -> operands inst = [a; b] ->
  int_type T (type_id inst) = Some ty ->
  values m !! a = Some x -> values m !! b = Some y ->
  step_inst T inst m = Next (set_value (result_id inst) (wrap_in ty (x + y)) m).
Proof. intros Ho Ha Ht Hx Hy. unfold step_inst. rewrite Ho, Ha, Ht, Hx, Hy. reflexivity. Qed.

Lemma step_sle T (inst : SpvInstruction) (m : Machine) t r a b x y :
  op_code inst = SpvOpSLessThanEqual -> operands inst = [t; r; a; b] ->
  values m !! a = Some x -> values m !! b = Some y ->
  step_inst T inst m = Next (set_value r (Z.b2z (x <=? y)) m).
Proof. intros Ho Ha Hx Hy. unfold step_inst. rewrite Ho, Ha, Hx, Hy. reflexivity. Qed.

Lemma step_branch_conditional T (inst : SpvInstruction) (m : Machine) c t f rest v :
  op_code inst = SpvOpBranchConditional -> operands inst = c :: t :: f :: rest ->
  values m !! c = Some v ->
  step_inst T inst m = Jump (if v =? 0 then f else t) m.
Proof. intros Ho Ha Hc. unfold step_inst. rewrite Ho, Ha, Hc. reflexivity. Qed.

Lemma run_step fuel T B cur m :
  run (S fuel) T B cur m =
  match find_block B cur with
  | Some c =>
      match run_block T (instructions c) (enter cur m) with
      | Jump target m' => run fuel T B target m'
      | Next m' => (FellOff cur, m')
      | Stuck => (Crashed, m)
      end
  | None => (Crashed, m)
  end.
Proof. reflexivity. Qed.

(** ** The emitted loop *)

(** The six blocks of [kernel] after the loop has been emitted: the entry
    block computes the bound [%10 = %6 + %7] and holds the loop variable
    [%11], initialised with [%6]; then the header, top, body, continue and
    merge blocks. *)
Lemma emitted_loop_blocks :
  loop_blocks =
  [ mkBlock 8 (Some 0%nat)
      [SpvInst.set_block 0%nat (SpvFactory.integer_add 3 10 6 7);
       SpvInst.set_block 0%nat (SpvFactory.branch 12)]
      [SpvInst.set_block 0%nat (SpvFactory.variable 11 9 SpvStorageClassFunction 6)] true;
    mkBlock 12 (Some 0%nat)
      [SpvInst.set_block 1%nat (SpvFactory.loop_merge 16 15 SpvLoopControlMaskNone);
       SpvInst.set_block 1%nat (SpvFactory.branch 13)] [] true;
    mkBlock 13 (Some 0%nat)
      [SpvInst.set_block 2%nat (SpvFactory.load 3 17 11 SpvMemoryAccessMaskNone);
       SpvInst.set_block 2%nat (SpvFactory.less_than_equal 18 19 17 10 true);
       SpvInst.set_block 2%nat (SpvFactory.conditional_branch 19 14 16 [])] [] true;
    mkBlock 14 (Some 0%nat)
      [SpvInst.set_block 3%nat (SpvInst.make SpvOpNop);
       SpvInst.set_block 3%nat (SpvFactory.branch 15)] [] true;
    mkBlock 15 (Some 0%nat)
      [SpvInst.set_block 4%nat (SpvFactory.integer_add 3 20 17 21);
       SpvInst.set_block 4%nat (SpvFactory.store 11 20 SpvMemoryAccessMaskNone);
       SpvInst.set_block 4%nat (SpvFactory.branch 12)] [] true;
    mkBlock 16 (Some 0%nat) [] [] true ].
Proof. vm_compute. reflexivity. Qed.

Lemma emitted_loop_types : int_type loop_types 3 = Some (32, 1).
Proof. vm_compute. reflexivity. Qed.

Ltac at_block :=
  rewrite run_step, emitted_loop_blocks;
  match goal with
  | |- context [find_block ?B ?id] =>
      let r := eval vm_compute in (find_block B id) in
      change (find_block B id) with r
  end;
  cbn [instructions run_block]; rewrite <- ?emitted_loop_blocks.

Lemma run_entry fuel st m n :
  values st !! 6 = Some m -> values st !! 7 = Some n ->
  run (S fuel) loop_types loop_blocks 8 st
  = run fuel loop_types loop_blocks 12
      (set_value 10 (wrap_signed 32 (m + n)) (enter 8 st)).
Proof.
  intros Hm Hn. at_block.
  erewrite step_iadd;
    [| reflexivity | reflexivity | vm_compute; reflexivity | exact Hm | exact Hn].
  reflexivity.
Qed.

Lemma run_header fuel st :
  run (S fuel) loop_types loop_blocks 12 st
  = run fuel loop_types loop_blocks 13 (enter 12 st).
Proof. at_block. reflexivity. Qed.

Lemma run_top fuel st i mx :
  memory st !! 11 = Some i -> values st !! 10 = Some mx ->
  run (S fuel) loop_types loop_blocks 13 st
  = run fuel loop_types loop_blocks (if i <=? mx then 14 else 16)
      (set_value 19 (Z.b2z (i <=? mx)) (set_value 17 i (enter 13 st))).
Proof.
  intros Hm Hv. at_block.
  erewrite step_load; [| reflexivity | reflexivity | exact Hm].
  erewrite step_sle; [| reflexivity | reflexivity | apply lookup_insert_eq
                      | cbn; rewrite lookup_insert_ne by lia; exact Hv].
  erewrite step_branch_conditional; [| reflexivity | reflexivity | apply lookup_insert_eq].
  destruct (i <=? mx); reflexivity.
Qed.

Lemma run_body fuel st :
  run (S fuel) loop_types loop_blocks 14 st
  = run fuel loop_types loop_blocks 15 (enter 14 st).
Proof. at_block. reflexivity. Qed.

Lemma run_continue fuel st i :
  values st !! 17 = Some i -> values st !! 21 = Some 1 ->
  run (S fuel) loop_types loop_blocks 15 st
  = run fuel loop_types loop_blocks 12
      (set_memory 11 (wrap_signed 32 (i + 1))
         (set_value 20 (wrap_signed 32 (i + 1)) (enter 15 st))).
Proof.
  intros Hi H1. at_block.
  erewrite step_iadd;
    [| reflexivity | reflexivity | vm_compute; reflexivity | exact Hi | exact H1].
  erewrite step_store; [| reflexivity | reflexivity | apply lookup_insert_eq].
  reflexivity.
Qed.

Lemma run_merge fuel st :
  run (S fuel) loop_types loop_blocks 16 st = (FellOff 16, enter 16 st).
Proof. at_block. reflexivity. Qed.

(** One trip around the loop. *)
Lemma iteration fuel st mx i :
  at_header mx i st -> i <= mx ->
  exists st',
    run (4 + fuel) loop_types loop_blocks 12 st = run fuel loop_types loop_blocks 12 st'
    /\ at_header mx (wrap_signed 32 (i + 1)) st'
    /\ times_entered 14 st' = S (times_entered 14 st).
Proof.
  intros (Hm & Hv & H1) Hle.
  change (4 + fuel)%nat with (S (S (S (S fuel)))).
  rewrite run_header.
  rewrite (run_top _ _ i mx) by assumption.
  replace (i <=? mx) with true by (symmetry; apply Z.leb_le; exact Hle).
  rewrite run_body.
  rewrite (run_continue _ _ i).
  - eexists. split; [reflexivity |]. split; [| reflexivity].
    unfold at_header. cbn. split; [apply lookup_insert_eq |]. split.
    + rewrite !lookup_insert_ne by lia. exact Hv.
    + rewrite !lookup_insert_ne by lia. exact H1.
  - cbn. rewrite lookup_insert_ne by lia. apply lookup_insert_eq.
  - cbn. rewrite !lookup_insert_ne by lia. exact H1.
Qed.

(** Leaving the loop. *)
Lemma loop_exit fuel st mx i :
  at_header mx i st -> mx < i ->
  exists st',
    run (3 + fuel) loop_types loop_blocks 12 st = (FellOff 16, st')
    /\ times_entered 14 st' = times_entered 14 st
    /\ memory st' !! 11 = Some i /\ values st' !! 10 = Some mx.
Proof.
  intros (Hm & Hv & H1) Hlt.
  change (3 + fuel)%nat with (S (S (S fuel))).
  rewrite run_header.
  rewrite (run_top _ _ i mx) by assumption.
  replace (i <=? mx) with false by (symmetry; apply Z.leb_gt; exact Hlt).
  rewrite run_merge.
  eexists. split; [reflexivity |]. split; [reflexivity |]. split; cbn.
  - exact Hm.
  - rewrite !lookup_insert_ne by lia. exact Hv.
Qed.

Lemma loop_from_header (k : nat) :
  forall fuel st mx i,
    at_header mx i st -> - 2 ^ 31 <= i -> mx < 2 ^ 31 - 1 ->
    i + Z.of_nat k = mx + 1 ->
    exists st',
      run (4 * k + 3 + fuel) loop_types loop_blocks 12 st = (FellOff 16, st')
      /\ times_entered 14 st' = (k + times_entered 14%Z st)%nat
      /\ memory st' !! 11 = Some (mx + 1) /\ values st' !! 10 = Some mx.
Proof.
  induction k as [| k IH]; intros fuel st mx i Hst Hlo Hmx Hk.
  - destruct (loop_exit fuel st mx i Hst ltac:(lia)) as (st' & Hr & Ht & Hm & Hv).
    exists st'. replace (mx + 1) with i by lia. auto.
  - destruct (iteration (4 * k + 3 + fuel) st mx i Hst ltac:(lia))
      as (st1 & Hr & Hst1 & Ht).
    rewrite (wrap_signed_small (i + 1)) in Hst1 by lia.
    destruct (IH fuel st1 mx (i + 1) Hst1 ltac:(lia) Hmx ltac:(lia))
      as (st' & Hr' & Ht' & Hm & Hv).
    exists st'. split; [| split; [lia | auto]].
    replace (4 * S k + 3 + fuel)%nat with (4 + (4 * k + 3 + fuel))%nat by lia.
    rewrite Hr. exact Hr'.
Qed.

Lemma run_function_loop fuel m n :
  run_function fuel emitted_loop 0%nat (loop_arguments m n)
  = run fuel loop_types loop_blocks 8 (initial_state m n).
Proof.
  unfold run_function, initial_state. cbv zeta. fold loop_blocks. fold loop_types.
  pose proof emitted_loop_blocks as E.
  destruct loop_blocks as [| entry rest]; [discriminate |].
  injection E as -> _. reflexivity.
Qed.

Lemma initial_state_facts m n :
  values (initial_state m n) !! 6 = Some m
  /\ values (initial_state m n) !! 7 = Some n
  /\ values (initial_state m n) !! 21 = Some 1
  /\ memory (initial_state m n) !! 11 = Some m
  /\ visited (initial_state m n) = [].
Proof. repeat split; vm_compute; reflexivity. Qed.

Lemma run_from_entry fuel m n :
  exists st,
    run_function (S fuel) emitted_loop 0%nat (loop_arguments m n)
    = run fuel loop_types loop_blocks 12 st
    /\ at_header (wrap_signed 32 (m + n)) m st
    /\ times_entered 14 st = 0%nat.
Proof.
  destruct (initial_state_facts m n) as (H6 & H7 & H21 & H11 & Hvis).
  rewrite run_function_loop, (run_entry _ _ m n H6 H7).
  eexists. split; [reflexivity |]. split.
  - unfold at_header. cbn. split; [exact H11 |]. split.
    + apply lookup_insert_eq.
    + rewrite lookup_insert_ne by lia. exact H21.
  - unfold times_entered. cbn. rewrite Hvis. reflexivity.
Qed.

(** With the bound at the largest 32-bit value the test never fails. *)
Lemma never_exits (fuel : nat) :
  forall st i, at_header 2147483647 i st -> i <= 2147483647 ->
    exists block, fst (run fuel loop_types loop_blocks 12 st) = Running block.
Proof.
  induction fuel as [fuel IH] using lt_wf_ind. intros st i Hst Hi.
  destruct fuel as [| [| [| [| fuel]]]].
  - eexists. reflexivity.
  - rewrite run_header. eexists. reflexivity.
  - destruct Hst as (Hm & Hv & H1).
    rewrite run_header, (run_top _ _ i 2147483647) by assumption.
    replace (i <=? 2147483647) with true by (symmetry; apply Z.leb_le; exact Hi).
    eexists. reflexivity.
  - destruct Hst as (Hm & Hv & H1).
    rewrite run_header, (run_top _ _ i 2147483647) by assumption.
    replace (i <=? 2147483647) with true by (symmetry; apply Z.leb_le; exact Hi).
    rewrite run_body. eexists. reflexivity.
  - destruct (iteration fuel st 2147483647 i Hst Hi) as (st' & Hr & Hst' & _).
    change (S (S (S (S fuel)))) with (4 + fuel)%nat. rewrite Hr.
    apply (IH fuel ltac:(lia) st' (wrap_signed 32 (i + 1)) Hst').
    pose proof (wrap_signed_range (i + 1)) as Hw.
    change (2 ^ 31) with 2147483648 in Hw. lia.
Qed.


(** After twenty blocks the body has already been entered five times. *)
Lemma serial_loop_at_int_max_trace :
  times_entered 14
    (snd (run_function 20 emitted_loop 0%nat (loop_arguments 2147483647 0))) = 5%nat.
Proof. vm_compute. reflexivity. Qed.

(** The kernel of the scenario, run from its entry with minimum [m] and
    extent [n >= 0] whose sum stays below the largest 32-bit signed value:
    the loop variable starts at [m], the bound is [m + n], and the run
    leaves the loop after the body block has been entered [n + 1] times,
    once for each index from [m] to [m + n]; the index is then
    [m + n + 1]. *)
Lemma serial_loop_body_runs_extent_plus_one (m n : Z) :
  - 2 ^ 31 <= m -> 0 <= n -> m + n < 2 ^ 31 - 1 ->
  memory (initial_state m n) !! 11 = Some m
  /\ body_executions m n (Z.to_nat n + 1)
  /\ (forall fuel, (4 * Z.to_nat n + 8 <= fuel)%nat ->
      exists st,
        run_function fuel emitted_loop 0%nat (loop_arguments m n) = (FellOff 16, st)
        /\ values st !! 10 = Some (m + n)
        /\ memory st !! 11 = Some (m + n + 1)).
Proof.
  intros Hm Hn Hmn.
  assert (Hrun : forall fuel, (4 * Z.to_nat n + 8 <= fuel)%nat ->
    exists st,
      run_function fuel emitted_loop 0%nat (loop_arguments m n) = (FellOff 16, st)
      /\ times_entered 14 st = (Z.to_nat n + 1)%nat
      /\ values st !! 10 = Some (m + n)
      /\ memory st !! 11 = Some (m + n + 1)).
  { intros fuel Hfuel.
    replace fuel with (S (4 * (Z.to_nat n + 1) + 3 + (fuel - (4 * Z.to_nat n + 8))))%nat
      by lia.
    destruct (run_from_entry (4 * (Z.to_nat n + 1) + 3 + (fuel - (4 * Z.to_nat n + 8))) m n)
      as (st1 & Hr1 & Hst1 & Ht1).
    rewrite (wrap_signed_small (m + n)) in Hst1 by lia.
    destruct (loop_from_header (Z.to_nat n + 1) (fuel - (4 * Z.to_nat n + 8)) st1
                (m + n) m Hst1 Hm Hmn ltac:(lia)) as (st & Hr & Ht & Hmem & Hval).
    exists st. rewrite Hr1, Hr. repeat split; auto. lia. }
  split; [apply initial_state_facts |]. split.
  - exists (4 * Z.to_nat n + 8)%nat. intros fuel Hfuel.
    destruct (Hrun fuel Hfuel) as (st & Hr & Ht & _). exists st. auto.
  - intros fuel Hfuel. destruct (Hrun fuel Hfuel) as (st & Hr & _ & Hv & Hmem).
    exists st. auto.
Qed.

Lemma serial_loop_body_runs_extent_plus_one_witness :
  body_executions 5 2 3.
Proof.
  apply (serial_loop_body_runs_extent_plus_one 5 2); vm_compute; congruence.
Defined.

(** ** Workgroup size *)



(** [visit(For)] on a thread loop starts with the workgroup check. *)
Lemma visit_For_checks_workgroup_size `{SpirvHeader} `{Collaborators} {Stmt : Type}
    (accept_expr : Expr -> M SPIRV_Emitter unit) (accept_stmt : Stmt -> M SPIRV_Emitter unit)
    (dvc : Type_ -> list Z -> M SpvBuilder SpvId) (is_gpu_var : string -> bool)
    (op : For Stmt) (e : SPIRV_Emitter) :
  is_gpu_var (for_name op) = true -> for_type op = GPUThread ->
  is_const_zero (for_min op) = true ->
  save_workgroup_size op e = UserError ->
  visit_For accept_expr accept_stmt dvc is_gpu_var op e = UserError.
Proof.
  intros Hg Ht Hz Hs. unfold visit_For. rewrite Hg, Ht, Hz.
  replace (bool_decide (GPUThread = GPUBlock) || bool_decide (GPUThread = GPUThread))
    with true by reflexivity.
  cbn [negb]. unfold bind at 1. rewrite Hs. reflexivity.
Qed.

(** ** Intrinsic calls *)

Lemma lower_intrinsic_defined `{Collaborators} (op : IntrinsicOp) (t : Type_)
    (args : list Expr) :
  lowered_by_emitter op = true ->
  lower_intrinsic t (Intrinsic op) args <> Ok None.
Proof.
  intros Hop.
  destruct op; try discriminate Hop; cbn [lower_intrinsic];
    unfold args1, args2, args3, defined, rbind;
    destruct args as [| a [| b [| c [| d rest]]]]; try discriminate;
    match goal with
    | |- match ?r with _ => _ end <> _ => destruct r; discriminate
    end.
Qed.

(** C2, as stated, on [halving_add] of two [uint8] variables: the
    expression the emitter visits is not the one that
    [lower_intrinsic_semantically] builds. *)
Lemma emitter_halving_add_not_semantic :
  call_expansion (H0 := idle) (UInt 8 1) (Intrinsic halving_add)
    [Variable_ (UInt 8 1) "x"; Variable_ (UInt 8 1) "y"]
  = Ok (Some (Add (band (Variable_ (UInt 8 1) "x") (Variable_ (UInt 8 1) "y"))
                  (shr (bxor (Variable_ (UInt 8 1) "x") (Variable_ (UInt 8 1) "y"))
                       (UIntImm (UInt 8 1) 1))))
  /\ call_expansion (H0 := idle) (UInt 8 1) (Intrinsic halving_add)
       [Variable_ (UInt 8 1) "x"; Variable_ (UInt 8 1) "y"]
     <> lower_intrinsic_semantically (H := idle) (UInt 8 1) (Intrinsic halving_add)
          [Variable_ (UInt 8 1) "x"; Variable_ (UInt 8 1) "y"].
Proof. split; [vm_compute; reflexivity | vm_compute; discriminate]. Qed.

(** C2. For every higher-order intrinsic call that [visit(Call)] hands
    to the lowerer, the expression the emitter visits is
    [lower_intrinsic] of the call; it is [lower_intrinsic_semantically] of
    the call for the widening, widen-right and widening-shift intrinsics
    and [saturating_cast], and for the others when the result type is
    wider than 32 bits (16 bits for [rounding_mul_shift_right]). *)
Theorem emitter_visits_lower_intrinsic `{SpirvHeader} `{Collaborators}
    (accept_expr emit_direct : Expr -> M SPIRV_Emitter unit)
    (op : IntrinsicOp) (t : Type_) (args : list Expr) :
  lowered_by_emitter op = true ->
  call_expansion t (Intrinsic op) args = lower_intrinsic t (Intrinsic op) args
  /\ (forall e st, lower_intrinsic t (Intrinsic op) args = Ok (Some e) ->
        visit_Call accept_expr emit_direct t (Intrinsic op) args st = accept_expr e st)
  /\ (lowerings_agree op t = true ->
        call_expansion t (Intrinsic op) args
        = lower_intrinsic_semantically t (Intrinsic op) args).
Proof.
  intros Hop.
  assert (Hexp : call_expansion t (Intrinsic op) args
                 = lower_intrinsic t (Intrinsic op) args).
  { pose proof (lower_intrinsic_defined op t args Hop) as Hdef.
    unfold call_expansion.
    destruct op; try discriminate Hop; cbn [lowered_by_emitter]; cbv iota;
      unfold rbind; destruct (lower_intrinsic t _ args) as [[e |] | | | |];
      try reflexivity; contradiction Hdef; reflexivity. }
  split; [exact Hexp |]. split.
  - intros e st He. unfold visit_Call, bind, lift_result. rewrite Hexp, He. reflexivity.
  - intros Hagree. rewrite Hexp.
    destruct op; try discriminate Hop; cbn [lowerings_agree] in Hagree;
      try discriminate Hagree; cbn [lower_intrinsic_semantically];
      rewrite ?Hagree; try reflexivity;
      unfold args2, args3; destruct args as [| a [| b [| c [| d rest]]]]; reflexivity.
Qed.

Lemma emitter_visits_lower_intrinsic_witness :
  call_expansion (H0 := idle) (Int 16 1) (Intrinsic widening_add)
    [Variable_ (Int 8 1) "x"; Variable_ (Int 8 1) "y"]
  = Ok (Some (Add (Cast (Int 16 1) (Variable_ (Int 8 1) "x"))
                  (Cast (Int 16 1) (Variable_ (Int 8 1) "y")))).
Proof.
  destruct (emitter_visits_lower_intrinsic (H0 := idle) (fun _ => ret tt) (fun _ => ret tt)
              widening_add (Int 16 1)
              [Variable_ (Int 8 1) "x"; Variable_ (Int 8 1) "y"] eq_refl) as (-> & _).
  vm_compute. reflexivity.
Defined.

End EmitterFacts.

(** * Properties of the lowerings *)

Module LoweringFacts.
Import IR Eval FindIntrinsics Scenario.

(** C5, as stated, on two [uint8] operands: the lowering of
    [widening_sub] has type [int16], not the widened operand type
    [uint16]. *)
Lemma widening_sub_of_uint8_is_int16 :
  type_of (lower_widening_sub (Variable_ (UInt 8 1) "x") (Variable_ (UInt 8 1) "y"))
  = Int 16 1
  /\ type_of (lower_widening_sub (Variable_ (UInt 8 1) "x") (Variable_ (UInt 8 1) "y"))
     <> HalideType.widen (type_of (Variable_ (UInt 8 1) "x")).
Proof. split; [reflexivity | vm_compute; discriminate]. Qed.

(** C5. The lowering of [widening_sub(x, y)] has the type of [x] with
    doubled bit width; its type code is that of [x], except that for an
    unsigned [x] it is the signed integer code. *)
Theorem lower_widening_sub_type (x y : Expr) :
  type_of (lower_widening_sub x y)
  = if is_uint (type_of x)
    then with_code (HalideType.widen (type_of x)) halide_type_int
    else HalideType.widen (type_of x).
Proof.
  unfold lower_widening_sub. cbv zeta.
  change (is_uint (HalideType.widen (type_of x))) with (is_uint (type_of x)).
  destruct (is_uint (type_of x)); reflexivity.
Qed.

(** C1 at [rounding_shift_right(cast(int16, v) + z, 1)] with [v = 0] and
    [z = 32767]: the intrinsic has the value 16384, and [lower_intrinsic]
    takes the branch guarded by [is_safe_for_add] and builds
    [(a + 1) >> 1], whose 16-bit sum wraps, with the value -16384. *)
Theorem lower_rounding_shift_right_overflows `{Collaborators} :
  (forall env e, eval env (simplify e) = eval env e) ->
  is_safe_for_add sum_with_widened_operand = true
  /\ eval at_int16_max
       (Call (Int 16 1) (Intrinsic rounding_shift_right)
          [sum_with_widened_operand; make_const (Int 16 1) 1]) = Some 16384
  /\ exists lowered,
       lower_intrinsic (Int 16 1) (Intrinsic rounding_shift_right)
         [sum_with_widened_operand; make_const (Int 16 1) 1] = Ok (Some lowered)
       /\ eval at_int16_max lowered = Some (-16384).
Proof.
  intros Hsimplify. split; [reflexivity |]. split; [vm_compute; reflexivity |].
  eexists. split; [reflexivity |].
  change (lower_rounding_shift_right sum_with_widened_operand (make_const (Int 16 1) 1))
    with (shr (Add sum_with_widened_operand
                 (simplify (cast (Int 16 1)
                    (shl (int_lit 1)
                       (Sub (make_const (Int 16 1) 1)
                            (lit (make_const (Int 16 1) 1) 1))))))
              (make_const (Int 16 1) 1)).
  unfold shr, intrin2. cbn [eval List.map all_some].
  rewrite Hsimplify. vm_compute. reflexivity.
Qed.

Lemma lower_rounding_shift_right_overflows_witness :
  exists lowered,
    lower_intrinsic (H := idle) (Int 16 1) (Intrinsic rounding_shift_right)
      [sum_with_widened_operand; make_const (Int 16 1) 1] = Ok (Some lowered)
    /\ eval at_int16_max lowered = Some (-16384).
Proof.
  apply (lower_rounding_shift_right_overflows (H := idle)).
  intros env e. reflexivity.
Defined.

End LoweringFacts.

(** * Properties of the recognizer *)

Module RecognizerFacts.
Import IR Eval FindIntrinsics Scenario.

(** C4, as stated, on [float32(a) + float32(b)] with [a, b : int16x4]:
    in the order original, unsigned, signed the signed code gives a
    lossless narrowing of both operands, yet the recognizer emits no
    widening intrinsic, because the signed code is not tried. *)
Lemma float_sum_of_int16_is_not_widened :
  first_code
    (both_narrow (H := reference) (Float 32 4)
       (Cast (Float 32 4) (Variable_ (Int 16 4) "a"))
       (Cast (Float 32 4) (Variable_ (Int 16 4) "b")))
    (claimed_codes (Float 32 4))
  = Some (halide_type_int, (Variable_ (Int 16 4) "a", Variable_ (Int 16 4) "b"))
  /\ find_intrinsics_fuel (H := reference) 20
       (Add (Cast (Float 32 4) (Variable_ (Int 16 4) "a"))
            (Cast (Float 32 4) (Variable_ (Int 16 4) "b")))
     = Ok (Add (Cast (Float 32 4) (Variable_ (Int 16 4) "a"))
               (Cast (Float 32 4) (Variable_ (Int 16 4) "b")))
  /\ first_code
       (both_narrow (H := reference) (Float 32 4)
          (Cast (Float 32 4) (Variable_ (Int 16 4) "a"))
          (Cast (Float 32 4) (Variable_ (Int 16 4) "b")))
       (widening_codes (Float 32 4))
     = None.
Proof. repeat split; vm_compute; reflexivity. Qed.

Ltac case_lossless :=
  repeat match goal with
         | |- context [lossless_cast ?t ?e] => destruct (lossless_cast t e)
         end.

(** C4. For the widening form of [Add] and [Sub] (both operands narrow),
    the sign codes are tried in the order original result code, unsigned,
    and the first code under which both narrowings are lossless gives the
    operands of the emitted intrinsic. For the widen-right form of [Add],
    [Sub] and [Mul] (one operand narrows) the codes are tried in the order
    original, unsigned, signed, and the first code under which the
    narrowing is lossless gives the payload. *)
Theorem sign_codes_tried_in_order `{Collaborators} (mutate : Expr -> result Expr)
    (a0 b0 a b : Expr) :
  find_intrinsics_for_type (type_of a0) = true ->
  mutate a0 = Ok a -> mutate b0 = Ok b ->
  widening_codes (type_of a0) = [code (type_of a0); halide_type_uint]
  /\ widen_right_codes (type_of a0)
     = [code (type_of a0); halide_type_uint; halide_type_int]
  /\ (forall c narrow_a narrow_b,
        first_code (both_narrow (type_of a0) a b) (widening_codes (type_of a0))
        = Some (c, (narrow_a, narrow_b)) ->
        visit_Add mutate a0 b0
        = mutate (cast_to_op_type (type_of a0) (mk_widening_add narrow_a narrow_b))
        /\ visit_Sub mutate a0 b0
           = mutate (cast_to_op_type (type_of a0)
                       match lossless_negate narrow_b with
                       | Some negative_narrow_b => mk_widening_add narrow_a negative_narrow_b
                       | None => mk_widening_sub narrow_a narrow_b
                       end))
  /\ (forall c narrow_b,
        first_code (both_narrow (type_of a0) a b) (widening_codes (type_of a0)) = None ->
        lossless_negate b = None ->
        is_int_or_uint (type_of a0) && (8 <? bits (type_of a0)) = true ->
        first_code (fun c => lossless_cast (with_code (HalideType.narrow (type_of a0)) c) b)
          (widen_right_codes (type_of a0)) = Some (c, narrow_b) ->
        visit_Sub mutate a0 b0
        = (try r <- widen_right_result mk_widen_right_sub (type_of a0) c a narrow_b;
           mutate r))
  /\ (forall c (left : bool) narrowed,
        is_int_or_uint (type_of a0) && (8 <? bits (type_of a0)) = true ->
        first_code (both_narrow (type_of a0) a b) (widen_right_codes (type_of a0)) = None ->
        first_code (one_narrows (type_of a0) a b) (widen_right_codes (type_of a0))
        = Some (c, (left, narrowed)) ->
        (is_vector_reduce a = false -> is_vector_reduce b = false ->
         visit_Add mutate a0 b0
         = if left then widen_right_result mk_widen_right_add (type_of a0) c b narrowed
           else (try r <- widen_right_result mk_widen_right_add (type_of a0) c a narrowed;
                 mutate r))
        /\ (is_const b0 = false ->
            is_const_power_of_two_integer a = None ->
            is_const_power_of_two_integer b = None ->
            strip_widening_cast a = None ->
            visit_Mul mutate a0 b0
            = if left then widen_right_result mk_widen_right_mul (type_of a0) c b narrowed
              else (try r <- widen_right_result mk_widen_right_mul (type_of a0) c a narrowed;
                    mutate r))).
Proof.
  intros Hfind Ha Hb. split; [reflexivity |]. split; [reflexivity |].
  split; [| split].
  - intros c narrow_a narrow_b Hfirst.
    unfold visit_Add, visit_Sub. cbv zeta. rewrite Hfind, Ha, Hb. cbn [negb rbind].
    unfold first_code, both_narrow, widening_codes in Hfirst.
    unfold widening_codes. cbn [first_some].
    revert Hfirst. case_lossless; intros Hfirst; try discriminate Hfirst;
      injection Hfirst as <- <- <-; split; reflexivity.
  - intros c narrow_b Hnone Hneg Hwide Hfirst.
    unfold visit_Sub. cbv zeta. rewrite Hfind, Ha, Hb. cbn [negb rbind].
    rewrite Hneg, Hwide.
    unfold first_code, both_narrow, widening_codes in Hnone.
    unfold first_code, widen_right_codes in Hfirst.
    unfold widening_codes, widen_right_codes. cbn [first_some].
    revert Hnone Hfirst.
    case_lossless; intros Hnone Hfirst; try discriminate Hnone; try discriminate Hfirst;
      injection Hfirst as <- <-; reflexivity.
  - intros c left narrowed Hwide Hnone Hfirst.
    unfold first_code, both_narrow, widen_right_codes in Hnone.
    unfold first_code, one_narrows, widen_right_codes in Hfirst.
    split.
    + intros Hva Hvb.
      unfold visit_Add. cbv zeta. rewrite Hfind, Ha, Hb. cbn [negb rbind].
      rewrite Hwide, Hva, Hvb.
      unfold widening_codes, widen_right_codes. cbn [first_some].
      revert Hnone Hfirst.
      case_lossless; intros Hnone Hfirst; try discriminate Hnone;
        try discriminate Hfirst; injection Hfirst as <- <- <-; reflexivity.
    + intros Hconst Hpa Hpb Hstrip.
      unfold visit_Mul. cbv zeta. rewrite Hfind, Hconst, Ha, Hb. cbn [negb rbind].
      rewrite Hpa, Hpb, Hstrip, Hwide.
      unfold widen_right_codes. cbn [first_some].
      revert Hnone Hfirst.
      destruct (is_int (type_of a0) || is_uint (type_of a0));
        case_lossless; intros Hnone Hfirst; try discriminate Hnone;
        try discriminate Hfirst; injection Hfirst as <- <- <-; reflexivity.
Qed.

Lemma sign_codes_tried_in_order_witness :
  visit_Add (H := reference) (fun e => Ok e)
    (Cast (Int 32 4) (Variable_ (UInt 16 4) "a"))
    (Cast (Int 32 4) (Variable_ (UInt 16 4) "b"))
  = Ok (Cast (Int 32 4)
          (mk_widening_add (Variable_ (UInt 16 4) "a") (Variable_ (UInt 16 4) "b"))).
Proof.
  destruct (sign_codes_tried_in_order (H := reference) (fun e => Ok e)
              (Cast (Int 32 4) (Variable_ (UInt 16 4) "a"))
              (Cast (Int 32 4) (Variable_ (UInt 16 4) "b"))
              (Cast (Int 32 4) (Variable_ (UInt 16 4) "a"))
              (Cast (Int 32 4) (Variable_ (UInt 16 4) "b"))
              eq_refl eq_refl eq_refl) as (_ & _ & Hwiden & _ & _).
  destruct (Hwiden halide_type_uint
              (Variable_ (UInt 16 4) "a") (Variable_ (UInt 16 4) "b")) as [Hadd _].
  - vm_compute. reflexivity.
  - rewrite Hadd. vm_compute. reflexivity.
Defined.

(** C3, as stated: on [shift_right(widening_add(x, y) + 1, 1)] with
    [x, y : uint8x8] the recognizer does not produce
    [rounding_halving_add(x, y)], which has the type [uint8x8] of [x]; it
    produces the [uint16x8] expression
    [rounding_shift_right(widening_add(x, y), 1)]. *)
Lemma s2_input_is_not_rounding_halving_add :
  find_intrinsics_fuel (H := reference) 20 s2_input
  = Ok (mk_rounding_shift_right (mk_widening_add s2_x s2_y) (make_const (UInt 16 8) 1))
  /\ find_intrinsics_fuel (H := reference) 20 s2_input
     <> Ok (mk_rounding_halving_add s2_x s2_y).
Proof. split; [vm_compute; reflexivity | vm_compute; discriminate]. Qed.

(** C3. For [x, y : uint8x8] the recognizer turns
    [shift_right(widening_add(x, y) + 1, 1)] into
    [rounding_shift_right(widening_add(x, y), 1)]: the addition of the
    round constant 1 is found and removed. Under the narrowing cast to
    [uint8x8] the rounding right shift of a widening add by 1 is
    recognised as [rounding_halving_add(x, y)]. *)
Theorem s2_rounding_halving_add_under_cast :
  exists fuel,
    find_intrinsics_fuel (H := reference) fuel (Add (mk_widening_add s2_x s2_y)
                                                  (make_const (UInt 16 8) 1))
    = Ok (mk_widen_right_add (mk_widening_add s2_x s2_y) (make_const (UInt 8 8) 1))
    /\ find_intrinsics_fuel (H := reference) fuel s2_input
       = Ok (mk_rounding_shift_right (mk_widening_add s2_x s2_y)
               (make_const (UInt 16 8) 1))
    /\ find_intrinsics_fuel (H := reference) fuel (Cast (UInt 8 8) s2_input)
       = Ok (mk_rounding_halving_add s2_x s2_y).
Proof. exists 20%nat. repeat split; vm_compute; reflexivity. Qed.

End RecognizerFacts.

(** * Round trips and frames of the builder (SpirvIR.cpp) *)

Module BuilderFacts.
Import Spirv Invariants SpirvQueries BuilderSpecs.

Lemma bind_Ok {S A B : Type} (m : M S A) (k : A -> M S B) (s : S) (r : B * S) :
  bind m k s = Ok r -> exists a s1, m s = Ok (a, s1) /\ k a s1 = Ok r.
Proof.
  unfold bind. destruct (m s) as [[a s1] | | | |]; try discriminate.
  intros Hk. exists a, s1. split; [reflexivity | exact Hk].
Qed.

Lemma bind_eq {S A B : Type} (m : M S A) (k : A -> M S B) (s s1 : S) (a : A) :
  m s = Ok (a, s1) -> bind m k s = k a s1.
Proof. unfold bind. intros ->. reflexivity. Qed.

(** Split a successful sequence into its steps. *)
Ltac binds H :=
  repeat match type of H with
         | bind _ _ _ = Ok _ => apply bind_Ok in H as (? & ? & ? & H); cbv beta in H
         end.

Lemma get_Ok {S : Type} (s s1 x : S) : get s = Ok (x, s1) -> x = s /\ s1 = s.
Proof. unfold get. intros E. injection E as <- <-. auto. Qed.

Lemma modify_Ok {S : Type} (f : S -> S) (s s1 : S) (u : unit) :
  modify f s = Ok (u, s1) -> s1 = f s.
Proof. unfold modify. intros E. injection E as _ <-. reflexivity. Qed.

Lemma ret_Ok {S A : Type} (a x : A) (s s1 : S) : ret a s = Ok (x, s1) -> x = a /\ s1 = s.
Proof. unfold ret. intros E. injection E as <- <-. auto. Qed.

Lemma make_id_Ok `{SpirvHeader} (kind : SpvKind) (b b1 : SpvBuilder) (id : SpvId) :
  make_id kind b = Ok (id, b1) ->
  id = uint32 (Z.of_nat (size (kind_map b)) + 1)
  /\ b1 = upd_kind_map (fun m => <[uint32 (Z.of_nat (size (kind_map b)) + 1) := kind]> m) b.
Proof. unfold make_id. intros E. injection E as <- <-. auto. Qed.

(** Resolve the steps that only read or write the state. *)
Ltac leaves :=
  repeat match goal with
         | E : get _ = Ok _ |- _ => apply get_Ok in E as [-> ->]
         | E : modify _ _ = Ok _ |- _ => apply modify_Ok in E as ->
         | E : ret _ _ = Ok _ |- _ => apply ret_Ok in E as [-> ->]
         | E : module_add_type _ _ = Ok _ |- _ =>
             unfold module_add_type in E; apply modify_Ok in E as ->
         | E : module_add_constant _ _ = Ok _ |- _ =>
             unfold module_add_constant in E; apply modify_Ok in E as ->
         | E : require_capability _ _ = Ok _ |- _ =>
             unfold require_capability in E; apply modify_Ok in E as ->
         | E : make_id _ _ = Ok _ |- _ => apply make_id_Ok in E as [-> ->]
         | E : internal_error _ = Ok _ |- _ => discriminate E
         | E : user_error _ = Ok _ |- _ => discriminate E
         | E : undefined_behavior _ = Ok _ |- _ => discriminate E
         end.

(** Split every successful sequence among the hypotheses and resolve the
    steps. *)
Ltac unravel :=
  repeat first
    [ match goal with
      | E : bind _ _ _ = Ok _ |- _ => apply bind_Ok in E as (? & ? & ? & E); cbv beta in E
      end
    | progress leaves ].

Section Local.
Context `{SpirvHeader}.

(** A type that [add_type] returns is the one recorded for its key. *)
Lemma add_type_rec_records fuel type array_size b id b1 :
  add_type_rec fuel type array_size b = Ok (id, b1) ->
  type_map b1 !! make_type_key type array_size = Some id.
Proof.
  destruct fuel as [| fuel]; [discriminate |].
  cbn [add_type_rec]. lazy zeta. intros Ha.
  apply bind_Ok in Ha as (b0 & s0 & E0 & Ha). cbv beta in Ha. leaves.
  destruct (type_map b !! make_type_key type array_size) eqn:Hfound.
  - leaves. exact Hfound.
  - destruct (1 <? array_size).
    + binds Ha. leaves. cbn. apply lookup_insert_eq.
    + binds Ha. leaves. cbn. apply lookup_insert_eq.
Qed.

(** X1. A type declared once is found again: [lookup_type] returns the id
    that [declare_type] gave, and declaring the type a second time returns
    the same id without changing the builder. *)
Theorem declare_type_round_trip type array_size b id b1 :
  declare_type type array_size b = Ok (id, b1) ->
  id <> SpvInvalidId ->
  lookup_type type array_size b1 = id
  /\ declare_type type array_size b1 = Ok (id, b1).
Proof.
  intros Hd Hid.
  assert (Hl : lookup_type type array_size b1 = id).
  { unfold declare_type in Hd. apply bind_Ok in Hd as (b0 & s0 & E0 & Hd).
    cbv beta zeta in Hd. leaves.
    destruct (lookup_type type array_size b =? SpvInvalidId) eqn:Hinv.
    - unfold add_type in Hd. apply add_type_rec_records in Hd.
      unfold lookup_type. rewrite Hd. reflexivity.
    - leaves. reflexivity. }
  split; [exact Hl |].
  unfold declare_type, bind, get. cbv zeta. rewrite Hl.
  replace (id =? SpvInvalidId) with false by (symmetry; apply Z.eqb_neq; exact Hid).
  reflexivity.
Qed.

(** A pointer type that [add_pointer_type] returns is the one recorded for
    its key. *)
Lemma add_pointer_type_id_records base sc b id b1 :
  add_pointer_type_id base sc b = Ok (id, b1) ->
  pointer_type_map b1 !! make_pointer_type_key base sc = Some id.
Proof.
  unfold add_pointer_type_id. cbv zeta. intros Ha.
  apply bind_Ok in Ha as (b0 & s0 & E0 & Ha). cbv beta in Ha. leaves.
  destruct (pointer_type_map b !! make_pointer_type_key base sc) eqn:Hfound.
  - leaves. exact Hfound.
  - binds Ha. leaves. cbn. apply lookup_insert_eq.
Qed.

(** X2. A pointer type declared from a base type id and a storage class is
    found again under the same pair, and a second declaration returns the
    same id without changing the builder. When the pair was not known
    before, the new id is a pointer type whose base type and storage class
    are the ones given. *)
Theorem declare_pointer_type_id_round_trip base sc b id b1 :
  declare_pointer_type_id base sc b = Ok (id, b1) ->
  id <> SpvInvalidId ->
  lookup_pointer_type_id base sc b1 = id
  /\ declare_pointer_type_id base sc b1 = Ok (id, b1)
  /\ (lookup_pointer_type_id base sc b = SpvInvalidId ->
      lookup_base_type id b1 = base
      /\ lookup_storage_class id b1 = sc
      /\ is_pointer_type id b1 = true
      /\ types (module b1)
         = types (module b) ++ [SpvFactory.pointer_type id sc base]).
Proof.
  intros Hd Hid.
  assert (Hneq : (id =? SpvInvalidId) = false) by (apply Z.eqb_neq; exact Hid).
  assert (Hagain : forall b2, lookup_pointer_type_id base sc b2 = id ->
                     declare_pointer_type_id base sc b2 = Ok (id, b2)).
  { intros b2 Hl. unfold declare_pointer_type_id, bind, get. cbv zeta.
    rewrite Hl, Hneq. reflexivity. }
  pose proof Hd as Hd0. unfold declare_pointer_type_id in Hd.
  apply bind_Ok in Hd as (b0 & s0 & E0 & Hd). cbv beta zeta in Hd. leaves.
  destruct (lookup_pointer_type_id base sc b =? SpvInvalidId) eqn:Hinv.
  - apply Z.eqb_eq in Hinv.
    pose proof (add_pointer_type_id_records _ _ _ _ _ Hd) as Hrec.
    assert (Hl : lookup_pointer_type_id base sc b1 = id).
    { unfold lookup_pointer_type_id. rewrite Hrec. reflexivity. }
    split; [exact Hl |]. split; [apply Hagain, Hl |].
    intros _. clear Hl Hrec Hagain Hd0. unfold add_pointer_type_id in Hd. cbv zeta in Hd.
    apply bind_Ok in Hd as (b0 & s0 & E0 & Hd). cbv beta in Hd. leaves.
    destruct (pointer_type_map b !! make_pointer_type_key base sc) eqn:Hfound.
    + leaves. exfalso. apply Hid. rewrite <- Hinv.
      unfold lookup_pointer_type_id. rewrite Hfound. reflexivity.
    + binds Hd. leaves.
      unfold lookup_base_type, lookup_storage_class, is_pointer_type. cbn.
      rewrite !lookup_insert_eq. repeat split.
  - leaves. apply Z.eqb_neq in Hinv. split; [reflexivity |].
    split; [apply Hagain; reflexivity |].
    intros Hx. contradiction.
Qed.

(** The operands of [SpvFactory::function_type]: the return type, then the
    parameter types in order. *)
Lemma fold_add_operand (ids : list SpvId) (i : SpvInstruction) :
  operands (fold_left (fun i f => f i) (map SpvInst.add_operand ids) i)
  = operands i ++ ids.
Proof.
  revert i. induction ids as [| id ids IH]; intros i; cbn [map fold_left].
  - rewrite app_nil_r. reflexivity.
  - rewrite IH. cbn. rewrite <- app_assoc. reflexivity.
Qed.

(** X3. A function type declared from a return type and parameter types is
    found again, a second declaration returns the same id without changing
    the builder, and a signature that was not known before adds one
    [OpTypeFunction] instruction with the return type and the parameter
    types in order. *)
Theorem declare_function_type_round_trip ret_id params b id b1 :
  declare_function_type ret_id params b = Ok (id, b1) ->
  id <> SpvInvalidId ->
  lookup_function_type ret_id params b1 = id
  /\ declare_function_type ret_id params b1 = Ok (id, b1)
  /\ (lookup_function_type ret_id params b = SpvInvalidId ->
      kind_of id b1 = SpvFunctionTypeId
      /\ types (module b1) = types (module b) ++ [SpvFactory.function_type id ret_id params]
      /\ operands (SpvFactory.function_type id ret_id params) = ret_id :: params).
Proof.
  intros Hd Hid.
  assert (Hneq : (id =? SpvInvalidId) = false) by (apply Z.eqb_neq; exact Hid).
  assert (Hagain : forall b2, lookup_function_type ret_id params b2 = id ->
                     declare_function_type ret_id params b2 = Ok (id, b2)).
  { intros b2 Hl. unfold declare_function_type, bind, get. cbv zeta.
    rewrite Hl, Hneq. reflexivity. }
  unfold declare_function_type in Hd.
  apply bind_Ok in Hd as (b0 & s0 & E0 & Hd). cbv beta zeta in Hd. leaves.
  destruct (lookup_function_type ret_id params b =? SpvInvalidId) eqn:Hinv.
  - apply Z.eqb_eq in Hinv.
    unfold add_function_type in Hd. cbv zeta in Hd.
    apply bind_Ok in Hd as (b0 & s0 & E0 & Hd). cbv beta in Hd. leaves.
    destruct (function_type_map b !! make_function_type_key ret_id params) eqn:Hfound.
    + leaves. exfalso. apply Hid. rewrite <- Hinv.
      unfold lookup_function_type. rewrite Hfound. reflexivity.
    + binds Hd. leaves. clear Hneq.
      set (id := uint32 (Z.of_nat (size (kind_map b)) + 1)) in *.
      assert (Hl : forall b2, function_type_map b2
                     = <[make_function_type_key ret_id params := id]> (function_type_map b) ->
                   lookup_function_type ret_id params b2 = id).
      { intros b2 E2. unfold lookup_function_type. rewrite E2, lookup_insert_eq. reflexivity. }
      split; [apply Hl; reflexivity |]. split; [apply Hagain, Hl; reflexivity |].
      intros _. split; [unfold kind_of; cbn; rewrite lookup_insert_eq; reflexivity |].
      split; [reflexivity |].
      unfold SpvFactory.function_type, SpvFactory.build.
      rewrite fold_left_app, fold_add_operand. reflexivity.
  - leaves. apply Z.eqb_neq in Hinv. split; [reflexivity |].
    split; [apply Hagain; reflexivity |].
    intros Hx. contradiction.
Qed.

(** *** Frames: what a builder method leaves alone *)

Lemma keeps_ret {T A : Type} (proj : SpvBuilder -> T) (a : A) : keeps proj (ret a).
Proof. intros b x b1 E. apply ret_Ok in E as [_ ->]. reflexivity. Qed.

Lemma keeps_get {T : Type} (proj : SpvBuilder -> T) : keeps proj get.
Proof. intros b x b1 E. apply get_Ok in E as [_ ->]. reflexivity. Qed.

Lemma keeps_modify {T : Type} (proj : SpvBuilder -> T) (f : SpvBuilder -> SpvBuilder) :
  (forall b, proj (f b) = proj b) -> keeps proj (modify f).
Proof. intros Hf b x b1 E. apply modify_Ok in E as ->. apply Hf. Qed.

Lemma keeps_bind {T A B : Type} (proj : SpvBuilder -> T)
    (m : M SpvBuilder A) (k : A -> M SpvBuilder B) :
  keeps proj m -> (forall a, keeps proj (k a)) -> keeps proj (bind m k).
Proof.
  intros Hm Hk b x b1 E. apply bind_Ok in E as (a & s & Em & Ek).
  rewrite (Hk a s x b1 Ek). exact (Hm b a s Em).
Qed.

Lemma keeps_fail {T A : Type} (proj : SpvBuilder -> T) (m : M SpvBuilder A) :
  (forall b r, m b <> Ok r) -> keeps proj m.
Proof. intros Hm b a b1 E. exfalso. exact (Hm _ _ E). Qed.

Lemma keeps_make_id {T : Type} (proj : SpvBuilder -> T) kind :
  (forall f b, proj (upd_kind_map f b) = proj b) -> keeps proj (make_id kind).
Proof. intros Hf b x b1 E. apply make_id_Ok in E as [_ ->]. apply Hf. Qed.

Ltac keeps_step :=
  first
    [ apply keeps_ret | apply keeps_get
    | apply keeps_fail; discriminate
    | apply keeps_make_id; intros; reflexivity
    | apply keeps_modify; intros; reflexivity
    | apply keeps_bind; [| intros ?]
    | match goal with
      | |- keeps _ (if ?c then _ else _) => destruct c
      | |- keeps _ (match ?x with _ => _ end) => destruct x
      end ].

(** Declaring a type that is no array leaves the constants alone. *)
Lemma add_type_rec_keeps_constants fuel :
  forall type array_size, array_size <= 1 ->
    keeps constant_map (add_type_rec fuel type array_size).
Proof.
  induction fuel as [| fuel IH]; intros type array_size Hsize.
  - apply keeps_fail. discriminate.
  - cbn [add_type_rec]. lazy zeta.
    replace (1 <? array_size) with false by (symmetry; apply Z.ltb_ge; lia).
    unfold module_add_type, require_capability.
    repeat first [ apply IH; lia | keeps_step ].
Qed.

Section Constants.
Variable declare_vector_constant : Type_ -> list Z -> M SpvBuilder SpvId.

Lemma declare_constant_hit type data id b :
  lanes type = 1 -> id <> SpvInvalidId ->
  constant_recorded type data id b ->
  declare_constant declare_vector_constant type data b = Ok (id, b).
Proof.
  intros Hlanes Hid Hrec.
  assert (Hneq : (id =? SpvInvalidId) = false) by (apply Z.eqb_neq; exact Hid).
  unfold declare_constant, bind, get, lookup_constant. cbv zeta.
  destruct Hrec as [Hrec | (Hnone & Hbool & Hrec)].
  - rewrite Hrec. change (default SpvInvalidId (Some id)) with id.
    rewrite Hneq. reflexivity.
  - rewrite Hnone. change (default SpvInvalidId None) with SpvInvalidId.
    rewrite Z.eqb_refl.
    unfold add_constant, bind, get. cbv zeta. rewrite Hnone, Hlanes.
    change (1 =? 1) with true. cbv iota.
    unfold declare_scalar_constant. rewrite Hlanes.
    change (negb (1 =? 1)) with false. cbv iota.
    unfold bind, get. cbv zeta. rewrite Hnone, Hbool.
    unfold declare_bool_constant, bind, get. cbv zeta. rewrite Hrec. reflexivity.
Qed.

Lemma declare_bool_constant_records value b id b1 :
  declare_bool_constant value b = Ok (id, b1) ->
  constant_map b1 !! make_constant_key (Bool_ 1) [Z.b2z value] = Some id
  /\ (constant_map b !! make_constant_key (Bool_ 1) [Z.b2z value] = None ->
      constant_map b1
      = <[make_constant_key (Bool_ 1) [Z.b2z value] := id]> (constant_map b))
  /\ (is_Some (constant_map b !! make_constant_key (Bool_ 1) [Z.b2z value]) -> b1 = b).
Proof.
  unfold declare_bool_constant. cbv zeta. intros Hd.
  apply bind_Ok in Hd as (b0 & s0 & E0 & Hd). cbv beta in Hd. leaves.
  destruct (constant_map b !! make_constant_key (Bool_ 1) [Z.b2z value]) eqn:Hfound.
  - leaves. split; [exact Hfound |]. split; [discriminate | reflexivity].
  - binds Hd. leaves.
    match goal with E : add_type _ _ _ = Ok _ |- _ =>
      apply (add_type_rec_keeps_constants 3 (Bool_ 1) 1 ltac:(lia)) in E as Hk end.
    cbn. rewrite Hk. cbn. split; [apply lookup_insert_eq |].
    split; [reflexivity | intros [x Hx]; discriminate].
Qed.

Lemma declare_constant_records type data b id b1 :
  lanes type = 1 -> id <> SpvInvalidId ->
  declare_constant declare_vector_constant type data b = Ok (id, b1) ->
  constant_recorded type data id b1.
Proof.
  intros Hlanes Hid Hd.
  unfold declare_constant in Hd.
  apply bind_Ok in Hd as (b0 & s0 & E0 & Hd). cbv beta zeta in Hd. leaves.
  unfold lookup_constant in Hd.
  destruct (constant_map b !! make_constant_key type data) as [found |] eqn:Hfound.
  - change (default SpvInvalidId (Some found)) with found in Hd.
    destruct (found =? SpvInvalidId) eqn:Hinv.
    + unfold add_constant in Hd. cbv zeta in Hd.
      apply bind_Ok in Hd as (b0 & s0 & E0 & Hd). cbv beta in Hd. leaves.
      rewrite Hfound in Hd. leaves. left. exact Hfound.
    + leaves. left. exact Hfound.
  - change (default SpvInvalidId None) with SpvInvalidId in Hd.
    rewrite Z.eqb_refl in Hd.
    unfold add_constant in Hd. cbv zeta in Hd.
    apply bind_Ok in Hd as (b0 & s0 & E0 & Hd). cbv beta in Hd. leaves.
    rewrite Hfound, Hlanes in Hd. change (1 =? 1) with true in Hd. cbv iota in Hd.
    unfold declare_scalar_constant in Hd. rewrite Hlanes in Hd.
    change (negb (1 =? 1)) with false in Hd. cbv iota zeta in Hd.
    apply bind_Ok in Hd as (b0 & s0 & E0 & Hd). cbv beta in Hd. leaves.
    rewrite Hfound in Hd.
    destruct (is_bool type) eqn:Hbool.
    + apply declare_bool_constant_records in Hd as (Hrec & Hfresh & Hsame).
      destruct (constant_map b !! make_constant_key (Bool_ 1)
                  [Z.b2z (negb (default 0 (head data) =? 0))]) eqn:Hb.
      * rewrite (Hsame ltac:(eauto)). rewrite (Hsame ltac:(eauto)) in Hrec.
        right. auto.
      * destruct (decide (make_constant_key type data
                          = make_constant_key (Bool_ 1)
                              [Z.b2z (negb (default 0 (head data) =? 0))])) as [Heq | Hne].
        -- left. rewrite Heq. exact Hrec.
        -- right. split; [| split; [exact Hbool | exact Hrec]].
           rewrite (Hfresh eq_refl), lookup_insert_ne by (intros E; apply Hne; rewrite E; reflexivity).
           exact Hfound.
    + binds Hd. leaves. left. cbn. apply lookup_insert_eq.
Qed.

(** X4. A scalar constant declared once is not declared again: a second
    [declare_constant] of the same type and bytes returns the same id and
    leaves the builder as it is. *)
Theorem declare_constant_idempotent type data b id b1 :
  lanes type = 1 -> id <> SpvInvalidId ->
  declare_constant declare_vector_constant type data b = Ok (id, b1) ->
  declare_constant declare_vector_constant type data b1 = Ok (id, b1).
Proof.
  intros Hlanes Hid Hd. apply declare_constant_hit; [exact Hlanes | exact Hid |].
  exact (declare_constant_records type data b id b1 Hlanes Hid Hd).
Qed.

End Constants.

Lemma current_function_Ok b fh b1 :
  current_function b = Ok (fh, b1) -> active_function b = Some fh /\ b1 = b.
Proof.
  unfold current_function. intros E. apply bind_Ok in E as (b0 & s0 & E0 & E).
  cbv beta in E. leaves. destruct (active_function b); [| discriminate E].
  leaves. auto.
Qed.

Lemma block_contents_Ok h b c b1 :
  block_contents h b = Ok (c, b1) -> block_store b !! h = Some c /\ b1 = b.
Proof.
  unfold block_contents. destruct (block_store b !! h); [| discriminate].
  intros E. injection E as <- <-. auto.
Qed.

Lemma function_contents_Ok h b c b1 :
  function_contents h b = Ok (c, b1) -> function_store b !! h = Some c /\ b1 = b.
Proof.
  unfold function_contents. destruct (function_store b !! h); [| discriminate].
  intros E. injection E as <- <-. auto.
Qed.

Lemma SpvFunction_entry_block_Ok fh b entry b1 :
  SpvFunction_entry_block fh b = Ok (entry, b1) ->
  (exists c, function_store b !! fh = Some c /\ head (blocks c) = Some entry) /\ b1 = b.
Proof.
  unfold SpvFunction_entry_block. intros E. apply bind_Ok in E as (c & s0 & E0 & E).
  cbv beta in E. apply function_contents_Ok in E0 as [Hc ->].
  destruct (head (blocks c)) eqn:Hh; [| discriminate E]. leaves. eauto.
Qed.

Lemma SpvBlock_id_Ok h b id b1 :
  SpvBlock_id h b = Ok (id, b1) ->
  (exists c, block_store b !! h = Some c /\ block_id c = id) /\ b1 = b.
Proof.
  unfold SpvBlock_id. intros E. apply bind_Ok in E as (c & s0 & E0 & E).
  cbv beta in E. apply block_contents_Ok in E0 as [Hc ->]. leaves. eauto.
Qed.

Lemma upd_block_Ok h f b u b1 :
  upd_block h f b = Ok (u, b1) ->
  exists c, block_store b !! h = Some c
            /\ b1 = upd_block_store (fun st => <[h := f c]> st) b.
Proof.
  unfold upd_block. intros E. apply bind_Ok in E as (c & s0 & E0 & E).
  cbv beta in E. apply block_contents_Ok in E0 as [Hc ->]. leaves. eauto.
Qed.

Lemma upd_function_Ok h f b u b1 :
  upd_function h f b = Ok (u, b1) ->
  exists c, function_store b !! h = Some c
            /\ b1 = upd_function_store (fun st => <[h := f c]> st) b.
Proof.
  unfold upd_function. intros E. apply bind_Ok in E as (c & s0 & E0 & E).
  cbv beta in E. apply function_contents_Ok in E0 as [Hc ->]. leaves. eauto.
Qed.

(** X5. A variable declared under a name that was not bound is found again:
    the new id is a variable of the given type and storage class in the
    scope of the entry block of the current function, the entry block gets
    its [OpVariable], and a second declaration with the same arguments
    returns the same id and changes nothing. *)
Theorem declare_variable_round_trip name type_id sc init b id b1 :
  declare_variable name type_id sc init b = Ok (id, b1) ->
  id <> SpvInvalidId ->
  lookup_id name b = SpvInvalidId ->
  exists fh c entry blk,
    active_function b = Some fh
    /\ function_store b !! fh = Some c
    /\ head (blocks c) = Some entry
    /\ block_store b !! entry = Some blk
    /\ lookup_variable name type_id sc (block_id blk) b1 = id
    /\ has_variable name type_id sc (block_id blk) b1 = true
    /\ kind_of id b1 = SpvVariableId
    /\ Spirv.type_of id b1 = type_id
    /\ block_store b1 !! entry
       = Some (mkBlock (block_id blk) (parent blk) (instructions blk)
                 (variables blk
                    ++ [SpvInst.set_block entry (SpvFactory.variable id type_id sc init)])
                 (reachable blk))
    /\ declare_variable name type_id sc init b1 = Ok (id, b1).
Proof.
  intros Hd Hid Hname.
  assert (Hneq : (id =? SpvInvalidId) = false) by (apply Z.eqb_neq; exact Hid).
  unfold declare_variable in Hd.
  apply bind_Ok in Hd as (fh & s0 & E0 & Hd). cbv beta in Hd.
  apply current_function_Ok in E0 as [Hfh ->].
  apply bind_Ok in Hd as (entry & s0 & E0 & Hd). cbv beta in Hd.
  apply SpvFunction_entry_block_Ok in E0 as [(c & Hc & Hentry) ->].
  apply bind_Ok in Hd as (bid & s0 & E0 & Hd). cbv beta in Hd.
  apply SpvBlock_id_Ok in E0 as [(blk & Hblk & Hbid) ->]. subst bid.
  apply bind_Ok in Hd as (b0 & s0 & E0 & Hd). cbv beta zeta in Hd. leaves.
  assert (Hlv : lookup_variable name type_id sc (block_id blk) b = SpvInvalidId).
  { unfold lookup_variable. cbv zeta. rewrite Hname, Z.eqb_refl. reflexivity. }
  rewrite Hlv, Z.eqb_refl in Hd. cbn [negb] in Hd.
  unfold reserve_id in Hd.
  apply bind_Ok in Hd as (var_id & s0 & E0 & Hd). cbv beta in Hd.
  apply make_id_Ok in E0 as [Hvar E0]. rewrite <- Hvar in E0. subst s0.
  apply bind_Ok in Hd as (u1 & s1 & E1 & Hd). cbv beta in Hd.
  unfold SpvBlock_add_variable in E1. apply upd_block_Ok in E1 as (blk' & Hblk' & ->).
  cbn in Hblk'. rewrite Hblk in Hblk'. injection Hblk' as <-.
  apply bind_Ok in Hd as (u2 & s2 & E2 & Hd). cbv beta in Hd.
  unfold declare_symbol in E2.
  apply bind_Ok in E2 as (b0 & s0 & E0 & E2). cbv beta zeta in E2. leaves.
  unfold lookup_id at 1 in E2. cbn [symbol_id_map upd_block_store upd_kind_map] in E2.
  fold (lookup_id name b) in E2. rewrite Hname, Z.eqb_refl in E2. cbn [negb andb] in E2.
  unfold add_symbol in E2. unravel.
  match goal with |- exists _ _ _ _, _ /\ _ /\ _ /\ _ /\ lookup_variable _ _ _ _ ?s = _ /\ _ =>
    remember s as b1 eqn:Hb1 end.
  unfold has_variable.
  exists fh, c, entry, blk.
  assert (Hstore : forall s, block_store s = <[entry := mkBlock (block_id blk) (parent blk)
                     (instructions blk)
                     (variables blk
                        ++ [SpvInst.set_block entry (SpvFactory.variable var_id type_id sc init)])
                     (reachable blk)]> (block_store b) ->
                   block_store s !! entry
                   = Some (mkBlock (block_id blk) (parent blk) (instructions blk)
                       (variables blk
                          ++ [SpvInst.set_block entry (SpvFactory.variable var_id type_id sc init)])
                       (reachable blk))).
  { intros s ->. apply list_lookup_insert_eq. apply lookup_lt_Some in Hblk. exact Hblk. }
  assert (Hlv1 : forall s scope,
            lookup_id name s = var_id -> kind_of var_id s = SpvVariableId ->
            Spirv.type_of var_id s = type_id -> lookup_storage_class var_id s = sc ->
            lookup_scope var_id s = scope ->
            lookup_variable name type_id sc scope s = var_id).
  { intros s scope H1 H2 H3 H4 H5.
    unfold lookup_variable. cbv zeta. rewrite H1, H2, H3, H4, H5, Hneq, !Z.eqb_refl.
    rewrite bool_decide_eq_true_2 by reflexivity. reflexivity. }
  assert (Hfacts : forall s, s = b1 ->
            lookup_id name s = var_id /\ kind_of var_id s = SpvVariableId
            /\ Spirv.type_of var_id s = type_id /\ lookup_storage_class var_id s = sc
            /\ lookup_scope var_id s = block_id blk).
  { intros s ->. rewrite Hb1.
    unfold lookup_id, kind_of, Spirv.type_of, lookup_storage_class, lookup_scope.
    cbn. rewrite !lookup_insert_eq. repeat split. }
  destruct (Hfacts _ eq_refl) as (F1 & F2 & F3 & F4 & F5).
  rewrite (Hlv1 b1 (block_id blk) F1 F2 F3 F4 F5), Hneq.
  repeat split; try assumption.
  - apply Hstore. rewrite Hb1. reflexivity.
  - unfold declare_variable.
    assert (Haf : active_function b1 = Some fh) by (rewrite Hb1; exact Hfh).
    assert (Hfs : function_store b1 = function_store b) by (rewrite Hb1; reflexivity).
    erewrite bind_eq;
      [| unfold current_function, bind, get; rewrite Haf; reflexivity].
    erewrite bind_eq;
      [| unfold SpvFunction_entry_block, function_contents, bind;
         rewrite Hfs, Hc, Hentry; reflexivity].
    erewrite bind_eq;
      [| unfold SpvBlock_id, block_contents, bind;
         rewrite Hstore by (rewrite Hb1; reflexivity); reflexivity].
    unfold bind at 1, get. cbv zeta. cbn [block_id].
    rewrite Hlv1 by assumption. rewrite Hneq. reflexivity.
Qed.

(** *** Functions *)

Lemma keeps_declare_function_type {T : Type} (proj : SpvBuilder -> T) r ps :
  (forall f b, proj (upd_kind_map f b) = proj b) ->
  (forall f b, proj (upd_module (SpvModule.add_type f) b) = proj b) ->
  (forall f b, proj (upd_function_type_map f b) = proj b) ->
  keeps proj (declare_function_type r ps).
Proof.
  intros H1 H2 H3. unfold declare_function_type, add_function_type, module_add_type.
  repeat first
    [ apply keeps_ret | apply keeps_get
    | apply keeps_make_id; exact H1
    | apply keeps_modify; first [intros; apply H2 | intros; apply H3]
    | apply keeps_bind; [| intros ?]
    | match goal with
      | |- keeps _ (if ?c then _ else _) => destruct c
      | |- keeps _ (match ?x with _ => _ end) => destruct x
      | |- keeps _ (let _ := _ in _) => cbv zeta
      end ].
Qed.

Lemma declare_function_type_total r ps b :
  exists id b1, declare_function_type r ps b = Ok (id, b1).
Proof.
  unfold declare_function_type, add_function_type, bind, get. cbv zeta.
  destruct (lookup_function_type r ps b =? SpvInvalidId); [| eexists _, _; reflexivity].
  destruct (function_type_map b !! make_function_type_key r ps);
    eexists _, _; reflexivity.
Qed.

(** [add_function]'s loop over the parameter types appends one
    [OpFunctionParameter] of each type, in order. *)
Lemma add_parameters_spec fh ps :
  forall b c, function_store b !! fh = Some c ->
    exists b1 new,
      add_parameters fh ps b = Ok (tt, b1)
      /\ function_store b1
         = <[fh := with_parameters c (parameters c ++ new)]> (function_store b)
      /\ map Spirv.type_id new = ps
      /\ Forall (fun p => op_code p = SpvOpFunctionParameter) new
      /\ block_store b1 = block_store b
      /\ module b1 = module b.
Proof.
  induction ps as [| p ps IH]; intros b c Hc.
  - exists b, []. cbn [add_parameters]. split; [reflexivity |].
    rewrite app_nil_r. split.
    { symmetry. destruct c. apply list_insert_id. exact Hc. }
    repeat split; constructor.
  - cbn [add_parameters].
    erewrite bind_eq by reflexivity.
    set (param_id := uint32 (Z.of_nat (size (kind_map b)) + 1)).
    set (b' := upd_kind_map _ b).
    assert (Hc' : function_store b' !! fh = Some c) by exact Hc.
    erewrite bind_eq;
      [| unfold SpvFunction_add_parameter, upd_function, function_contents, bind, modify;
         rewrite Hc'; reflexivity].
    set (b'' := upd_function_store _ b').
    assert (Hlt : (fh < length (function_store b))%nat) by (eapply lookup_lt_Some, Hc).
    destruct (IH b'' (push_parameter (SpvFactory.function_parameter p param_id) c))
      as (b1 & new & Hrun & Hstore & Hty & Hop & Hbs & Hmod).
    { unfold b''. cbn. apply list_lookup_insert_eq. exact Hlt. }
    exists b1, (SpvFactory.function_parameter p param_id :: new).
    split; [exact Hrun |]. split.
    { rewrite Hstore. unfold b''. cbn. rewrite list_insert_insert_eq.
      unfold with_parameters, push_parameter. cbn. rewrite <- app_assoc. reflexivity. }
    split; [cbn; rewrite Hty; reflexivity |].
    split; [constructor; [reflexivity | exact Hop] |].
    split; [rewrite Hbs; reflexivity | rewrite Hmod; reflexivity].
Qed.

Lemma declare_symbol_total symbol id scope b :
  exists r b1, declare_symbol symbol id scope b = Ok (r, b1)
               /\ function_store b1 = function_store b
               /\ block_store b1 = block_store b
               /\ function_map b1 = function_map b
               /\ functions (module b1) = functions (module b).
Proof.
  unfold declare_symbol, add_symbol, bind, get, modify, ret. cbv zeta.
  destruct (_ && _); eexists _, _; repeat split.
Qed.

(** X6. [add_function] never fails. The function gets the next id, is
    registered under it in the function map and at the end of the module's
    functions, has one [OpFunctionParameter] per parameter type, in order,
    and exactly one block, the entry block, which is empty and belongs to
    the function. *)
Theorem add_function_creates name ret_id params b :
  exists fid b1 c blk,
    add_function name ret_id params b = Ok (fid, b1)
    /\ fid = uint32 (Z.of_nat (size (kind_map b)) + 1)
    /\ lookup_function fid b1 = Some (length (function_store b))
    /\ function_store b1 !! length (function_store b) = Some c
    /\ function_id c = fid /\ return_type_id c = ret_id
    /\ map Spirv.type_id (parameters c) = params
    /\ Forall (fun p => op_code p = SpvOpFunctionParameter) (parameters c)
    /\ blocks c = [length (block_store b)]
    /\ block_store b1 !! length (block_store b) = Some blk
    /\ parent blk = Some (length (function_store b))
    /\ instructions blk = [] /\ variables blk = []
    /\ functions (module b1) = functions (module b) ++ [length (function_store b)].
Proof.
  unfold add_function.
  erewrite bind_eq by reflexivity.
  set (fid := uint32 (Z.of_nat (size (kind_map b)) + 1)).
  set (b0 := upd_kind_map _ b).
  destruct (declare_function_type_total ret_id params b0) as (ftid & b2 & Hft).
  assert (Hfs2 : function_store b2 = function_store b).
  { apply (keeps_declare_function_type function_store ret_id params) in Hft;
      [exact Hft | reflexivity ..]. }
  assert (Hbs2 : block_store b2 = block_store b).
  { apply (keeps_declare_function_type block_store ret_id params) in Hft;
      [exact Hft | reflexivity ..]. }
  assert (Hfn2 : functions (module b2) = functions (module b)).
  { apply (keeps_declare_function_type (fun b => functions (module b)) ret_id params) in Hft;
      [exact Hft | reflexivity ..]. }
  rewrite (bind_eq _ _ _ _ _ Hft). cbv beta.
  erewrite bind_eq by reflexivity. rewrite Hfs2.
  set (fh := length (function_store b)).
  set (c0 := mkFunction fid ftid ret_id 0 (SpvFactory.function ret_id fid 0 ftid) [] []).
  set (b3 := upd_function_store _ b2).
  assert (Hc3 : function_store b3 !! fh = Some c0).
  { unfold b3. cbn. rewrite Hfs2. apply list_lookup_middle. reflexivity. }
  destruct (add_parameters_spec fh params b3 c0 Hc3)
    as (b4 & new & Hrun & Hfs4 & Hty & Hop & Hbs4 & Hmod4).
  rewrite (bind_eq _ _ _ _ _ Hrun). cbv beta.
  erewrite bind_eq by reflexivity.
  set (b5 := upd_kind_map _ b4).
  erewrite bind_eq by reflexivity.
  assert (Hbs5 : block_store b5 = block_store b).
  { unfold b5. cbn. rewrite Hbs4. unfold b3. cbn. exact Hbs2. }
  rewrite Hbs5. set (bh := length (block_store b)).
  set (b6 := upd_block_store _ b5).
  set (c1 := with_parameters c0 (parameters c0 ++ new)).
  assert (Hlt : (fh < length (function_store b3))%nat) by (eapply lookup_lt_Some, Hc3).
  assert (Hc6 : function_store b6 !! (fh : FunctionHandle) = Some c1).
  { unfold b6, b5. cbn. rewrite Hfs4. apply list_lookup_insert_eq. exact Hlt. }
  erewrite bind_eq;
    [| unfold SpvFunction_add_block, upd_function, function_contents, bind, modify, ret;
       rewrite Hc6; cbv beta iota; change (blocks c1) with (@nil BlockHandle);
       rewrite bool_decide_eq_true_2 by reflexivity; cbv beta iota;
       rewrite Hc6; reflexivity].
  set (b7 := upd_function_store _ b6).
  erewrite bind_eq by reflexivity. erewrite bind_eq by reflexivity.
  erewrite bind_eq by reflexivity.
  match goal with |- context [bind (declare_symbol ?n ?f ?scope) _ ?s] =>
    destruct (declare_symbol_total n f scope s)
      as (r & b8 & Hsym & Hfs8 & Hbs8 & Hfm8 & Hfn8) end.
  rewrite (bind_eq _ _ _ _ _ Hsym). cbv beta.
  exists fid, b8, (push_block bh c1), (mkBlock (uint32 (Z.of_nat (size (kind_map b4)) + 1))
                                  (Some fh) [] [] true).
  split; [reflexivity |]. split; [reflexivity |].
  split.
  { unfold lookup_function. rewrite Hfm8. cbn. apply lookup_insert_eq. }
  split.
  { rewrite Hfs8. cbn. apply list_lookup_insert_eq.
    rewrite Hfs4, length_insert. exact Hlt. }
  split; [reflexivity |]. split; [reflexivity |].
  split; [exact Hty |]. split; [exact Hop |]. split; [reflexivity |].
  split.
  { rewrite Hbs8. cbn. rewrite Hbs4. unfold b3. cbn. rewrite Hbs2.
    apply list_lookup_middle. reflexivity. }
  split; [reflexivity |]. split; [reflexivity |]. split; [reflexivity |].
  rewrite Hfn8. cbn. rewrite Hmod4. unfold b3. cbn. rewrite Hfn2. reflexivity.
Qed.

End Local.

Lemma declare_type_round_trip_witness :
  declare_type (Int 32 1) 1 (MoreScenarios.after (declare_type (Int 32 1) 1) reset)
  = Ok (2, MoreScenarios.after (declare_type (Int 32 1) 1) reset).
Proof.
  apply (declare_type_round_trip (Int 32 1) 1 reset 2).
  - vm_compute. reflexivity.
  - vm_compute. discriminate.
Defined.

Lemma declare_pointer_type_id_round_trip_witness :
  lookup_pointer_type_id 2 SpvStorageClassFunction
    (MoreScenarios.after (declare_pointer_type_id 2 SpvStorageClassFunction) reset) = 2.
Proof.
  apply (declare_pointer_type_id_round_trip 2 SpvStorageClassFunction reset 2).
  - vm_compute. reflexivity.
  - vm_compute. discriminate.
Defined.

Lemma declare_function_type_round_trip_witness :
  lookup_function_type 2 [3; 3]
    (MoreScenarios.after (declare_function_type 2 [3; 3]) reset) = 2.
Proof.
  apply (declare_function_type_round_trip 2 [3; 3] reset 2).
  - vm_compute. reflexivity.
  - vm_compute. discriminate.
Defined.

Lemma declare_constant_idempotent_witness :
  declare_constant Scenario.no_vector_constant (Int 32 1) (le_bytes 4 1)
    (MoreScenarios.after
       (declare_constant Scenario.no_vector_constant (Int 32 1) (le_bytes 4 1)) reset)
  = Ok (2, MoreScenarios.after
             (declare_constant Scenario.no_vector_constant (Int 32 1) (le_bytes 4 1)) reset).
Proof.
  apply (declare_constant_idempotent Scenario.no_vector_constant (Int 32 1) (le_bytes 4 1)
           reset 2).
  - reflexivity.
  - vm_compute. discriminate.
  - vm_compute. reflexivity.
Defined.

Lemma declare_variable_round_trip_witness :
  declare_variable "v" 3 SpvStorageClassFunction SpvInvalidId
    (MoreScenarios.after (declare_variable "v" 3 SpvStorageClassFunction SpvInvalidId)
       MoreScenarios.kernel_state)
  = Ok (9, MoreScenarios.after (declare_variable "v" 3 SpvStorageClassFunction SpvInvalidId)
             MoreScenarios.kernel_state).
Proof.
  edestruct (declare_variable_round_trip "v" 3 SpvStorageClassFunction SpvInvalidId
               MoreScenarios.kernel_state 9
               (MoreScenarios.after
                  (declare_variable "v" 3 SpvStorageClassFunction SpvInvalidId)
                  MoreScenarios.kernel_state))
    as (fh & c & entry & blk & _ & _ & _ & _ & _ & _ & _ & _ & _ & Hagain);
    [vm_compute; reflexivity | vm_compute; discriminate | vm_compute; reflexivity |].
  exact Hagain.
Defined.

End BuilderFacts.

(** * Blocks, finalization and narrow integer types (SpirvIR.cpp) *)

Module BlockFacts.
Import Spirv Invariants BuilderSpecs BuilderFacts.

Section Local.
Context `{SpirvHeader}.

Lemma SpvFunction_tail_block_Ok fh b tail b1 :
  SpvFunction_tail_block fh b = Ok (tail, b1) ->
  (exists c, function_store b !! fh = Some c /\ last (blocks c) = Some tail) /\ b1 = b.
Proof.
  unfold SpvFunction_tail_block. intros E. apply bind_Ok in E as (c & s0 & E0 & E).
  cbv beta in E. apply function_contents_Ok in E0 as [Hc ->].
  destruct (last (blocks c)) eqn:Hh; [| discriminate E]. leaves. eauto.
Qed.

Lemma SpvBlock_is_terminated_Ok h b t b1 :
  SpvBlock_is_terminated h b = Ok (t, b1) ->
  (exists c inst, block_store b !! h = Some c /\ last (instructions c) = Some inst
                  /\ t = is_terminator (op_code inst)) /\ b1 = b.
Proof.
  unfold SpvBlock_is_terminated. intros E. apply bind_Ok in E as (c & s0 & E0 & E).
  cbv beta in E. apply block_contents_Ok in E0 as [Hc ->].
  destruct (last (instructions c)) eqn:Hl; [| discriminate E]. leaves. eauto 6.
Qed.

(** X7. [SpvFunction::create_block] does what making the block and adding
    it with [SpvFunction::add_block] does: whenever it succeeds, the two
    steps succeed with the same block and the same builder, so a new block
    is linked from an unterminated tail in the same way. *)
Theorem create_block_is_make_then_add fh block_id b blk b1 :
  SpvFunction_create_block fh block_id b = Ok (blk, b1) ->
  (do block <- SpvBlock_make (Some fh) block_id;
   SpvFunction_add_block fh block ;;
   ret block) b = Ok (blk, b1).
Proof.
  unfold SpvFunction_create_block. intros Hc.
  apply bind_Ok in Hc as (c & s0 & E0 & Hc). cbv beta in Hc.
  apply function_contents_Ok in E0 as [Hfc ->].
  apply bind_Ok in Hc as (u & s1 & Hlink & Hc). cbv beta in Hc.
  apply bind_Ok in Hc as (blk' & s2 & Hmake & Hc). cbv beta in Hc.
  apply bind_Ok in Hc as (u' & s3 & Hpush & Hc). cbv beta in Hc. leaves.
  unfold SpvBlock_make in Hmake. injection Hmake as <- <-.
  apply upd_function_Ok in Hpush as (c' & Hc' & ->). cbn in Hc'.
  erewrite bind_eq by reflexivity.
  set (bnew := mkBlock block_id (Some fh) [] [] true).
  assert (Hfc1 : forall st, function_contents fh (upd_block_store st b) = Ok (c, upd_block_store st b)).
  { intros st. unfold function_contents. cbn. rewrite Hfc. reflexivity. }
  destruct (bool_decide (blocks c = [])) eqn:Hempty.
  - leaves. rewrite Hfc in Hc'. injection Hc' as <-.
    erewrite bind_eq;
      [| unfold SpvFunction_add_block;
         rewrite (bind_eq _ _ _ _ _ (Hfc1 _)); cbv beta; rewrite Hempty;
         erewrite bind_eq by reflexivity;
         unfold upd_function; rewrite (bind_eq _ _ _ _ _ (Hfc1 _)); reflexivity].
    reflexivity.
  - apply bind_Ok in Hlink as (tail & s4 & Htail & Hlink). cbv beta in Hlink.
    apply SpvFunction_tail_block_Ok in Htail as [(c2 & Hc2 & Htail) ->].
    rewrite Hfc in Hc2. injection Hc2 as <-.
    apply bind_Ok in Hlink as (t & s5 & Hterm & Hlink). cbv beta in Hlink.
    apply SpvBlock_is_terminated_Ok in Hterm as [(ct & inst & Hct & Hlast & ->) ->].
    assert (Hlt : (tail < length (block_store b))%nat) by (eapply lookup_lt_Some, Hct).
    assert (Hct1 : block_store (upd_block_store (fun st => st ++ [bnew]) b)
                   !! (tail : BlockHandle) = Some ct).
    { cbn. rewrite lookup_app_l by exact Hlt. exact Hct. }
    assert (Htail1 : SpvFunction_tail_block fh (upd_block_store (fun st => st ++ [bnew]) b)
                     = Ok (tail, upd_block_store (fun st => st ++ [bnew]) b)).
    { unfold SpvFunction_tail_block. rewrite (bind_eq _ _ _ _ _ (Hfc1 _)). cbv beta.
      rewrite Htail. reflexivity. }
    assert (Hterm1 : SpvBlock_is_terminated tail (upd_block_store (fun st => st ++ [bnew]) b)
                     = Ok (is_terminator (op_code inst),
                           upd_block_store (fun st => st ++ [bnew]) b)).
    { unfold SpvBlock_is_terminated, block_contents, bind. rewrite Hct1, Hlast. reflexivity. }
    destruct (is_terminator (op_code inst)) eqn:Hterm.
    + leaves. rewrite Hfc in Hc'. injection Hc' as <-.
      erewrite bind_eq;
        [| unfold SpvFunction_add_block;
           rewrite (bind_eq _ _ _ _ _ (Hfc1 _)); cbv beta; rewrite Hempty;
           erewrite bind_eq;
             [| rewrite (bind_eq _ _ _ _ _ Htail1); cbv beta;
                rewrite (bind_eq _ _ _ _ _ Hterm1); cbv beta; reflexivity];
           unfold upd_function; rewrite (bind_eq _ _ _ _ _ (Hfc1 _)); reflexivity].
      reflexivity.
    + unfold SpvBlock_add_instruction in Hlink.
      apply upd_block_Ok in Hlink as (ct' & Hct' & ->).
      rewrite Hct in Hct'. injection Hct' as <-.
      cbn in Hc'. rewrite Hfc in Hc'. injection Hc' as <-.
      erewrite bind_eq;
        [| unfold SpvFunction_add_block;
           rewrite (bind_eq _ _ _ _ _ (Hfc1 _)); cbv beta; rewrite Hempty;
           erewrite bind_eq;
             [| rewrite (bind_eq _ _ _ _ _ Htail1); cbv beta;
                rewrite (bind_eq _ _ _ _ _ Hterm1); cbv beta;
                erewrite bind_eq;
                  [| unfold SpvBlock_id, block_contents, bind; cbn;
                     rewrite list_lookup_middle by reflexivity; reflexivity];
                unfold SpvBlock_add_instruction, upd_block, block_contents, bind, modify;
                rewrite Hct1; reflexivity];
           unfold upd_function, function_contents, bind, modify; cbn; rewrite Hfc;
           reflexivity].
      unfold ret. cbn. rewrite length_insert.
      do 2 f_equal. destruct b. unfold upd_block_store. cbn.
      cbn in Hlt. rewrite insert_app_l by exact Hlt. reflexivity.
Qed.

Lemma require_extension_spec x m :
  capabilities (SpvModule.require_extension x m) = capabilities m
  /\ binding_count (SpvModule.require_extension x m) = binding_count m
  /\ forall e, e ∈ extensions (SpvModule.require_extension x m)
               <-> e = x \/ e ∈ extensions m.
Proof.
  unfold SpvModule.require_extension.
  destruct (bool_decide (x ∈ extensions m)) eqn:E.
  - apply bool_decide_eq_true_1 in E. repeat split; try tauto.
    intros [-> | He]; assumption.
  - cbn. repeat split; intros He; set_solver.
Qed.

Lemma require_extension_present x m :
  x ∈ extensions m -> SpvModule.require_extension x m = m.
Proof.
  intros Hx. unfold SpvModule.require_extension.
  rewrite bool_decide_eq_true_2 by exact Hx. reflexivity.
Qed.

Lemma finalize_module b :
  finalize b
  = Ok (tt, upd_module
              (finalized_module (uint32 (Z.of_nat (size (kind_map b)) + 1))) b).
Proof.
  unfold finalize, finalized_module, SpvModule.is_capability_required. cbv zeta.
  destruct b as [km tm cm ftm ptm btm scm vtm sm ism sim fm aid ab af m bs fs].
  unfold upd_module. cbn [module kind_map].
  destruct (bool_decide (SpvCapabilityInt8 ∈ capabilities (SpvModule.set_binding_count _ m)));
    cbn [module];
    match goal with
    | |- context [bool_decide (SpvCapabilityInt16 ∈ capabilities ?x)] =>
        destruct (bool_decide (SpvCapabilityInt16 ∈ capabilities x))
    end; reflexivity.
Qed.

Lemma finalized_module_spec l m :
  capabilities (finalized_module l m) = capabilities m
  /\ binding_count (finalized_module l m) = l
  /\ forall e, e ∈ extensions (finalized_module l m) <->
       e ∈ extensions m
       \/ (e = "SPV_KHR_8bit_storage"%string /\ SpvCapabilityInt8 ∈ capabilities m)
       \/ (e = "SPV_KHR_16bit_storage"%string /\ SpvCapabilityInt16 ∈ capabilities m).
Proof.
  unfold finalized_module. cbv zeta.
  change (capabilities (SpvModule.set_binding_count l m)) with (capabilities m).
  destruct (require_extension_spec "SPV_KHR_8bit_storage" (SpvModule.set_binding_count l m))
    as (C8 & B8 & E8).
  cbn [capabilities binding_count extensions SpvModule.set_binding_count] in C8, B8, E8.
  destruct (bool_decide (SpvCapabilityInt8 ∈ capabilities m)) eqn:H8;
    [apply bool_decide_eq_true_1 in H8 | apply bool_decide_eq_false_1 in H8].
  - rewrite C8.
    destruct (require_extension_spec "SPV_KHR_16bit_storage"
                (SpvModule.require_extension "SPV_KHR_8bit_storage"
                   (SpvModule.set_binding_count l m)))
      as (C16 & B16 & E16).
    destruct (bool_decide (SpvCapabilityInt16 ∈ capabilities m)) eqn:H16;
      [apply bool_decide_eq_true_1 in H16 | apply bool_decide_eq_false_1 in H16].
    + split; [rewrite C16; exact C8 |]. split; [rewrite B16; exact B8 |].
      intros e. rewrite E16, E8. intuition.
    + split; [exact C8 |]. split; [exact B8 |].
      intros e. rewrite E8. intuition.
  - change (capabilities (SpvModule.set_binding_count l m)) with (capabilities m).
    destruct (require_extension_spec "SPV_KHR_16bit_storage"
                (SpvModule.set_binding_count l m)) as (C16 & B16 & E16).
    cbn [capabilities binding_count extensions SpvModule.set_binding_count] in C16, B16, E16.
    destruct (bool_decide (SpvCapabilityInt16 ∈ capabilities m)) eqn:H16;
      [apply bool_decide_eq_true_1 in H16 | apply bool_decide_eq_false_1 in H16].
    + split; [exact C16 |]. split; [exact B16 |].
      intros e. rewrite E16. intuition.
    + split; [reflexivity |]. split; [reflexivity |].
      intros e. cbn. intuition.
Qed.

Lemma finalized_module_twice l m :
  finalized_module l (finalized_module l m) = finalized_module l m.
Proof.
  destruct (finalized_module_spec l m) as (C & B & E).
  unfold finalized_module at 1. cbv zeta.
  change (capabilities (SpvModule.set_binding_count l (finalized_module l m)))
    with (capabilities (finalized_module l m)).
  assert (Hbc : SpvModule.set_binding_count l (finalized_module l m) = finalized_module l m).
  { revert B. generalize (finalized_module l m).
    intros [mid bc caps exts tys cs gs ds fns] B0. cbn in B0. subst bc. reflexivity. }
  rewrite Hbc, C.
  destruct (bool_decide (SpvCapabilityInt8 ∈ capabilities m)) eqn:H8;
    [apply bool_decide_eq_true_1 in H8 | apply bool_decide_eq_false_1 in H8].
  - rewrite (require_extension_present "SPV_KHR_8bit_storage" (finalized_module l m))
      by (apply E; right; left; split; [reflexivity | exact H8]).
    rewrite C.
    destruct (bool_decide (SpvCapabilityInt16 ∈ capabilities m)) eqn:H16;
      [apply bool_decide_eq_true_1 in H16 | reflexivity].
    apply require_extension_present. apply E. right. right. split; [reflexivity | exact H16].
  - rewrite C.
    destruct (bool_decide (SpvCapabilityInt16 ∈ capabilities m)) eqn:H16;
      [apply bool_decide_eq_true_1 in H16 | reflexivity].
    apply require_extension_present. apply E. right. right. split; [reflexivity | exact H16].
Qed.

(** X8. [finalize] never fails and is idempotent. It records the next free
    id as the binding count, leaves the capabilities alone, and adds the
    8-bit and the 16-bit storage extension exactly when the module requires
    the [Int8] and the [Int16] capability; no other extension is added and
    none is removed. *)
Theorem finalize_extensions b :
  exists b1,
    finalize b = Ok (tt, b1)
    /\ finalize b1 = Ok (tt, b1)
    /\ binding_count (module b1) = uint32 (Z.of_nat (size (kind_map b)) + 1)
    /\ capabilities (module b1) = capabilities (module b)
    /\ forall e, e ∈ extensions (module b1) <->
         e ∈ extensions (module b)
         \/ (e = "SPV_KHR_8bit_storage"%string
             /\ SpvCapabilityInt8 ∈ capabilities (module b))
         \/ (e = "SPV_KHR_16bit_storage"%string
             /\ SpvCapabilityInt16 ∈ capabilities (module b)).
Proof.
  eexists. split; [apply finalize_module |]. rewrite finalize_module.
  set (last_id := uint32 (Z.of_nat (size (kind_map b)) + 1)).
  destruct (finalized_module_spec last_id (module b)) as (C & B & E).
  split.
  - change (kind_map (upd_module (finalized_module last_id) b)) with (kind_map b).
    fold last_id. do 2 f_equal.
    destruct b as [km tm cm ftm ptm btm scm vtm sm ism sim fm aid ab af m bs fs].
    unfold upd_module. cbn [module kind_map type_map constant_map function_type_map
      pointer_type_map base_type_map storage_class_map variable_type_map scope_map
      id_symbol_map symbol_id_map function_map active_id active_block active_function
      block_store function_store].
    rewrite finalized_module_twice. reflexivity.
  - split; [exact B |]. split; [exact C | exact E].
Qed.

(** The capability that the first declaration of a scalar 8- or 16-bit
    integer type requires. *)
Lemma narrow_integer_type_capability type b id b1 :
  lanes type = 1 -> is_int_or_uint type = true ->
  bits type = 8 \/ bits type = 16 ->
  type_map b !! make_type_key type 1 = None ->
  declare_type type 1 b = Ok (id, b1) ->
  (if bits type =? 8 then SpvCapabilityInt8 else SpvCapabilityInt16)
    ∈ capabilities (module b1).
Proof.
  intros Hlanes Hint Hbits Hnone Hd.
  assert (Hvec : is_vector type = false) by (unfold is_vector; rewrite Hlanes; reflexivity).
  assert (Hcode : code type = halide_type_int \/ code type = halide_type_uint).
  { unfold is_int_or_uint, is_int, is_uint in Hint. apply orb_true_iff in Hint.
    destruct Hint as [Hi | Hu]; [left | right]; eapply bool_decide_eq_true_1; eassumption. }
  assert (Hhandle : is_handle type = false).
  { unfold is_handle. apply bool_decide_eq_false_2. destruct Hcode as [-> | ->]; discriminate. }
  assert (Hfloat : is_float type = false).
  { unfold is_float. rewrite !bool_decide_eq_false_2; [reflexivity | |];
      destruct Hcode as [-> | ->]; discriminate. }
  assert (Hbool : is_bool type = false).
  { unfold is_bool. replace (bits type =? 1) with false; [apply andb_false_r |].
    symmetry. apply Z.eqb_neq. lia. }
  unfold declare_type, bind at 1, get, lookup_type in Hd. cbv zeta in Hd.
  rewrite Hnone in Hd. change (default SpvInvalidId None) with SpvInvalidId in Hd.
  rewrite Z.eqb_refl in Hd. unfold add_type in Hd.
  change 3%nat with (S 2) in Hd. remember 2%nat as inner eqn:Hinner.
  cbn [add_type_rec] in Hd. lazy zeta in Hd.
  apply bind_Ok in Hd as (b0 & s0 & E0 & Hd). cbv beta in Hd. leaves.
  rewrite Hnone in Hd. change (1 <? 1) with false in Hd. cbv iota in Hd.
  rewrite Hvec, Hhandle, Hbool, Hfloat, Hint in Hd.
  unravel.
  destruct Hbits as [H8 | H16].
  - rewrite H8 in *. change (8 =? 8) with true in *. cbv iota in *. leaves.
    cbn. unfold SpvModule.require_capability. cbn.
    destruct (bool_decide (SpvCapabilityInt8 ∈ capabilities (module b))) eqn:Hin; cbn.
    + eapply bool_decide_eq_true_1, Hin.
    + apply elem_of_union. left. apply elem_of_singleton. reflexivity.
  - rewrite H16 in *. change (16 =? 8) with false in *. change (16 =? 16) with true in *.
    cbv iota in *. leaves.
    cbn. unfold SpvModule.require_capability. cbn.
    destruct (bool_decide (SpvCapabilityInt16 ∈ capabilities (module b))) eqn:Hin; cbn.
    + eapply bool_decide_eq_true_1, Hin.
    + apply elem_of_union. left. apply elem_of_singleton. reflexivity.
Qed.

(** X9. A module in which a scalar 8-bit (16-bit) integer type is declared
    for the first time is finalized with the 8-bit (16-bit) storage
    extension. *)
Theorem narrow_integer_type_needs_storage_extension type b id b1 b2 :
  lanes type = 1 -> is_int_or_uint type = true ->
  bits type = 8 \/ bits type = 16 ->
  type_map b !! make_type_key type 1 = None ->
  declare_type type 1 b = Ok (id, b1) ->
  finalize b1 = Ok (tt, b2) ->
  (if bits type =? 8 then "SPV_KHR_8bit_storage"%string else "SPV_KHR_16bit_storage"%string)
    ∈ extensions (module b2).
Proof.
  intros Hlanes Hint Hbits Hnone Hd Hf.
  pose proof (narrow_integer_type_capability type b id b1 Hlanes Hint Hbits Hnone Hd) as Hcap.
  rewrite finalize_module in Hf.
  assert (Hb2 : b2 = upd_module
                      (finalized_module (uint32 (Z.of_nat (size (kind_map b1)) + 1))) b1)
    by congruence.
  rewrite Hb2.
  apply (proj2 (proj2 (finalized_module_spec _ (module b1)))). right.
  destruct Hbits as [H8 | H16].
  - rewrite H8 in *. left. split; [reflexivity | exact Hcap].
  - rewrite H16 in *. right. split; [reflexivity | exact Hcap].
Qed.

End Local.

Lemma create_block_is_make_then_add_witness :
  (do block <- SpvBlock_make (Some 0%nat) 20;
   SpvFunction_add_block 0%nat block ;;
   ret block) Scenario.linking_builder
  = Ok (2%nat, MoreScenarios.after (SpvFunction_create_block 0%nat 20)
                 Scenario.linking_builder).
Proof.
  apply (create_block_is_make_then_add 0%nat 20 Scenario.linking_builder).
  vm_compute. reflexivity.
Defined.

Lemma narrow_integer_type_needs_storage_extension_witness :
  "SPV_KHR_8bit_storage"%string
    ∈ extensions (module (Session.finalized
                            (MoreScenarios.after (declare_type (Int 8 1) 1) reset))).
Proof.
  apply (narrow_integer_type_needs_storage_extension (Int 8 1) reset 2
           (MoreScenarios.after (declare_type (Int 8 1) 1) reset)).
  - reflexivity.
  - reflexivity.
  - left. reflexivity.
  - vm_compute. reflexivity.
  - vm_compute. reflexivity.
  - vm_compute. reflexivity.
Defined.

End BlockFacts.

(** * Kinds of ids along a session of builder calls (SpirvIR.cpp) *)

Module KindFacts.
Import Spirv Invariants BuilderSpecs BuilderFacts.

Create HintDb tracks.

(** Every relation on builders that is a preorder, holds between builders
    with the same kinds and holds across [make_id] holds across the calls
    of a session: the kinds change through [make_id] only. *)
Section Respects.
Context `{SpirvHeader}.
Variable R : SpvBuilder -> SpvBuilder -> Prop.
Hypothesis R_refl : forall b, R b b.
Hypothesis R_trans : forall b1 b2 b3, R b1 b2 -> R b2 b3 -> R b1 b3.
Hypothesis R_same : forall b b', kind_map b' = kind_map b -> R b b'.
Hypothesis R_make_id : forall kind b a b', make_id kind b = Ok (a, b') -> R b b'.

Lemma tracks_ret {A : Type} (a : A) : respects R (ret a).
Proof. intros b a' b' E. apply ret_Ok in E as [_ ->]. apply R_refl. Qed.

Lemma tracks_bind {A B : Type} (m : M SpvBuilder A) (k : A -> M SpvBuilder B) :
  respects R m -> (forall a, respects R (k a)) -> respects R (bind m k).
Proof.
  intros Hm Hk b r b' E. apply bind_Ok in E as (a & s & Em & Ek).
  eapply R_trans; [eapply Hm | eapply Hk]; eassumption.
Qed.

Lemma tracks_get : respects R get.
Proof. intros b a b' E. apply get_Ok in E as [_ ->]. apply R_refl. Qed.

Lemma tracks_modify (f : SpvBuilder -> SpvBuilder) :
  (forall b, kind_map (f b) = kind_map b) -> respects R (modify f).
Proof. intros Hf b a b' E. apply modify_Ok in E as ->. apply R_same, Hf. Qed.

Lemma tracks_fail {A : Type} (m : M SpvBuilder A) :
  (forall b a b', m b <> Ok (a, b')) -> respects R m.
Proof. intros Hm b a b' E. exfalso. eapply Hm, E. Qed.

Lemma tracks_internal_error {A : Type} : respects R (@internal_error SpvBuilder A).
Proof. apply tracks_fail. discriminate. Qed.

Lemma tracks_user_error {A : Type} : respects R (@user_error SpvBuilder A).
Proof. apply tracks_fail. discriminate. Qed.

Lemma tracks_undefined {A : Type} : respects R (@undefined_behavior SpvBuilder A).
Proof. apply tracks_fail. discriminate. Qed.

Lemma tracks_make_id kind : respects R (make_id kind).
Proof. intros b a b' E. eapply R_make_id, E. Qed.

Ltac tracks_step :=
  first
    [ apply tracks_ret | apply tracks_get | apply tracks_internal_error
    | apply tracks_user_error | apply tracks_undefined | apply tracks_make_id
    | apply tracks_modify; intros; reflexivity
    | apply tracks_bind; [| intros ?]
    | match goal with
      | |- respects R (if ?c then _ else _) => destruct c
      | |- respects R (match ?x with _ => _ end) => destruct x
      end ].

Ltac solve_tracks := repeat tracks_step.

Lemma tracks_require_capability c : respects R (require_capability c).
Proof. unfold require_capability. solve_tracks. Qed.

Lemma tracks_module_add_type i : respects R (module_add_type i).
Proof. unfold module_add_type. solve_tracks. Qed.

Lemma tracks_module_add_constant i : respects R (module_add_constant i).
Proof. unfold module_add_constant. solve_tracks. Qed.

Lemma tracks_add_type_rec fuel type array_size :
  respects R (add_type_rec fuel type array_size).
Proof.
  revert type array_size. induction fuel as [| fuel IH]; intros type array_size.
  - apply tracks_fail. discriminate.
  - cbn [add_type_rec]. lazy zeta.
    repeat first [ apply IH | apply tracks_module_add_type
                 | apply tracks_require_capability | tracks_step ].
Qed.

Lemma tracks_declare_type type array_size : respects R (declare_type type array_size).
Proof.
  unfold declare_type, add_type.
  repeat first [ apply tracks_add_type_rec | tracks_step ].
Qed.

Lemma tracks_add_pointer_type_id id sc : respects R (add_pointer_type_id id sc).
Proof.
  unfold add_pointer_type_id.
  repeat first [ apply tracks_module_add_type | tracks_step ].
Qed.

Lemma tracks_block_contents h : respects R (block_contents h).
Proof.
  intros b a b' E. unfold block_contents in E.
  destruct (block_store b !! h); [| discriminate]. injection E as _ <-. apply R_refl.
Qed.

Lemma tracks_function_contents h : respects R (function_contents h).
Proof.
  intros b a b' E. unfold function_contents in E.
  destruct (function_store b !! h); [| discriminate]. injection E as _ <-. apply R_refl.
Qed.

Lemma tracks_upd_block h f : respects R (upd_block h f).
Proof. unfold upd_block. repeat first [ apply tracks_block_contents | tracks_step ]. Qed.

Lemma tracks_upd_function h f : respects R (upd_function h f).
Proof.
  unfold upd_function. repeat first [ apply tracks_function_contents | tracks_step ].
Qed.

Lemma tracks_SpvBlock_make func id : respects R (SpvBlock_make func id).
Proof. intros b a b' E. injection E as _ <-. apply R_same. reflexivity. Qed.

Lemma tracks_SpvFunction_make a1 a2 a3 a4 : respects R (SpvFunction_make a1 a2 a3 a4).
Proof. intros b a b' E. injection E as _ <-. apply R_same. reflexivity. Qed.

#[local] Hint Resolve tracks_require_capability tracks_module_add_type
  tracks_module_add_constant tracks_add_type_rec tracks_declare_type
  tracks_add_pointer_type_id tracks_block_contents tracks_function_contents
  tracks_upd_block tracks_upd_function tracks_SpvBlock_make
  tracks_SpvFunction_make : tracks.

Ltac solve_tracks_with :=
  repeat first [ solve [eauto with tracks] | tracks_step ].

Lemma tracks_SpvBlock_is_terminated h : respects R (SpvBlock_is_terminated h).
Proof. unfold SpvBlock_is_terminated. solve_tracks_with. Qed.

Lemma tracks_SpvBlock_id h : respects R (SpvBlock_id h).
Proof. unfold SpvBlock_id. solve_tracks_with. Qed.

Lemma tracks_SpvBlock_add_instruction h i : respects R (SpvBlock_add_instruction h i).
Proof. unfold SpvBlock_add_instruction. solve_tracks_with. Qed.

Lemma tracks_SpvBlock_add_variable h i : respects R (SpvBlock_add_variable h i).
Proof. unfold SpvBlock_add_variable. solve_tracks_with. Qed.

Lemma tracks_SpvFunction_entry_block h : respects R (SpvFunction_entry_block h).
Proof. unfold SpvFunction_entry_block. solve_tracks_with. Qed.

Lemma tracks_SpvFunction_tail_block h : respects R (SpvFunction_tail_block h).
Proof. unfold SpvFunction_tail_block. solve_tracks_with. Qed.

#[local] Hint Resolve tracks_SpvBlock_is_terminated tracks_SpvBlock_id
  tracks_SpvBlock_add_instruction tracks_SpvBlock_add_variable
  tracks_SpvFunction_entry_block tracks_SpvFunction_tail_block : tracks.

Lemma tracks_SpvFunction_add_block fh bh : respects R (SpvFunction_add_block fh bh).
Proof. unfold SpvFunction_add_block. solve_tracks_with. Qed.

Lemma tracks_SpvFunction_create_block fh id : respects R (SpvFunction_create_block fh id).
Proof. unfold SpvFunction_create_block. solve_tracks_with. Qed.

Lemma tracks_add_symbol s id scope : respects R (add_symbol s id scope).
Proof. unfold add_symbol. solve_tracks_with. Qed.

#[local] Hint Resolve tracks_SpvFunction_add_block tracks_SpvFunction_create_block
  tracks_add_symbol : tracks.

Lemma tracks_declare_symbol s id scope : respects R (declare_symbol s id scope).
Proof. unfold declare_symbol. solve_tracks_with. Qed.

Lemma tracks_current_function : respects R current_function.
Proof. unfold current_function. solve_tracks_with. Qed.

Lemma tracks_add_parameters fh ps : respects R (add_parameters fh ps).
Proof.
  induction ps as [| p ps IH]; simpl; [apply tracks_ret |].
  unfold SpvFunction_add_parameter.
  repeat first [ apply IH | solve [eauto with tracks] | tracks_step ].
Qed.

Lemma tracks_declare_function_type r ps : respects R (declare_function_type r ps).
Proof. unfold declare_function_type, add_function_type. solve_tracks_with. Qed.

#[local] Hint Resolve tracks_declare_symbol tracks_current_function
  tracks_add_parameters tracks_declare_function_type : tracks.

Lemma tracks_add_function name r ps : respects R (add_function name r ps).
Proof. unfold add_function. solve_tracks_with. Qed.

Lemma tracks_declare_variable name t sc init : respects R (declare_variable name t sc init).
Proof. unfold declare_variable, reserve_id. solve_tracks_with. Qed.

Lemma tracks_declare_scalar_constant t data : respects R (declare_scalar_constant t data).
Proof.
  unfold declare_scalar_constant, declare_bool_constant, add_type. solve_tracks_with.
Qed.

Lemma tracks_enter_function fh : respects R (enter_function fh).
Proof. unfold enter_function, enter_block. solve_tracks_with. Qed.

Lemma tracks_run_call c : respects R (Session.run_call c).
Proof.
  destruct c; simpl; unfold reserve_id, add_type, declare_pointer_type,
    declare_pointer_type_id, add_pointer_type, lookup_pointer_type;
    repeat first [ apply tracks_add_function | apply tracks_declare_variable
                 | apply tracks_declare_scalar_constant | apply tracks_enter_function
                 | solve [eauto with tracks] | tracks_step ].
Qed.

Lemma tracks_run_session calls : respects R (Session.run_session calls).
Proof.
  induction calls as [| c calls IH]; simpl; [apply tracks_ret |].
  apply tracks_bind; [apply tracks_run_call | intros _; exact IH].
Qed.
End Respects.

Section Kinds.
Context `{SpirvHeader}.

Lemma extends_refl b : extends b b.
Proof. split; [lia | auto]. Qed.

Lemma extends_trans b1 b2 b3 : extends b1 b2 -> extends b2 b3 -> extends b1 b3.
Proof.
  intros [H12 D12] [H23 D23]. split; [lia |].
  intros Hb Hd. destruct (D12 ltac:(lia) Hd) as [Hd2 Hk12].
  destruct (D23 Hb Hd2) as [Hd3 Hk23]. split; [exact Hd3 |].
  intros id k Hk. apply Hk23, Hk12, Hk.
Qed.

Lemma extends_same b b' : kind_map b' = kind_map b -> extends b b'.
Proof.
  intros E. unfold extends, ids_dense, next_id. rewrite E. split; [lia | auto].
Qed.

Lemma extends_make_id kind b a b' : make_id kind b = Ok (a, b') -> extends b b'.
Proof.
  intros E.
  pose proof (SpirvFacts.allocates_make_id kind b a b' E) as [Hle Hdense].
  split; [exact Hle |]. intros Hb Hd. split; [apply Hdense; assumption |].
  destruct (Z_lt_le_dec (next_id b) (2 ^ 32)) as [Hlt | Hge].
  - destruct (SpirvFacts.make_id_fresh kind b Hd Hlt) as (b1 & E1 & Hk1 & Hnone & _).
    rewrite E in E1. injection E1 as -> ->.
    intros id k Hk. rewrite Hk1. rewrite lookup_insert_ne; [exact Hk |].
    intros Heq. rewrite Heq in Hnone. rewrite Hnone in Hk. discriminate.
  - exfalso. apply make_id_Ok in E as [_ ->].
    set (item := uint32 (Z.of_nat (size (kind_map b)) + 1)) in *.
    assert (Heq : next_id b = 2 ^ 32) by lia.
    assert (Hitem : item = 0).
    { unfold item, uint32, wrap_unsigned. unfold next_id in Heq. rewrite Heq. reflexivity. }
    assert (Hsome : is_Some (kind_map b !! item)).
    { destruct (kind_map b !! item) eqn:Ei; [eauto |].
      unfold next_id in Hb, Heq. cbn in Hb.
      rewrite map_size_insert_None in Hb by assumption. lia. }
    apply Hd in Hsome. lia.
Qed.

(** X10. In a session of builder calls that starts from a builder with
    dense ids and ends with at most 2^32 - 1 ids, an id never changes its
    kind: whatever was allocated before the session has the same kind
    after it. *)
Theorem session_keeps_kinds (calls : list Session.BuilderCall) b b' :
  Session.run_session calls b = Ok (tt, b') ->
  ids_dense b -> next_id b' <= 2 ^ 32 ->
  forall id, 1 <= id < next_id b -> kind_of id b' = kind_of id b.
Proof.
  intros Hrun Hd Hb id Hid.
  pose proof (tracks_run_session extends extends_refl extends_trans extends_same
                extends_make_id calls b tt b' Hrun) as [_ Hext].
  destruct (Hext Hb Hd) as [_ Hk].
  destruct (proj2 (Hd id) Hid) as [k Hkid].
  unfold kind_of. transitivity (default SpvInvalidItem (Some k)).
  - f_equal. exact (Hk id k Hkid).
  - f_equal. symmetry. exact Hkid.
Qed.

End Kinds.

Lemma session_keeps_kinds_witness :
  kind_of 1 (MoreScenarios.after
               (Session.run_session
                  [Session.call_declare_type (Int 32 4) 1;
                   Session.call_add_function "kernel" 2 [3; 3]]) reset)
  = SpvModuleId.
Proof.
  rewrite (session_keeps_kinds
             [Session.call_declare_type (Int 32 4) 1;
              Session.call_add_function "kernel" 2 [3; 3]] reset).
  - vm_compute. reflexivity.
  - vm_compute. reflexivity.
  - apply SpirvFacts.reset_dense.
  - vm_compute. discriminate.
  - vm_compute. split; [discriminate | reflexivity].
Defined.

End KindFacts.

(** * Kinds of declared types (SpirvIR.cpp) *)

Module TypeKindFacts.
Import Spirv Invariants BuilderSpecs BuilderFacts KindFacts SpirvQueries.

Section Kinds.
Context `{SpirvHeader}.

Lemma extends_add_type_rec fuel type array_size :
  respects extends (add_type_rec fuel type array_size).
Proof.
  apply tracks_add_type_rec;
    [apply extends_refl | apply extends_trans | apply extends_same | apply extends_make_id].
Qed.

(** After [make_id] on a dense builder, steps that only extend the builder
    leave the new id with its kind. *)
Lemma made_id_keeps_kind kind b0 b id s b1 :
  extends b0 b -> ids_dense b0 ->
  make_id kind b = Ok (id, s) -> extends s b1 -> next_id b1 <= 2 ^ 32 ->
  kind_of id b1 = kind.
Proof.
  intros [Hle0 Hd0] Hdense Hmake Hext Hbound.
  pose proof (extends_make_id kind b id s Hmake) as [Hle1 Hd1].
  destruct Hext as [Hle2 Hd2].
  destruct (Hd0 ltac:(lia) Hdense) as [Hdb _].
  destruct (Hd1 ltac:(lia) Hdb) as [Hds _].
  destruct (Hd2 Hbound Hds) as [_ Hkeep].
  apply make_id_Ok in Hmake as [-> ->].
  unfold kind_of.
  rewrite (Hkeep _ kind); [reflexivity |]. cbn. apply lookup_insert_eq.
Qed.

(** X11. A type that [declare_type] adds to the builder has the kind of its
    shape: array, vector, void (for handles), bool, float or int; so the
    type queries of the builder answer by the shape of the declared type.
    The builder must have dense ids and room for the new ones. *)
Theorem declared_type_kind type array_size b id b1 :
  ids_dense b -> next_id b1 <= 2 ^ 32 ->
  type_map b !! make_type_key type array_size = None ->
  declare_type type array_size b = Ok (id, b1) ->
  kind_of id b1 = type_kind type array_size
  /\ is_array_type id b1 = (1 <? array_size)
  /\ is_vector_type id b1 = negb (1 <? array_size) && is_vector type
  /\ is_scalar_type id b1
     = negb (1 <? array_size) && negb (is_vector type) && negb (is_handle type)
  /\ is_constant id b1 = false.
Proof.
  intros Hdense Hbound Hnone Hd.
  assert (Hkind : kind_of id b1 = type_kind type array_size).
  { unfold declare_type, bind at 1, get, lookup_type in Hd. cbv zeta in Hd.
    rewrite Hnone in Hd. change (default SpvInvalidId None) with SpvInvalidId in Hd.
    rewrite Z.eqb_refl in Hd. unfold add_type in Hd.
    change 3%nat with (S 2) in Hd. remember 2%nat as inner eqn:Hinner.
    cbn [add_type_rec] in Hd. lazy zeta in Hd.
    apply bind_Ok in Hd as (b0 & s0 & E0 & Hd). cbv beta in Hd.
    apply get_Ok in E0 as [-> ->]. rewrite Hnone in Hd.
    unfold type_kind.
    destruct (1 <? array_size).
    - apply bind_Ok in Hd as (size_id & s1 & E1 & Hd). cbv beta in Hd.
      apply bind_Ok in Hd as (size_type & s2 & E2 & Hd). cbv beta in Hd.
      apply bind_Ok in Hd as (u3 & s3 & E3 & Hd). cbv beta in Hd.
      apply bind_Ok in Hd as (u4 & s4 & E4 & Hd). cbv beta in Hd.
      apply bind_Ok in Hd as (array_id & s5 & E5 & Hd). cbv beta in Hd.
      apply bind_Ok in Hd as (elem & s6 & E6 & Hd). cbv beta in Hd.
      apply bind_Ok in Hd as (u7 & s7 & E7 & Hd). cbv beta in Hd.
      apply bind_Ok in Hd as (u8 & s8 & E8 & Hd). cbv beta in Hd.
      apply ret_Ok in Hd as [-> ->].
      apply (made_id_keeps_kind SpvArrayTypeId b s4 array_id s5 s8); try assumption.
      + eapply extends_trans; [eapply extends_make_id, E1 |].
        eapply extends_trans; [eapply extends_add_type_rec, E2 |].
        unfold module_add_type in E3. apply modify_Ok in E3 as ->.
        apply modify_Ok in E4 as ->. apply extends_same. reflexivity.
      + eapply extends_trans; [eapply extends_add_type_rec, E6 |].
        unfold module_add_type in E7. apply modify_Ok in E7 as ->.
        apply modify_Ok in E8 as ->. apply extends_same. reflexivity.
    - apply bind_Ok in Hd as (type_id & s1 & E1 & Hd). cbv beta in Hd.
      apply bind_Ok in Hd as (u2 & s2 & E2 & Hd). cbv beta in Hd.
      apply modify_Ok in E2 as ->. apply ret_Ok in Hd as [-> ->].
      assert (Hlast : forall s, extends s s1 ->
                extends s (upd_type_map
                             (fun m => <[make_type_key type array_size := type_id]> m) s1)).
      { intros s Hs. eapply extends_trans; [exact Hs | apply extends_same; reflexivity]. }
      destruct (is_vector type).
      { apply bind_Ok in E1 as (vid & t1 & M1 & E1). cbv beta in E1.
        apply bind_Ok in E1 as (elem & t2 & M2 & E1). cbv beta in E1.
        apply bind_Ok in E1 as (u3 & t3 & M3 & E1). cbv beta in E1.
        apply ret_Ok in E1 as [-> ->].
        unfold module_add_type in M3. apply modify_Ok in M3 as ->.
        apply (made_id_keeps_kind SpvVectorTypeId b b vid t1 _);
          [apply extends_refl | exact Hdense | exact M1 | | exact Hbound].
        apply Hlast. eapply extends_trans; [eapply extends_add_type_rec, M2 |].
        apply extends_same. reflexivity. }
      destruct (is_handle type).
      { apply bind_Ok in E1 as (vid & t1 & M1 & E1). cbv beta in E1.
        apply bind_Ok in E1 as (u3 & t3 & M3 & E1). cbv beta in E1.
        apply ret_Ok in E1 as [-> ->].
        unfold module_add_type in M3. apply modify_Ok in M3 as ->.
        apply (made_id_keeps_kind SpvVoidTypeId b b vid t1 _);
          [apply extends_refl | exact Hdense | exact M1 | | exact Hbound].
        apply Hlast. apply extends_same. reflexivity. }
      destruct (is_bool type).
      { apply bind_Ok in E1 as (vid & t1 & M1 & E1). cbv beta in E1.
        apply bind_Ok in E1 as (u3 & t3 & M3 & E1). cbv beta in E1.
        apply ret_Ok in E1 as [-> ->].
        unfold module_add_type in M3. apply modify_Ok in M3 as ->.
        apply (made_id_keeps_kind SpvBoolTypeId b b vid t1 _);
          [apply extends_refl | exact Hdense | exact M1 | | exact Hbound].
        apply Hlast. apply extends_same. reflexivity. }
      destruct (is_float type).
      { apply bind_Ok in E1 as (vid & t1 & M1 & E1). cbv beta in E1.
        apply bind_Ok in E1 as (u3 & t3 & M3 & E1). cbv beta in E1.
        apply bind_Ok in E1 as (u4 & t4 & M4 & E1). cbv beta in E1.
        apply ret_Ok in E1 as [-> ->].
        unfold module_add_type in M3. apply modify_Ok in M3 as ->.
        apply (made_id_keeps_kind SpvFloatTypeId b b vid t1 _);
          [apply extends_refl | exact Hdense | exact M1 | | exact Hbound].
        apply Hlast. eapply extends_trans; [apply extends_same; reflexivity |].
        destruct (bits type =? 16);
          [| destruct (bits type =? 64)];
          first [ unfold require_capability in M4; apply modify_Ok in M4 as ->;
                  apply extends_same; reflexivity
                | apply ret_Ok in M4 as [_ ->]; apply extends_refl ]. }
      destruct (is_int_or_uint type); [| discriminate E1].
      apply bind_Ok in E1 as (b0 & t0 & M0 & E1). cbv beta zeta in E1.
      apply get_Ok in M0 as [-> ->].
      apply bind_Ok in E1 as (vid & t1 & M1 & E1). cbv beta in E1.
      apply bind_Ok in E1 as (u3 & t3 & M3 & E1). cbv beta in E1.
      apply bind_Ok in E1 as (u4 & t4 & M4 & E1). cbv beta in E1.
      apply ret_Ok in E1 as [-> ->].
      unfold module_add_type in M3. apply modify_Ok in M3 as ->.
      apply (made_id_keeps_kind SpvIntTypeId b b vid t1 _);
        [apply extends_refl | exact Hdense | exact M1 | | exact Hbound].
      apply Hlast. eapply extends_trans; [apply extends_same; reflexivity |].
      destruct (bits type =? 8);
        [| destruct (bits type =? 16); [| destruct (bits type =? 64)]];
        first [ unfold require_capability in M4; apply modify_Ok in M4 as ->;
                apply extends_same; reflexivity
              | apply ret_Ok in M4 as [_ ->]; apply extends_refl ]. }
  split; [exact Hkind |].
  unfold is_array_type, is_vector_type, is_scalar_type, is_constant.
  rewrite Hkind. unfold type_kind.
  destruct (1 <? array_size); [repeat split |].
  destruct (is_vector type); [repeat split |].
  destruct (is_handle type); [repeat split |].
  destruct (is_bool type); [repeat split |].
  destruct (is_float type); repeat split.
Qed.

End Kinds.

Lemma declared_type_kind_witness :
  is_vector_type 2 (MoreScenarios.after (declare_type (Int 32 4) 1) reset) = true.
Proof.
  destruct (declared_type_kind (Int 32 4) 1 reset 2
              (MoreScenarios.after (declare_type (Int 32 4) 1) reset))
    as (_ & _ & Hv & _).
  - apply SpirvFacts.reset_dense.
  - vm_compute. discriminate.
  - vm_compute. reflexivity.
  - vm_compute. reflexivity.
  - exact Hv.
Defined.

End TypeKindFacts.

(** * Properties of the binary encoding (SpirvIR.cpp) *)

Module EncodeFacts.
Import Spirv SpirvEncode MoreScenarios.

Lemma header_parts (wc op : Z) :
  0 <= wc < 2 ^ 16 -> 0 <= op < 2 ^ 16 ->
  uint32 (Z.lor (Z.shiftl wc 16) op) = wc * 2 ^ 16 + op
  /\ Z.shiftr (uint32 (Z.lor (Z.shiftl wc 16) op)) 16 = wc
  /\ Z.land (uint32 (Z.lor (Z.shiftl wc 16) op)) (2 ^ 16 - 1) = op.
Proof.
  intros Hwc Hop.
  assert (Hdisj : Z.land (Z.shiftl wc 16) op = 0).
  { apply Z.bits_inj'. intros n Hn. rewrite Z.land_spec, Z.bits_0.
    destruct (Z_lt_le_dec n 16) as [Hlt | Hge].
    - rewrite Z.shiftl_spec_low by lia. reflexivity.
    - rewrite (Z.bits_above_log2 op n); [apply andb_false_r | lia |].
      destruct (Z.eq_dec op 0) as [-> | Hnz]; [cbn; lia |].
      assert (2 ^ 16 <= 2 ^ n) by (apply Z.pow_le_mono_r; lia).
      apply Z.log2_lt_pow2; lia. }
  assert (Hsum : Z.lor (Z.shiftl wc 16) op = wc * 2 ^ 16 + op).
  { rewrite <- Z.lxor_lor by exact Hdisj. rewrite <- Z.add_nocarry_lxor by exact Hdisj.
    rewrite Z.shiftl_mul_pow2 by lia. reflexivity. }
  assert (Hu : uint32 (Z.lor (Z.shiftl wc 16) op) = wc * 2 ^ 16 + op).
  { rewrite Hsum. unfold uint32, wrap_unsigned. apply Z.mod_small. lia. }
  rewrite Hu. split; [reflexivity |]. split.
  - rewrite Z.shiftr_div_pow2 by lia.
    rewrite Z.div_add_l by lia. rewrite Z.div_small by lia. lia.
  - change (2 ^ 16 - 1) with (Z.ones 16). rewrite Z.land_ones by lia.
    rewrite Z.add_comm, Z.mod_add by lia. apply Z.mod_small. lia.
Qed.

Section Encode.
Context `{SpirvOpcodes}.

Lemma fold_push (ids binary : list Z) :
  fold_left (fun binary id => binary ++ [id]) ids binary = binary ++ ids.
Proof.
  revert binary. induction ids as [| id ids IH]; intros binary; cbn [fold_left].
  - rewrite app_nil_r. reflexivity.
  - rewrite IH, <- app_assoc. reflexivity.
Qed.

Lemma encode_appends (i : SpvInstruction) (binary : list Z) :
  SpvInstruction_encode i binary = binary ++ instruction_words i.
Proof.
  unfold instruction_words, SpvInstruction_encode. cbv zeta.
  rewrite !fold_push.
  destruct (SpvInst.has_type i), (SpvInst.has_result i); cbn [app];
    rewrite <- ?app_assoc; reflexivity.
Qed.

Lemma encode_all_appends (insts : list SpvInstruction) (binary : list Z) :
  encode_all insts binary = binary ++ concat (map instruction_words insts).
Proof.
  unfold encode_all. revert binary.
  induction insts as [| i insts IH]; intros binary; cbn [fold_left map concat].
  - rewrite app_nil_r. reflexivity.
  - rewrite IH, encode_appends, <- app_assoc. reflexivity.
Qed.

Hypothesis shift_16 : SpvWordCountShift = 16.
Hypothesis op_16 : forall op, 0 <= op_value op < 2 ^ 16.

(** The layout of an instruction that fits the 16-bit word count. *)
Lemma instruction_words_layout (i : SpvInstruction) :
  word_count i < 2 ^ 16 ->
  exists header,
    instruction_words i
    = header :: (if SpvInst.has_type i then [type_id i] else [])
             ++ (if SpvInst.has_result i then [result_id i] else [])
             ++ operands i
    /\ Z.shiftr header 16 = word_count i
    /\ Z.land header (2 ^ 16 - 1) = op_value (op_code i)
    /\ Z.of_nat (length (instruction_words i)) = word_count i.
Proof.
  intros Hfit. unfold word_count in *.
  assert (Hlen : 0 <= Z.of_nat (length (operands i))) by lia.
  set (n := Z.of_nat (length (operands i))) in *.
  assert (Hwc : uint32 (uint32 (uint32 (1 + (if SpvInst.has_type i then 1 else 0))
                                + (if SpvInst.has_result i then 1 else 0))
                        + uint32 (SpvInst.length i))
                = 1 + (if SpvInst.has_type i then 1 else 0)
                  + (if SpvInst.has_result i then 1 else 0) + n).
  { unfold SpvInst.length. fold n. unfold uint32, wrap_unsigned.
    destruct (SpvInst.has_type i), (SpvInst.has_result i);
      repeat match goal with
             | |- context [?a mod 2 ^ 32] => rewrite (Z.mod_small a) by lia
             end; lia. }
  destruct (header_parts (1 + (if SpvInst.has_type i then 1 else 0)
                          + (if SpvInst.has_result i then 1 else 0) + n)
              (op_value (op_code i))) as (_ & Hhi & Hlo).
  { destruct (SpvInst.has_type i), (SpvInst.has_result i); lia. }
  { apply op_16. }
  exists (uint32 (Z.lor (Z.shiftl (1 + (if SpvInst.has_type i then 1 else 0)
                                    + (if SpvInst.has_result i then 1 else 0) + n) 16)
                        (op_value (op_code i)))).
  split.
  { unfold instruction_words, SpvInstruction_encode. cbv zeta.
    rewrite !fold_push, Hwc, shift_16.
    destruct (SpvInst.has_type i), (SpvInst.has_result i); cbn [app]; reflexivity. }
  split; [exact Hhi |]. split; [exact Hlo |].
  unfold instruction_words, SpvInstruction_encode. cbv zeta. rewrite !fold_push.
  destruct (SpvInst.has_type i), (SpvInst.has_result i);
    repeat first [rewrite length_app | progress cbn [app length]]; unfold n, SpvId; lia.
Qed.

(** X12. An instruction with fewer than 2^16 words is encoded as a first
    word with its word count in the high 16 bits and its op code in the low
    16 bits, followed by the type id (if any), the result id (if any) and
    the operands in order; the word count is the number of words written,
    and the words are appended to what the binary already holds. *)
Theorem instruction_encoding (i : SpvInstruction) (binary : list Z) :
  word_count i < 2 ^ 16 ->
  exists header,
    SpvInstruction_encode i binary
    = binary ++ header :: (if SpvInst.has_type i then [type_id i] else [])
                       ++ (if SpvInst.has_result i then [result_id i] else [])
                       ++ operands i
    /\ Z.shiftr header 16 = word_count i
    /\ Z.land header (2 ^ 16 - 1) = op_value (op_code i)
    /\ Z.of_nat (length (SpvInstruction_encode i binary))
       = Z.of_nat (length binary) + Z.shiftr header 16.
Proof.
  intros Hfit. destruct (instruction_words_layout i Hfit) as (header & Hw & Hhi & Hlo & Hlen).
  exists header. rewrite encode_appends. rewrite <- Hw.
  split; [reflexivity |]. split; [exact Hhi |]. split; [exact Hlo |].
  rewrite length_app, Hhi. lia.
Qed.

Lemma frames_app (h : Z) (tl more : list Z) (fuel : nat) :
  Z.to_nat (Z.shiftr h SpvWordCountShift) = length (h :: tl) ->
  frames (S fuel) ((h :: tl) ++ more)
  = match frames fuel more with
    | Some r => Some ((h :: tl) :: r)
    | None => None
    end.
Proof.
  intros Hn. cbn [app frames]. rewrite Hn.
  change (h :: tl ++ more) with ((h :: tl) ++ more).
  rewrite drop_app_length, take_app_length.
  replace (0 <? length (h :: tl))%nat with true by (symmetry; apply Nat.ltb_lt; cbn; lia).
  replace (length (h :: tl) <=? length ((h :: tl) ++ more))%nat
    with true by (symmetry; apply Nat.leb_le; rewrite length_app; lia).
  reflexivity.
Qed.

(** Reading back a stream of instructions that fit. *)
Lemma frames_instructions (insts : list SpvInstruction) :
  Forall (fun i => word_count i < 2 ^ 16) insts ->
  forall (fuel : nat) (rest : list Z),
    (length insts <= fuel)%nat ->
    frames fuel (concat (map instruction_words insts) ++ rest)
    = match frames (fuel - length insts) rest with
      | Some tail => Some (map instruction_words insts ++ tail)
      | None => None
      end.
Proof.
  induction 1 as [| i insts Hi Hrest IH]; intros fuel rest Hfuel.
  - cbn [map concat app length]. rewrite Nat.sub_0_r.
    destruct (frames fuel rest); reflexivity.
  - cbn [map concat length] in *. destruct fuel as [| fuel]; [lia |].
    destruct (instruction_words_layout i Hi) as (header & Hw & Hhi & _ & Hlen).
    rewrite <- app_assoc.
    assert (Hn : Z.to_nat (Z.shiftr header SpvWordCountShift) = length (instruction_words i)).
    { rewrite shift_16, Hhi, <- Hlen. apply Nat2Z.id. }
    revert Hn. rewrite Hw. intros Hn. rewrite (frames_app _ _ _ _ Hn).
    rewrite IH by lia.
    cbn [Nat.sub]. destruct (frames (fuel - length insts) rest); reflexivity.
Qed.

(** X13. The stream written for a block can be read back: cutting it at the
    word counts gives the label of the block, then its variables, then its
    instructions, each as it was encoded. *)
Theorem block_encoding_reads_back (c : SpvBlockContents) :
  Forall (fun i => word_count i < 2 ^ 16) (variables c ++ instructions c) ->
  frames (2 + length (variables c) + length (instructions c)) (SpvBlock_encode c [])
  = Some (instruction_words (SpvFactory.label (block_id c))
            :: map instruction_words (variables c)
            ++ map instruction_words (instructions c)).
Proof.
  intros Hfit. unfold SpvBlock_encode. cbv zeta.
  rewrite !encode_all_appends, encode_appends. cbn [app].
  pose proof (frames_instructions
                (SpvFactory.label (block_id c) :: variables c ++ instructions c)) as Hf.
  cbn [map concat] in Hf. rewrite map_app, concat_app in Hf.
  specialize (Hf ltac:(constructor; [| exact Hfit]; unfold word_count;
                       destruct (SpvInst.has_type _), (SpvInst.has_result _); cbn; lia)
                (2 + length (variables c) + length (instructions c))%nat []).
  rewrite app_nil_r in Hf. rewrite <- app_assoc, Hf.
  - cbn [length]. rewrite length_app.
    replace (2 + length (variables c) + length (instructions c)
             - S (length (variables c) + length (instructions c)))%nat with 1%nat by lia.
    cbn [frames]. rewrite app_nil_r. reflexivity.
  - cbn [length]. rewrite length_app. lia.
Qed.

Lemma block_encode_appends (c : SpvBlockContents) (binary : list Z) :
  SpvBlock_encode c binary
  = binary ++ concat (map instruction_words (block_instructions c)).
Proof.
  unfold SpvBlock_encode, block_instructions. cbv zeta.
  rewrite !encode_all_appends, encode_appends. cbn [map concat].
  rewrite map_app, concat_app, <- !app_assoc. reflexivity.
Qed.

Lemma blocks_encode_appends (b : SpvBuilder) (hs : list BlockHandle)
    (blks : list SpvBlockContents) :
  Forall2 (fun h blk => block_store b !! h = Some blk) hs blks ->
  forall binary,
    fold_left (fun acc h =>
                 try binary <- acc;
                 match block_store b !! h with
                 | Some blk => Ok (SpvBlock_encode blk binary)
                 | None => UserError
                 end) hs (Ok binary)
    = Ok (binary ++ concat (map instruction_words (concat (map block_instructions blks)))).
Proof.
  induction 1 as [| h blk hs blks Hh _ IH]; intros binary; cbn [fold_left map concat].
  - rewrite app_nil_r. reflexivity.
  - cbn [rbind]. rewrite Hh, block_encode_appends, IH.
    rewrite map_app, concat_app, <- app_assoc. reflexivity.
Qed.

(** X14. A function whose blocks are all in the builder is encoded without
    error as its declaration, its parameters, its blocks in order (each as
    label, variables, instructions) and [OpFunctionEnd]; when every
    instruction has fewer than 2^16 words, cutting the stream at the word
    counts gives these instructions back one by one. *)
Theorem function_encoding_reads_back (b : SpvBuilder) (c : SpvFunctionContents)
    (blks : list SpvBlockContents) :
  Forall2 (fun h blk => block_store b !! h = Some blk) (blocks c) blks ->
  Forall (fun i => word_count i < 2 ^ 16) (function_instructions c blks) ->
  exists binary,
    SpvFunction_encode b c [] = Ok binary
    /\ binary = concat (map instruction_words (function_instructions c blks))
    /\ frames (length (function_instructions c blks)) binary
       = Some (map instruction_words (function_instructions c blks)).
Proof.
  intros Hblocks Hfit. eexists. split; [| split; [reflexivity |]].
  - unfold SpvFunction_encode. cbv zeta.
    rewrite encode_all_appends, encode_appends.
    rewrite (blocks_encode_appends b _ _ Hblocks). cbn [rbind].
    rewrite encode_appends. unfold function_instructions.
    cbn [map concat app]. rewrite !map_app, !concat_app. cbn [map concat].
    rewrite app_nil_r, <- !app_assoc. reflexivity.
  - pose proof (frames_instructions _ Hfit (length (function_instructions c blks)) []
                  ltac:(lia)) as Hf.
    rewrite app_nil_r, Nat.sub_diag in Hf. cbn [frames] in Hf.
    rewrite app_nil_r in Hf. exact Hf.
Qed.

End Encode.

Lemma spirv_opcodes_fit (op : SpvOp) : 0 <= op_value op < 2 ^ 16.
Proof. destruct op; cbn; try lia. apply Z.mod_pos_bound. lia. Qed.

Lemma instruction_encoding_witness :
  exists header,
    SpvInstruction_encode (SpvFactory.label 7) [] = [header; 7]
    /\ Z.shiftr header 16 = 2
    /\ Z.land header (2 ^ 16 - 1) = 248.
Proof.
  destruct (instruction_encoding (H := spirv_opcodes) eq_refl spirv_opcodes_fit (SpvFactory.label 7) [])
    as (header & He & Hhi & Hlo & _).
  - vm_compute. reflexivity.
  - exists header. split; [exact He |]. split; [exact Hhi | exact Hlo].
Defined.

Lemma block_encoding_reads_back_witness :
  frames 3 (SpvBlock_encode MoreScenarios.branching_block [])
  = Some [[131320; 9]; [131321; 3]].
Proof.
  apply (block_encoding_reads_back (H := spirv_opcodes) eq_refl spirv_opcodes_fit
           MoreScenarios.branching_block).
  vm_compute. repeat constructor.
Defined.

Lemma function_encoding_reads_back_witness :
  exists binary,
    SpvFunction_encode Scenario.linking_builder MoreScenarios.linked_function [] = Ok binary
    /\ frames (length (function_instructions MoreScenarios.linked_function
                          MoreScenarios.linked_blocks)) binary
       = Some (map instruction_words
                 (function_instructions MoreScenarios.linked_function
                    MoreScenarios.linked_blocks)).
Proof.
  destruct (function_encoding_reads_back (H := spirv_opcodes) eq_refl spirv_opcodes_fit Scenario.linking_builder
              MoreScenarios.linked_function MoreScenarios.linked_blocks)
    as (binary & He & _ & Hf).
  - vm_compute. repeat constructor.
  - vm_compute. repeat constructor.
  - exists binary. split; [exact He | exact Hf].
Defined.

End EncodeFacts.

(** * Integer immediates of the emitter (CodeGen_Vulkan_Dev.cpp) *)

Module ConstantEmitterFacts.
Import Spirv IR FindIntrinsics CodeGen_Vulkan_Dev BuilderSpecs BuilderFacts.

Lemma on_builder_Ok {A : Type} (m : M SpvBuilder A) (e e1 : SPIRV_Emitter) (a : A) :
  on_builder m e = Ok (a, e1) ->
  exists b1, m (builder e) = Ok (a, b1) /\ e1 = upd_builder (fun _ => b1) e.
Proof.
  unfold on_builder. destruct (m (builder e)) as [[a' b1] | | | |]; try discriminate.
  intros E. exists b1. split; [congruence |]. congruence.
Qed.

Section IntImm.
Context `{SpirvHeader}.
Variable declare_vector_constant : Type_ -> list Z -> M SpvBuilder SpvId.

(** X15. Visiting the same scalar integer immediate twice declares its
    constant once: the second visit finds the constant of the first, makes
    it the current id again and leaves the emitter as it is. *)
Theorem visit_IntImm_twice (t : Type_) (value : Z) (e e1 : SPIRV_Emitter) :
  lanes t = 1 ->
  visit_IntImm declare_vector_constant t value e = Ok (tt, e1) ->
  active_id (builder e1) <> SpvInvalidId ->
  visit_IntImm declare_vector_constant t value e1 = Ok (tt, e1)
  /\ constant_recorded t (le_bytes (Z.to_nat (bits t / 8)) (wrap_unsigned (bits t) value))
       (active_id (builder e1)) (builder e1).
Proof.
  intros Hlanes Hv Hid. unfold visit_IntImm in *.
  destruct ((bits t =? 8) || (bits t =? 16) || (bits t =? 32) || (bits t =? 64));
    [| discriminate Hv].
  cbv zeta in *.
  set (data := le_bytes (Z.to_nat (bits t / 8)) (wrap_unsigned (bits t) value)) in *.
  apply bind_Ok in Hv as (cid & e' & Hdecl & Hupd). cbv beta in Hupd.
  apply on_builder_Ok in Hdecl as (b1 & Hdecl & ->).
  apply on_builder_Ok in Hupd as (b2 & Hupd & ->).
  unfold update_id in Hupd. apply modify_Ok in Hupd as ->.
  cbn [builder upd_builder] in *.
  change (active_id (upd_active_id (fun _ => cid) b1)) with cid in *.
  pose proof (declare_constant_records declare_vector_constant t data (builder e) cid b1
                Hlanes Hid Hdecl) as Hrec.
  assert (Hrec2 : constant_recorded t data cid (upd_active_id (fun _ => cid) b1)) by exact Hrec.
  split; [| exact Hrec2].
  pose proof (declare_constant_hit declare_vector_constant t data cid _ Hlanes Hid Hrec2)
    as Hhit.
  erewrite bind_eq; [| unfold on_builder; cbn [builder upd_builder]; rewrite Hhit; reflexivity].
  unfold on_builder, update_id, modify. cbn. reflexivity.
Qed.

End IntImm.

Lemma visit_IntImm_twice_witness :
  visit_IntImm Scenario.no_vector_constant (Int 32 1) 5
    (MoreScenarios.after (visit_IntImm Scenario.no_vector_constant (Int 32 1) 5)
       Scenario.kernel_emitter)
  = Ok (tt, MoreScenarios.after (visit_IntImm Scenario.no_vector_constant (Int 32 1) 5)
              Scenario.kernel_emitter).
Proof.
  apply (visit_IntImm_twice Scenario.no_vector_constant (Int 32 1) 5
           Scenario.kernel_emitter).
  - reflexivity.
  - vm_compute. reflexivity.
  - vm_compute. discriminate.
Defined.

End ConstantEmitterFacts.

(** * Thread and block ids of the emitter (CodeGen_Vulkan_Dev.cpp) *)

Module MoreEmitterFacts.
Import Spirv IR FindIntrinsics CodeGen_Vulkan_Dev EmitterMore.

(** X16. A loop name that [thread_loop_workgroup_index] maps to dimension
    [d] is the thread id of the same component for [simt_intrinsic]. *)
Theorem thread_loop_is_local_invocation (name : string) (d : Z) :
  thread_loop_workgroup_index name = d -> 0 <= d ->
  simt_intrinsic name = Ok ("LocalInvocationId"%string, d).
Proof.
  unfold thread_loop_workgroup_index, simt_intrinsic. intros Hd Hpos.
  destruct (ends_with name ".__thread_id_x"); [subst; reflexivity |].
  destruct (ends_with name ".__thread_id_y"); [subst; reflexivity |].
  destruct (ends_with name ".__thread_id_z"); [subst; reflexivity |].
  lia.
Qed.

Lemma thread_loop_is_local_invocation_witness :
  simt_intrinsic "f.s0.y.__thread_id_y" = Ok ("LocalInvocationId"%string, 1).
Proof. apply thread_loop_is_local_invocation; [reflexivity | lia]. Defined.

(** X17. Whatever name [simt_intrinsic] accepts, the component it returns is
    0, 1 or 2 and [map_simt_builtin] knows the builtin it names; the
    builtin is the local invocation id exactly for thread loops. *)
Theorem simt_intrinsic_maps_to_builtin (name builtin : string) (component : Z) :
  simt_intrinsic name = Ok (builtin, component) ->
  0 <= component < 3
  /\ (exists b, map_simt_builtin builtin = Ok b
                /\ (b = SpvBuiltInLocalInvocationId
                    <-> thread_loop_workgroup_index name = component)).
Proof.
  unfold simt_intrinsic, thread_loop_workgroup_index. intros Hs.
  repeat match type of Hs with
         | (if ?c then _ else _) = _ => destruct c
         end;
    try discriminate Hs; injection Hs as <- <-;
    (split; [lia |]); eexists; (split; [reflexivity |]);
    split; intros Hx; try reflexivity; try discriminate Hx; try lia.
Qed.

Lemma simt_intrinsic_maps_to_builtin_witness :
  exists b, map_simt_builtin "WorkgroupId" = Ok b.
Proof.
  destruct (simt_intrinsic_maps_to_builtin "f.s0.x.__block_id_x" "WorkgroupId" 0 eq_refl)
    as (_ & b & Hb & _).
  exists b. exact Hb.
Defined.

End MoreEmitterFacts.

(** * Workgroup sizes (CodeGen_Vulkan_Dev.cpp) and wrapped buffers (runtime/vulkan.cpp) *)

Module WorkgroupFacts.
Import Spirv IR FindIntrinsics CodeGen_Vulkan_Dev EmitterMore.

Section Loops.
Context {Stmt : Type}.

(** One check: either the name is no thread loop and nothing changes, or
    the extent is a constant, agrees with a nonzero recorded size, and is
    recorded. *)
Lemma save_workgroup_size_ok (op : For Stmt) (e e' : SPIRV_Emitter) :
  save_workgroup_size op e = Ok (tt, e') ->
  (thread_loop_workgroup_index (for_name op) < 0 /\ e' = e)
  \/ (exists t w,
        0 <= thread_loop_workgroup_index (for_name op)
        /\ for_extent op = IntImm t w
        /\ (default 0 (workgroup_size e
                       !! Z.to_nat (thread_loop_workgroup_index (for_name op))) = 0
            \/ default 0 (workgroup_size e
                          !! Z.to_nat (thread_loop_workgroup_index (for_name op)))
               = uint32 w)
        /\ e' = upd_workgroup_size
                  (fun ws => <[Z.to_nat (thread_loop_workgroup_index (for_name op))
                               := uint32 w]> ws) e).
Proof.
  unfold save_workgroup_size. cbv zeta.
  destruct (0 <=? thread_loop_workgroup_index (for_name op)) eqn:Hidx.
  - intros Hs. right. apply Z.leb_le in Hidx.
    destruct (for_extent op); try discriminate Hs.
    unfold bind, get, modify, user_error in Hs.
    match type of Hs with
    | (if ?c then _ else _) _ = _ => destruct c eqn:Hc; [| discriminate Hs]
    end.
    injection Hs as <-. eexists _, _. split; [exact Hidx |]. split; [reflexivity |].
    split; [| reflexivity].
    apply orb_true_iff in Hc as [Hc | Hc]; apply Z.eqb_eq in Hc; auto.
  - intros Hs. left. apply Z.leb_gt in Hidx. injection Hs as <-. auto.
Qed.

Lemma save_workgroup_size_length (op : For Stmt) (e e' : SPIRV_Emitter) :
  save_workgroup_size op e = Ok (tt, e') ->
  length (workgroup_size e') = length (workgroup_size e).
Proof.
  intros Hs. destruct (save_workgroup_size_ok op e e' Hs)
    as [[_ ->] | (t & w & _ & _ & _ & ->)]; [reflexivity |].
  cbn. apply length_insert.
Qed.

(** A nonzero recorded size is never replaced by another one. *)
Lemma nonzero_size_stays (loops : list (For Stmt)) :
  forall (e e' : SPIRV_Emitter) (d : nat) (v : Z),
    save_workgroup_sizes loops e = Ok (tt, e') ->
    workgroup_size e !! d = Some v -> v <> 0 ->
    workgroup_size e' !! d = Some v.
Proof.
  induction loops as [| op loops IH]; intros e e' d v Hs Hd Hv.
  - injection Hs as <-. exact Hd.
  - cbn [save_workgroup_sizes] in Hs. unfold bind in Hs.
    destruct (save_workgroup_size op e) as [[[] e1] | | | |] eqn:H1; try discriminate Hs.
    apply (IH e1 e' d v Hs); [| exact Hv].
    destruct (save_workgroup_size_ok op e e1 H1)
      as [[_ ->] | (t & w & Hidx & _ & Hcur & ->)]; [exact Hd |].
    cbn. set (i := Z.to_nat (thread_loop_workgroup_index (for_name op))) in *.
    destruct (decide (i = d)) as [-> | Hne].
    + rewrite Hd in Hcur. cbn in Hcur. destruct Hcur as [Hcur | Hcur]; [contradiction |].
      rewrite <- Hcur. rewrite list_lookup_insert_eq; [reflexivity |].
      apply lookup_lt_Some in Hd. exact Hd.
    + rewrite list_lookup_insert_ne by exact Hne. exact Hd.
Qed.

(** X18. When the workgroup checks of all thread loops of a kernel pass,
    every loop of dimension [d] has a constant extent, and that extent is
    zero or the size recorded for [d] at the end. *)
Theorem workgroup_extents_agree (loops : list (For Stmt)) :
  forall (e e' : SPIRV_Emitter) (op : For Stmt) (d : nat),
    save_workgroup_sizes loops e = Ok (tt, e') ->
    In op loops ->
    thread_loop_workgroup_index (for_name op) = Z.of_nat d ->
    (d < length (workgroup_size e))%nat ->
    exists t w, for_extent op = IntImm t w
                /\ (uint32 w = 0 \/ workgroup_size e' !! d = Some (uint32 w)).
Proof.
  induction loops as [| op0 loops IH]; intros e e' op d Hs Hin Hd Hlen; [destruct Hin |].
  cbn [save_workgroup_sizes] in Hs. unfold bind in Hs.
  destruct (save_workgroup_size op0 e) as [[[] e1] | | | |] eqn:H1; try discriminate Hs.
  destruct Hin as [<- | Hin].
  - destruct (save_workgroup_size_ok op0 e e1 H1)
      as [[Hneg _] | (t & w & Hidx & Hext & _ & ->)]; [lia |].
    exists t, w. split; [exact Hext |].
    destruct (decide (uint32 w = 0)) as [Hz | Hnz]; [left; exact Hz | right].
    apply (nonzero_size_stays loops _ e' d (uint32 w) Hs); [| exact Hnz].
    cbn. rewrite Hd, Nat2Z.id. apply list_lookup_insert_eq. exact Hlen.
  - apply (IH e1 e' op d Hs Hin Hd).
    rewrite (save_workgroup_size_length op0 e e1 H1). exact Hlen.
Qed.

End Loops.

Lemma workgroup_extents_agree_witness :
  exists t w, for_extent (Scenario.thread_loop 16) = IntImm t w
              /\ (uint32 w = 0 \/ [16; 0; 0] !! 0%nat = Some (uint32 w)).
Proof.
  apply (workgroup_extents_agree [Scenario.thread_loop 16; Scenario.thread_loop 16]
           Scenario.kernel_emitter
           (upd_workgroup_size (fun _ => [16; 0; 0]) Scenario.kernel_emitter)
           (Scenario.thread_loop 16) 0%nat).
  - vm_compute. reflexivity.
  - left. reflexivity.
  - reflexivity.
  - vm_compute. lia.
Defined.

End WorkgroupFacts.

Module RuntimeFacts.
Import VulkanRuntime.



(** X20. A buffer that already has a device handle is not wrapped again:
    the call returns -2 and changes nothing. The null handle is accepted:
    the buffer then points to the interface and the module is used, but
    its device stays 0, so detaching returns at once and releases
    nothing. *)
Theorem wrap_rejects_and_null_handle (r : Runtime) (vk_buffer : Z) :
  (device (buf r) <> 0 -> halide_vulkan_wrap_vk_buffer vk_buffer r = Ok (-2, r))
  /\ (device (buf r) = 0 ->
      exists r1,
        halide_vulkan_wrap_vk_buffer 0 r = Ok (0, r1)
        /\ device_interface (buf r1) = Some vulkan_device_interface
        /\ module_calls r1 = module_calls r ++ [use_module vulkan_device_interface]
        /\ halide_vulkan_detach_vk_buffer r1 = Ok (0, r1)).
Proof.
  unfold halide_vulkan_wrap_vk_buffer, halide_vulkan_detach_vk_buffer. split.
  - intros Hdev.
    replace (device (buf r) =? 0) with false by (symmetry; apply Z.eqb_neq; exact Hdev).
    reflexivity.
  - intros ->. cbn. eexists. repeat split.
Qed.

Lemma wrap_rejects_and_null_handle_witness :
  halide_vulkan_wrap_vk_buffer 8192 MoreScenarios.wrapped_buffer
  = Ok (-2, MoreScenarios.wrapped_buffer).
Proof.
  apply (proj1 (wrap_rejects_and_null_handle MoreScenarios.wrapped_buffer 8192)).
  vm_compute. discriminate.
Defined.

End RuntimeFacts.

(** * Values of the lowered expressions (FindIntrinsics.cpp) *)

Module LoweringValues.
Import IR Eval FindIntrinsics LoweringSpecs.

Lemma signed_range_shift (k x : Z) :
  0 <= k -> (- 2 ^ k <= x < 2 ^ k <-> Z.shiftr x k = 0 \/ Z.shiftr x k = -1).
Proof.
  intros Hk. rewrite Z.shiftr_div_pow2 by exact Hk.
  assert (Hp : 0 < 2 ^ k) by (apply Z.pow_pos_nonneg; lia).
  pose proof (Z.div_mod x (2 ^ k) ltac:(lia)) as Hdm.
  pose proof (Z.mod_pos_bound x (2 ^ k) Hp) as Hm.
  split.
  - intros Hx. destruct (Z_lt_le_dec x 0).
    + right. nia.
    + left. apply Z.div_small. lia.
  - intros [Hq | Hq]; rewrite Hq in Hdm; lia.
Qed.

Lemma unsigned_range_shift (k x : Z) :
  0 <= k -> (0 <= x < 2 ^ k <-> Z.shiftr x k = 0).
Proof.
  intros Hk. rewrite Z.shiftr_div_pow2 by exact Hk.
  assert (Hp : 0 < 2 ^ k) by (apply Z.pow_pos_nonneg; lia).
  pose proof (Z.div_mod x (2 ^ k) ltac:(lia)) as Hdm.
  pose proof (Z.mod_pos_bound x (2 ^ k) Hp) as Hm.
  split.
  - intros Hx. apply Z.div_small. lia.
  - intros Hq. rewrite Hq in Hdm. lia.
Qed.

(** The values of an integer type, by the bits above the value bits. *)
Lemma in_range_shift (t : Type_) (v : Z) :
  is_int_or_uint t = true -> 1 <= bits t ->
  (in_range t v <->
   if is_int t then Z.shiftr v (bits t - 1) = 0 \/ Z.shiftr v (bits t - 1) = -1
   else Z.shiftr v (bits t) = 0).
Proof.
  intros Hint Hbits. unfold in_range, type_min, type_max.
  destruct (is_int t) eqn:Hi.
  - rewrite <- signed_range_shift by lia. lia.
  - rewrite <- unsigned_range_shift by lia. lia.
Qed.

Lemma wrap_in_range (t : Type_) (v : Z) :
  is_int_or_uint t = true -> 1 <= bits t -> in_range t v -> wrap t v = v.
Proof.
  intros Hint Hbits Hr. unfold in_range, type_min, type_max, wrap in *.
  unfold is_int_or_uint in Hint.
  destruct (is_int t) eqn:Hi.
  - unfold wrap_signed.
    assert (Hp : 2 ^ bits t = 2 * 2 ^ (bits t - 1)).
    { rewrite <- Z.pow_succ_r by lia. f_equal. lia. }
    rewrite Z.mod_small; lia.
  - cbn in Hint. rewrite Hint. unfold wrap_unsigned. apply Z.mod_small. lia.
Qed.

Lemma land_in_range (t : Type_) (x y : Z) :
  is_int_or_uint t = true -> 1 <= bits t ->
  in_range t x -> in_range t y -> in_range t (Z.land x y).
Proof.
  intros Hint Hbits Hx Hy.
  apply (in_range_shift t _ Hint Hbits). apply (in_range_shift t _ Hint Hbits) in Hx, Hy.
  rewrite !Z.shiftr_land.
  destruct (is_int t).
  - destruct Hx as [-> | ->], Hy as [-> | ->]; cbn; auto.
  - rewrite Hx, Hy. reflexivity.
Qed.

Lemma lxor_in_range (t : Type_) (x y : Z) :
  is_int_or_uint t = true -> 1 <= bits t ->
  in_range t x -> in_range t y -> in_range t (Z.lxor x y).
Proof.
  intros Hint Hbits Hx Hy.
  apply (in_range_shift t _ Hint Hbits). apply (in_range_shift t _ Hint Hbits) in Hx, Hy.
  rewrite !Z.shiftr_lxor.
  destruct (is_int t).
  - destruct Hx as [-> | ->], Hy as [-> | ->]; cbn; auto.
  - rewrite Hx, Hy. reflexivity.
Qed.

Lemma half_in_range (t : Type_) (v : Z) :
  is_int_or_uint t = true -> 1 <= bits t -> in_range t v -> in_range t (Z.shiftr v 1).
Proof.
  intros Hint Hbits. unfold in_range. rewrite Z.shiftr_div_pow2 by lia.
  change (2 ^ 1) with 2. intros Hr.
  unfold type_min, type_max in *.
  assert (Hp : 0 < 2 ^ (bits t - 1)) by (apply Z.pow_pos_nonneg; lia).
  assert (Hq : 0 < 2 ^ bits t) by (apply Z.pow_pos_nonneg; lia).
  destruct (is_int t).
  - split.
    + apply Z.div_le_lower_bound; lia.
    + apply Z.lt_succ_r. apply Z.div_lt_upper_bound; lia.
  - split.
    + apply Z.div_pos; lia.
    + apply Z.lt_succ_r. apply Z.div_lt_upper_bound; lia.
Qed.

Lemma wrap_wrap (t : Type_) (v : Z) : 1 <= bits t -> wrap t (wrap t v) = wrap t v.
Proof.
  intros Hbits. unfold wrap.
  assert (Hp : 2 ^ bits t <> 0) by (apply Z.pow_nonzero; lia).
  destruct (is_int t); [| destruct (is_uint t); [| reflexivity]].
  - unfold wrap_signed.
    replace ((v + 2 ^ (bits t - 1)) mod 2 ^ bits t - 2 ^ (bits t - 1) + 2 ^ (bits t - 1))
      with ((v + 2 ^ (bits t - 1)) mod 2 ^ bits t) by lia.
    rewrite Z.mod_mod by exact Hp. reflexivity.
  - unfold wrap_unsigned. apply Z.mod_mod. exact Hp.
Qed.

Lemma eval_make_const (env : gmap string Z) (t : Type_) (v : Z) :
  eval env (make_const t v) = Some v.
Proof.
  unfold make_const. destruct (is_vector t), (is_uint t); reflexivity.
Qed.

Section Values.
Context `{Collaborators}.
Variable env : gmap string Z.
Variables a b : Expr.
Variables x y : Z.
Hypothesis eval_a : eval env a = Some x.
Hypothesis eval_b : eval env b = Some y.
Hypothesis integer : is_int_or_uint (type_of a) = true.
Hypothesis width : 1 <= bits (type_of a).
Hypothesis range_x : in_range (type_of a) x.

(** X21. The expression that [lower_halving_add] builds from operands of
    one integer type evaluates to the floor of [(x + y) / 2], the average
    computed without overflow, for every pair of values of the type. *)
Theorem lower_halving_add_value (e : Expr) :
  in_range (type_of a) y ->
  lower_halving_add a b = Ok e ->
  eval env e = Some ((x + y) / 2).
Proof.
  intros range_y. unfold lower_halving_add, assert_.
  destruct (bool_decide (type_of a = type_of b)) eqn:Hty; [| discriminate].
  intros He. injection He as <-.
  unfold band, bxor, shr, lit, intrin2.
  cbn [eval List.map type_of]. rewrite eval_a, eval_b, eval_make_const.
  cbn [all_some primitive_value binop].
  pose proof (land_in_range _ _ _ integer width range_x range_y) as Hland.
  pose proof (lxor_in_range _ _ _ integer width range_x range_y) as Hlxor.
  rewrite (wrap_in_range _ _ integer width Hland).
  rewrite (wrap_in_range _ _ integer width Hlxor).
  pose proof (half_in_range _ _ integer width Hlxor) as Hhalf.
  rewrite (wrap_in_range _ _ integer width Hhalf).
  assert (Hsum : Z.land x y + Z.shiftr (Z.lxor x y) 1 = (x + y) / 2).
  { rewrite <- (Z.add_lxor_2land x y). rewrite Z.shiftr_div_pow2 by lia.
    change (2 ^ 1) with 2. rewrite (Z.mul_comm 2), Z.div_add by lia. lia. }
  rewrite Hsum. f_equal. apply wrap_in_range; [exact integer | exact width |].
  unfold in_range in *. split.
  - apply Z.div_le_lower_bound; lia.
  - apply Z.lt_succ_r. apply Z.div_lt_upper_bound; lia.
Qed.

(** X22. The expression that [lower_sorted_avg] builds, and the one the
    shader emitter builds for [sorted_avg], evaluate to the floor of
    [(x + y) / 2] when [x <= y] and the difference [y - x] is a value of the
    type, which it always is for an unsigned type. *)
Theorem sorted_avg_value (t : Type_) :
  type_of b = type_of a ->
  in_range (type_of a) y -> x <= y -> in_range (type_of a) (y - x) ->
  eval env (lower_sorted_avg a b) = Some ((x + y) / 2)
  /\ exists e, CodeGen_Vulkan_Dev.call_expansion t (Intrinsic sorted_avg) [a; b]
               = Ok (Some e)
               /\ eval env e = Some ((x + y) / 2).
Proof.
  intros Hty range_y Hle Hdiff.
  assert (Havg : x + (y - x) / 2 = (x + y) / 2).
  { replace (x + y) with (y - x + x * 2) by lia. rewrite Z.div_add by lia. lia. }
  assert (Hres : in_range (type_of a) ((x + y) / 2)).
  { unfold in_range in *. split.
    - apply Z.div_le_lower_bound; lia.
    - apply Z.lt_succ_r. apply Z.div_lt_upper_bound; lia. }
  pose proof (half_in_range _ _ integer width Hdiff) as Hhalf.
  split.
  - unfold lower_sorted_avg, shr, lit, intrin2.
    cbn [eval List.map type_of]. rewrite eval_a, eval_b, eval_make_const, Hty.
    cbn [all_some primitive_value binop].
    rewrite (wrap_in_range _ _ integer width Hdiff).
    rewrite (wrap_in_range _ _ integer width Hhalf).
    rewrite Z.shiftr_div_pow2 by lia. change (2 ^ 1) with 2.
    rewrite Havg. f_equal. apply wrap_in_range; assumption.
  - eexists. split; [reflexivity |].
    unfold lit. cbn [eval type_of]. rewrite eval_a, eval_b, eval_make_const, Hty.
    cbn [binop].
    rewrite (wrap_in_range _ _ integer width Hdiff).
    rewrite Z.shiftr_div_pow2 in Hhalf by lia. change (2 ^ 1) with 2 in Hhalf.
    rewrite (wrap_in_range _ _ integer width Hhalf).
    rewrite Havg. f_equal. apply wrap_in_range; assumption.
Qed.

Lemma pow_double (w : Z) : 1 <= w -> 2 ^ (2 * w - 1) = 2 * 2 ^ (w - 1) * 2 ^ (w - 1).
Proof.
  intros Hw. replace (2 * w - 1) with (1 + (w - 1) + (w - 1)) by lia.
  rewrite !Z.pow_add_r by lia. reflexivity.
Qed.

Lemma pow_split (w : Z) : 1 <= w -> 2 ^ w = 2 * 2 ^ (w - 1).
Proof.
  intros Hw. replace w with (1 + (w - 1)) at 1 by lia.
  rewrite Z.pow_add_r by lia. reflexivity.
Qed.

(** The range of an integer type and of the types of twice its width, in
    terms of [p = 2 ^ (bits - 1)]. *)
Lemma ranges (t : Type_) :
  is_int_or_uint t = true -> 1 <= bits t ->
  exists p, p = 2 ^ (bits t - 1) /\ 1 <= p
    /\ (forall v, in_range t v <->
          if is_int t then - p <= v <= p - 1 else 0 <= v <= 2 * p - 1)
    /\ (forall v, (if is_int t then - (2 * p * p) <= v <= 2 * p * p - 1
                   else 0 <= v <= 4 * p * p - 1) ->
                  wrap (HalideType.widen t) v = v)
    /\ (forall v, - (2 * p * p) <= v <= 2 * p * p - 1 ->
                  wrap (with_code (HalideType.widen t) halide_type_int) v = v).
Proof.
  intros Hint Hbits. exists (2 ^ (bits t - 1)).
  assert (Hp : 0 < 2 ^ (bits t - 1)) by (apply Z.pow_pos_nonneg; lia).
  pose proof (pow_double (bits t) Hbits) as Hd.
  pose proof (pow_split (bits t) Hbits) as Hs.
  assert (Hdd : 2 ^ (2 * bits t) = 4 * 2 ^ (bits t - 1) * 2 ^ (bits t - 1)).
  { replace (2 * bits t) with (2 + (bits t - 1) + (bits t - 1)) by lia.
    rewrite !Z.pow_add_r by lia. reflexivity. }
  split; [reflexivity |]. split; [lia |]. split; [| split].
  - intros v. unfold in_range, type_min, type_max. destruct (is_int t); lia.
  - intros v Hv. apply wrap_in_range; [exact Hint | cbn; lia |].
    unfold in_range, type_min, type_max.
    change (is_int (HalideType.widen t)) with (is_int t).
    change (bits (HalideType.widen t)) with (bits t * 2).
    replace (bits t * 2 - 1) with (2 * bits t - 1) by lia.
    replace (bits t * 2) with (2 * bits t) by lia.
    destruct (is_int t); lia.
  - intros v Hv. apply wrap_in_range; [reflexivity | cbn; lia |].
    unfold in_range, type_min, type_max.
    change (is_int (with_code (HalideType.widen t) halide_type_int)) with true.
    change (bits (with_code (HalideType.widen t) halide_type_int)) with (bits t * 2).
    replace (bits t * 2 - 1) with (2 * bits t - 1) by lia. lia.
Qed.

(** X23. The lowerings of the widening operations do not overflow: for
    operands of one integer type they evaluate to the exact sum and the
    exact product in the type of twice the width, and to the exact
    difference in the signed type of twice the width. *)
Theorem widening_lowerings_exact :
  type_of b = type_of a -> in_range (type_of a) y ->
  eval env (lower_widening_add a b) = Some (x + y)
  /\ eval env (lower_widening_mul a b) = Some (x * y)
  /\ eval env (lower_widening_sub a b) = Some (x - y).
Proof.
  intros Hty range_y.
  destruct (ranges (type_of a) integer width) as (p & _ & Hp & Hr & Hw & Hws).
  apply Hr in range_y. pose proof (proj1 (Hr x) range_x) as Hx.
  assert (Hsig : is_int (type_of a) = false -> is_uint (type_of a) = true).
  { intros Hi. unfold is_int_or_uint in integer. rewrite Hi in integer. exact integer. }
  assert (Huns : is_int (type_of a) = true -> is_uint (type_of a) = false).
  { unfold is_int, is_uint. intros Hi. apply bool_decide_eq_true_1 in Hi.
    apply bool_decide_eq_false_2. rewrite Hi. discriminate. }
  split; [| split].
  - unfold lower_widening_add, widen. cbn [eval type_of].
    rewrite eval_a, eval_b, Hty. cbn [binop].
    rewrite (Hw x), (Hw y), (Hw (x + y)); [reflexivity | | |];
      destruct (is_int (type_of a)); nia.
  - unfold lower_widening_mul, widen. cbn [eval type_of].
    rewrite eval_a, eval_b, Hty. cbn [binop].
    rewrite (Hw x), (Hw y), (Hw (x * y)); [reflexivity | | |];
      destruct (is_int (type_of a)); nia.
  - unfold lower_widening_sub. cbv zeta.
    change (is_uint (HalideType.widen (type_of a))) with (is_uint (type_of a)).
    cbn [eval type_of]. rewrite eval_a, eval_b. cbn [binop].
    destruct (is_int (type_of a)) eqn:Hi.
    + rewrite (Huns eq_refl).
      rewrite (Hw x), (Hw y), (Hw (x - y)); [reflexivity | | |]; nia.
    + rewrite (Hsig eq_refl).
      rewrite (Hws x), (Hws y), (Hws (x - y)); [reflexivity | | |]; nia.
Qed.

Lemma wrap_make_const (t : Type_) (v z : Z) :
  wrap (type_of (make_const t v)) z = wrap t z.
Proof.
  unfold make_const. destruct (is_vector t), (is_uint t); reflexivity.
Qed.

Lemma not_float (t : Type_) : is_int_or_uint t = true -> is_float t = false.
Proof.
  unfold is_int_or_uint, is_int, is_uint, is_float. intros Hint.
  apply orb_true_iff in Hint.
  destruct Hint as [Hc | Hc]; apply bool_decide_eq_true_1 in Hc;
    rewrite !bool_decide_eq_false_2; try reflexivity; rewrite Hc; discriminate.
Qed.

(** X24. With a simplifier that keeps the type and the value of an
    expression, the lowerings of [saturating_add] and [saturating_sub]
    evaluate to the sum and the difference clamped to the range of the
    type, and no intermediate step overflows. *)
Theorem saturating_lowerings_value (e_add e_sub : Expr) :
  (forall e, type_of (simplify e) = type_of e) ->
  (forall e, eval env (simplify e) = eval env e) ->
  in_range (type_of a) y ->
  lower_saturating_add a b = Ok e_add ->
  lower_saturating_sub a b = Ok e_sub ->
  eval env e_add = Some (saturate (type_of a) (x + y))
  /\ eval env e_sub = Some (saturate (type_of a) (x - y)).
Proof.
  intros Hstype Hsval range_y.
  unfold lower_saturating_add, lower_saturating_sub, assert_.
  destruct (bool_decide (type_of a = type_of b)) eqn:Hty; [| discriminate].
  apply bool_decide_eq_true_1 in Hty.
  intros He1 He2. injection He1 as <-. injection He2 as <-.
  destruct (ranges (type_of a) integer width) as (p & _ & Hp & Hr & _ & _).
  assert (Hwrap : forall v, in_range (type_of a) v -> wrap (type_of a) v = v)
    by (intros v; apply wrap_in_range; [exact integer | exact width]).
  pose proof (proj1 (Hr x) range_x) as Hx. pose proof (proj1 (Hr y) range_y) as Hy.
  assert (Hmin : type_min (type_of a) = if is_int (type_of a) then - p else 0).
  { pose proof (proj1 (Hr (type_min (type_of a)))) as H1.
    pose proof (proj2 (Hr (if is_int (type_of a) then - p else 0))) as H2.
    unfold in_range in *. destruct (is_int (type_of a)); lia. }
  assert (Hmax : type_max (type_of a) = if is_int (type_of a) then p - 1 else 2 * p - 1).
  { pose proof (proj1 (Hr (type_max (type_of a)))) as H1.
    pose proof (proj2 (Hr (if is_int (type_of a) then p - 1 else 2 * p - 1))) as H2.
    unfold in_range in *. destruct (is_int (type_of a)); lia. }
  unfold clamp, min_of, max_of, lit. rewrite (not_float _ integer).
  cbn [eval type_of]. rewrite !Hstype. cbn [eval type_of].
  rewrite !Hsval. cbn [eval type_of].
  rewrite eval_a, eval_b, !eval_make_const. cbn [binop]. rewrite !wrap_make_const.
  unfold saturate. rewrite Hmin, Hmax.
  split.
  - rewrite (Hwrap (_ - Z.min y 0)), (Hwrap (_ - Z.max y 0));
      [| apply Hr; destruct (is_int (type_of a)); lia ..].
    f_equal. rewrite Hwrap; [destruct (is_int (type_of a)); lia |].
    apply Hr. destruct (is_int (type_of a)); lia.
  - rewrite (Hwrap (_ + Z.max y 0)), (Hwrap (_ + Z.min y 0));
      [| apply Hr; destruct (is_int (type_of a)); lia ..].
    f_equal. rewrite Hwrap; [destruct (is_int (type_of a)); lia |].
    apply Hr. destruct (is_int (type_of a)); lia.
Qed.

(** X25. The expression that the shader emitter builds for [absd] of
    operands of one integer type, cast to the unsigned type of the same
    width, evaluates to [|x - y|]; the wrap-around of the signed difference
    is undone by the cast. *)
Theorem emitter_absd_value (t : Type_) :
  type_of b = type_of a -> in_range (type_of a) y ->
  t = with_code (type_of a) halide_type_uint ->
  exists e, CodeGen_Vulkan_Dev.call_expansion t (Intrinsic absd) [a; b] = Ok (Some e)
            /\ eval env e = Some (Z.abs (x - y)).
Proof.
  intros Hty range_y Ht.
  destruct (ranges (type_of a) integer width) as (p & Hpp & Hp & Hr & _ & _).
  pose proof (proj1 (Hr x) range_x) as Hx. pose proof (proj1 (Hr y) range_y) as Hy.
  eexists. split; [reflexivity |].
  assert (Hsel : eval env (select (LT a b) (Sub b a) (Sub a b))
                 = Some (wrap (type_of a) (if x <? y then y - x else x - y))).
  { unfold select. cbn [eval]. rewrite eval_a, eval_b, Hty. cbn [binop].
    destruct (x <? y); reflexivity. }
  assert (Hpow : 2 ^ bits (type_of a) = 2 * p).
  { pose proof (pow_split _ width) as Hs. lia. }
  assert (Habs : 0 <= Z.abs (x - y) < 2 * p) by (destruct (is_int (type_of a)); lia).
  assert (Hcast : wrap t (wrap (type_of a) (if x <? y then y - x else x - y))
                  = Z.abs (x - y)).
  { assert (Hd : (if x <? y then y - x else x - y) = Z.abs (x - y)).
    { destruct (x <? y) eqn:Hlt; [apply Z.ltb_lt in Hlt | apply Z.ltb_ge in Hlt]; lia. }
    rewrite Hd, Ht. unfold wrap at 1.
    change (is_int (with_code (type_of a) halide_type_uint)) with false.
    change (is_uint (with_code (type_of a) halide_type_uint)) with true.
    change (bits (with_code (type_of a) halide_type_uint)) with (bits (type_of a)).
    cbv iota. unfold wrap, wrap_unsigned, wrap_signed.
    destruct (is_int (type_of a)) eqn:Hi.
    - rewrite Zminus_mod_idemp_l.
      replace (Z.abs (x - y) + 2 ^ (bits (type_of a) - 1) - 2 ^ (bits (type_of a) - 1))
        with (Z.abs (x - y)) by lia.
      apply Z.mod_small. lia.
    - unfold is_int_or_uint in integer. rewrite Hi in integer. cbn in integer.
      rewrite integer. rewrite Z.mod_mod by lia. apply Z.mod_small. lia. }
  unfold cast.
  destruct (bool_decide (type_of (select (LT a b) (Sub b a) (Sub a b)) = t)) eqn:Hsame.
  - apply bool_decide_eq_true_1 in Hsame. rewrite Hsel. f_equal.
    rewrite <- Hcast.
    change (type_of (select (LT a b) (Sub b a) (Sub a b))) with (type_of b) in Hsame.
    rewrite Hty in Hsame. rewrite <- Hsame. symmetry. apply wrap_wrap. exact width.
  - change (as_const (select (LT a b) (Sub b a) (Sub a b))) with (@None Z).
    cbn [eval]. rewrite Hsel, Hcast. reflexivity.
Qed.

End Values.

Lemma lower_halving_add_value_witness :
  exists e,
    lower_halving_add MoreScenarios.u8_x MoreScenarios.u8_y = Ok e
    /\ eval MoreScenarios.u8_values e = Some 225.
Proof.
  eexists. split; [reflexivity |].
  apply (lower_halving_add_value MoreScenarios.u8_values
           MoreScenarios.u8_x MoreScenarios.u8_y 200 250).
  - reflexivity.
  - reflexivity.
  - reflexivity.
  - vm_compute. discriminate.
  - vm_compute. split; discriminate.
  - vm_compute. split; discriminate.
  - reflexivity.
Defined.

Lemma sorted_avg_value_witness :
  eval MoreScenarios.u8_values (lower_sorted_avg MoreScenarios.u8_x MoreScenarios.u8_y)
  = Some 225
  /\ exists e,
       CodeGen_Vulkan_Dev.call_expansion (H0 := Scenario.idle) (UInt 8 1)
         (Intrinsic sorted_avg) [MoreScenarios.u8_x; MoreScenarios.u8_y] = Ok (Some e)
       /\ eval MoreScenarios.u8_values e = Some 225.
Proof.
  apply (sorted_avg_value (H := Scenario.idle) MoreScenarios.u8_values
           MoreScenarios.u8_x MoreScenarios.u8_y 200 250).
  - reflexivity.
  - reflexivity.
  - reflexivity.
  - vm_compute. discriminate.
  - vm_compute. split; discriminate.
  - reflexivity.
  - vm_compute. split; discriminate.
  - lia.
  - vm_compute. split; discriminate.
Defined.

Lemma widening_lowerings_exact_witness :
  eval MoreScenarios.i8_values (lower_widening_add MoreScenarios.i8_x MoreScenarios.i8_y)
  = Some (-1)
  /\ eval MoreScenarios.i8_values (lower_widening_mul MoreScenarios.i8_x MoreScenarios.i8_y)
     = Some (-16256)
  /\ eval MoreScenarios.i8_values (lower_widening_sub MoreScenarios.i8_x MoreScenarios.i8_y)
     = Some (-255).
Proof.
  apply (widening_lowerings_exact MoreScenarios.i8_values MoreScenarios.i8_x
           MoreScenarios.i8_y (-128) 127).
  - reflexivity.
  - reflexivity.
  - reflexivity.
  - vm_compute. discriminate.
  - vm_compute. split; discriminate.
  - reflexivity.
  - vm_compute. split; discriminate.
Defined.

Lemma saturating_lowerings_value_witness :
  exists e_add e_sub,
    lower_saturating_add (H := Scenario.idle) MoreScenarios.u8_x MoreScenarios.u8_y
    = Ok e_add
    /\ lower_saturating_sub (H := Scenario.idle) MoreScenarios.u8_x MoreScenarios.u8_y
       = Ok e_sub
    /\ eval MoreScenarios.u8_values e_add = Some 255
    /\ eval MoreScenarios.u8_values e_sub = Some 0.
Proof.
  eexists. eexists. split; [reflexivity |]. split; [reflexivity |].
  apply (saturating_lowerings_value (H := Scenario.idle) MoreScenarios.u8_values
           MoreScenarios.u8_x MoreScenarios.u8_y 200 250).
  - reflexivity.
  - reflexivity.
  - reflexivity.
  - vm_compute. discriminate.
  - vm_compute. split; discriminate.
  - intros e. reflexivity.
  - intros e. reflexivity.
  - vm_compute. split; discriminate.
  - reflexivity.
  - reflexivity.
Defined.

Lemma emitter_absd_value_witness :
  exists e,
    CodeGen_Vulkan_Dev.call_expansion (H0 := Scenario.idle) (UInt 8 1) (Intrinsic absd)
      [MoreScenarios.i8_x; MoreScenarios.i8_y] = Ok (Some e)
    /\ eval MoreScenarios.i8_values e = Some 255.
Proof.
  apply (emitter_absd_value (H := Scenario.idle) MoreScenarios.i8_values
           MoreScenarios.i8_x MoreScenarios.i8_y (-128) 127).
  - reflexivity.
  - reflexivity.
  - reflexivity.
  - vm_compute. discriminate.
  - vm_compute. split; discriminate.
  - reflexivity.
  - vm_compute. split; discriminate.
  - reflexivity.
Defined.

End LoweringValues.

(** * Domain of the lowerings (FindIntrinsics.cpp) *)

Module LoweringDomain.
Import IR FindIntrinsics LoweringSpecs.

Lemma defined_never_undefined (r : result Expr) : defined r <> Ok None.
Proof. destruct r; discriminate. Qed.

Section Domain.
Context `{Collaborators}.

Lemma lower_intrinsic_undefined (t : Type_) (name : CallName) (args : list Expr) :
  lower_intrinsic t name args = Ok None <-> has_lowering name = false.
Proof.
  destruct name as [op | ext]; [| split; reflexivity].
  destruct op; cbn [lower_intrinsic has_lowering];
    try (split; [reflexivity | reflexivity]);
    (split; [| discriminate]); intros Hx; exfalso;
    unfold args1, args2, args3 in Hx;
    repeat match type of Hx with
           | match ?l with _ => _ end = _ => destruct l; try discriminate Hx
           end;
    try (eapply defined_never_undefined; exact Hx).
Qed.

(** X26. [lower_intrinsic_semantically] has no lowering (returns the
    undefined expression) for exactly the calls for which [lower_intrinsic]
    has none, the calls of other names than the twenty intrinsics; and
    whenever [lower_intrinsic] lowers a call, [lower_intrinsic_semantically]
    lowers it too. *)
Theorem lowerings_defined_together (t : Type_) (name : CallName) (args : list Expr) :
  (lower_intrinsic_semantically t name args = Ok None
   <-> lower_intrinsic t name args = Ok None)
  /\ (lower_intrinsic t name args = Ok None <-> has_lowering name = false)
  /\ (forall e, lower_intrinsic t name args = Ok (Some e) ->
                exists e', lower_intrinsic_semantically t name args = Ok (Some e')).
Proof.
  split; [| split; [apply lower_intrinsic_undefined |]].
  - rewrite lower_intrinsic_undefined.
    destruct name as [op | ext]; [| split; reflexivity].
    destruct op; cbn [lower_intrinsic_semantically has_lowering];
      try (split; [reflexivity | reflexivity]);
      (split; [| discriminate]); intros Hx; exfalso;
      repeat match type of Hx with
             | (if ?c then _ else _) = _ => destruct c
             end;
      try (apply lower_intrinsic_undefined in Hx; discriminate Hx);
      unfold args1, args2, args3 in Hx;
      repeat match type of Hx with
             | match ?l with _ => _ end = _ => destruct l; try discriminate Hx
             | (if ?c then _ else _) = _ => destruct c; try discriminate Hx
             end;
      try (apply lower_intrinsic_undefined in Hx; discriminate Hx).
  - intros e He.
    destruct name as [op | ext]; [| cbn in He; discriminate He].
    destruct op; cbn [lower_intrinsic lower_intrinsic_semantically] in *;
      try discriminate He;
      try (eexists; exact He);
      unfold args1, args2, args3 in *;
      repeat match goal with
             | |- context [if ?c then _ else _] => destruct c
             end;
      try (eexists; exact He);
      repeat match type of He with
             | match ?l with _ => _ end = _ => destruct l; try discriminate He
             end;
      try (eexists; reflexivity); try (eexists; exact He).
Qed.

End Domain.

(** X27. The search of [is_safe_for_add] is monotone in its depth bound: what
    is found within a depth is found within every larger one, and nothing is
    found within depth zero. *)
Theorem is_safe_for_add_depth_monotone (e : Expr) (d d' : nat) :
  (d <= d')%nat ->
  is_safe_for_add_depth e d = true ->
  is_safe_for_add_depth e d' = true /\ (0 < d)%nat.
Proof.
  intros Hle Hs. split.
  - revert e d' Hle Hs. induction d as [| d IH]; intros e d' Hle Hs;
      [destruct e; discriminate |].
    destruct d' as [| d']; [lia |].
    assert (Hd : (d <= d')%nat) by lia.
    destruct e; cbn [is_safe_for_add_depth] in *; try exact Hs.
    + destruct (bits (type_of e) <? bits t); [reflexivity |].
      destruct (bits t =? bits (type_of e)); [apply IH; assumption | discriminate].
    + destruct (bits t =? bits (type_of e)); [apply IH; assumption | discriminate].
    + apply orb_true_iff in Hs. apply orb_true_iff.
      destruct Hs as [Hs | Hs]; [left | right]; apply IH; assumption.
    + apply orb_true_iff in Hs. apply orb_true_iff.
      destruct Hs as [Hs | Hs]; [left | right]; apply IH; assumption.
  - destruct d; [destruct e; discriminate | lia].
Qed.

Lemma lowerings_defined_together_witness :
  exists e',
    lower_intrinsic_semantically (H := Scenario.idle) (UInt 8 1) (Intrinsic halving_add)
      [MoreScenarios.u8_x; MoreScenarios.u8_y] = Ok (Some e').
Proof.
  eapply (proj2 (proj2 (lowerings_defined_together (H := Scenario.idle) (UInt 8 1)
                          (Intrinsic halving_add)
                          [MoreScenarios.u8_x; MoreScenarios.u8_y]))).
  reflexivity.
Defined.

Lemma is_safe_for_add_depth_monotone_witness :
  is_safe_for_add_depth (Cast (Int 16 1) MoreScenarios.i8_x) 3 = true /\ (0 < 1)%nat.
Proof.
  apply (is_safe_for_add_depth_monotone (Cast (Int 16 1) MoreScenarios.i8_x) 1 3).
  - lia.
  - reflexivity.
Defined.

End LoweringDomain.

(** * Results of lower_intrinsics (FindIntrinsics.cpp) *)

Module LoweredFacts.
Import IR FindIntrinsics LoweringSpecs LoweringDomain.

Section Lowered.
Context `{Collaborators}.

Lemma rbind_Ok {A B : Type} (r : result A) (k : A -> result B) (b : B) :
  rbind r k = Ok b -> exists a, r = Ok a /\ k a = Ok b.
Proof. destruct r; try discriminate. intros Hk. eauto. Qed.

Lemma mutate_list_lowered (mutate : Expr -> result Expr) :
  (forall e e', mutate e = Ok e' -> fully_lowered e' = true) ->
  forall l l', mutate_list mutate l = Ok l' ->
    (fix go (l : list Expr) : bool :=
       match l with
       | [] => true
       | x :: r => fully_lowered x && go r
       end) l' = true.
Proof.
  intros Hm. induction l as [| e l IH]; intros l' Hl; cbn [mutate_list] in Hl.
  - injection Hl as <-. reflexivity.
  - apply rbind_Ok in Hl as (e' & He & Hl). apply rbind_Ok in Hl as (r' & Hr & Hl).
    injection Hl as <-. rewrite (Hm _ _ He), (IH _ Hr). reflexivity.
Qed.

Lemma IRMutator_visit_lowered (mutate : Expr -> result Expr) :
  (forall e e', mutate e = Ok e' -> fully_lowered e' = true) ->
  forall e e', (forall t name args, e = Call t name args -> has_lowering name = false) ->
    IRMutator_visit mutate e = Ok e' -> fully_lowered e' = true.
Proof.
  intros Hm e e' Hcall Hv.
  destruct e; cbn [IRMutator_visit] in Hv; unfold mutate2 in Hv;
    repeat match type of Hv with
           | rbind _ _ = Ok _ =>
               let E := fresh "E" in
               apply rbind_Ok in Hv as (? & E & Hv);
               first [apply Hm in E | apply (mutate_list_lowered mutate Hm) in E]
           end;
    injection Hv as <-; cbn [fully_lowered];
    repeat match goal with E : fully_lowered _ = true |- _ => rewrite E; clear E end;
    try reflexivity.
  rewrite (Hcall _ _ _ eq_refl). cbn [negb andb]. assumption.
Qed.

(** X28. Whenever [lower_intrinsics] returns an expression, the expression
    is fully lowered: it contains no call of an intrinsic that
    [lower_intrinsic] has a lowering for. *)
Theorem lower_intrinsics_lowers_all (fuel : nat) :
  forall e e', lower_intrinsics_fuel fuel e = Ok e' -> fully_lowered e' = true.
Proof.
  induction fuel as [| fuel IH]; intros e e' Hl; [discriminate |].
  cbn [lower_intrinsics_fuel] in Hl.
  destruct e;
    try (apply (IRMutator_visit_lowered _ IH _ _) in Hl; [exact Hl | discriminate]).
  apply rbind_Ok in Hl as (lowered & Hlow & Hl).
  destruct lowered as [lowered |].
  - exact (IH _ _ Hl).
  - apply (IRMutator_visit_lowered _ IH _ _) in Hl; [exact Hl |].
    intros t' name' args' E. injection E as <- <- <-.
    apply (lower_intrinsic_undefined t name args). exact Hlow.
Qed.

End Lowered.

Lemma lower_intrinsics_lowers_all_witness :
  exists e',
    lower_intrinsics_fuel (H := Scenario.idle) 8
      (Call (UInt 8 1) (Intrinsic halving_add) [MoreScenarios.u8_x; MoreScenarios.u8_y])
    = Ok e'
    /\ fully_lowered e' = true.
Proof.
  eexists. split; [reflexivity |].
  apply (lower_intrinsics_lowers_all (H := Scenario.idle) 8
           (Call (UInt 8 1) (Intrinsic halving_add)
              [MoreScenarios.u8_x; MoreScenarios.u8_y])).
  reflexivity.
Defined.

End LoweredFacts.

(** * Runs of the emitted serial loop *)

Module LoopRuns.
Import Spirv SpirvExec SerialLoop.

(** ** Single instructions *)

Lemma step_inst_stored types h i m :
  step_inst types (SpvInst.set_block h i) m = step_inst types i m.
Proof. reflexivity. Qed.

Lemma run_block_stored types h code m :
  run_block types (stored h code) m = run_block types code m.
Proof.
  revert m. induction code as [| i code IH]; intros m; [reflexivity |].
  cbn [stored map run_block]. rewrite step_inst_stored.
  destruct (step_inst types i m); try reflexivity. apply IH.
Qed.

Lemma load_step types t r p mask m v :
  memory m !! p = Some v ->
  step_inst types (SpvFactory.load t r p mask) m = Next (set_value r v m).
Proof. intros Hp. cbn. rewrite Hp. reflexivity. Qed.

Lemma less_than_equal_step types t r a b m x y :
  values m !! a = Some x -> values m !! b = Some y ->
  step_inst types (SpvFactory.less_than_equal t r a b true) m
  = Next (set_value r (Z.b2z (x <=? y)) m).
Proof. intros Ha Hb. cbn. rewrite Ha, Hb. reflexivity. Qed.

Lemma conditional_branch_step types c t f m v :
  values m !! c = Some v ->
  step_inst types (SpvFactory.conditional_branch c t f []) m
  = Jump (if v =? 0 then f else t) m.
Proof. intros Hc. cbn. rewrite Hc. reflexivity. Qed.

Lemma integer_add_step types t r a b m ty x y :
  int_type types t = Some ty ->
  values m !! a = Some x -> values m !! b = Some y ->
  step_inst types (SpvFactory.integer_add t r a b) m
  = Next (set_value r (wrap_in ty (x + y)) m).
Proof. intros Ht Ha Hb. cbn. rewrite Ht, Ha, Hb. reflexivity. Qed.

Lemma store_step types p o mask m v :
  values m !! o = Some v ->
  step_inst types (SpvFactory.store p o mask) m = Next (set_memory p v m).
Proof. intros Ho. cbn. rewrite Ho. reflexivity. Qed.

Lemma branch_step types t m :
  step_inst types (SpvFactory.branch t) m = Jump t m.
Proof. reflexivity. Qed.

Lemma loop_merge_step types a b mask m :
  step_inst types (SpvFactory.loop_merge a b mask) m = Next m.
Proof. reflexivity. Qed.

(** ** Blocks found by their label *)

Lemma find_block_unique (blocks : list SpvBlockContents) (c : SpvBlockContents) :
  NoDup (block_id <$> blocks) -> c ∈ blocks ->
  find_block blocks (block_id c) = Some c.
Proof.
  unfold find_block. induction blocks as [| x blocks IH]; intros Hnd Hin.
  - apply elem_of_nil in Hin. destruct Hin.
  - rewrite fmap_cons in Hnd. apply NoDup_cons in Hnd as [Hx Hnd]. cbn [List.find].
    apply elem_of_cons in Hin as [-> | Hin].
    + rewrite Z.eqb_refl. reflexivity.
    + destruct (block_id x =? block_id c) eqn:E.
      * apply Z.eqb_eq in E. exfalso. apply Hx. rewrite E.
        apply list_elem_of_fmap_2. exact Hin.
      * apply IH; assumption.
Qed.

Lemma run_at fuel types blocks label code m :
  block_at blocks label code ->
  run (S fuel) types blocks label m
  = match run_block types code (enter label m) with
    | Jump target m' => run fuel types blocks target m'
    | Next m' => (FellOff label, m')
    | Stuck => (Crashed, m)
    end.
Proof.
  intros (c & h & Hf & Hi). cbn [run]. rewrite Hf, Hi, run_block_stored. reflexivity.
Qed.

(** ** The loop *)

(** Linear arithmetic without the disequalities of ids in the context. *)
(** Membership in a list that is written out. *)
Ltac listed := solve [repeat first [left | right]].

Ltac ids_lia :=
  repeat match goal with
         | Hn : _ <> _ |- _ => clear Hn
         | Hn : _ /\ _ |- _ => clear Hn
         | Hn : NoDup _ |- _ => clear Hn
         | Hn : _ ∉ _ |- _ => clear Hn
         end;
  lia.

(** Control that is about to enter a block goes on from there. *)
Lemma run_reaches k :
  forall types blocks from st to st' fuel,
    run k types blocks from st = (Running to, st') ->
    run (k + fuel) types blocks from st = run fuel types blocks to st'.
Proof.
  induction k as [| k IH]; intros types blocks from st to st' fuel E.
  - cbn in E. injection E as <- <-. reflexivity.
  - cbn [run Nat.add] in E |- *.
    destruct (find_block blocks from) as [c |]; [| discriminate E].
    destruct (run_block types (instructions c) (enter from st)) as [m | t m |];
      try discriminate E.
    apply IH. exact E.
Qed.

Section Run.
Context `{SpirvHeader}.
Variable types : list SpvInstruction.
Variable blocks : list SpvBlockContents.
Variable L : LoopIds.
Variable inv : Machine -> Prop.

Hypothesis header_block : block_at blocks (header_block_id L) (header_code L).
Hypothesis top_block : block_at blocks (top_block_id L) (top_code L).
Hypothesis continue_block : block_at blocks (continue_block_id L) (continue_code L).
Hypothesis merge_block : block_at blocks (merge_block_id L) [].
Hypothesis labels :
  header_block_id L <> body_block_id L /\ top_block_id L <> body_block_id L
  /\ continue_block_id L <> body_block_id L /\ merge_block_id L <> body_block_id L.
Hypothesis index_type : int_type types (index_type_id L) = Some (32, 1).
Hypothesis results :
  NoDup [max_id L; current_index_id L; loop_test_id L; next_index_id L].
Hypothesis constant_one :
  constant_one_id L ∉ [max_id L; current_index_id L; loop_test_id L; next_index_id L].
Hypothesis inv_kept : loop_invariant L inv.
Hypothesis body_reaches : body_runs L types blocks inv.

Lemma distinct_ids :
  max_id L <> current_index_id L /\ max_id L <> loop_test_id L
  /\ max_id L <> next_index_id L /\ current_index_id L <> loop_test_id L
  /\ current_index_id L <> next_index_id L /\ loop_test_id L <> next_index_id L
  /\ constant_one_id L <> max_id L /\ constant_one_id L <> current_index_id L
  /\ constant_one_id L <> loop_test_id L /\ constant_one_id L <> next_index_id L.
Proof.
  pose proof results as Hr. pose proof constant_one as Ho.
  apply NoDup_cons in Hr as [H1 Hr]. apply NoDup_cons in Hr as [H2 Hr].
  apply NoDup_cons in Hr as [H3 _].
  repeat match goal with
         | Hn : _ ∉ _ :: _ |- _ => apply not_elem_of_cons in Hn as [? Hn]
         end.
  repeat split; assumption.
Qed.

Lemma inv_set_value id v st :
  id ∈ [max_id L; current_index_id L; loop_test_id L; next_index_id L] ->
  inv st -> inv (set_value id v st).
Proof. intros Hid Hst. exact (proj1 (inv_kept st Hst) id v Hid). Qed.

Lemma inv_set_memory v st : inv st -> inv (set_memory (loop_var_id L) v st).
Proof. intros Hst. exact (proj1 (proj2 (inv_kept st Hst)) v). Qed.

Lemma inv_enter label st : inv st -> inv (enter label st).
Proof. intros Hst. exact (proj2 (proj2 (inv_kept st Hst)) label). Qed.

Lemma times_entered_enter label st :
  times_entered (body_block_id L) (enter label st)
  = ((if (label =? body_block_id L)%Z then 1 else 0)
     + times_entered (body_block_id L) st)%nat.
Proof.
  unfold times_entered, enter. cbn [visited List.filter].
  destruct (label =? body_block_id L); reflexivity.
Qed.

Lemma times_entered_other label st :
  label <> body_block_id L ->
  times_entered (body_block_id L) (enter label st) = times_entered (body_block_id L) st.
Proof.
  intros Hne. rewrite times_entered_enter.
  replace (label =? body_block_id L) with false by (symmetry; apply Z.eqb_neq; exact Hne).
  reflexivity.
Qed.

(** The top block: load the index and compare it with the bound. *)
Lemma top_block_runs st mx i :
  memory st !! loop_var_id L = Some i -> values st !! max_id L = Some mx ->
  run_block types (top_code L) st
  = Jump (if i <=? mx then body_block_id L else merge_block_id L)
      (set_value (loop_test_id L) (Z.b2z (i <=? mx))
         (set_value (current_index_id L) i st)).
Proof.
  intros Hm Hv. destruct distinct_ids as (D1 & _).
  unfold top_code. cbn [run_block].
  rewrite (load_step _ _ _ _ _ _ i Hm).
  rewrite (less_than_equal_step _ _ _ _ _ _ i mx).
  - rewrite (conditional_branch_step _ _ _ _ _ (Z.b2z (i <=? mx))).
    + destruct (i <=? mx); reflexivity.
    + cbn. apply lookup_insert_eq.
  - cbn. apply lookup_insert_eq.
  - cbn. rewrite lookup_insert_ne by congruence. exact Hv.
Qed.

(** One turn of the loop from the header block. *)
Lemma loop_turn st mx i :
  at_loop_header L inv mx i st -> i <= mx ->
  exists k st',
    (forall fuel,
       run (k + fuel) types blocks (header_block_id L) st
       = run fuel types blocks (header_block_id L) st')
    /\ at_loop_header L inv mx (wrap_signed 32 (i + 1)) st'
    /\ times_entered (body_block_id L) st' = S (times_entered (body_block_id L) st).
Proof.
  intros (Hm & Hv & H1 & Hinv) Hle.
  destruct distinct_ids as (D1 & D2 & D3 & D4 & D5 & D6 & O1 & O2 & O3 & O4).
  destruct labels as (B1 & B2 & B3 & B4).
  set (s0 := set_value (loop_test_id L) (Z.b2z true)
               (set_value (current_index_id L) i
                  (enter (top_block_id L) (enter (header_block_id L) st)))).
  assert (Hs0 : inv s0).
  { subst s0. apply inv_set_value; [listed |]. apply inv_set_value; [listed |].
    apply inv_enter, inv_enter, Hinv. }
  destruct (body_reaches s0 Hs0) as (k & s1 & Hrun & Hs1 & Qm & Qmax & Qcur & Qone & Qt).
  assert (Hcur : values s1 !! current_index_id L = Some i).
  { rewrite Qcur. subst s0. cbn. rewrite lookup_insert_ne by congruence.
    apply lookup_insert_eq. }
  assert (Hone : values s1 !! constant_one_id L = Some 1).
  { rewrite Qone. subst s0. cbn. rewrite !lookup_insert_ne by congruence. exact H1. }
  eexists (S (S (S k)) + 1)%nat, _. split; [| split].
  - intros fuel.
    replace (S (S (S k)) + 1 + fuel)%nat with (S (S (S k + S fuel))) by lia.
    rewrite (run_at _ _ _ _ _ _ header_block). unfold header_code. cbn [run_block].
    rewrite loop_merge_step, branch_step.
    rewrite (run_at _ _ _ _ _ _ top_block).
    rewrite (top_block_runs _ mx i) by assumption.
    replace (i <=? mx) with true by (symmetry; apply Z.leb_le; exact Hle).
    fold s0. rewrite (run_reaches _ _ _ _ _ _ _ _ Hrun).
    rewrite (run_at _ _ _ _ _ _ continue_block). unfold continue_code. cbn [run_block].
    rewrite (integer_add_step _ _ _ _ _ _ (32, 1) i 1 index_type) by (cbn; assumption).
    rewrite (store_step _ _ _ _ _ (wrap_in (32, 1) (i + 1)))
      by (cbn; apply lookup_insert_eq).
    rewrite branch_step. reflexivity.
  - unfold at_loop_header. cbn. split; [apply lookup_insert_eq |]. split; [| split].
    + rewrite lookup_insert_ne by congruence. rewrite Qmax. subst s0. cbn.
      rewrite !lookup_insert_ne by congruence. exact Hv.
    + rewrite lookup_insert_ne by congruence. exact Hone.
    + apply inv_set_memory. apply inv_set_value; [listed |]. apply inv_enter, Hs1.
  - change (times_entered (body_block_id L) (enter (continue_block_id L) s1)
            = S (times_entered (body_block_id L) st)).
    rewrite times_entered_other by exact B3. rewrite Qt. f_equal.
    change (times_entered (body_block_id L)
              (enter (top_block_id L) (enter (header_block_id L) st))
            = times_entered (body_block_id L) st).
    rewrite !times_entered_other by assumption. reflexivity.
Qed.

(** Leaving the loop. *)
Lemma loop_leaves st mx i :
  at_loop_header L inv mx i st -> mx < i ->
  exists st',
    (forall fuel,
       run (3 + fuel) types blocks (header_block_id L) st
       = (FellOff (merge_block_id L), st'))
    /\ times_entered (body_block_id L) st' = times_entered (body_block_id L) st
    /\ memory st' !! loop_var_id L = Some i /\ values st' !! max_id L = Some mx.
Proof.
  intros (Hm & Hv & H1 & Hinv) Hlt.
  destruct distinct_ids as (D1 & D2 & D3 & D4 & D5 & D6 & O1 & O2 & O3 & O4).
  destruct labels as (B1 & B2 & B3 & B4).
  eexists. split; [| split; [| split]].
  - intros fuel. change (3 + fuel)%nat with (S (S (S fuel))).
    rewrite (run_at _ _ _ _ _ _ header_block). unfold header_code. cbn [run_block].
    rewrite loop_merge_step, branch_step.
    rewrite (run_at _ _ _ _ _ _ top_block).
    rewrite (top_block_runs _ mx i) by assumption.
    replace (i <=? mx) with false by (symmetry; apply Z.leb_gt; exact Hlt).
    rewrite (run_at _ _ _ _ _ _ merge_block). cbn [run_block]. reflexivity.
  - change (times_entered (body_block_id L)
              (enter (merge_block_id L)
                 (enter (top_block_id L) (enter (header_block_id L) st)))
            = times_entered (body_block_id L) st).
    rewrite !times_entered_other by assumption. reflexivity.
  - cbn. exact Hm.
  - cbn. rewrite !lookup_insert_ne by congruence. exact Hv.
Qed.

(** The loop from the header block, [k] turns before it is left. *)
Lemma loop_turns (k : nat) :
  forall st mx i,
    at_loop_header L inv mx i st -> - 2 ^ 31 <= i -> mx < 2 ^ 31 - 1 ->
    i + Z.of_nat k = mx + 1 ->
    exists fuel0 st',
      (forall fuel,
         run (fuel0 + fuel) types blocks (header_block_id L) st
         = (FellOff (merge_block_id L), st'))
      /\ times_entered (body_block_id L) st'
         = (k + times_entered (body_block_id L) st)%nat
      /\ memory st' !! loop_var_id L = Some (mx + 1)
      /\ values st' !! max_id L = Some mx.
Proof.
  induction k as [| k IH]; intros st mx i Hst Hlo Hmx Hk.
  - destruct (loop_leaves st mx i Hst ltac:(lia)) as (st' & Hr & Ht & Hm & Hv).
    exists 3%nat, st'. replace (mx + 1) with i by lia. auto.
  - destruct (loop_turn st mx i Hst ltac:(lia)) as (k1 & st1 & Hr & Hst1 & Ht).
    rewrite (EmitterFacts.wrap_signed_small (i + 1)) in Hst1 by lia.
    destruct (IH st1 mx (i + 1) Hst1 ltac:(lia) Hmx ltac:(lia))
      as (fuel0 & st' & Hr' & Ht' & Hm & Hv).
    exists (k1 + fuel0)%nat, st'. split; [| split; [lia | auto]].
    intros fuel. rewrite <- Nat.add_assoc, Hr. apply Hr'.
Qed.

(** The bound, and then the loop. *)
Lemma loop_from_bound (m n : Z) (st : Machine) :
  at_bound L m n st -> inv st -> - 2 ^ 31 <= m -> 0 <= n -> m + n < 2 ^ 31 - 1 ->
  exists st1,
    run_block types (bound_code L) st = Jump (header_block_id L) st1
    /\ exists fuel0 st',
         (forall fuel, (fuel0 <= fuel)%nat ->
            run fuel types blocks (header_block_id L) st1
            = (FellOff (merge_block_id L), st'))
         /\ times_entered (body_block_id L) st'
            = (Z.to_nat n + 1 + times_entered (body_block_id L) st)%nat
         /\ values st' !! max_id L = Some (m + n)
         /\ memory st' !! loop_var_id L = Some (m + n + 1).
Proof.
  intros (Hmin & Hext & Hone & Hvar) Hinv Hm Hn Hmn.
  destruct distinct_ids as (D1 & D2 & D3 & D4 & D5 & D6 & O1 & O2 & O3 & O4).
  unfold bound_code. cbn [run_block].
  rewrite (integer_add_step _ _ _ _ _ _ (32, 1) m n index_type Hmin Hext).
  rewrite branch_step.
  eexists. split; [reflexivity |].
  set (st1 := set_value (max_id L) (wrap_in (32, 1) (m + n)) st).
  assert (Hst1 : at_loop_header L inv (m + n) m st1).
  { unfold at_loop_header. subst st1. cbn. split; [exact Hvar |]. split; [| split].
    - change (wrap_in (32, 1) (m + n)) with (wrap_signed 32 (m + n)).
      rewrite (EmitterFacts.wrap_signed_small (m + n)) by ids_lia. apply lookup_insert_eq.
    - rewrite lookup_insert_ne by congruence. exact Hone.
    - apply inv_set_value; [listed | exact Hinv]. }
  destruct (loop_turns (Z.to_nat n + 1) st1 (m + n) m
              Hst1 Hm Hmn ltac:(ids_lia)) as (fuel0 & st' & Hr & Ht & Hmem & Hval).
  exists fuel0, st'.
  split; [| split; [| split; assumption]].
  - intros fuel Hfuel. replace fuel with (fuel0 + (fuel - fuel0))%nat by ids_lia.
    apply Hr.
  - rewrite Ht. subst st1. reflexivity.
Qed.

End Run.

End LoopRuns.

(** * The blocks that the serial branch of visit(For) emits *)

Module LoopBlocks.
Import Spirv IR FindIntrinsics CodeGen_Vulkan_Dev SpirvExec Invariants BuilderSpecs.
Import SerialLoop BuilderFacts BlockFacts.

Ltac frame_step :=
  first
    [ apply keeps_ret | apply keeps_get
    | apply keeps_fail; discriminate
    | apply keeps_make_id; intros; reflexivity
    | apply keeps_modify; intros; reflexivity
    | apply keeps_bind; [| intros ?]
    | match goal with
      | |- keeps _ (if ?c then _ else _) => destruct c
      | |- keeps _ (match ?x with _ => _ end) => destruct x
      end ].

Ltac grows_step :=
  first
    [ apply SpirvFacts.allocates_ret | apply SpirvFacts.allocates_get
    | apply SpirvFacts.allocates_internal_error
    | apply SpirvFacts.allocates_user_error | apply SpirvFacts.allocates_undefined
    | apply SpirvFacts.allocates_make_id
    | apply SpirvFacts.allocates_declare_type
    | apply SpirvFacts.allocates_add_pointer_type_id
    | apply SpirvFacts.allocates_declare_scalar_constant
    | apply SpirvFacts.allocates_SpvBlock_add_instruction
    | apply SpirvFacts.allocates_SpvFunction_create_block
    | apply SpirvFacts.allocates_current_function
    | apply SpirvFacts.allocates_modify; intros; reflexivity
    | apply SpirvFacts.allocates_bind; [| intros ?]
    | match goal with
      | |- allocates (if ?c then _ else _) => destruct c
      | |- allocates (match ?x with _ => _ end) => destruct x
      end ].

Section Builder.
Context `{SpirvHeader}.

Lemma control_parts b b1 :
  control b1 = control b ->
  function_store b1 = function_store b /\ block_store b1 = block_store b
  /\ active_function b1 = active_function b /\ active_block b1 = active_block b
  /\ symbol_id_map b1 = symbol_id_map b.
Proof. unfold control. intros E. injection E as -> -> -> -> ->. repeat split. Qed.

Lemma add_type_rec_keeps_control fuel :
  forall type array_size, keeps control (add_type_rec fuel type array_size).
Proof.
  induction fuel as [| fuel IH]; intros type array_size.
  - apply keeps_fail. discriminate.
  - cbn [add_type_rec]. lazy zeta.
    unfold module_add_type, require_capability.
    repeat first [ apply IH | frame_step ].
Qed.

Lemma declare_type_keeps_control type array_size :
  keeps control (declare_type type array_size).
Proof.
  unfold declare_type, add_type.
  repeat first [ apply add_type_rec_keeps_control | frame_step ].
Qed.

Lemma declare_pointer_type_id_keeps_control id sc :
  keeps control (declare_pointer_type_id id sc).
Proof.
  unfold declare_pointer_type_id, add_pointer_type_id, module_add_type.
  repeat frame_step.
Qed.

Section Constants.
Variable declare_vector_constant : Type_ -> list Z -> M SpvBuilder SpvId.

Lemma declare_int32_keeps_control data :
  keeps control (declare_constant declare_vector_constant (Int 32 1) data).
Proof.
  unfold declare_constant, add_constant.
  change (lanes (Int 32 1) =? 1) with true. cbv iota.
  unfold declare_scalar_constant.
  change (negb (lanes (Int 32 1) =? 1)) with false.
  change (is_bool (Int 32 1)) with false.
  change (is_float (Int 32 1)) with false.
  change (is_int_or_uint (Int 32 1)) with true. cbv iota.
  unfold add_type, module_add_constant.
  repeat first [ apply add_type_rec_keeps_control | frame_step ].
Qed.

Lemma declare_int32_allocates data :
  allocates (declare_constant declare_vector_constant (Int 32 1) data).
Proof.
  unfold declare_constant, add_constant.
  change (lanes (Int 32 1) =? 1) with true. cbv iota.
  repeat grows_step.
Qed.

End Constants.

Lemma declare_pointer_type_id_allocates id sc :
  allocates (declare_pointer_type_id id sc).
Proof. unfold declare_pointer_type_id. repeat grows_step. Qed.

Lemma append_allocates i : allocates (append i).
Proof. unfold append. repeat grows_step. Qed.

Lemma create_block_allocates id : allocates (create_block id).
Proof. unfold create_block. repeat grows_step. Qed.

Lemma enter_block_allocates h : allocates (enter_block h).
Proof. unfold enter_block. repeat grows_step. Qed.

Lemma leave_block_allocates : allocates leave_block.
Proof. unfold leave_block. repeat grows_step. Qed.

(** ** What each call does to the blocks *)

Lemma current_id_Ok b id b1 : current_id b = Ok (id, b1) -> id = active_id b /\ b1 = b.
Proof. unfold current_id, bind, get, ret. intros E. injection E as <- <-. auto. Qed.

Lemma append_Ok i b u b1 :
  append i b = Ok (u, b1) ->
  exists h x,
    active_block b = Some h /\ block_store b !! h = Some x
    /\ function_store b1 = function_store b
    /\ block_store b1 = <[h := append_code h [i] x]> (block_store b)
    /\ active_function b1 = active_function b
    /\ active_block b1 = active_block b
    /\ symbol_id_map b1 = symbol_id_map b.
Proof.
  unfold append. intros E. apply bind_Ok in E as (b' & s & Eg & E).
  apply get_Ok in Eg as [-> ->].
  destruct (active_block b) as [h |] eqn:Hab; [| discriminate E].
  unfold SpvBlock_add_instruction in E.
  apply upd_block_Ok in E as (x & Hx & ->).
  exists h, x. cbn. repeat split; auto.
Qed.

Lemma enter_block_Ok h b u b1 :
  enter_block h b = Ok (u, b1) ->
  function_store b1 = function_store b /\ block_store b1 = block_store b
  /\ active_function b1 = active_function b /\ active_block b1 = Some h
  /\ symbol_id_map b1 = symbol_id_map b.
Proof. unfold enter_block. intros E. apply modify_Ok in E as ->. repeat split. Qed.

Lemma leave_block_Ok b r b1 :
  leave_block b = Ok (r, b1) ->
  function_store b1 = function_store b /\ block_store b1 = block_store b
  /\ active_function b1 = active_function b /\ active_block b1 = None
  /\ symbol_id_map b1 = symbol_id_map b.
Proof.
  unfold leave_block, bind, get, modify, ret. intros E. injection E as <- <-.
  repeat split.
Qed.

(** [create_block] in a function with blocks: the tail block is read, gets
    a branch when it does not end in a terminator, and the new block is
    the last one. *)
Lemma create_block_Ok id b h b1 fh c tail :
  create_block id b = Ok (h, b1) ->
  active_function b = Some fh -> function_store b !! fh = Some c ->
  last (blocks c) = Some tail ->
  exists tb inst,
    block_store b !! tail = Some tb
    /\ last (instructions tb) = Some inst
    /\ h = length (block_store b)
    /\ function_store b1 = <[fh := push_block h c]> (function_store b)
    /\ block_store b1
       = (if is_terminator (op_code inst) then block_store b
          else <[tail := append_code tail [SpvFactory.branch id] tb]> (block_store b))
         ++ [mkBlock id (Some fh) [] [] true]
    /\ active_function b1 = active_function b
    /\ active_block b1 = active_block b
    /\ symbol_id_map b1 = symbol_id_map b.
Proof.
  intros E Haf Hfs Hlast. unfold create_block in E.
  apply bind_Ok in E as (fh' & s & Ec & E).
  apply current_function_Ok in Ec as [Hfh ->].
  rewrite Haf in Hfh. injection Hfh as <-.
  unfold SpvFunction_create_block in E.
  apply bind_Ok in E as (c' & s & Ec & E).
  apply function_contents_Ok in Ec as [Hc ->].
  rewrite Hfs in Hc. injection Hc as <-.
  apply bind_Ok in E as (u & s & Elink & E).
  replace (bool_decide (blocks c = [])) with false in Elink
    by (symmetry; apply bool_decide_eq_false_2; intros E0; rewrite E0 in Hlast;
        discriminate).
  apply bind_Ok in Elink as (tail' & s' & Et & Elink).
  apply SpvFunction_tail_block_Ok in Et as [(c2 & Hc2 & Ht) ->].
  rewrite Hfs in Hc2. injection Hc2 as <-. rewrite Hlast in Ht. injection Ht as <-.
  apply bind_Ok in Elink as (t & s' & Eterm & Elink).
  apply SpvBlock_is_terminated_Ok in Eterm as [(tb & inst & Htb & Hinst & ->) ->].
  exists tb, inst. split; [exact Htb |]. split; [exact Hinst |].
  apply bind_Ok in E as (blk & s1 & Emake & E).
  apply bind_Ok in E as (u' & s2 & Epush & E).
  apply ret_Ok in E as [-> ->].
  unfold SpvBlock_make in Emake.
  destruct (is_terminator (op_code inst)).
  - apply ret_Ok in Elink as [_ ->].
    injection Emake as <- <-.
    apply upd_function_Ok in Epush as (c3 & Hc3 & ->). cbn in Hc3.
    rewrite Hfs in Hc3. injection Hc3 as <-.
    cbn. repeat split; auto.
  - unfold SpvBlock_add_instruction in Elink.
    apply upd_block_Ok in Elink as (x & Hx & ->).
    rewrite Htb in Hx. injection Hx as <-.
    injection Emake as <- <-.
    apply upd_function_Ok in Epush as (c3 & Hc3 & ->). cbn in Hc3.
    rewrite Hfs in Hc3. injection Hc3 as <-.
    cbn. rewrite length_insert. repeat split; auto.
Qed.

(** [declare_variable] under a name that is no symbol yet. *)
Lemma declare_variable_Ok name type_id sc init b id b1 :
  declare_variable name type_id sc init b = Ok (id, b1) ->
  lookup_id name b = SpvInvalidId ->
  exists fh c entry eb,
    active_function b = Some fh /\ function_store b !! fh = Some c
    /\ head (blocks c) = Some entry /\ block_store b !! entry = Some eb
    /\ function_store b1 = function_store b
    /\ block_store b1
       = <[entry := mkBlock (block_id eb) (parent eb) (instructions eb)
                      (variables eb
                       ++ [SpvInst.set_block entry
                             (SpvFactory.variable id type_id sc init)])
                      (reachable eb)]> (block_store b)
    /\ active_function b1 = active_function b
    /\ active_block b1 = active_block b.
Proof.
  intros E Hnew. unfold declare_variable in E.
  apply bind_Ok in E as (fh & s & Ec & E).
  apply current_function_Ok in Ec as [Haf ->].
  apply bind_Ok in E as (entry & s & Ee & E).
  apply SpvFunction_entry_block_Ok in Ee as [(c & Hc & Hentry) ->].
  apply bind_Ok in E as (label & s & Ei & E).
  apply SpvBlock_id_Ok in Ei as [(eb & Heb & Hlabel) ->].
  apply bind_Ok in E as (b' & s & Eg & E).
  apply get_Ok in Eg as [-> ->].
  unfold lookup_variable in E. rewrite Hnew, Z.eqb_refl in E. cbn [negb andb] in E.
  rewrite Z.eqb_refl in E. cbn [negb] in E.
  apply bind_Ok in E as (var & s & Em & E).
  unfold reserve_id in Em. apply make_id_Ok in Em as [Hvar ->].
  apply bind_Ok in E as (u & s & Ea & E).
  unfold SpvBlock_add_variable in Ea.
  apply upd_block_Ok in Ea as (x & Hx & ->). cbn in Hx.
  rewrite Heb in Hx. injection Hx as <-.
  apply bind_Ok in E as (sym & s & Es & E).
  unfold declare_symbol in Es.
  apply bind_Ok in Es as (b' & s' & Eg & Es).
  apply get_Ok in Eg as [-> ->].
  assert (Hfs : function_store s = function_store b
                /\ block_store s
                   = <[entry := mkBlock (block_id eb) (parent eb) (instructions eb)
                                  (variables eb
                                   ++ [SpvInst.set_block entry
                                         (SpvFactory.variable var type_id sc init)])
                                  (reachable eb)]> (block_store b)
                /\ active_function s = active_function b
                /\ active_block s = active_block b).
  { match type of Es with
    | (if ?c then _ else _) _ = _ => destruct c
    end.
    - apply ret_Ok in Es as [_ ->]. cbn. repeat split.
    - apply bind_Ok in Es as (u1 & s1 & Ea & Es). apply ret_Ok in Es as [_ ->].
      unfold add_symbol in Ea.
      repeat match type of Ea with
             | bind _ _ _ = Ok _ =>
                 let u := fresh "u" in let t := fresh "t" in let Em := fresh "Em" in
                 apply bind_Ok in Ea as (u & t & Em & Ea); apply modify_Ok in Em as ->
             end.
      apply modify_Ok in Ea as ->. cbn. repeat split. }
  destruct Hfs as (F1 & F2 & F3 & F4).
  repeat match type of E with
         | bind _ _ _ = Ok _ =>
             let u := fresh "u" in let t := fresh "t" in let Em := fresh "Em" in
             apply bind_Ok in E as (u & t & Em & E); apply modify_Ok in Em as ->
         end.
  apply ret_Ok in E as [-> ->].
  exists fh, c, entry, eb. cbn. repeat split; auto.
Qed.

(** ** The blocks along the calls *)

Lemma append_code_block h code label p ins vars r :
  append_code h code (mkBlock label p ins vars r)
  = mkBlock label p (ins ++ stored h code) vars r.
Proof. reflexivity. Qed.

Lemma insert_as_alter {A : Type} (f : A -> A) (l : list A) (i : nat) (x : A) :
  l !! i = Some x -> <[i := f x]> l = alter f i l.
Proof.
  intros Hx. apply list_eq. intros j. destruct (decide (i = j)) as [<- | Hne].
  - rewrite list_lookup_insert_eq by (eapply lookup_lt_Some; eauto).
    rewrite list_lookup_alter_eq, Hx. reflexivity.
  - rewrite list_lookup_insert_ne, list_lookup_alter_ne by done. reflexivity.
Qed.

Lemma tracked_frame base b b1 fh c N old new ab :
  tracked base b fh c N old new ab -> grows b b1 ->
  control b1 = control b ->
  tracked base b1 fh c N old new ab.
Proof.
  intros (G & Haf & Hfs & Hbs & Hn & Hab) G1 E.
  apply control_parts in E as (E1 & E2 & E3 & E4 & _).
  unfold tracked. rewrite E1, E2, E3, E4.
  split; [exact (SpirvFacts.grows_trans _ _ _ G G1) |]. auto.
Qed.

Lemma tracked_enter base b b1 fh c N old new ab h u :
  tracked base b fh c N old new ab ->
  enter_block h b = Ok (u, b1) ->
  tracked base b1 fh c N old new (Some h).
Proof.
  intros (G & Haf & Hfs & Hbs & Hn & Hab) E.
  pose proof (enter_block_allocates h b u b1 E) as G1.
  apply enter_block_Ok in E as (E1 & E2 & E3 & E4 & _).
  unfold tracked. rewrite E1, E2, E3, E4.
  split; [exact (SpirvFacts.grows_trans _ _ _ G G1) |]. auto.
Qed.

Lemma tracked_leave base b b1 fh c N old new ab r :
  tracked base b fh c N old new ab ->
  leave_block b = Ok (r, b1) ->
  tracked base b1 fh c N old new None.
Proof.
  intros (G & Haf & Hfs & Hbs & Hn & Hab) E.
  pose proof (leave_block_allocates b r b1 E) as G1.
  apply leave_block_Ok in E as (E1 & E2 & E3 & E4 & _).
  unfold tracked. rewrite E1, E2, E3, E4.
  split; [exact (SpirvFacts.grows_trans _ _ _ G G1) |]. auto.
Qed.

Lemma tracked_append_new base b b1 fh c N old new j i u :
  tracked base b fh c N old new (Some (j + N)%nat) ->
  append i b = Ok (u, b1) ->
  tracked base b1 fh c N old (alter (append_code (j + N)%nat [i]) j new)
    (Some (j + N)%nat).
Proof.
  intros (G & Haf & Hfs & Hbs & Hn & Hab) E.
  pose proof (append_allocates i b u b1 E) as G1.
  apply append_Ok in E as (h & x & A1 & A2 & E1 & E2 & E3 & E4 & _).
  rewrite Hab in A1. injection A1 as <-.
  unfold tracked. rewrite E1, E2, E3, E4.
  split; [exact (SpirvFacts.grows_trans _ _ _ G G1) |].
  repeat split; auto.
  rewrite Hbs in *. rewrite <- Hn in *.
  rewrite lookup_app_r in A2 by lia.
  replace (j + length old - length old)%nat with j in A2 by lia.
  rewrite (Nat.add_comm j), insert_app_r. f_equal. apply insert_as_alter. exact A2.
Qed.

Lemma tracked_append_old base b b1 fh c N old h i u :
  tracked base b fh c N old [] (Some h) ->
  append i b = Ok (u, b1) ->
  tracked base b1 fh c N (alter (append_code h [i]) h old) [] (Some h)
  /\ is_Some (old !! h).
Proof.
  intros (G & Haf & Hfs & Hbs & Hn & Hab) E.
  pose proof (append_allocates i b u b1 E) as G1.
  apply append_Ok in E as (h' & x & A1 & A2 & E1 & E2 & E3 & E4 & _).
  rewrite Hab in A1. injection A1 as <-.
  rewrite Hbs, app_nil_r in *.
  split; [| eauto].
  unfold tracked. rewrite E1, E2, E3, E4.
  split; [exact (SpirvFacts.grows_trans _ _ _ G G1) |].
  repeat split; auto.
  - rewrite app_nil_r. apply insert_as_alter. exact A2.
  - rewrite length_alter. exact Hn.
Qed.

Lemma tracked_emits_old base b b1 fh c N old ab code :
  tracked base b fh c N old [] ab ->
  emits code b b1 ->
  exists old', tracked base b1 fh c N old' [] ab.
Proof.
  intros (G & Haf & Hfs & Hbs & Hn & Hab) (G1 & E1 & E3 & E4 & _ & E2).
  rewrite Hbs, app_nil_r, Hab in E2.
  exists (block_store b1).
  unfold tracked. rewrite E1, E3, E4, Hab, app_nil_r.
  split; [exact (SpirvFacts.grows_trans _ _ _ G G1) |].
  repeat split; auto.
  rewrite E2. destruct ab; [rewrite length_alter |]; exact Hn.
Qed.

(** A call that only declares: the blocks and the symbols stay, ids may
    be allocated. *)
Lemma tracked_declares {A : Type} (m : M SpvBuilder A) base b b1 fh c N old new ab a :
  allocates m -> keeps control m ->
  tracked base b fh c N old new ab ->
  m b = Ok (a, b1) ->
  tracked base b1 fh c N old new ab
  /\ next_id b <= next_id b1
  /\ forall name, lookup_id name b1 = lookup_id name b.
Proof.
  intros Hall Hkeeps St E.
  pose proof (Hall b a b1 E) as G. pose proof (Hkeeps b a b1 E) as K.
  split; [exact (tracked_frame _ _ _ _ _ _ _ _ _ St G K) |].
  split; [exact (proj1 G) |].
  intros name. unfold lookup_id. apply control_parts in K as (_ & _ & _ & _ & ->).
  reflexivity.
Qed.

Lemma make_id_keeps_control kind : keeps control (make_id kind).
Proof. frame_step. Qed.

(** An id reserved in a dense builder with room is the next one. *)
Lemma reserved_is_next base b b1 kind id :
  grows base b -> ids_dense base -> next_id b1 < 2 ^ 32 ->
  reserve_id kind b = Ok (id, b1) ->
  id = next_id b /\ next_id b1 = next_id b + 1.
Proof.
  intros G Hdense Hroom E. unfold reserve_id in E.
  pose proof (SpirvFacts.allocates_make_id kind b id b1 E) as [Hle _].
  destruct G as [_ Hd]. specialize (Hd ltac:(lia) Hdense).
  destruct (SpirvFacts.make_id_fresh kind b Hd ltac:(lia)) as (b' & E' & _ & _ & Hn & _).
  rewrite E' in E. injection E as <- <-. auto.
Qed.

Lemma tracked_grows base b fh c N old new ab :
  tracked base b fh c N old new ab -> grows base b.
Proof. intros (G & _). exact G. Qed.

Lemma emits_lookup_id code b b1 name :
  emits code b b1 -> lookup_id name b1 = lookup_id name b.
Proof. intros (_ & _ & _ & _ & E & _). unfold lookup_id. rewrite E. reflexivity. Qed.

Lemma emits_le code b b1 : emits code b b1 -> next_id b <= next_id b1.
Proof. intros (G & _). exact (proj1 G). Qed.

Lemma append_lookup_id i b u b1 name :
  append i b = Ok (u, b1) -> lookup_id name b1 = lookup_id name b.
Proof.
  intros E. apply append_Ok in E as (h & x & _ & _ & _ & _ & _ & _ & E).
  unfold lookup_id. rewrite E. reflexivity.
Qed.

Lemma last_push_block h c : last (blocks (push_block h c)) = Some h.
Proof. cbn. apply last_snoc. Qed.

Lemma tracked_create_new base b b1 fh c N old new ab j tb inst id h :
  tracked base b fh c N old new ab ->
  last (blocks c) = Some (j + N)%nat ->
  new !! j = Some tb -> last (instructions tb) = Some inst ->
  is_terminator (op_code inst) = true ->
  create_block id b = Ok (h, b1) ->
  h = (length new + N)%nat
  /\ tracked base b1 fh (push_block h c) N old
       (new ++ [mkBlock id (Some fh) [] [] true]) ab.
Proof.
  intros (G & Haf & Hfs & Hbs & Hn & Hab) Hlast Htb Hinst Hterm E.
  pose proof (create_block_allocates id b h b1 E) as G1.
  apply (create_block_Ok id b h b1 fh c _ E Haf Hfs) in Hlast
    as (tb' & inst' & A1 & A2 & -> & E1 & E2 & E3 & E4 & _).
  rewrite Hbs in A1. rewrite <- Hn in A1. rewrite lookup_app_r in A1 by lia.
  replace (j + length old - length old)%nat with j in A1 by lia.
  rewrite Htb in A1. injection A1 as <-. rewrite Hinst in A2. injection A2 as <-.
  rewrite Hterm in E2.
  split; [rewrite Hbs, length_app; lia |].
  unfold tracked. rewrite E1, E2, E3, E4.
  split; [exact (SpirvFacts.grows_trans _ _ _ G G1) |].
  repeat split; auto.
  - apply list_lookup_insert_eq. eapply lookup_lt_Some, Hfs.
  - rewrite Hbs, <- app_assoc. reflexivity.
Qed.

Lemma tracked_create_old base b b1 fh c N old ab tail id h :
  tracked base b fh c N old [] ab ->
  last (blocks c) = Some tail ->
  (forall tb, old !! tail = Some tb ->
     exists inst, last (instructions tb) = Some inst
                  /\ is_terminator (op_code inst) = false) ->
  create_block id b = Ok (h, b1) ->
  h = N
  /\ tracked base b1 fh (push_block h c) N
       (alter (append_code tail [SpvFactory.branch id]) tail old)
       [mkBlock id (Some fh) [] [] true] ab.
Proof.
  intros (G & Haf & Hfs & Hbs & Hn & Hab) Hlast Htail E.
  pose proof (create_block_allocates id b h b1 E) as G1.
  apply (create_block_Ok id b h b1 fh c _ E Haf Hfs) in Hlast
    as (tb & inst & A1 & A2 & -> & E1 & E2 & E3 & E4 & _).
  rewrite Hbs, app_nil_r in *.
  destruct (Htail tb A1) as (inst' & Hi & Hterm).
  rewrite Hi in A2. injection A2 as <-. rewrite Hterm in E2.
  split; [exact Hn |].
  unfold tracked. rewrite E1, E2, E3, E4.
  split; [exact (SpirvFacts.grows_trans _ _ _ G G1) |].
  repeat split; auto.
  - apply list_lookup_insert_eq. eapply lookup_lt_Some, Hfs.
  - f_equal. apply insert_as_alter. exact A1.
  - rewrite length_alter. exact Hn.
Qed.

Lemma tracked_declare_variable base b b1 fh c N old ab name type_id sc init id :
  tracked base b fh c N old [] ab ->
  lookup_id name b = SpvInvalidId ->
  declare_variable name type_id sc init b = Ok (id, b1) ->
  exists entry,
    head (blocks c) = Some entry
    /\ is_Some (old !! entry)
    /\ tracked base b1 fh c N
         (alter (add_variable entry (SpvFactory.variable id type_id sc init)) entry old)
         [] ab.
Proof.
  intros (G & Haf & Hfs & Hbs & Hn & Hab) Hnew E.
  pose proof (SpirvFacts.allocates_declare_variable name type_id sc init b id b1 E) as G1.
  apply declare_variable_Ok in E
    as (fh' & c' & entry & eb & A1 & A2 & A3 & A4 & E1 & E2 & E3 & E4); [| exact Hnew].
  rewrite Haf in A1. injection A1 as <-. rewrite Hfs in A2. injection A2 as <-.
  rewrite Hbs, app_nil_r in *.
  exists entry. split; [exact A3 |]. split; [eauto |].
  unfold tracked. rewrite E1, E2, E3, E4.
  split; [exact (SpirvFacts.grows_trans _ _ _ G G1) |].
  repeat split; auto.
  - rewrite app_nil_r.
    apply (insert_as_alter (add_variable entry (SpvFactory.variable id type_id sc init))).
    exact A4.
  - rewrite length_alter. exact Hn.
Qed.

(** The blocks that were there: the current block gets the bound and the
    branch to the header, the entry block the loop variable; they may be
    the same block. *)
Ltac old_lookup E x :=
  repeat case_decide; subst;
  rewrite ?list_lookup_alter_eq, ?list_lookup_alter_ne in E by congruence;
  match type of E with
  | context [@lookup _ _ _ ?inst ?k ?l] =>
      destruct (@lookup _ _ _ inst k l) as [x |] eqn:?; cbn in E;
      [injection E as <- | discriminate E]
  end.

Lemma old_tail_open (old : list SpvBlockContents) (cur entry : BlockHandle) v i tb :
  alter (add_variable entry v) entry (alter (append_code cur [i]) cur old) !! cur = Some tb ->
  exists inst, last (instructions tb) = Some inst /\ op_code inst = op_code i.
Proof.
  rewrite list_lookup_alter. intros E. old_lookup E x; cbn;
    rewrite last_snoc; eexists; split; reflexivity.
Qed.

Lemma old_current_block (old : list SpvBlockContents) (cur entry : nat) v i j :
  is_Some (old !! cur) ->
  exists tb x,
    alter (append_code cur [j]) cur
      (alter (add_variable entry v) entry (alter (append_code cur [i]) cur old)) !! cur
    = Some tb
    /\ old !! cur = Some x
    /\ instructions tb = instructions x ++ stored cur [i; j].
Proof.
  intros [x Hx]. rewrite list_lookup_alter_eq, list_lookup_alter.
  destruct (decide (entry = cur)) as [-> | Hne];
    rewrite ?list_lookup_alter_eq, ?list_lookup_alter_ne by congruence; rewrite Hx; cbn;
    eexists _, x; (split; [reflexivity |]); (split; [reflexivity |]); cbn;
    rewrite <- app_assoc; reflexivity.
Qed.

Lemma old_entry_block (old : list SpvBlockContents) (cur entry : nat) v i j :
  is_Some (alter (append_code cur [i]) cur old !! entry) ->
  exists eb,
    alter (append_code cur [j]) cur
      (alter (add_variable entry v) entry (alter (append_code cur [i]) cur old)) !! entry
    = Some eb
    /\ last (variables eb) = Some (SpvInst.set_block entry v).
Proof.
  intros [x Hx]. rewrite list_lookup_alter.
  destruct (decide (cur = entry)) as [-> | Hne];
    rewrite list_lookup_alter_eq, Hx; cbn;
    eexists; (split; [reflexivity |]); cbn; apply last_snoc.
Qed.

Lemma tracked_old_block base b fh c N old new ab h x :
  tracked base b fh c N old new ab -> old !! h = Some x -> block_store b !! h = Some x.
Proof.
  intros (_ & _ & _ & -> & _ & _) Hx. rewrite lookup_app_l; [exact Hx |].
  eapply lookup_lt_Some, Hx.
Qed.

Lemma tracked_new_block base b fh c N old new ab j x :
  tracked base b fh c N old new ab -> new !! j = Some x ->
  block_store b !! (j + N)%nat = Some x.
Proof.
  intros (_ & _ & _ & -> & <- & _) Hx. rewrite lookup_app_r by lia.
  replace (j + length old - length old)%nat with j by lia. exact Hx.
Qed.

(** [create_block] behind a tail block that ends in a terminator. *)
Lemma tracked_create_closed base b b1 fh c N old ab tail id h :
  tracked base b fh c N old [] ab ->
  last (blocks c) = Some tail ->
  (forall tb, old !! tail = Some tb ->
     exists inst, last (instructions tb) = Some inst
                  /\ is_terminator (op_code inst) = true) ->
  create_block id b = Ok (h, b1) ->
  h = N
  /\ tracked base b1 fh (push_block h c) N old [mkBlock id (Some fh) [] [] true] ab.
Proof.
  intros (G & Haf & Hfs & Hbs & Hn & Hab) Hlast Htail E.
  pose proof (create_block_allocates id b h b1 E) as G1.
  apply (create_block_Ok id b h b1 fh c _ E Haf Hfs) in Hlast
    as (tb & inst & A1 & A2 & -> & E1 & E2 & E3 & E4 & _).
  rewrite Hbs, app_nil_r in *.
  destruct (Htail tb A1) as (inst' & Hi & Hterm).
  rewrite Hi in A2. injection A2 as <-. rewrite Hterm in E2.
  split; [exact Hn |].
  unfold tracked. rewrite E1, E2, E3, E4.
  split; [exact (SpirvFacts.grows_trans _ _ _ G G1) |].
  repeat split; auto.
  apply list_lookup_insert_eq. eapply lookup_lt_Some, Hfs.
Qed.

(** The block that got an instruction ends with it. *)
Lemma appended_last (old : list SpvBlockContents) (h : nat) i tb :
  alter (append_code h [i]) h old !! h = Some tb ->
  exists x,
    old !! h = Some x
    /\ instructions tb = instructions x ++ stored h [i]
    /\ last (instructions tb) = Some (SpvInst.set_block h i).
Proof.
  rewrite list_lookup_alter_eq. intros E.
  destruct (old !! h) as [x |] eqn:Hx; [| discriminate E]. cbn in E.
  injection E as <-. exists x. split; [reflexivity |]. split; [reflexivity |].
  cbn. apply last_snoc.
Qed.

Lemma appended_current (old : list SpvBlockContents) (h : nat) code x :
  old !! h = Some x ->
  alter (append_code h code) h old !! h = Some (append_code h code x).
Proof. intros Hx. rewrite list_lookup_alter_eq, Hx. reflexivity. Qed.

(** The other blocks are as they were; every block keeps its label and
    its variables. *)
Lemma appended_other (old : list SpvBlockContents) (h k : nat) code x :
  old !! k = Some x ->
  exists x1,
    alter (append_code h code) h old !! k = Some x1
    /\ block_id x1 = block_id x
    /\ variables x1 = variables x
    /\ (k <> h -> instructions x1 = instructions x).
Proof.
  intros Hx. destruct (decide (k = h)) as [-> | Hne].
  - rewrite list_lookup_alter_eq, Hx. eexists. split; [reflexivity |]. cbn.
    repeat split. congruence.
  - rewrite list_lookup_alter_ne by congruence. rewrite Hx. eauto.
Qed.

(** ** Visitors *)

(** The visitor went on from the tracked state: the blocks that it left
    are the old ones of what follows. *)
Lemma tracked_extends_function base b b1 fh c N old new ab :
  tracked base b fh c N old new ab -> extends_function b b1 ->
  exists c1 more cur,
    tracked base b1 fh c1 (length (block_store b1)) (block_store b1) [] (Some cur)
    /\ blocks c1 = blocks c ++ more
    /\ Forall (fun h : BlockHandle => (N + length new <= h)%nat) more
    /\ last (blocks c1) = Some cur
    /\ next_id b <= next_id b1.
Proof.
  intros (G & Haf & Hfs & Hbs & Hn & Hab) (G1 & E1 & Efun & _ & Htail).
  destruct (Efun fh c Haf Hfs) as (c1 & more & Hc1 & Hblocks & Hmore).
  destruct Htail as (fh' & c' & cur & Haf' & Hfs' & Hlast & Hab').
  rewrite E1, Haf in Haf'. injection Haf' as <-.
  rewrite Hc1 in Hfs'. injection Hfs' as <-.
  exists c1, more, cur. unfold tracked. rewrite app_nil_r, E1.
  split; [split; [exact (SpirvFacts.grows_trans _ _ _ G G1) | auto 10] |].
  split; [exact Hblocks |]. split; [| split; [exact Hlast | exact (proj1 G1)]].
  rewrite Hbs, length_app, Hn in Hmore. exact Hmore.
Qed.

(** Straight-line code extends the function. *)
Lemma emits_extends_function code b b1 : emits code b b1 -> at_tail b -> extends_function b b1.
Proof.
  intros (G & E1 & E3 & E4 & _ & E2) (fh & c & cur & Haf & Hfs & Hlast & Hab).
  unfold extends_function. split; [exact G |]. split; [exact E3 |]. split; [| split].
  - intros fh' c' Haf' Hfs'. exists c', []. rewrite E1, app_nil_r. auto.
  - intros h x Hx. rewrite E2, Hab.
    destruct (appended_other (block_store b) cur h code x Hx) as (x1 & Hx1 & Hl & Hv & Hi).
    exists x1. split; [exact Hx1 |]. split; [exact Hl |]. split.
    + intros Hne. apply Hi. congruence.
    + intros v. rewrite Hv. auto.
  - exists fh, c, cur. rewrite E1, E3, E4. auto.
Qed.

(** The last block of a function that got more blocks. *)
Lemma last_extended (l more : list BlockHandle) (a cur : BlockHandle) :
  last ((l ++ [a]) ++ more) = Some cur -> last (a :: more) = Some cur.
Proof.
  rewrite <- app_assoc. cbn [app]. rewrite last_app.
  destruct (last (a :: more)) eqn:E; [auto |].
  apply last_None in E. discriminate E.
Qed.

Lemma last_bounded (a cur : nat) (more : list nat) (n : nat) :
  last (a :: more) = Some cur -> Forall (fun h => (n <= h)%nat) more ->
  cur = a \/ (n <= cur)%nat.
Proof.
  intros Hlast Hmore. revert a Hlast.
  induction Hmore as [| x more Hx _ IH]; intros a Hlast.
  - injection Hlast as <-. auto.
  - right. change (last (x :: more) = Some cur) in Hlast.
    destruct (IH x Hlast) as [-> | Hle]; [exact Hx | exact Hle].
Qed.

Lemma tracked_active base b fh c N old new ab :
  tracked base b fh c N old new ab -> active_block b = ab.
Proof. intros (_ & _ & _ & _ & _ & E). exact E. Qed.

Lemma tracked_length base b fh c N old new ab :
  tracked base b fh c N old new ab -> length old = N.
Proof. intros (_ & _ & _ & _ & E & _). exact E. Qed.

Lemma tracked_at_tail base b fh c N old new h :
  tracked base b fh c N old new (Some h) -> last (blocks c) = Some h -> at_tail b.
Proof. intros (_ & Haf & Hfs & _ & _ & Hab) Hlast. exists fh, c, h. auto. Qed.

(** A block from before the visit, after the visit and the branch that
    closes what the visitor left. *)
Lemma carried base b b1 b2 fh c N cur code new ab (h : nat) x :
  extends_function b b1 ->
  tracked base b2 fh c N (alter (append_code cur code) cur (block_store b1)) new ab ->
  block_store b !! h = Some x ->
  exists x2,
    block_store b2 !! h = Some x2
    /\ block_id x2 = block_id x
    /\ (forall v, v ∈ variables x -> v ∈ variables x2)
    /\ (active_block b <> Some h -> h <> cur -> instructions x2 = instructions x).
Proof.
  intros (_ & _ & _ & Hkept & _) St Hx.
  destruct (Hkept h x Hx) as (x1 & Hx1 & Hl1 & Hi1 & Hv1).
  destruct (appended_other (block_store b1) cur h code x1 Hx1)
    as (x2 & Hx2 & Hl2 & Hv2 & Hi2).
  exists x2. split; [exact (tracked_old_block _ _ _ _ _ _ _ _ _ _ St Hx2) |].
  split; [congruence |]. split.
  - intros v Hv. rewrite Hv2. auto.
  - intros Ha Hne. rewrite Hi2, Hi1; auto.
Qed.

End Builder.

End LoopBlocks.

Module LoopEmission.
Import Spirv IR FindIntrinsics CodeGen_Vulkan_Dev SpirvExec Invariants BuilderSpecs.
Import SerialLoop BuilderFacts BlockFacts LoopBlocks.

(** One call of a builder method by the emitter. *)
Ltac builder_call H x b E :=
  apply bind_Ok in H as (x & ?e & E & H);
  apply ConstantEmitterFacts.on_builder_Ok in E as (b & E & ->);
  cbn [builder upd_builder] in E.

(** A call that only declares or reserves. *)
Ltac declares Hv x A K :=
  let b := fresh "b" in
  let E := fresh "E" in
  builder_call Hv x b E;
  match goal with
  | St : tracked _ _ _ _ _ _ _ _ |- _ =>
      apply (tracked_declares _ _ _ _ _ _ _ _ _ _ _ A K St) in E as (?St & ?Le & ?Sy);
      clear St
  end.

Ltac reserves Hv x R G :=
  let b := fresh "b" in
  let E := fresh "E" in
  builder_call Hv x b E;
  match goal with
  | St : tracked _ _ _ _ _ _ _ _ |- _ =>
      pose proof (tracked_grows _ _ _ _ _ _ _ _ St) as G;
      pose proof E as R;
      apply (tracked_declares _ _ _ _ _ _ _ _ _ _ _
               (SpirvFacts.allocates_make_id _) (make_id_keeps_control _) St)
        in E as (?St & ?Le & ?Sy);
      clear St
  end.

Ltac simplify_blocks St :=
  cbn [alter list_alter length Nat.add] in St;
  rewrite ?append_code_block in St;
  cbn [app stored map] in St.

(** An instruction appended to the [j]-th new block. *)
Ltac appends_new Hv j :=
  let u := fresh "u" in
  let b := fresh "b" in
  let E := fresh "E" in
  builder_call Hv u b E;
  pose proof (proj1 (append_allocates _ _ _ _ E)) as ?Le;
  match goal with
  | St : tracked _ _ _ _ _ _ _ _ |- _ =>
      apply (tracked_append_new _ _ _ _ _ _ _ _ j _ _ St) in E; clear St;
      simplify_blocks E
  end.

Ltac enters Hv :=
  let u := fresh "u" in
  let b := fresh "b" in
  let E := fresh "E" in
  builder_call Hv u b E;
  pose proof (proj1 (enter_block_allocates _ _ _ _ E)) as ?Le;
  match goal with
  | St : tracked _ _ _ _ _ _ _ _ |- _ =>
      apply (tracked_enter _ _ _ _ _ _ _ _ _ _ _ St) in E; clear St
  end.

Ltac leaves_block Hv :=
  let u := fresh "u" in
  let b := fresh "b" in
  let E := fresh "E" in
  builder_call Hv u b E;
  pose proof (proj1 (leave_block_allocates _ _ _ E)) as ?Le;
  match goal with
  | St : tracked _ _ _ _ _ _ _ _ |- _ =>
      apply (tracked_leave _ _ _ _ _ _ _ _ _ _ St) in E; clear St
  end.

(** A visit of an expression while the loop has no block yet. *)
Ltac visits_old Hv straight Hname K :=
  let e := fresh "e" in
  let E := fresh "E" in
  let code := fresh "code" in
  apply bind_Ok in Hv as ([] & e & E & Hv);
  pose proof E as K;
  apply straight in E as (code & E); cbn [builder upd_builder] in E;
  pose proof (emits_le _ _ _ E) as ?Le;
  rewrite <- (emits_lookup_id _ _ _ _ E) in Hname;
  match goal with
  | St : tracked _ _ _ _ _ _ _ _ |- _ =>
      apply (tracked_emits_old _ _ _ _ _ _ _ _ _ St) in E as (?old & ?St); clear St
  end.

Section Loop.
Context `{SpirvHeader} `{Collaborators} {Stmt : Type}.
Variable accept_expr : Expr -> M SPIRV_Emitter unit.
Variable accept_stmt : Stmt -> M SPIRV_Emitter unit.
Variable declare_vector_constant : Type_ -> list Z -> M SpvBuilder SpvId.
Variable is_gpu_var : string -> bool.
Hypothesis expr_straight : straight_line accept_expr.
Hypothesis stmt_nests : nests accept_stmt.

Lemma visit_For_blocks (op : For Stmt) (e e' : SPIRV_Emitter) :
  is_gpu_var (for_name op) = false ->
  at_tail (builder e) -> ids_dense (builder e) -> next_id (builder e') < 2 ^ 32 ->
  lookup_id (unique_name "_loop_idx") (builder e) = SpvInvalidId ->
  visit_For accept_expr accept_stmt declare_vector_constant is_gpu_var op e = Ok (tt, e') ->
  exists fh L, emitted (builder e') fh L /\ reads_bounds accept_expr op L.
Proof.
  intros Hgpu (fh & c & cur & Haf & Hfs & Hlast & Hab) Hdense Hroom Hname Hv.
  unfold visit_For in Hv. rewrite Hgpu in Hv. cbv iota in Hv.
  destruct (negb (bool_decide (for_type op = Serial))); [discriminate Hv |].
  assert (St : tracked (builder e) (builder e) fh c (length (block_store (builder e)))
                 (block_store (builder e)) [] (Some cur)).
  { unfold tracked. split; [split; [lia | auto] |]. rewrite app_nil_r. auto 10. }
  (* the index type and the type of the loop variable *)
  declares Hv i_type (SpirvFacts.allocates_declare_type (Int 32 1) 1)
    (declare_type_keeps_control (Int 32 1) 1).
  rewrite <- (Sy _) in Hname. clear Sy.
  declares Hv i_ptr (declare_pointer_type_id_allocates i_type SpvStorageClassFunction)
    (declare_pointer_type_id_keeps_control i_type SpvStorageClassFunction).
  rewrite <- (Sy _) in Hname. clear Sy.
  (* the minimum and the extent *)
  visits_old Hv expr_straight Hname Kmin.
  builder_call Hv i_min b4 E4.
  apply current_id_Ok in E4 as [Hmin ->].
  visits_old Hv expr_straight Hname Kextent.
  builder_call Hv i_extent b6 E6.
  apply current_id_Ok in E6 as [Hextent ->].
  (* the bound *)
  reserves Hv i_max R_max G_max.
  rewrite <- (Sy _) in Hname. clear Sy.
  builder_call Hv u7 b7 E7.
  pose proof (proj1 (append_allocates _ _ _ _ E7)) as Le7.
  rewrite <- (append_lookup_id _ _ _ _ _ E7) in Hname.
  match goal with
  | St : tracked _ _ _ _ _ _ _ _ |- _ =>
      apply (tracked_append_old _ _ _ _ _ _ _ _ _ _ St) in E7 as (St7 & Hcur); clear St
  end.
  (* the loop variable *)
  builder_call Hv i_var b8 E8.
  pose proof (proj1 (SpirvFacts.allocates_declare_variable _ _ _ _ _ _ _ E8)) as Le8.
  apply (tracked_declare_variable _ _ _ _ _ _ _ _ _ _ _ _ _ St7 Hname) in E8
    as (entry & Hentry & Hent & St8).
  clear St7 Hname.
  (* the labels *)
  declares Hv l_header (SpirvFacts.allocates_make_id SpvBlockId)
    (make_id_keeps_control SpvBlockId). clear Sy.
  declares Hv l_top (SpirvFacts.allocates_make_id SpvBlockId)
    (make_id_keeps_control SpvBlockId). clear Sy.
  declares Hv l_body (SpirvFacts.allocates_make_id SpvBlockId)
    (make_id_keeps_control SpvBlockId). clear Sy.
  declares Hv l_continue (SpirvFacts.allocates_make_id SpvBlockId)
    (make_id_keeps_control SpvBlockId). clear Sy.
  declares Hv l_merge (SpirvFacts.allocates_make_id SpvBlockId)
    (make_id_keeps_control SpvBlockId). clear Sy.
  (* the header block *)
  builder_call Hv hh b14 E14.
  pose proof (proj1 (create_block_allocates _ _ _ _ E14)) as Le14.
  match goal with
  | St : tracked _ _ _ _ _ _ _ _ |- _ =>
      apply (tracked_create_old _ _ _ _ _ _ _ _ _ _ _ St Hlast) in E14 as (-> & St14);
        [clear St |]
  end.
  2: { intros tb Htb. apply old_tail_open in Htb as (inst & Hi & Hop).
       exists inst. split; [exact Hi |]. rewrite Hop. reflexivity. }
  enters Hv.
  appends_new Hv 0%nat.
  appends_new Hv 0%nat.
  leaves_block Hv.
  (* the top block *)
  reserves Hv i_index R_index G_index. clear Sy.
  builder_call Hv th b20 E20.
  pose proof (proj1 (create_block_allocates _ _ _ _ E20)) as Le20.
  match goal with
  | St : tracked _ _ _ _ _ _ _ _ |- _ =>
      eapply (tracked_create_new _ _ _ _ _ _ _ _ _ 0%nat _ _ _ _ St) in E20 as (-> & St20);
        [clear St | apply last_push_block | reflexivity | reflexivity | reflexivity]
  end.
  cbn [length Nat.add app] in St20, Hv.
  enters Hv.
  declares Hv i_bool (SpirvFacts.allocates_declare_type (Bool_ 1) 1)
    (declare_type_keeps_control (Bool_ 1) 1). clear Sy.
  reserves Hv i_test R_test G_test. clear Sy.
  appends_new Hv 1%nat.
  appends_new Hv 1%nat.
  appends_new Hv 1%nat.
  leaves_block Hv.
  (* the body block *)
  builder_call Hv bh b28 E28.
  pose proof (proj1 (create_block_allocates _ _ _ _ E28)) as Le28.
  match goal with
  | St : tracked _ _ _ _ _ _ _ _ |- _ =>
      eapply (tracked_create_new _ _ _ _ _ _ _ _ _ 1%nat _ _ _ _ St) in E28 as (-> & St28);
        [clear St | apply last_push_block | reflexivity | reflexivity | reflexivity]
  end.
  cbn [length Nat.add app] in St28, Hv.
  enters Hv.
  (* what is there before the body *)
  match goal with
  | St : tracked _ _ _ _ _ _ _ _ |- _ => rename St into StB
  end.
  destruct (old_current_block old0 cur entry
              (SpvFactory.variable i_var i_ptr SpvStorageClassFunction i_min)
              (SpvFactory.integer_add i_type i_max i_min i_extent)
              (SpvFactory.branch l_header) Hcur) as (pb & x & Hpb & Hx & Hins).
  destruct (old_entry_block old0 cur entry
              (SpvFactory.variable i_var i_ptr SpvStorageClassFunction i_min)
              (SpvFactory.integer_add i_type i_max i_min i_extent)
              (SpvFactory.branch l_header) Hent) as (eb & Heb & Hvars).
  pose proof (tracked_old_block _ _ _ _ _ _ _ _ _ _ StB Hpb) as Bpre.
  pose proof (tracked_old_block _ _ _ _ _ _ _ _ _ _ StB Heb) as Bentry.
  pose proof (tracked_new_block _ _ _ _ _ _ _ _ 0%nat _ StB eq_refl) as Bheader.
  pose proof (tracked_new_block _ _ _ _ _ _ _ _ 1%nat _ StB eq_refl) as Btop.
  pose proof (tracked_new_block _ _ _ _ _ _ _ _ 2%nat _ StB eq_refl) as Bbody.
  pose proof (tracked_active _ _ _ _ _ _ _ _ StB) as Hactive.
  pose proof (tracked_length _ _ _ _ _ _ _ _ StB) as Hlength.
  rewrite !length_alter in Hlength.
  assert (Hold : (cur < length (block_store (builder e)))%nat).
  { rewrite <- Hlength. apply lookup_lt_is_Some. exact Hcur. }
  cbn [Nat.add] in Bheader, Btop, Bbody.
  (* the body *)
  apply bind_Ok in Hv as ([] & e30 & E30 & Hv).
  unfold scoped_binding in E30.
  apply bind_Ok in E30 as ([] & e31 & Epush & E30).
  unfold scope_push in Epush. apply modify_Ok in Epush as ->.
  apply bind_Ok in E30 as ([] & e32 & Ebody & E30).
  apply bind_Ok in E30 as ([] & e33 & Epop & E30).
  unfold scope_pop in Epop. apply modify_Ok in Epop as ->.
  apply ret_Ok in E30 as [_ ->].
  apply bind_Ok in Ebody as ([] & e34 & Evisit & Ebody).
  pose proof (stmt_nests _ _ _ Evisit
                (tracked_at_tail _ _ _ _ _ _ _ _ StB (last_push_block _ _))) as Ext.
  clear Evisit. rename Ext into Evisit.
  cbn [builder upd_builder upd_symbol_table] in Evisit.
  destruct (tracked_extends_function _ _ _ _ _ _ _ _ _ StB Evisit)
    as (c1 & more & cur1 & St1 & Hblocks1 & Hmore & Hlast1 & Le30).
  cbn [length] in Hmore.
  assert (Hcur1 : cur1 = S (S (length (block_store (builder e))))
                  \/ (length (block_store (builder e)) + 3 <= cur1)%nat).
  { cbn [blocks push_block] in Hblocks1. rewrite Hblocks1 in Hlast1.
    apply last_extended in Hlast1. exact (last_bounded _ _ _ _ Hlast1 Hmore). }
  apply ConstantEmitterFacts.on_builder_Ok in Ebody as (b35 & Ebody & ->).
  pose proof (proj1 (append_allocates _ _ _ _ Ebody)) as Le35.
  apply (tracked_append_old _ _ _ _ _ _ _ _ _ _ St1) in Ebody as (St35 & Hend).
  clear St1.
  cbn [builder upd_builder upd_symbol_table] in Hv.
  leaves_block Hv.
  cbn [builder upd_builder upd_symbol_table] in *.
  (* the continue block *)
  builder_call Hv ch b32 E32.
  pose proof (proj1 (create_block_allocates _ _ _ _ E32)) as Le32.
  match goal with
  | St : tracked _ _ _ _ _ _ _ _ |- _ =>
      apply (tracked_create_closed _ _ _ _ _ _ _ _ _ _ _ St Hlast1) in E32 as (-> & St32);
        [clear St |]
  end.
  2: { intros tb Htb. apply appended_last in Htb as (x0 & _ & _ & Hl).
       eexists. split; [exact Hl | reflexivity]. }
  enters Hv.
  reserves Hv i_next R_next G_next. clear Sy.
  declares Hv i_one (declare_int32_allocates declare_vector_constant (le_bytes 4 1))
    (declare_int32_keeps_control declare_vector_constant (le_bytes 4 1)). clear Sy.
  appends_new Hv 0%nat.
  appends_new Hv 0%nat.
  appends_new Hv 0%nat.
  leaves_block Hv.
  (* the merge block *)
  builder_call Hv mh b40 E40.
  pose proof (proj1 (create_block_allocates _ _ _ _ E40)) as Le40.
  match goal with
  | St : tracked _ _ _ _ _ _ _ _ |- _ =>
      eapply (tracked_create_new _ _ _ _ _ _ _ _ _ 0%nat _ _ _ _ St) in E40 as (-> & St40);
        [clear St | apply last_push_block | reflexivity | reflexivity | reflexivity]
  end.
  cbn [length Nat.add app] in St40, Hv.
  apply ConstantEmitterFacts.on_builder_Ok in Hv as (b41 & E41 & ->).
  cbn [builder upd_builder] in E41, Hroom |- *.
  pose proof (proj1 (enter_block_allocates _ _ _ _ E41)) as Le41.
  apply (tracked_enter _ _ _ _ _ _ _ _ _ _ _ St40) in E41. clear St40.
  (* the result ids are handed out one after the other *)
  destruct (reserved_is_next _ _ b1 _ _ G_max Hdense ltac:(lia) R_max) as [N_max S_max].
  destruct (reserved_is_next _ _ b13 _ _ G_index Hdense ltac:(lia) R_index)
    as [N_index S_index].
  destruct (reserved_is_next _ _ b17 _ _ G_test Hdense ltac:(lia) R_test)
    as [N_test S_test].
  destruct (reserved_is_next _ _ b26 _ _ G_next Hdense ltac:(lia) R_next)
    as [N_next S_next].
  assert (Hids : NoDup [i_max; i_index; i_test; i_next]).
  { repeat (apply NoDup_cons; split; [rewrite ?not_elem_of_cons; repeat split;
                                        try apply not_elem_of_nil; lia |]).
    apply NoDup_nil_2. }
  (* the blocks from before the body *)
  destruct (carried _ _ _ _ _ _ _ _ _ _ _ _ _ Evisit E41 Bpre)
    as (pb2 & Bpre2 & _ & _ & Ipre).
  rewrite Hactive in Ipre.
  specialize (Ipre ltac:(intros [= Hq]; lia) ltac:(lia)).
  destruct (carried _ _ _ _ _ _ _ _ _ _ _ _ _ Evisit E41 Bentry)
    as (eb2 & Bentry2 & _ & Ventry & _).
  destruct (carried _ _ _ _ _ _ _ _ _ _ _ _ _ Evisit E41 Bheader)
    as (hb2 & Bheader2 & Lheader & _ & Iheader).
  rewrite Hactive in Iheader.
  specialize (Iheader ltac:(intros [= Hq]; lia) ltac:(lia)).
  destruct (carried _ _ _ _ _ _ _ _ _ _ _ _ _ Evisit E41 Btop)
    as (tb2 & Btop2 & Ltop & _ & Itop).
  rewrite Hactive in Itop.
  specialize (Itop ltac:(intros [= Hq]; lia) ltac:(lia)).
  destruct (carried _ _ _ _ _ _ _ _ _ _ _ _ _ Evisit E41 Bbody)
    as (bb2 & Bbody2 & Lbody & _ & _).
  (* the block that the body left *)
  destruct Hend as [xl Hxl].
  assert (Blast : block_store b41 !! cur1
                  = Some (append_code cur1 [SpvFactory.branch l_continue] xl)).
  { apply (tracked_old_block _ _ _ _ _ _ _ _ _ _ E41).
    exact (appended_current _ _ _ _ Hxl). }
  (* the continue and the merge block *)
  pose proof (tracked_new_block _ _ _ _ _ _ _ _ 0%nat _ E41 eq_refl) as Bcontinue.
  pose proof (tracked_new_block _ _ _ _ _ _ _ _ 1%nat _ E41 eq_refl) as Bmerge.
  cbn [Nat.add] in Bcontinue, Bmerge.
  apply last_Some in Hlast as (earlier & Hblocks).
  apply last_Some in Hvars as (vars & Hvars).
  destruct E41 as (_ & Haf' & Hfs' & _ & _ & Hab').
  exists fh,
    (mkLoopIds i_type i_ptr i_min i_extent i_max i_var l_header l_top l_body l_continue
       l_merge i_index i_bool i_test i_next i_one).
  split.
  2: { unfold reads_bounds. eexists _, e0, _, e1.
       split; [exact Kmin |]. split; [exact Hmin |].
       split; [| split; [exact Kextent | exact Hextent]]. reflexivity. }
  unfold emitted, labelled.
  eexists _, earlier, cur, pb2, (instructions x), entry, eb2, _, _, _, bb2, more, cur1, _,
    (instructions xl), _, _.
  split; [exact Haf' |]. split; [exact Hfs' |].
  split.
  { cbn [blocks push_block] in Hblocks1 |- *.
    rewrite Hblocks1, Hblocks, <- !app_assoc. reflexivity. }
  split; [exact Bpre2 |]. split; [rewrite Ipre; exact Hins |].
  split.
  { cbn [blocks push_block] in Hblocks1 |- *. rewrite Hblocks1.
    destruct (blocks c) as [| first rest]; [discriminate Hentry |]. exact Hentry. }
  split; [exact Bentry2 |].
  split; [apply Ventry; rewrite Hvars; apply elem_of_app; right; left |].
  split; [exists hb2; rewrite Iheader, Lheader; auto |].
  split; [exists tb2; rewrite Itop, Ltop; auto |].
  split; [exact Bbody2 |]. split; [exact Lbody |].
  split.
  { cbn [blocks push_block] in Hblocks1. rewrite Hblocks1 in Hlast1.
    exact (last_extended _ _ _ _ Hlast1). }
  split; [exact Blast |]. split; [reflexivity |].
  split; [eexists; split; [exact Bcontinue | auto] |].
  split; [eexists; split; [exact Bmerge | auto] |].
  split; [exact Hab' |]. exact Hids.
Qed.

End Loop.

End LoopEmission.

(** * The serial loop, emitted and run *)

Module SerialLoopFacts.
Import Spirv IR FindIntrinsics CodeGen_Vulkan_Dev SpirvExec Invariants BuilderSpecs.
Import SerialLoop LoopRuns LoopBlocks LoopEmission.

Lemma omap_cons_Some {A B : Type} (f : A -> option B) (x : A) (l : list A) (y : B) :
  f x = Some y -> omap f (x :: l) = y :: omap f l.
Proof. intros E. cbn. rewrite E. reflexivity. Qed.

(** Two blocks of a list with distinct labels, one behind the other. *)
Lemma labels_apart (l1 l2 : list SpvBlockContents) (x y : SpvBlockContents) :
  NoDup (block_id <$> (l1 ++ x :: l2)) -> y ∈ l2 -> block_id x <> block_id y.
Proof.
  rewrite fmap_app, fmap_cons. intros Hnd Hy Heq.
  apply NoDup_app in Hnd as (_ & _ & Hnd). apply NoDup_cons in Hnd as [Hx _].
  apply Hx. rewrite Heq. apply list_elem_of_fmap_2. exact Hy.
Qed.

Section Runs.
Context `{SpirvHeader}.

(** The blocks of the function that ends with the loop. *)
Lemma emitted_blocks (b : SpvBuilder) (fh : FunctionHandle) (L : LoopIds) :
  emitted b fh L ->
  exists before hb tb bb inner cb mb hh th ch mh,
    function_blocks b fh = before ++ hb :: tb :: bb :: inner ++ [cb; mb]
    /\ block_id hb = header_block_id L /\ instructions hb = stored hh (header_code L)
    /\ block_id tb = top_block_id L /\ instructions tb = stored th (top_code L)
    /\ block_id bb = body_block_id L
    /\ block_id cb = continue_block_id L
    /\ instructions cb = stored ch (continue_code L)
    /\ block_id mb = merge_block_id L /\ instructions mb = stored mh [].
Proof.
  intros (c & earlier & pre & pb & before & entry & eb & hh & th & bh & bb & inner & lh
          & lb & code & ch & mh & Haf & Hfs & Hblocks & Hpre & _ & _ & _ & _
          & (hb & Hhb & Lh & Ih) & (tb & Htb & Lt & It) & Hbb & Lb & _ & _ & _
          & (cb & Hcb & Lc & Ic) & (mb & Hmb & Lm & Im) & _).
  exists (omap (fun h => block_store b !! h) earlier ++ [pb]), hb, tb, bb,
    (omap (fun h => block_store b !! h) inner), cb, mb, hh, th, ch, mh.
  split; [| auto 12].
  unfold function_blocks. rewrite Hfs, Hblocks, !omap_app.
  rewrite (omap_cons_Some (fun h => block_store b !! h) pre _ pb Hpre).
  rewrite (omap_cons_Some (fun h => block_store b !! h) hh _ hb Hhb).
  rewrite (omap_cons_Some (fun h => block_store b !! h) th _ tb Htb).
  rewrite (omap_cons_Some (fun h => block_store b !! h) bh _ bb Hbb).
  rewrite (omap_cons_Some (fun h => block_store b !! h) ch _ cb Hcb).
  rewrite (omap_cons_Some (fun h => block_store b !! h) mh _ mb Hmb).
  cbn [omap list_omap app]. rewrite <- !app_assoc. reflexivity.
Qed.

Lemma emitted_ids (b : SpvBuilder) (fh : FunctionHandle) (L : LoopIds) :
  emitted b fh L ->
  NoDup [max_id L; current_index_id L; loop_test_id L; next_index_id L].
Proof.
  intros (c & earlier & pre & pb & before & entry & eb & hh & th & bh & bb & inner & lh
          & lb & code & ch & mh & Hall).
  repeat match type of Hall with _ /\ _ => destruct Hall as [_ Hall] end. exact Hall.
Qed.

(** The loop that was emitted runs its body once for every index from the
    minimum to the bound. *)
Lemma emitted_runs (b : SpvBuilder) (fh : FunctionHandle) (L : LoopIds)
    (inv : Machine -> Prop) (m n : Z) (st : Machine) :
  emitted b fh L ->
  NoDup (block_id <$> function_blocks b fh) ->
  int_type (types (module b)) (index_type_id L) = Some (32, 1) ->
  constant_one_id L ∉ [max_id L; current_index_id L; loop_test_id L; next_index_id L] ->
  loop_invariant L inv ->
  body_runs L (types (module b)) (function_blocks b fh) inv ->
  at_bound L m n st -> inv st ->
  - 2 ^ 31 <= m -> 0 <= n -> m + n < 2 ^ 31 - 1 ->
  exists st1,
    run_block (types (module b)) (bound_code L) st = Jump (header_block_id L) st1
    /\ exists fuel0 st',
         (forall fuel, (fuel0 <= fuel)%nat ->
            run fuel (types (module b)) (function_blocks b fh) (header_block_id L) st1
            = (FellOff (merge_block_id L), st'))
         /\ times_entered (body_block_id L) st'
            = (Z.to_nat n + 1 + times_entered (body_block_id L) st)%nat
         /\ values st' !! max_id L = Some (m + n)
         /\ memory st' !! loop_var_id L = Some (m + n + 1).
Proof.
  intros Hemitted Hlabels Htype Hone Hinv Hbody Hst Hi Hm Hn Hmn.
  pose proof (emitted_ids b fh L Hemitted) as Hids.
  destruct (emitted_blocks b fh L Hemitted)
    as (before & hb & tb & bb & inner & cb & mb & hh & th & ch & mh & Hblocks
        & Lh & Ih & Lt & It & Lb & Lc & Ic & Lm & Im).
  rewrite Hblocks in Hlabels.
  apply (loop_from_bound (types (module b)) (function_blocks b fh) L inv); try assumption.
  - exists hb, hh. split; [| exact Ih]. rewrite <- Lh, Hblocks.
    apply find_block_unique; [exact Hlabels |]. apply elem_of_app. right. left.
  - exists tb, th. split; [| exact It]. rewrite <- Lt, Hblocks.
    apply find_block_unique; [exact Hlabels |]. apply elem_of_app. right. right. left.
  - exists cb, ch. split; [| exact Ic]. rewrite <- Lc, Hblocks.
    apply find_block_unique; [exact Hlabels |]. apply elem_of_app. right.
    do 3 right. apply elem_of_app. right. left.
  - exists mb, mh. split; [| exact Im]. rewrite <- Lm, Hblocks.
    apply find_block_unique; [exact Hlabels |]. apply elem_of_app. right.
    do 3 right. apply elem_of_app. right. right. left.
  - rewrite <- Lh, <- Lt, <- Lb, <- Lc, <- Lm. split; [| split; [| split]].
    + apply (labels_apart before (tb :: bb :: inner ++ [cb; mb])); [exact Hlabels |].
      right. left.
    + apply (labels_apart (before ++ [hb]) (bb :: inner ++ [cb; mb])).
      * rewrite <- app_assoc. exact Hlabels.
      * left.
    + apply not_eq_sym.
      apply (labels_apart (before ++ [hb; tb]) (inner ++ [cb; mb])).
      * rewrite <- app_assoc. exact Hlabels.
      * apply elem_of_app. right. left.
    + apply not_eq_sym.
      apply (labels_apart (before ++ [hb; tb]) (inner ++ [cb; mb])).
      * rewrite <- app_assoc. exact Hlabels.
      * apply elem_of_app. right. right. left.
Qed.

End Runs.

Section Emitter.
Context `{SpirvHeader} `{Collaborators} {Stmt : Type}.
Variable accept_expr : Expr -> M SPIRV_Emitter unit.
Variable accept_stmt : Stmt -> M SPIRV_Emitter unit.
Variable declare_vector_constant : Type_ -> list Z -> M SpvBuilder SpvId.
Variable is_gpu_var : string -> bool.


End Emitter.

End SerialLoopFacts.

Module KernelLoopFacts.
Import Spirv IR FindIntrinsics CodeGen_Vulkan_Dev SpirvExec Invariants BuilderSpecs.
Import Scenario SerialLoop BuilderFacts BlockFacts LoopRuns LoopBlocks LoopEmission.
Import SerialLoopFacts KernelLoop.

Lemma append_nothing (h : nat) (l : list SpvBlockContents) :
  alter (append_code h []) h l = l.
Proof.
  apply list_eq. intros k. destruct (decide (k = h)) as [-> | Hne].
  - rewrite list_lookup_alter_eq. destruct (l !! h) as [[]|]; [| reflexivity].
    cbn. unfold append_code. cbn. rewrite app_nil_r. reflexivity.
  - rewrite list_lookup_alter_ne by congruence. reflexivity.
Qed.

(** A call on the builder that leaves the blocks alone emits nothing. *)
Lemma quiet_call {A : Type} (m : M SpvBuilder A) b a b1 :
  allocates m -> keeps control m -> m b = Ok (a, b1) -> emits [] b b1.
Proof.
  intros Hall Hkeeps E. pose proof (Hall b a b1 E) as G.
  apply (Hkeeps b a b1) in E. apply control_parts in E as (E1 & E2 & E3 & E4 & E5).
  unfold emits. rewrite E1, E2, E3, E4, E5. split; [exact G |].
  split; [reflexivity |]. split; [reflexivity |]. split; [reflexivity |].
  split; [reflexivity |].
  destruct (active_block b); [symmetry; apply append_nothing | reflexivity].
Qed.

Lemma update_id_quiet id b u b1 : update_id id b = Ok (u, b1) -> emits [] b b1.
Proof.
  apply quiet_call.
  - unfold update_id. apply SpirvFacts.allocates_modify. intros; reflexivity.
  - unfold update_id. apply keeps_modify. intros; reflexivity.
Qed.

Lemma append_code_twice (l : list SpvBlockContents) (h : nat) code1 code2 :
  alter (append_code h code2) h (alter (append_code h code1) h l)
  = alter (append_code h (code1 ++ code2)) h l.
Proof.
  apply list_eq. intros k. destruct (decide (k = h)) as [-> | Hne].
  - rewrite !list_lookup_alter_eq. destruct (l !! h) as [x |]; [| reflexivity].
    cbn. f_equal. unfold append_code, stored. cbn.
    rewrite map_app, app_assoc. reflexivity.
  - rewrite !list_lookup_alter_ne by congruence. reflexivity.
Qed.

Lemma emits_trans code1 code2 b b1 b2 :
  emits code1 b b1 -> emits code2 b1 b2 -> emits (code1 ++ code2) b b2.
Proof.
  intros (G & E1 & E3 & E4 & E5 & E2) (G' & E1' & E3' & E4' & E5' & E2').
  unfold emits.
  split; [exact (SpirvFacts.grows_trans _ _ _ G G') |].
  split; [congruence |]. split; [congruence |]. split; [congruence |].
  split; [congruence |].
  rewrite E2', E4, E2.
  destruct (active_block b) as [h |]; [| reflexivity].
  apply append_code_twice.
Qed.

Lemma declare_constant_quiet t data b id b1 :
  declare_constant no_vector_constant t data b = Ok (id, b1) -> emits [] b b1.
Proof.
  apply quiet_call.
  - unfold declare_constant, add_constant, no_vector_constant.
    repeat grows_step.
  - unfold declare_constant, add_constant, declare_scalar_constant,
      declare_bool_constant, no_vector_constant, add_type, module_add_constant.
    repeat first [ apply add_type_rec_keeps_control | frame_step ].
Qed.

Lemma accept_leaf_straight : straight_line accept_leaf.
Proof.
  intros x e e1 E. exists []. destruct x; try discriminate E; cbn [accept_leaf] in E.
  - unfold visit_IntImm in E.
    match type of E with (if ?c then _ else _) _ = _ => destruct c end;
      [| discriminate E].
    apply bind_Ok in E as (id & e0 & E0 & E).
    apply ConstantEmitterFacts.on_builder_Ok in E0 as (b0 & E0 & ->).
    apply ConstantEmitterFacts.on_builder_Ok in E as (b1 & E & ->).
    cbn [builder upd_builder] in *.
    exact (emits_trans [] [] _ _ _ (declare_constant_quiet _ _ _ _ _ E0)
             (update_id_quiet _ _ _ _ E)).
  - unfold visit_Variable in E.
    apply bind_Ok in E as (v & e0 & E0 & E).
    unfold scope_get in E0.
    destruct (symbol_table e !! name) as [[| v0 vs] |]; try discriminate E0.
    injection E0 as <- <-.
    destruct (fst v0 =? SpvInvalidId); [discriminate E |].
    apply ConstantEmitterFacts.on_builder_Ok in E as (b1 & E & ->).
    exact (update_id_quiet _ _ _ _ E).
Qed.

Lemma accept_body_straight : straight_line accept_body.
Proof.
  intros body. induction body as [| i body IH]; intros e e1 E; cbn [accept_body] in E.
  - apply ret_Ok in E as [_ ->]. exists [].
    apply (quiet_call (ret tt) _ tt); [apply SpirvFacts.allocates_ret |
                                        apply keeps_ret | reflexivity].
  - apply bind_Ok in E as ([] & e0 & E0 & E).
    apply ConstantEmitterFacts.on_builder_Ok in E0 as (b0 & E0 & ->).
    apply IH in E as (code & E). cbn [builder upd_builder] in E.
    exists ([i] ++ code). refine (emits_trans _ _ _ _ _ _ E).
    pose proof (append_allocates i _ _ _ E0) as G.
    apply append_Ok in E0 as (h & x & A1 & A2 & E1 & E2 & E3 & E4 & E5).
    unfold emits. rewrite A1. split; [exact G |]. repeat (split; [congruence |]).
    rewrite E2. apply (insert_as_alter (append_code h [i])). exact A2.
Qed.

Lemma accept_body_nests : nests accept_body.
Proof.
  intros body e e1 E Htail. apply accept_body_straight in E as (code & E).
  exact (emits_extends_function code _ _ E Htail).
Qed.

Lemma kernel_dense : ids_dense (builder kernel_emitter).
Proof.
  assert (Hall : allocates kernel_builder).
  { unfold kernel_builder.
    apply SpirvFacts.allocates_bind; [apply SpirvFacts.allocates_declare_type | intros v].
    apply SpirvFacts.allocates_bind; [apply SpirvFacts.allocates_declare_type | intros t].
    apply SpirvFacts.allocates_bind; [apply SpirvFacts.allocates_add_function | intros f].
    apply SpirvFacts.allocates_bind; [apply SpirvFacts.allocates_get | intros b].
    destruct (function_map b !! f); [| apply SpirvFacts.allocates_internal_error].
    apply SpirvFacts.allocates_bind; [apply SpirvFacts.allocates_enter_function |].
    intros u. apply SpirvFacts.allocates_ret. }
  assert (E : exists a, kernel_builder reset = Ok (a, builder kernel_emitter))
    by (eexists; vm_compute; reflexivity).
  destruct E as [a E].
  apply (Hall _ _ _ E); [vm_compute; discriminate | apply SpirvFacts.reset_dense].
Qed.

Lemma kernel_loop_emitted : emitted (builder loop_emitter) 0%nat kernel_loop.
Proof.
  unfold emitted, labelled.
  eexists _, [], 0%nat, _, [], 0%nat, _, 1%nat, 2%nat, 3%nat, _, [], 3%nat, _,
    [SpvInst.set_block 3%nat (SpvInst.make SpvOpNop)], 4%nat, 5%nat.
  split; [vm_compute; reflexivity |]. split; [vm_compute; reflexivity |].
  split; [vm_compute; reflexivity |]. split; [vm_compute; reflexivity |].
  split; [vm_compute; reflexivity |]. split; [vm_compute; reflexivity |].
  split; [vm_compute; reflexivity |]. split; [vm_compute; left |].
  split; [eexists; split; [vm_compute; reflexivity | split; vm_compute; reflexivity] |].
  split; [eexists; split; [vm_compute; reflexivity | split; vm_compute; reflexivity] |].
  split; [vm_compute; reflexivity |]. split; [vm_compute; reflexivity |].
  split; [vm_compute; reflexivity |]. split; [vm_compute; reflexivity |].
  split; [vm_compute; reflexivity |].
  split; [eexists; split; [vm_compute; reflexivity | split; vm_compute; reflexivity] |].
  split; [eexists; split; [vm_compute; reflexivity | split; vm_compute; reflexivity] |].
  split; [vm_compute; reflexivity |].
  apply (bool_decide_unpack _). vm_compute. exact I.
Qed.

Lemma kernel_body_runs :
  body_runs kernel_loop (types (module (builder loop_emitter)))
    (function_blocks (builder loop_emitter) 0%nat) (fun _ => True).
Proof.
  intros st _. exists 0%nat, (enter 14 st).
  split; [vm_compute; reflexivity |]. repeat split.
Qed.

(** A loop in a loop, with minimum 0 and extent 1 for both: the outer body
    (label 14) is entered twice, and so is the inner body (label 24), in
    the first turn of the outer loop only. No instruction stores the
    minimum to the loop variable of the inner loop, which is initialised
    once, on entry to the function, and still holds 2 in the second turn. *)
Lemma nested_loop_does_not_restart :
  fst (run_function 100 (builder nested_emitter) 0%nat (loop_arguments 0 1)) = FellOff 16
  /\ times_entered 14
       (snd (run_function 100 (builder nested_emitter) 0%nat (loop_arguments 0 1)))
     = 2%nat
  /\ times_entered 24
       (snd (run_function 100 (builder nested_emitter) 0%nat (loop_arguments 0 1)))
     = 2%nat.
Proof. vm_compute. repeat split. Qed.


End KernelLoopFacts.
